(* ===== verification/_CoqProject ===== *)
-Q . S2P
Prelude.v
Bytes.v
Opcode.v
Mask.v
Frame.v
Utf8.v
Message.v
Stream.v
Sha1.v
Base64.v
Str.v
Handshake.v
HandshakeTrip.v
Conn.v
Sample.v
ConnRead.v
ConnWrite.v
Cancel.v
Memory.v
Session.v
Truncation.v
Upgrade.v
Lifetime.v
Refusal.v
Client.v
Link.v
Echo.v
EchoTrip.v
Bench.v
TestsCodec.v
TestsHandshake.v
TestsWire.v
