(* ===== verification/Prelude.v ===== *)
(** * nago-wss: a verification development

    nago-wss is a WebSocket crate (RFC 6455) over nagoya's async streams. This
    library models its code, from the octets of a frame header to a client that
    connects by URL, as executable functions, and proves what makes it correct.
    Everything the crate itself computes is a definition here; what it calls in other
    crates is a parameter with the laws the code relies on. Paths are relative to the
    repository.

    ** The program and the files

    The crate is a core without I/O ([src/proto/]) and a layer that drives it over a
    stream ([src/]). The files follow the code, each requiring those it calls:

    - [Prelude]: outcomes, the state monad, tactics, list lemmas. [Bytes]: octets,
      machine integers, byte orders, and the class [Target] (byte order, width of
      [usize], whether arithmetic is checked).
    - [Opcode], [Mask], [Frame], [Message]: [src/proto/opcode.rs], [mask.rs], [frame.rs],
      [message.rs]. The state of [Message] is the record [Assembler]; [Utf8] is the
      standard library's validator and the class of the one used instead.
    - [Sha1], [Base64], [Str], [Handshake], [HandshakeTrip]: [src/proto/handshake.rs], its
      hasher, its encoder, the string methods it calls, its parser and builders, and the
      round trips between them.
    - [Stream]: [src/stream.rs], the traits [ByteStream] and [StreamExt] as classes, with
      their laws, the default bodies, and an in-memory stream, [Pipe].
    - [Conn]: [src/conn.rs]. The state is the record [Connection], and each method a
      function of its name. [ConnRead] and [ConnWrite] specify its two halves, [Cancel]
      the calls that are dropped while they wait, [Memory] what a connection keeps over
      its life, [Session] the two ends together, [Truncation] a message cut short, and
      [Link] two endpoints with their callers and the link between them, from the
      handshake to the end.
    - [Upgrade] and [Client]: [src/upgrade.rs] (the handshake over a stream) and
      [src/client.rs] (URLs, connecting). [Client] has the one choice of [src/tls.rs].
      [Lifetime] carries the bounds of [Memory] over the handshake; [Refusal] has the
      handshake that fails.
    - [Echo]: [examples/autobahn_server.rs], and [EchoTrip], a client in conversation with
      it. [Bench]: the pure parts of [benches/micro.rs] and [benches/echo.rs].
    - [TestsCodec], [TestsHandshake], [TestsWire]: the unit tests in the source files,
      evaluated on the model (that of a message of 300 KiB is proved, for any size).
    - [Sample]: concrete parameters, for the examples of all the files.

    A connection owns a stream, an assembler and its buffers. [Connection.read] cuts
    frames off the read buffer with [Header.decode], unmasks them with [Mask.apply] and
    gives them to [Assembler.accept], and asks the stream for more when it has to;
    [write], [write_all], [pong] and [close] encode frames and give them to the stream.
    [accept] and [connect] read a head off a stream, parse it, and hand the stream and
    the bytes that came after the head to a new connection.

    ** How the code is modelled

    An outcome is [Ok], [Err], [Panic] (an index out of range, an [expect] on [None], an
    [unreachable!], an arithmetic check that fails) or [OutOfFuel]; the theorems exclude
    the last two. A method with [&mut self] is a function in the state monad [stM] over
    its record, in which an error keeps the state as the code had left it, so what an
    error leaves behind is modelled too. Awaiting the stream is a call of its operation.
    Integers are [Z] with their wrap-around written out; [u8] is [byte]; a [Vec] or
    [BytesMut] is its contents and capacity.

    Fuel, and why it is enough. [parse_buffered] gives its loop one turn more than the
    buffer has bytes, and a turn that does not end it consumes a frame of two bytes at
    least. [read] and [read_head] take their bound as an argument: each turn but the
    last takes a byte off the stream, and the theorems hold for any bound greater than
    the number of bytes to come ([ConnRead.read_refines], [Upgrade.accept_spec]). The
    echo server has the bound of its reads, and one turn for each byte still to come
    ([Echo.serve_terminates]), since every message takes at least two. SHA-1 pads in
    at most 64 turns, a port has at most five digits, and list functions that recurse
    on a rest take the length of the list.

    ** What is proved

    - Frames: [Header.decode_encode_roundtrip], [Header.decode_canonical] (each header
      has one encoding that is accepted), [Header.decode_decides].
    - Masking: [Mask.apply_is_reference], on every target; [ConnWrite.full_period], for the
      keys that [next_mask] draws.
    - Messages: the assembler's invariant ([Assembler.accept_safe]), its errors, its
      closing, that fragmentation is not seen ([Assembler.fragmentation_transparent]), and
      that text is UTF-8 ([is_utf8_spec]).
    - The handshake: SHA-1 is FIPS 180-4's, the parser does what its specification
      says for every input, each side takes what the other side builds
      ([HandshakeTrip], [Upgrade.handshake_agrees]), what each side does on every branch
      ([Upgrade.accept_spec], [Upgrade.connect_spec]), that a refusal is reported as one
      ([Refusal.refusal_reported]), and the verdict of a client on every response
      ([HandshakeTrip.check_response_spec]).
    - Reading: [read_spec] says what a read does with all the bytes to come, without
      buffers or reads; [ConnRead.read_refines] shows that [read] does it;
      [Session.chunking_irrelevant] and [Cancel.abandoned_read_loses_nothing] follow, with
      the bounds on memory and what each result and error means ([ConnRead.read_results]).
    - Writing: the bytes of every method ([ConnWrite]), and [Session.delivery]: what
      one side writes is what the other reads; or, if a write fails or is given up or
      the stream breaks anywhere, the whole messages before the break and then an end
      that says so ([Truncation.interrupted_delivery]).
    - The whole life of a connection: its invariant ([Memory.connection_invariant]), and
      from the first byte of the handshake on, a bound on its memory for whatever the
      peer sends ([Lifetime.lifetime_bounded]).
    - [Link] is the abstract view of a session: a pair of queues of messages. Its callers
      keep to what the other side can take and write nothing after a close frame. The step
      relation of the two endpoints and the link, in any interleaving and from the
      handshake on, refines it ([Link.link_refines_queues]), without false alarms
      ([Link.no_false_alarm]); everything is read in the end
      ([Link.everything_is_read]), and the end is told from a loss ([Link.orderly_end]).
    - Callers: the URL parser and its round trip, connecting in the clear and with TLS,
      that the server is asked for what the URL says ([Client.url_requested]),
      and the echo server, which answers every message once, in order. All of it at
      once: a client connects, writes, and reads back the echoes of what it wrote
      ([EchoTrip.echo_round_trip]).

    The laws assumed, each with an instance here that keeps it: [TargetOk] ([usize] has 32 or
    64 bits; the byte order is free), [Utf8ImplOk] ([simdutf8] agrees with the standard
    library), [AllocOk] (an allocation is as large as was asked), [ByteStreamOk] and
    [StreamExtOk] (a stream gives the peer's bytes in order and reports its end by an empty
    read), [ReadInPlace] (a read fills the spare capacity of a buffer and does not grow
    it), and [NetworkOk] (the resolver and the socket calls return). On a 32-bit
    target [limits_fit] asks that the frame limit, and so every length that [read] adds up,
    be below [usize].

    ** What is not modelled

    - nagoya's reactor, sockets and [TcpStream], the kernel's clock and the address of a
      stack variable (the seed of the keys), the resolver, and rustls: other crates' code,
      parameters of the definitions that use them. [src/tls.rs] re-exports.
    - The scheduler. Calls of one connection are sequential, since they borrow it;
      two endpoints interleave in [Link] by calls, and a call may be dropped where it
      waits ([Cancel]). How much of a frame a failing or dropped write leaves on the
      wire is the stream's affair: any prefix. The connection does not remember it, and
      must not be written to again ([Truncation.written_on_is_misread]).
    - Sharing of payload bytes without copying, which no function can observe.
    - [examples/floor_probe.rs], [benches/floor.rs], [concurrent.rs], [scale.rs], the
      drivers in [micro.rs] and [echo.rs], and [tests/conformance.rs]: they time system
      calls, threads and other crates, or start other processes; [src/lib.rs] has no
      code. Of the unit tests, three: a million bytes through SHA-1 take too long to
      evaluate, and two ask the platform's resolver. *)
From Stdlib Require Import ZArith Lia.
From stdpp Require Import base option list strings.

Declare Scope wss_scope.
Delimit Scope wss_scope with wss.
Open Scope wss_scope.
Open Scope Z_scope.

Create HintDb wss.
Create HintDb wss_len.

(** ** Tactics *)

(** Case analysis on every [match] or [if] in sight, keeping the equations. *)
Ltac break_match :=
  match goal with
  | |- context [match ?x with _ => _ end] => destruct x eqn:?
  | H : context [match ?x with _ => _ end] |- _ => destruct x eqn:?
  end.

(** Turn the boolean tests of the code into the propositions they decide. *)
Ltac bool_prop :=
  repeat match goal with
  | H : (_ && _)%bool = true |- _ => apply andb_true_iff in H; destruct H
  | H : (_ || _)%bool = false |- _ => apply orb_false_iff in H; destruct H
  | H : (_ && _)%bool = false |- _ => apply andb_false_iff in H
  | H : (_ || _)%bool = true |- _ => apply orb_true_iff in H
  | H : negb _ = true |- _ => apply negb_true_iff in H
  | H : negb _ = false |- _ => apply negb_false_iff in H
  | H : (_ <? _)%Z = true |- _ => apply Z.ltb_lt in H
  | H : (_ <? _)%Z = false |- _ => apply Z.ltb_ge in H
  | H : (_ <=? _)%Z = true |- _ => apply Z.leb_le in H
  | H : (_ <=? _)%Z = false |- _ => apply Z.leb_gt in H
  | H : (_ =? _)%Z = true |- _ => apply Z.eqb_eq in H
  | H : (_ =? _)%Z = false |- _ => apply Z.eqb_neq in H
  | H : (_ <? _)%nat = true |- _ => apply Nat.ltb_lt in H
  | H : (_ <? _)%nat = false |- _ => apply Nat.ltb_ge in H
  | H : (_ <=? _)%nat = true |- _ => apply Nat.leb_le in H
  | H : (_ <=? _)%nat = false |- _ => apply Nat.leb_gt in H
  | H : (_ =? _)%nat = true |- _ => apply Nat.eqb_eq in H
  | H : (_ =? _)%nat = false |- _ => apply Nat.eqb_neq in H
  end.

(** Arithmetic on the lengths of lists, by the equations in [wss_len]. *)
#[export] Hint Rewrite @length_nil @length_cons @length_app @length_take @length_drop
  @length_replicate @length_fmap @length_imap @length_zip_with : wss_len.
Ltac len_lia := autorewrite with wss_len in *; cbn [length] in *; lia.

(** ** Pairs *)
Lemma pair_eq {X Y} (p : X * Y) x : fst p = x → p = (x, snd p).
Proof. by destruct p; intros <-. Qed.

(** ** Outcomes

    [result E A] is Rust's [Result<A, E>] with the two ways a call can fail to
    return: [Panic] (an [unreachable!], an [expect] on [None], an index or an
    arithmetic check that fails) and [OutOfFuel] (a loop that was cut off by
    the model's step bound; the theorems show where that cannot happen). *)
Inductive result (E A : Type) : Type :=
| Ok (a : A)
| Err (e : E)
| Panic
| OutOfFuel.
Arguments Ok {E A} a.
Arguments Err {E A} e.
Arguments Panic {E A}.
Arguments OutOfFuel {E A}.

(** The call came back to its caller, with a value or with an error. *)
Definition returns {E A} (r : result E A) : Prop :=
  match r with Ok _ | Err _ => True | Panic | OutOfFuel => False end.

#[export] Instance result_ret {E} : MRet (result E) := λ A a, Ok a.
#[export] Instance result_bind {E} : MBind (result E) := λ A B f m,
  match m with
  | Ok a => f a
  | Err e => Err e
  | Panic => Panic
  | OutOfFuel => OutOfFuel
  end.
#[export] Instance result_fmap {E} : FMap (result E) := λ A B f m,
  match m with
  | Ok a => Ok (f a)
  | Err e => Err e
  | Panic => Panic
  | OutOfFuel => OutOfFuel
  end.

(** [Result::map_err] *)
Definition map_err {E F A} (f : E → F) (m : result E A) : result F A :=
  match m with
  | Ok a => Ok a
  | Err e => Err (f e)
  | Panic => Panic
  | OutOfFuel => OutOfFuel
  end.

(** [Option::ok_or] *)
Definition ok_or {E A} (o : option A) (e : E) : result E A :=
  match o with Some a => Ok a | None => Err e end.

(** [Option::expect] *)
Definition expect {E A} (o : option A) : result E A :=
  match o with Some a => Ok a | None => Panic end.

#[export] Instance result_eq_dec {E A} `{EqDecision E, EqDecision A} :
  EqDecision (result E A).
Proof. solve_decision. Defined.

(** ** The state monad of the methods that take [&mut self]

    Such a method is a function from the old state to its outcome and the new
    state; [?] and [.await?] are [bind]. An error keeps the state as the code
    left it when it returned. *)
Definition stM (St E A : Type) : Type := St → result E A * St.

#[export] Instance stM_ret {St E} : MRet (stM St E) := λ A a s, (Ok a, s).
#[export] Instance stM_bind {St E} : MBind (stM St E) := λ A B f m s,
  match m s with
  | (Ok a, s') => f a s'
  | (Err e, s') => (Err e, s')
  | (Panic, s') => (Panic, s')
  | (OutOfFuel, s') => (OutOfFuel, s')
  end.

Definition st_get {St E} : stM St E St := λ s, (Ok s, s).
Definition st_put {St E} (s : St) : stM St E unit := λ _, (Ok tt, s).
Definition st_modify {St E} (f : St → St) : stM St E unit := λ s, (Ok tt, f s).
Definition st_lift {St E A} (r : result E A) : stM St E A := λ s, (r, s).
Definition st_throw {St E A} (e : E) : stM St E A := λ s, (Err e, s).
(** Run [m] and hand its outcome over as a value: a call whose [Result] the
    code inspects or drops rather than propagating with [?]. *)
Definition st_try {St E F A} (m : stM St E A) : stM St F (result E A) := λ s,
  match m s with
  | (Ok a, s') => (Ok (Ok a), s')
  | (Err e, s') => (Ok (Err e), s')
  | (Panic, s') => (Panic, s')
  | (OutOfFuel, s') => (OutOfFuel, s')
  end.
(** Run [m] on a part of the state. *)
Definition st_zoom {St T E A} (get : St → T) (set : T → St → St)
    (m : stM T E A) : stM St E A := λ s,
  let '(r, t) := m (get s) in (r, set t s).
Definition st_map_err {St E F A} (f : E → F) (m : stM St E A) : stM St F A :=
  λ s, let '(r, s') := m s in (map_err f r, s').

Section StateMonad.
Context {St E : Type}.
Implicit Types s : St.

Lemma bind_ok {A B} (m : stM St E A) (f : A → stM St E B) s a s' :
  m s = (Ok a, s') → (m ≫= f) s = f a s'.
Proof. intros H. unfold mbind, stM_bind. by rewrite H. Qed.

Lemma bind_err {A B} (m : stM St E A) (f : A → stM St E B) s e s' :
  m s = (Err e, s') → (m ≫= f) s = (Err e, s').
Proof. intros H. unfold mbind, stM_bind. by rewrite H. Qed.

Lemma bind_inv_ok {A B} (m : stM St E A) (f : A → stM St E B) s b s' :
  (m ≫= f) s = (Ok b, s') → ∃ a s1, m s = (Ok a, s1) ∧ f a s1 = (Ok b, s').
Proof.
  unfold mbind, stM_bind. destruct (m s) as [[a|e| |] s1] eqn:Hm; try done.
  intros H. by exists a, s1.
Qed.
End StateMonad.

(** ** Lists *)

(** Induction on the length of a list. *)
Lemma list_len_ind {A} (P : list A → Prop) :
  (∀ l, (∀ l', (length l' < length l)%nat → P l') → P l) → ∀ l, P l.
Proof.
  intros H l. remember (length l) as n eqn:Hn. revert l Hn.
  induction n as [n IH] using lt_wf_ind. intros l ->. apply H. intros l' Hl'. by eapply IH.
Qed.

Lemma app_prefix_cases {A} (a b c d : list A) :
  a ++ b = c ++ d → (∃ k, c = a ++ k ∧ b = k ++ d) ∨ (∃ k, a = c ++ k ∧ d = k ++ b).
Proof.
  revert c. induction a as [|x a IH]; intros c H.
  - left. by exists c.
  - destruct c as [|y c]; [right; by exists (x :: a)|].
    injection H as -> [(k & -> & ->)|(k & -> & ->)]%IH; [left|right]; by exists k.
Qed.

Lemma take_length_take {A} n (l : list A) : take (length (take n l)) l = take n l.
Proof.
  destruct (decide (n ≤ length l)%nat); [by rewrite length_take_le|].
  by rewrite (take_ge l n), firstn_all by lia.
Qed.

Lemma fold_left_cons {St B} (f : St → B → St) b l s :
  fold_left f (b :: l) s = fold_left f l (f s b).
Proof. reflexivity. Qed.

(** Two folds whose steps agree where an invariant holds. *)
Lemma fold_left_agree {St B} (P : St → Prop) (Q : B → Prop) (f g : St → B → St) :
  (∀ s b, P s → Q b → f s b = g s b ∧ P (g s b)) →
  ∀ l s, P s → Forall Q l → fold_left f l s = fold_left g l s ∧ P (fold_left g l s).
Proof.
  intros H l. induction l as [|b l IH]; intros s Hs Hl; [done|]. cbn [fold_left].
  apply Forall_cons in Hl as [Hb Hl]. destruct (H s b Hs Hb) as [-> Hs']. by apply IH.
Qed.

(** [l.chunks(n)]: pieces of [n], the last one possibly shorter. *)
Fixpoint chunks_fuel {A} (fuel n : nat) (l : list A) : list (list A) :=
  match fuel, l with
  | S fuel, _ :: _ => take n l :: chunks_fuel fuel n (drop n l)
  | _, _ => []
  end.
Definition chunks {A} (n : nat) (l : list A) : list (list A) := chunks_fuel (length l) n l.

(** [l.chunks_exact(n)], and what it leaves out. *)
Fixpoint chunks_exact_fuel {A} (fuel n : nat) (l : list A) : list (list A) :=
  match fuel with
  | S fuel => if (n <=? length l)%nat then take n l :: chunks_exact_fuel fuel n (drop n l) else []
  | O => []
  end.
Definition chunks_exact {A} (n : nat) (l : list A) : list (list A) :=
  chunks_exact_fuel (length l) n l.
Definition remainder {A} (n : nat) (l : list A) : list A :=
  drop (n * length (chunks_exact n l)) l.

Section Chunks.
Context {A : Type} (n : nat) (Hn : (0 < n)%nat).
Implicit Types l : list A.

Lemma chunks_fuel_enough l f1 f2 :
  (length l ≤ f1)%nat → (length l ≤ f2)%nat → chunks_fuel f1 n l = chunks_fuel f2 n l.
Proof using Hn.
  revert l f2. induction f1 as [|f1 IH]; intros [|x l] [|f2]; cbn [length chunks_fuel]; try (done || lia).
  intros. f_equal. apply IH; len_lia.
Qed.

Lemma chunks_cons l : l ≠ [] → chunks n l = take n l :: chunks n (drop n l).
Proof using Hn.
  intros Hl. unfold chunks. destruct l as [|x l]; [done|].
  change (chunks_fuel (length (x :: l)) n (x :: l))
    with (take n (x :: l) :: chunks_fuel (length l) n (drop n (x :: l))).
  f_equal. apply chunks_fuel_enough; len_lia.
Qed.

Lemma chunks_exact_fuel_enough l f1 f2 :
  (length l ≤ f1)%nat → (length l ≤ f2)%nat →
  chunks_exact_fuel f1 n l = chunks_exact_fuel f2 n l.
Proof using Hn.
  revert l f2.
  induction f1 as [|f1 IH]; intros l [|f2] H1 H2; cbn [chunks_exact_fuel]; try done.
  - by rewrite (proj2 (Nat.leb_gt _ _)) by lia.
  - by rewrite (proj2 (Nat.leb_gt _ _)) by lia.
  - destruct (_ <=? _)%nat; [|done]. f_equal. apply IH; len_lia.
Qed.

Lemma chunks_exact_short l : (length l < n)%nat → chunks_exact n l = [].
Proof.
  intros H. unfold chunks_exact. destruct (length l) eqn:Hl; [done|]. cbn [chunks_exact_fuel].
  by rewrite Hl, (proj2 (Nat.leb_gt _ _)).
Qed.
Lemma chunks_exact_cons l :
  (n ≤ length l)%nat → chunks_exact n l = take n l :: chunks_exact n (drop n l).
Proof using Hn.
  intros H. unfold chunks_exact at 1. destruct (length l) eqn:Hl; [lia|]. cbn [chunks_exact_fuel].
  rewrite Hl, (proj2 (Nat.leb_le _ _)) by done. f_equal.
  apply chunks_exact_fuel_enough; len_lia.
Qed.
Lemma remainder_short l : (length l < n)%nat → remainder n l = l.
Proof using Hn. intros H. unfold remainder. rewrite chunks_exact_short by done. cbn [length].
  by rewrite Nat.mul_0_r. Qed.
Lemma remainder_cons l : (n ≤ length l)%nat → remainder n l = remainder n (drop n l).
Proof using Hn.
  intros H. unfold remainder. rewrite chunks_exact_cons by done. cbn [length].
  by rewrite drop_drop, Nat.mul_succ_r, Nat.add_comm.
Qed.

Lemma length_remainder l : (length (remainder n l) < n)%nat ∧ (length (remainder n l) = length l mod n)%nat.
Proof using Hn.
  induction l as [l IH] using list_len_ind. destruct (decide (length l < n)%nat) as [Hl|Hl].
  - by rewrite remainder_short, Nat.mod_small.
  - rewrite remainder_cons by lia. destruct (IH (drop n l)) as [? ->]; [len_lia|].
    split; [apply Nat.mod_upper_bound; lia|]. rewrite length_drop.
    replace (length l) with (length l - n + 1 * n)%nat at 2 by lia.
    by rewrite Nat.Div0.mod_add.
Qed.

Lemma chunks_exact_lengths l : Forall (λ c, length c = n) (chunks_exact n l).
Proof using Hn.
  induction l as [l IH] using list_len_ind. destruct (decide (length l < n)%nat) as [Hl|Hl].
  - by rewrite chunks_exact_short.
  - rewrite chunks_exact_cons by lia. constructor; [len_lia|].
    apply IH. rewrite length_drop. lia.
Qed.

(** The pieces of [a ++ b] are those of [a], and then those of what [a] left
    over followed by [b]. *)
Lemma chunks_exact_app (a b : list A) :
  chunks_exact n (a ++ b) = chunks_exact n a ++ chunks_exact n (remainder n a ++ b) ∧
  remainder n (a ++ b) = remainder n (remainder n a ++ b).
Proof using Hn.
  induction a as [a IH] using list_len_ind. destruct (decide (length a < n)%nat) as [Ha|Ha].
  - by rewrite (chunks_exact_short a), (remainder_short a) by done.
  - rewrite (chunks_exact_cons a), (remainder_cons a) by lia.
    rewrite (chunks_exact_cons (a ++ b)), (remainder_cons (a ++ b)) by len_lia.
    rewrite take_app_le, drop_app_le by lia.
    destruct (IH (drop n a)) as [-> ->]; [len_lia|]. done.
Qed.
End Chunks.
