(* ===== verification/Bytes.v ===== *)
(** * Bytes and machine integers

    [u8] is [byte], which has exactly the 256 values; the wider unsigned
    integers are [Z], with the wrap-around of each operation written where the
    code has one. The byte-order conversions of Rust's integers
    ([to_be_bytes], [from_ne_bytes], ...) are here with their inverse laws, and
    the [Target] class carries what the source leaves to the compilation
    target: the byte order, the width of [usize] and whether arithmetic is
    checked. *)
From Stdlib Require Import ZArith Lia Strings.Byte String.
From stdpp Require Import base option list.
From S2P Require Import Prelude.
Export String.StringSyntax.

#[export] Instance byte_eq_dec : EqDecision byte := Byte.byte_eq_dec.
#[export] Instance byte_inhabited : Inhabited byte := populate x00.

Lemma byte_eqb_eq a b : Byte.eqb a b = true ↔ a = b.
Proof. split; [apply Byte.byte_dec_bl | intros ->; by apply Byte.byte_dec_lb]. Qed.

(** A byte string literal: the bytes of an ASCII Rust literal. *)
Definition bs (s : String.string) : list byte := String.list_byte_of_string s.
Arguments bs s%_string.

(** ** [u8] *)
Definition b2z (b : byte) : Z := Z.of_N (Byte.to_N b).

(** [n as u8] *)
Definition z2b (n : Z) : byte :=
  match Byte.of_N (Z.to_N (n mod 256)) with Some b => b | None => x00 end.

(** [a ^ b] *)
Definition bxor (a b : byte) : byte := z2b (Z.lxor (b2z a) (b2z b)).

Lemma b2z_range b : 0 <= b2z b < 256.
Proof. unfold b2z. pose proof (Byte.to_N_bounded b). lia. Qed.

Lemma b2z_z2b n : b2z (z2b n) = n mod 256.
Proof.
  unfold b2z, z2b. pose proof (Z.mod_pos_bound n 256 ltac:(lia)) as Hn.
  destruct (Byte.of_N (Z.to_N (n mod 256))) as [b|] eqn:Hb.
  - apply Byte.to_of_N in Hb. rewrite Hb. lia.
  - apply Byte.of_N_None_iff in Hb. lia.
Qed.

Lemma b2z_z2b_small n : 0 <= n < 256 → b2z (z2b n) = n.
Proof. intros. rewrite b2z_z2b. by apply Z.mod_small. Qed.

Lemma b2z_inj a b : b2z a = b2z b → a = b.
Proof.
  unfold b2z. intros H%N2Z.inj.
  pose proof (Byte.of_to_N a) as Ha. rewrite H, Byte.of_to_N in Ha. congruence.
Qed.

Lemma z2b_b2z b : z2b (b2z b) = b.
Proof. apply b2z_inj, b2z_z2b_small, b2z_range. Qed.

(** Bitwise operations on words of [n] bits stay within [n] bits. *)
Lemma bits_range n x : 0 <= n → (∀ i, n <= i → Z.testbit x i = false) → 0 <= x < 2 ^ n.
Proof.
  intros Hn Hbits.
  assert (x = x mod 2 ^ n) as ->; [|apply Z.mod_pos_bound; lia].
  rewrite <- Z.land_ones by done. apply Z.bits_inj'. intros i Hi.
  rewrite Z.land_spec. destruct (decide (i < n)).
  - rewrite Z.ones_spec_low, andb_true_r by lia. done.
  - rewrite Hbits by lia. done.
Qed.

Lemma high_bit x n i : 0 <= x < 2 ^ n → n <= i → Z.testbit x i = false.
Proof.
  intros Hx Hi. destruct (decide (x = 0)) as [->|]; [apply Z.bits_0|].
  apply Z.bits_above_log2; [lia|]. apply Z.lt_le_trans with n; [|done].
  apply Z.log2_lt_pow2; lia.
Qed.

Lemma lxor_range n x y : 0 <= n → 0 <= x < 2 ^ n → 0 <= y < 2 ^ n → 0 <= Z.lxor x y < 2 ^ n.
Proof.
  intros. apply bits_range; [done|]. intros i ?.
  rewrite Z.lxor_spec, (high_bit x n), (high_bit y n); done.
Qed.

Lemma lor_range n x y : 0 <= n → 0 <= x < 2 ^ n → 0 <= y < 2 ^ n → 0 <= Z.lor x y < 2 ^ n.
Proof.
  intros. apply bits_range; [done|]. intros i ?.
  rewrite Z.lor_spec, (high_bit x n), (high_bit y n); done.
Qed.

Lemma land_range n x y : 0 <= n → 0 <= x < 2 ^ n → 0 <= Z.land x y < 2 ^ n.
Proof.
  intros. apply bits_range; [done|]. intros i ?. rewrite Z.land_spec, (high_bit x n); done.
Qed.

(** Disjoint bits: [hi << n | lo] is [hi * 2^n + lo]. *)
Lemma lor_shiftl hi lo n :
  0 <= n → 0 <= lo < 2 ^ n → Z.lor (Z.shiftl hi n) lo = hi * 2 ^ n + lo.
Proof.
  intros Hn Hlo. rewrite <- Z.shiftl_mul_pow2 by done.
  rewrite <- Z.lxor_lor, <- Z.add_nocarry_lxor; [done|..].
  all: apply Z.bits_inj'; intros i Hi; rewrite Z.land_spec, Z.bits_0.
  all: destruct (decide (i < n)); [by rewrite Z.shiftl_spec_low|].
  all: rewrite (high_bit lo n) by lia; apply andb_false_r.
Qed.

Lemma lor_shiftl' hi lo n :
  0 <= n → 0 <= lo < 2 ^ n → Z.lor lo (Z.shiftl hi n) = hi * 2 ^ n + lo.
Proof. intros. rewrite Z.lor_comm. by apply lor_shiftl. Qed.

Lemma lxor_mul_add n hi1 lo1 hi2 lo2 :
  0 <= n → 0 <= lo1 < 2 ^ n → 0 <= lo2 < 2 ^ n →
  Z.lxor (lo1 + 2 ^ n * hi1) (lo2 + 2 ^ n * hi2) = Z.lxor lo1 lo2 + 2 ^ n * Z.lxor hi1 hi2.
Proof.
  intros Hn H1 H2.
  assert (∀ hi lo, 0 <= lo < 2 ^ n → lo + 2 ^ n * hi = Z.lor (Z.shiftl hi n) lo) as E.
  { intros. rewrite lor_shiftl by done. lia. }
  rewrite (E hi1), (E hi2), (E (Z.lxor hi1 hi2)) by (done || by apply lxor_range).
  apply Z.bits_inj'. intros i Hi.
  rewrite Z.lxor_spec, !Z.lor_spec, Z.lxor_spec.
  destruct (decide (i < n)).
  - rewrite !Z.shiftl_spec_low by done. done.
  - rewrite !Z.shiftl_spec, Z.lxor_spec by done.
    rewrite (high_bit lo1 n), (high_bit lo2 n), xorb_false_r, !orb_false_r by lia. done.
Qed.

Lemma b2z_bxor a b : b2z (bxor a b) = Z.lxor (b2z a) (b2z b).
Proof.
  apply b2z_z2b_small, (lxor_range 8); [done|apply b2z_range..].
Qed.

Lemma bxor_involutive a k : bxor (bxor a k) k = a.
Proof.
  apply b2z_inj. rewrite !b2z_bxor, Z.lxor_assoc, Z.lxor_nilpotent. apply Z.lxor_0_r.
Qed.

(** ** Byte order *)

(** The value of bytes, least significant first ([from_le_bytes]). *)
Fixpoint le_val (l : list byte) : Z :=
  match l with
  | [] => 0
  | b :: l => b2z b + 256 * le_val l
  end.
(** The [n] low bytes of a value, least significant first ([to_le_bytes]). *)
Fixpoint le_bytes (n : nat) (z : Z) : list byte :=
  match n with
  | O => []
  | S n => z2b z :: le_bytes n (z / 256)
  end.
Definition be_val (l : list byte) : Z := le_val (rev l).
Definition be_bytes (n : nat) (z : Z) : list byte := rev (le_bytes n z).

Lemma length_le_bytes n z : length (le_bytes n z) = n.
Proof. revert z. induction n; intros z; simpl; auto. Qed.
Lemma length_be_bytes n z : length (be_bytes n z) = n.
Proof. unfold be_bytes. by rewrite length_rev, length_le_bytes. Qed.

Lemma pow256_S n : 256 ^ Z.of_nat (S n) = 256 * 256 ^ Z.of_nat n.
Proof. rewrite Nat2Z.inj_succ, Z.pow_succ_r; lia. Qed.

Lemma le_val_range l : 0 <= le_val l < 256 ^ Z.of_nat (length l).
Proof.
  induction l as [|b l IH]; [done|].
  cbn [le_val length]. rewrite pow256_S. pose proof (b2z_range b). lia.
Qed.

Lemma le_val_bytes n z : le_val (le_bytes n z) = z mod 256 ^ Z.of_nat n.
Proof.
  revert z. induction n as [|n IH]; intros z.
  - symmetry. apply Z.mod_1_r.
  - cbn [le_val le_bytes]. rewrite IH, b2z_z2b, pow256_S.
    assert (0 < 256 ^ Z.of_nat n) by (apply Z.pow_pos_nonneg; lia).
    rewrite Z.rem_mul_r by lia. done.
Qed.

Lemma le_bytes_val l : le_bytes (length l) (le_val l) = l.
Proof.
  induction l as [|b l IH]; [done|]. cbn [le_val le_bytes length].
  pose proof (b2z_range b). f_equal.
  - apply b2z_inj. rewrite b2z_z2b. rewrite Z.mul_comm, Z_mod_plus_full.
    by apply Z.mod_small.
  - rewrite Z.mul_comm, Z.div_add, Z.div_small by lia. apply IH.
Qed.

Lemma le_val_inj l1 l2 : length l1 = length l2 → le_val l1 = le_val l2 → l1 = l2.
Proof.
  intros Hlen Hval. rewrite <- (le_bytes_val l1), <- (le_bytes_val l2). by rewrite Hlen, Hval.
Qed.

Lemma be_val_bytes n z : 0 <= z < 256 ^ Z.of_nat n → be_val (be_bytes n z) = z.
Proof.
  intros. unfold be_val, be_bytes. rewrite rev_involutive, le_val_bytes. by apply Z.mod_small.
Qed.
Lemma be_bytes_val l : be_bytes (length l) (be_val l) = l.
Proof.
  unfold be_val, be_bytes. rewrite <- (length_rev l), le_bytes_val. apply rev_involutive.
Qed.
Lemma be_val_range l : 0 <= be_val l < 256 ^ Z.of_nat (length l).
Proof. unfold be_val. rewrite <- length_rev. apply le_val_range. Qed.

Lemma le_val_app l1 l2 : le_val (l1 ++ l2) = le_val l1 + 256 ^ Z.of_nat (length l1) * le_val l2.
Proof.
  induction l1 as [|b l1 IH]; [cbn; lia|].
  cbn [app le_val length]. rewrite IH, pow256_S. ring.
Qed.

(** ** Indexing

    An index or a slice out of range panics. *)

(** [l[i]] *)
Definition index {E A} (l : list A) (i : nat) : result E A := expect (l !! i).

(** [&l[a..b]] *)
Definition slice {E A} (l : list A) (a b : nat) : result E (list A) :=
  if (a <=? b)%nat && (b <=? length l)%nat then Ok (take (b - a) (drop a l)) else Panic.

(** [l[i] = v] *)
Definition set_index {E A} (i : nat) (v : A) : stM (list A) E unit := λ l,
  if (i <? length l)%nat then (Ok tt, <[i := v]> l) else (Panic, l).

(** [l[a..b].copy_from_slice(src)] *)
Definition copy_from_slice {E A} (a b : nat) (src : list A) : stM (list A) E unit := λ l,
  if (a <=? b)%nat && (b <=? length l)%nat && (length src =? b - a)%nat
  then (Ok tt, take a l ++ src ++ drop b l) else (Panic, l).

Section Indexing.
Context {E A : Type}.
Implicit Types l : list A.

Lemma index_ok l i x : l !! i = Some x → @index E A l i = Ok x.
Proof. intros H. unfold index. by rewrite H. Qed.

Lemma index_app_l l l' i : (i < length l)%nat → @index E A (l ++ l') i = index l i.
Proof. intros. unfold index. by rewrite lookup_app_l. Qed.

Lemma index_app_r l l' i : @index E A (l ++ l') (length l + i) = index l' i.
Proof. unfold index. rewrite lookup_app_r by lia. do 2 f_equal. lia. Qed.

Lemma index_app_length l l' : @index E A (l ++ l') (length l) = index l' 0.
Proof. rewrite <- (index_app_r l l' 0). by rewrite Nat.add_0_r. Qed.

Lemma index_lt l i : (i < length l)%nat → ∃ x, l !! i = Some x ∧ @index E A l i = Ok x.
Proof.
  intros [x Hx]%lookup_lt_is_Some. exists x. split; [done|]. by apply index_ok.
Qed.

Lemma slice_ok l a b :
  (a ≤ b)%nat → (b ≤ length l)%nat → @slice E A l a b = Ok (take (b - a) (drop a l)).
Proof.
  intros. unfold slice. by rewrite !(proj2 (Nat.leb_le _ _)).
Qed.

Lemma slice_app_l l l' a b :
  (b ≤ length l)%nat → @slice E A (l ++ l') a b = slice l a b.
Proof.
  intros Hb. unfold slice. rewrite length_app.
  destruct (a <=? b)%nat eqn:Ha; [|done]. bool_prop.
  rewrite !(proj2 (Nat.leb_le _ _)) by lia. cbn [andb]. f_equal.
  rewrite drop_app_le by lia. apply take_app_le. rewrite length_drop. lia.
Qed.

(** Overwriting the next bytes of a buffer already written up to [length w]. *)
Lemma set_index_next w v l :
  (length w < length l)%nat →
  @set_index E A (length w) v (w ++ drop (length w) l)
  = (Ok tt, (w ++ [v]) ++ drop (length (w ++ [v])) l).
Proof.
  intros H. unfold set_index.
  rewrite length_app, length_drop, (proj2 (Nat.ltb_lt _ _)) by lia. f_equal.
  rewrite insert_app_r_alt, Nat.sub_diag by lia.
  destruct (drop (length w) l) as [|x r] eqn:Hd.
  { apply (f_equal length) in Hd. rewrite length_drop in Hd. cbn in Hd. lia. }
  cbn. rewrite <- app_assoc. cbn. do 2 f_equal.
  by rewrite length_app, <- drop_drop, Hd.
Qed.

Lemma copy_from_slice_next w src l b :
  b = (length w + length src)%nat → (b ≤ length l)%nat →
  @copy_from_slice E A (length w) b src (w ++ drop (length w) l)
  = (Ok tt, (w ++ src) ++ drop (length (w ++ src)) l).
Proof.
  intros -> H. unfold copy_from_slice.
  rewrite length_app, length_drop, !(proj2 (Nat.leb_le _ _)), (proj2 (Nat.eqb_eq _ _)) by lia.
  cbn [andb]. f_equal. rewrite take_app_length, <- app_assoc. do 2 f_equal.
  rewrite drop_app_ge by lia. rewrite drop_drop, length_app. f_equal. lia.
Qed.
End Indexing.

(** A test on every byte is a test on 256 cases. *)
Lemma byte_forall (P : byte → bool) :
  forallb (λ n, P (z2b (Z.of_nat n))) (seq 0 256) = true → ∀ b, P b = true.
Proof.
  intros H b. rewrite forallb_forall in H.
  rewrite <- (z2b_b2z b), <- (Z2Nat.id (b2z b)) by apply b2z_range.
  apply H, in_seq. pose proof (b2z_range b). lia.
Qed.

(** ** The compilation target *)
Class Target := {
  little_endian : bool;      (** [cfg!(target_endian = "little")] *)
  usize_bits : Z;            (** the width of [usize] *)
  overflow_checks : bool;    (** whether [+] on integers panics on overflow *)
}.
(** Rust's supported targets that this crate builds for. *)
Class TargetOk (T : Target) := usize_bits_ok : usize_bits = 32 ∨ usize_bits = 64.

Section Target.
Context {T : Target}.

Definition usize_max : Z := 2 ^ usize_bits - 1.

(** [n as usize], [n as u64], ... *)
Definition wrap_to (bits n : Z) : Z := n mod 2 ^ bits.
Definition as_usize (n : Z) : Z := wrap_to usize_bits n.

(** [a + b] on [usize] *)
Definition usize_add {E} (a b : Z) : result E Z :=
  if a + b <=? usize_max then Ok (a + b)
  else if overflow_checks then Panic else Ok (as_usize (a + b)).

(** The value [n] of a [+] or [*] on unsigned integers of [bits] bits *)
Definition arith {E} (bits n : Z) : result E Z :=
  if n <? 2 ^ bits then Ok n
  else if overflow_checks then Panic else Ok (wrap_to bits n).

(** [usize::saturating_add] *)
Definition saturating_add (a b : Z) : Z := Z.min (a + b) usize_max.

(** [u32::from_ne_bytes], [u64::from_ne_bytes] *)
Definition from_ne_bytes (l : list byte) : Z :=
  if little_endian then le_val l else be_val l.
(** [to_ne_bytes] of an integer of [n] bytes *)
Definition to_ne_bytes (n : nat) (z : Z) : list byte :=
  if little_endian then le_bytes n z else be_bytes n z.

Lemma to_from_ne_bytes l : to_ne_bytes (length l) (from_ne_bytes l) = l.
Proof.
  unfold to_ne_bytes, from_ne_bytes. destruct little_endian.
  - apply le_bytes_val.
  - apply be_bytes_val.
Qed.
Lemma from_ne_bytes_range l : 0 <= from_ne_bytes l < 256 ^ Z.of_nat (length l).
Proof.
  unfold from_ne_bytes. destruct little_endian; [apply le_val_range|apply be_val_range].
Qed.
End Target.

(** [u32::rotate_right], [u32::rotate_left] *)
Definition rotate_right32 (x s : Z) : Z :=
  let s := s mod 32 in
  Z.lor (Z.shiftr x s) (wrap_to 32 (Z.shiftl x (32 - s))).
Definition rotate_left32 (x s : Z) : Z :=
  let s := s mod 32 in
  Z.lor (wrap_to 32 (Z.shiftl x s)) (Z.shiftr x (32 - s)).

(** Rotating right swaps the two halves of a word cut at bit [s]. *)
Lemma rotate_right32_cut hi lo s :
  0 < s < 32 → 0 <= lo < 2 ^ s → 0 <= hi < 2 ^ (32 - s) →
  rotate_right32 (lo + 2 ^ s * hi) s = hi + 2 ^ (32 - s) * lo.
Proof.
  intros Hs Hlo Hhi. unfold rotate_right32, wrap_to. rewrite (Z.mod_small s) by lia.
  rewrite Z.shiftr_div_pow2, Z.shiftl_mul_pow2 by lia.
  replace (lo + 2 ^ s * hi) with (hi * 2 ^ s + lo) by ring.
  rewrite Z.div_add_l, (Z.div_small lo), Z.add_0_r by lia.
  assert (2 ^ 32 = 2 ^ s * 2 ^ (32 - s)) as Hpow by (rewrite <- Z.pow_add_r by lia; f_equal; lia).
  replace ((hi * 2 ^ s + lo) * 2 ^ (32 - s)) with (lo * 2 ^ (32 - s) + hi * 2 ^ 32)
    by (rewrite Hpow; ring).
  rewrite Z_mod_plus_full, Z.mod_small by nia.
  rewrite <- (Z.shiftl_mul_pow2 lo) by lia. rewrite lor_shiftl' by lia. ring.
Qed.

Lemma rotate_left32_cut hi lo s :
  0 < s < 32 → 0 <= lo < 2 ^ (32 - s) → 0 <= hi < 2 ^ s →
  rotate_left32 (lo + 2 ^ (32 - s) * hi) s = hi + 2 ^ s * lo.
Proof.
  intros Hs Hlo Hhi.
  pose proof (rotate_right32_cut hi lo (32 - s)) as Hcut.
  replace (32 - (32 - s)) with s in Hcut by lia. rewrite <- Hcut by lia.
  unfold rotate_left32, rotate_right32. rewrite !Z.mod_small by lia.
  replace (32 - (32 - s)) with s by lia. apply Z.lor_comm.
Qed.

(** *** Two targets, for concrete runs *)
Definition target_x86_64 : Target := {|
  little_endian := true; usize_bits := 64; overflow_checks := true |}.
Lemma target_x86_64_ok : TargetOk target_x86_64.
Proof. by right. Qed.
Definition target_mips32 : Target := {|
  little_endian := false; usize_bits := 32; overflow_checks := false |}.
Lemma target_mips32_ok : TargetOk target_mips32.
Proof. by left. Qed.
