(* ===== verification/Opcode.v ===== *)
(** * Opcodes and close codes ([src/proto/opcode.rs])

    [OpCode] is the four-bit opcode of a frame and [CloseCode] the sixteen-bit
    status of a close frame, with the conversions and classifications of the
    source. *)
From Stdlib Require Import ZArith Lia.
From stdpp Require Import base option list.
From S2P Require Import Prelude.

Inductive OpCode : Set :=
| Continuation
| Text
| Binary
| Close
| Ping
| Pong.

#[export] Instance OpCode_eq_dec : EqDecision OpCode.
Proof. solve_decision. Defined.

Module OpCode.
(** [OpCode::from_bits] *)
Definition from_bits (bits : Z) : option OpCode :=
  match bits with
  | 0x0 => Some Continuation
  | 0x1 => Some Text
  | 0x2 => Some Binary
  | 0x8 => Some Close
  | 0x9 => Some Ping
  | 0xA => Some Pong
  | _ => None
  end.

(** [OpCode::to_bits] *)
Definition to_bits (o : OpCode) : Z :=
  match o with
  | Continuation => 0x0
  | Text => 0x1
  | Binary => 0x2
  | Close => 0x8
  | Ping => 0x9
  | Pong => 0xA
  end.

(** [OpCode::is_control] *)
Definition is_control (o : OpCode) : bool :=
  match o with
  | Close | Ping | Pong => true
  | _ => false
  end.

Lemma from_to_bits o : from_bits (to_bits o) = Some o.
Proof. by destruct o. Qed.

Lemma to_bits_range o : 0 <= to_bits o < 16.
Proof. destruct o; cbn; lia. Qed.

Lemma from_bits_Some bits o : from_bits bits = Some o → bits = to_bits o.
Proof.
  unfold from_bits. intros H.
  repeat (case_match; try discriminate); by inversion H.
Qed.

(** Bit 3 of the opcode is what marks a control frame on the wire. *)
Lemma is_control_bit o : is_control o = Z.testbit (to_bits o) 3.
Proof. by destruct o. Qed.
End OpCode.

(** A [u16] status code. *)
Record CloseCode : Set := mkCloseCode { code : Z }.

#[export] Instance CloseCode_eq_dec : EqDecision CloseCode.
Proof. solve_decision. Defined.

Module CloseCode.
Definition NORMAL := mkCloseCode 1000.
Definition AWAY := mkCloseCode 1001.
Definition PROTOCOL := mkCloseCode 1002.
Definition UNSUPPORTED := mkCloseCode 1003.
Definition INVALID_PAYLOAD := mkCloseCode 1007.
Definition POLICY := mkCloseCode 1008.
Definition TOO_LARGE := mkCloseCode 1009.
Definition INTERNAL_ERROR := mkCloseCode 1011.

Definition in_range (lo hi n : Z) : bool := (lo <=? n) && (n <=? hi).

(** [CloseCode::is_sendable]: the arms of the match in order. *)
Definition is_sendable (c : CloseCode) : bool :=
  let n := code c in
  if in_range 1000 1003 n || in_range 1007 1011 n then true
  else if in_range 1004 1006 n || in_range 1012 1014 n then false
  else if n =? 1015 then false
  else if in_range 3000 4999 n then true
  else false.

(** [impl From<u16> for CloseCode] and back *)
Definition from_u16 (value : Z) : CloseCode := mkCloseCode value.
Definition to_u16 (value : CloseCode) : Z := code value.

Lemma in_range_spec lo hi n : in_range lo hi n = true ↔ lo <= n <= hi.
Proof. unfold in_range. rewrite andb_true_iff, !Z.leb_le. lia. Qed.
Lemma in_range_false lo hi n : in_range lo hi n = false ↔ n < lo ∨ hi < n.
Proof. unfold in_range. rewrite andb_false_iff, !Z.leb_gt. lia. Qed.

Lemma is_sendable_spec c :
  is_sendable c = true ↔
  1000 <= code c <= 1003 ∨ 1007 <= code c <= 1011 ∨ 3000 <= code c <= 4999.
Proof.
  unfold is_sendable. cbn zeta. repeat case_match; bool_prop;
    rewrite ?in_range_spec, ?in_range_false in *; split; (done || lia).
Qed.

Lemma is_sendable_range c : is_sendable c = true → 0 <= code c < 65536.
Proof. rewrite is_sendable_spec. lia. Qed.
End CloseCode.
