(* ===== verification/Mask.v ===== *)
(** * Payload masking ([src/proto/mask.rs])

    [Mask.apply] follows the source: the key is read as a native-endian word,
    rotated to the keystream offset, widened to sixty-four bits and applied a
    word at a time, with a byte loop for the tail. [Mask.reference] is the
    byte-at-a-time definition of RFC 6455 section 5.3 that the source's tests
    compare it with; the two agree on every target. *)
From Stdlib Require Import ZArith Lia Strings.Byte.
From stdpp Require Import base option list.
From S2P Require Import Prelude Bytes.

(** [type Mask = [u8; 4]] *)
Definition Mask : Type := byte * byte * byte * byte.

Definition mask_bytes (key : Mask) : list byte :=
  let '(k0, k1, k2, k3) := key in [k0; k1; k2; k3].
(** The array back from its bytes. *)
Definition mask_of_bytes (l : list byte) : option Mask :=
  match l with [k0; k1; k2; k3] => Some (k0, k1, k2, k3) | _ => None end.

Lemma length_mask_bytes key : length (mask_bytes key) = 4%nat.
Proof. by destruct key as [[[??]?]?]. Qed.
Lemma mask_of_mask_bytes key : mask_of_bytes (mask_bytes key) = Some key.
Proof. by destruct key as [[[??]?]?]. Qed.

Module Mask.
Section Mask.
Context {T : Target}.

(** The key rotated so that its first byte meets the first payload byte. *)
Definition rotated_word (key : Mask) (offset : Z) : Z :=
  let shift := wrap_to 32 (Z.land offset 3) * 8 in
  let native := from_ne_bytes (mask_bytes key) in
  if little_endian then rotate_right32 native shift else rotate_left32 native shift.

(** The body of the word loop: one chunk of eight bytes. *)
Definition xor_word (word : Z) (chunk : list byte) : list byte :=
  to_ne_bytes 8 (Z.lxor (from_ne_bytes chunk) word).

(** [for chunk in chunks.chunks_exact_mut(8)] *)
Fixpoint xor_chunks (word : Z) (chunks : list byte) : list byte :=
  match chunks with
  | b0 :: b1 :: b2 :: b3 :: b4 :: b5 :: b6 :: b7 :: rest =>
      xor_word word [b0; b1; b2; b3; b4; b5; b6; b7] ++ xor_chunks word rest
  | remainder => remainder
  end.

(** [for (i, byte) in tail.iter_mut().enumerate()] *)
Definition xor_tail (rotated : list byte) (tail : list byte) : list byte :=
  imap (λ i b, bxor b (nth (Z.to_nat (Z.land (Z.of_nat i) 3)) rotated x00)) tail.

(** [mask::apply]: the masked payload, and the offset to continue from. *)
Definition apply (payload : list byte) (key : Mask) (offset : Z) : list byte * Z :=
  match payload with
  | [] => ([], offset)
  | _ =>
      let rw := rotated_word key offset in
      let rotated := to_ne_bytes 4 rw in
      let word := Z.lor rw (Z.shiftl rw 32) in
      let cut := Z.to_nat (Z.land (Z.of_nat (length payload)) (Z.lnot 7)) in
      let '(chunks, tail) := (take cut payload, drop cut payload) in
      (xor_chunks word chunks ++ xor_tail rotated tail,
       as_usize (offset + Z.of_nat (length payload)))
  end.

(** The RFC's definition, as the tests of the source spell it. *)
Definition reference (payload : list byte) (key : Mask) (offset : Z) : list byte :=
  imap (λ i b, bxor b (nth (Z.to_nat (Z.land (offset + Z.of_nat i) 3)) (mask_bytes key) x00))
       payload.

(** *** The word operations, seen byte by byte *)

Definition xor_bytes : list byte → list byte → list byte := zip_with bxor.

Lemma le_val_xor l1 l2 :
  length l1 = length l2 → le_val (xor_bytes l1 l2) = Z.lxor (le_val l1) (le_val l2).
Proof.
  revert l2. induction l1 as [|a l1 IH]; intros [|b l2] Hlen; try done.
  cbn [xor_bytes zip_with le_val]. fold xor_bytes.
  injection Hlen as Hlen. change (zip_with bxor l1 l2) with (xor_bytes l1 l2).
  rewrite IH, b2z_bxor by done.
  symmetry. apply (lxor_mul_add 8); [done|apply b2z_range..].
Qed.

Lemma rev_xor_bytes l1 l2 :
  length l1 = length l2 → rev (xor_bytes l1 l2) = xor_bytes (rev l1) (rev l2).
Proof.
  unfold xor_bytes. revert l2. induction l1 as [|a l1 IH]; intros [|b l2] Hlen; try done.
  injection Hlen as Hlen. cbn. rewrite IH, zip_with_app by (done || by rewrite !length_rev).
  done.
Qed.

Lemma from_ne_bytes_xor l1 l2 :
  length l1 = length l2 →
  from_ne_bytes (xor_bytes l1 l2) = Z.lxor (from_ne_bytes l1) (from_ne_bytes l2).
Proof.
  intros Hlen. unfold from_ne_bytes. destruct little_endian; [by apply le_val_xor|].
  unfold be_val. rewrite <- le_val_xor by (by rewrite !length_rev).
  f_equal. by apply rev_xor_bytes.
Qed.

Lemma xor_word_bytes pad chunk :
  length pad = 8%nat → length chunk = 8%nat →
  xor_word (from_ne_bytes pad) chunk = xor_bytes chunk pad.
Proof.
  intros Hp Hc. unfold xor_word. rewrite <- from_ne_bytes_xor by congruence.
  replace 8%nat with (length (xor_bytes chunk pad)).
  - apply to_from_ne_bytes.
  - unfold xor_bytes. rewrite length_zip_with. lia.
Qed.

(** A rotation by whole bytes is a rotation of the bytes. *)
Lemma rotate_right_le a b :
  (length a + length b = 4)%nat → (0 < length a < 4)%nat →
  rotate_right32 (le_val (a ++ b)) (8 * Z.of_nat (length a)) = le_val (b ++ a).
Proof.
  intros Hlen Ha. pose proof (le_val_range a). pose proof (le_val_range b).
  rewrite !le_val_app.
  assert (∀ n, 256 ^ Z.of_nat n = 2 ^ (8 * Z.of_nat n)) as E.
  { intros n. change 256 with (2 ^ 8). rewrite <- Z.pow_mul_r by lia. done. }
  rewrite !E in *. replace (8 * Z.of_nat (length b)) with (32 - 8 * Z.of_nat (length a)) in * by lia.
  apply rotate_right32_cut; lia.
Qed.

Lemma rotate_left_be a b :
  (length a + length b = 4)%nat → (0 < length a < 4)%nat →
  rotate_left32 (be_val (a ++ b)) (8 * Z.of_nat (length a)) = be_val (b ++ a).
Proof.
  intros Hlen Ha. unfold be_val. rewrite !rev_app_distr.
  pose proof (rotate_right_le (rev b) (rev a)) as H. rewrite !length_rev in H.
  rewrite <- H by lia. unfold rotate_left32, rotate_right32.
  rewrite !Z.mod_small by lia.
  replace (32 - 8 * Z.of_nat (length a)) with (8 * Z.of_nat (length b)) by lia.
  replace (32 - 8 * Z.of_nat (length b)) with (8 * Z.of_nat (length a)) by lia.
  apply Z.lor_comm.
Qed.

Lemma rotate_0 x :
  0 <= x < 2 ^ 32 → rotate_right32 x 0 = x ∧ rotate_left32 x 0 = x.
Proof.
  intros Hx. unfold rotate_right32, rotate_left32, wrap_to. cbn [Z.sub].
  change (0 mod 32) with 0. rewrite Z.sub_0_r, Z.shiftr_0_r, Z.shiftl_0_r.
  rewrite Z.shiftl_mul_pow2, Z_mod_mult, Z.lor_0_r by lia.
  rewrite Z.shiftr_div_pow2, Z.div_small, Z.lor_0_r, Z.mod_small by lia. done.
Qed.

Lemma rotated_word_bytes a b key offset :
  mask_bytes key = a ++ b → (length a < 4)%nat → Z.land offset 3 = Z.of_nat (length a) →
  rotated_word key offset = from_ne_bytes (b ++ a).
Proof.
  intros Hkey Ha Hoff.
  assert (length a + length b = 4)%nat as Hlen
    by (rewrite <- length_app, <- Hkey; apply length_mask_bytes).
  unfold rotated_word, wrap_to. rewrite Hoff, Hkey, Z.mod_small by lia. rewrite Z.mul_comm.
  destruct (decide (length a = 0)%nat) as [Ha0|Ha0].
  - rewrite Ha0. apply nil_length_inv in Ha0 as ->. rewrite app_nil_r. change (8 * Z.of_nat 0) with 0. cbn [app].
    assert (0 <= from_ne_bytes b < 2 ^ 32) as Hr.
    { pose proof (from_ne_bytes_range b) as Hr. cbn in Hlen. by rewrite Hlen in Hr. }
    destruct (rotate_0 _ Hr) as [-> ->]. by destruct little_endian.
  - unfold from_ne_bytes. destruct little_endian.
    + apply rotate_right_le; lia.
    + apply rotate_left_be; lia.
Qed.

(** The bytes of the rotated key are the keystream from [offset] on. *)
Definition keystream (key : Mask) (offset : Z) (i : nat) : byte :=
  nth (Z.to_nat (Z.land (offset + Z.of_nat i) 3)) (mask_bytes key) x00.

Lemma land_3 x : Z.land x 3 = x mod 4.
Proof. apply (Z.land_ones x 2). lia. Qed.

Lemma keystream_shift key offset i :
  keystream key offset i = keystream key (Z.land offset 3) (i mod 4).
Proof.
  unfold keystream. rewrite !land_3. do 2 f_equal.
  rewrite Nat2Z.inj_mod. rewrite <- Z.add_mod by lia. done.
Qed.

Lemma rotated_word_keystream key offset :
  rotated_word key offset = from_ne_bytes (keystream key offset <$> [0; 1; 2; 3]%nat).
Proof.
  assert (Z.land offset 3 = 0 ∨ Z.land offset 3 = 1 ∨ Z.land offset 3 = 2 ∨ Z.land offset 3 = 3)
    as Hcases by (rewrite land_3; pose proof (Z.mod_pos_bound offset 4); lia).
  destruct key as [[[k0 k1] k2] k3]. cbn [fmap list_fmap].
  rewrite !(keystream_shift _ offset).
  destruct Hcases as [H|[H|[H|H]]]; rewrite H.
  - by apply (rotated_word_bytes [] [k0; k1; k2; k3]); [|cbn; lia|].
  - by apply (rotated_word_bytes [k0] [k1; k2; k3]); [|cbn; lia|].
  - by apply (rotated_word_bytes [k0; k1] [k2; k3]); [|cbn; lia|].
  - by apply (rotated_word_bytes [k0; k1; k2] [k3]); [|cbn; lia|].
Qed.

Lemma widen_word l :
  length l = 4%nat →
  Z.lor (from_ne_bytes l) (Z.shiftl (from_ne_bytes l) 32) = from_ne_bytes (l ++ l).
Proof.
  intros Hl. pose proof (from_ne_bytes_range l) as Hr. rewrite Hl in Hr.
  rewrite lor_shiftl' by (done || lia).
  unfold from_ne_bytes, be_val. destruct little_endian.
  - rewrite le_val_app, Hl. cbn [Z.of_nat]. change (256 ^ _) with (2 ^ 32). ring.
  - rewrite rev_app_distr, le_val_app, length_rev, Hl. change (256 ^ _) with (2 ^ 32). ring.
Qed.

Lemma xor_chunks_imap pad n l :
  length pad = 8%nat → length l = (8 * n)%nat →
  xor_chunks (from_ne_bytes pad) l = imap (λ i b, bxor b (nth (i mod 8) pad x00)) l.
Proof.
  intros Hp. revert l. induction n as [|n IH]; intros l Hl.
  { destruct l; [done|cbn in Hl; lia]. }
  do 8 (destruct l as [|? l]; [cbn in Hl; lia|]).
  cbn [xor_chunks]. rewrite xor_word_bytes, IH by (done || (cbn in Hl; lia)).
  do 8 (destruct pad as [|? pad]; [done|]). destruct pad; [|done].
  cbn [imap xor_bytes zip_with app]. cbn -[Nat.modulo imap nth].
  do 8 f_equal. apply imap_ext. intros i x _. cbn -[Nat.modulo nth].
  do 2 f_equal. replace (S (S (S (S (S (S (S (S i)))))))) with (i + 1 * 8)%nat by lia.
  by rewrite Nat.Div0.mod_add.
Qed.

Lemma keystream_mod key offset i : keystream key offset (i mod 4) = keystream key offset i.
Proof.
  rewrite (keystream_shift key offset i), (keystream_shift key offset (i mod 4)).
  by rewrite Nat.Div0.mod_mod.
Qed.

Lemma nth_keystream key offset i d :
  nth (i mod 4) (keystream key offset <$> [0; 1; 2; 3]%nat) d = keystream key offset i.
Proof.
  rewrite <- (keystream_mod key offset i). pose proof (Nat.mod_upper_bound i 4 ltac:(lia)).
  destruct (i mod 4)%nat as [|[|[|[|]]]]; (done || lia).
Qed.

Lemma nth_keystream_twice key offset i d :
  let ks := keystream key offset <$> [0; 1; 2; 3]%nat in
  nth (i mod 8) (ks ++ ks) d = keystream key offset i.
Proof.
  cbn zeta. rewrite <- (nth_keystream key offset i d).
  assert (i mod 4 = (i mod 8) mod 4)%nat as ->.
  { change 8%nat with (4 * 2)%nat. by rewrite Nat.Div0.mod_mul_r, Nat.mul_comm,
      Nat.Div0.mod_add, Nat.Div0.mod_mod. }
  pose proof (Nat.mod_upper_bound i 8 ltac:(lia)).
  destruct (i mod 8)%nat as [|[|[|[|[|[|[|[|]]]]]]]]; (done || lia).
Qed.

(** The word path covers the largest multiple of eight bytes. *)
Lemma cut_spec n : Z.to_nat (Z.land (Z.of_nat n) (Z.lnot 7)) = (8 * (n / 8))%nat.
Proof.
  rewrite <- Z.ldiff_land. change 7 with (Z.ones 3).
  rewrite Z.ldiff_ones_r, Z.shiftl_mul_pow2, Z.shiftr_div_pow2 by lia.
  change (2 ^ 3) with (Z.of_nat 8). rewrite <- Nat2Z.inj_div. lia.
Qed.

Lemma reference_keystream payload key offset :
  reference payload key offset = imap (λ i b, bxor b (keystream key offset i)) payload.
Proof. done. Qed.

Lemma apply_fst payload key offset :
  fst (apply payload key offset) = reference payload key offset.
Proof.
  destruct payload as [|b0 p0] eqn:Hp; [done|]. unfold apply. rewrite <- Hp. clear b0 p0 Hp.
  rewrite cut_spec, rotated_word_keystream. cbn [fst].
  set (ks := keystream key offset <$> [0; 1; 2; 3]%nat).
  set (cut := (8 * (length payload / 8))%nat).
  assert (cut ≤ length payload)%nat as Hcut
    by (pose proof (Nat.Div0.mul_div_le (length payload) 8); lia).
  rewrite widen_word, (xor_chunks_imap _ (length payload / 8)) by
    (done || (len_lia)).
  rewrite (to_from_ne_bytes ks). rewrite reference_keystream.
  rewrite <- (take_drop cut payload) at 3. rewrite imap_app, length_take, Nat.min_l by done.
  f_equal.
  - apply imap_ext. intros i x _. f_equal. apply nth_keystream_twice.
  - unfold xor_tail. apply imap_ext. intros i x _. unfold compose. f_equal.
    rewrite land_3. change 4 with (Z.of_nat 4). rewrite <- Nat2Z.inj_mod, Nat2Z.id.
    unfold ks. rewrite nth_keystream, <- (keystream_mod _ _ (cut + i)), <- (keystream_mod _ _ i).
    f_equal. unfold cut. replace (8 * (length payload / 8) + i)%nat
      with (i + (2 * (length payload / 8)) * 4)%nat by lia.
    by rewrite Nat.Div0.mod_add.
Qed.

Lemma apply_snd payload key offset :
  payload ≠ [] → snd (apply payload key offset) = as_usize (offset + Z.of_nat (length payload)).
Proof. by destruct payload. Qed.

Lemma length_apply payload key offset :
  length (fst (apply payload key offset)) = length payload.
Proof. rewrite apply_fst. apply length_imap. Qed.

Lemma reference_shift payload key offset offset' :
  offset mod 4 = offset' mod 4 → reference payload key offset = reference payload key offset'.
Proof.
  intros H. rewrite !reference_keystream. apply imap_ext. intros i x _. f_equal.
  rewrite (keystream_shift _ offset), (keystream_shift _ offset'). by rewrite !land_3, H.
Qed.

Lemma reference_app l1 l2 key offset :
  reference (l1 ++ l2) key offset
  = reference l1 key offset ++ reference l2 key (offset + Z.of_nat (length l1)).
Proof.
  rewrite !reference_keystream, imap_app. f_equal. apply imap_ext. intros i x _. cbn. f_equal.
  unfold keystream. do 3 f_equal. lia.
Qed.

Lemma reference_involutive payload key offset :
  reference (reference payload key offset) key offset = payload.
Proof.
  rewrite !reference_keystream. apply list_eq. intros i.
  rewrite !list_lookup_imap. destruct (payload !! i); [cbn|done].
  by rewrite bxor_involutive.
Qed.

(** The keystream position survives the wrap of [offset.wrapping_add]. *)
Lemma as_usize_mod4 `{!TargetOk T} x : as_usize x mod 4 = x mod 4.
Proof.
  unfold as_usize, wrap_to.
  assert (∃ k, 2 ^ usize_bits = k * 4 ∧ 0 < k) as (k & -> & Hk).
  { destruct usize_bits_ok as [-> | ->]; [exists (2 ^ 30)|exists (2 ^ 62)]; done. }
  rewrite (Z.mul_comm k 4), Z.rem_mul_r, Z.mul_comm, Z_mod_plus_full by lia.
  by rewrite Zmod_mod.
Qed.

(** C18: on every target, whatever its byte order, the word-at-a-time
    [mask::apply] computes the byte-at-a-time keystream definition of RFC 6455
    section 5.3, for every payload, key and keystream offset. *)
Theorem apply_is_reference payload key offset :
  fst (apply payload key offset) = reference payload key offset.
Proof. apply apply_fst. Qed.

(** Masking a payload in two pieces, the second continuing from the
    offset the first call returned, is masking it in one pass. *)
Lemma apply_split `{!TargetOk T} l1 l2 key offset :
  fst (apply (l1 ++ l2) key offset)
  = fst (apply l1 key offset) ++ fst (apply l2 key (snd (apply l1 key offset))).
Proof.
  rewrite !apply_fst, reference_app. f_equal. apply reference_shift.
  destruct (decide (l1 = [])) as [->|Hl1]; [cbn; f_equal; lia|].
  by rewrite apply_snd, as_usize_mod4.
Qed.

(** Unmasking with the key and offset used to mask restores the payload. *)
Lemma apply_involutive payload key offset :
  fst (apply (fst (apply payload key offset)) key offset) = payload.
Proof. rewrite !apply_fst. apply reference_involutive. Qed.
End Mask.
End Mask.

Lemma apply_split_witness :
  TargetOk target_mips32 ∧
  let apply := @Mask.apply target_mips32 in
  let key := (x37, xfa, x21, x3d) in
  let l1 := bs "abcde" in
  let l2 := bs "fghijklmnopqrs" in
  fst (apply (l1 ++ l2) key 6) = fst (apply l1 key 6) ++ fst (apply l2 key (snd (apply l1 key 6))).
Proof.
  split; [apply target_mips32_ok|].
  exact (@Mask.apply_split target_mips32 target_mips32_ok _ _ _ 6).
Defined.

Example apply_example :
  fst (@Mask.apply target_x86_64 (bs "Hello") (x37, xfa, x21, x3d) 0) = [x7f; x9f; x4d; x51; x58].
Proof. reflexivity. Qed.
