(* ===== verification/Frame.v ===== *)
(** * Frame headers ([src/proto/frame.rs])

    [Header.decode] and [Header.encode] follow [Header::decode] and
    [Header::encode] statement by statement, indexing and slicing included, so
    that an access out of range would be a [Panic] of the model. The wire form
    of a header is also written down once as a list of bytes ([Header.wire]);
    the codec is proved against it in both directions. *)
From Stdlib Require Import ZArith Lia Strings.Byte.
From stdpp Require Import base option list.
From S2P Require Import Prelude Bytes Opcode Mask.

Inductive FrameError : Set :=
| ReservedOpCode (bits : Z)
| ReservedBitSet
| InvalidControlFrame
| InvalidLength
| TooLarge.

#[export] Instance FrameError_eq_dec : EqDecision FrameError.
Proof. solve_decision. Defined.

(** [struct Incomplete;] *)
Inductive Incomplete : Set := incomplete.

Record Header : Type := mkHeader {
  fin : bool;
  opcode : OpCode;
  mask : option Mask;
  payload_len : Z;
}.

#[export] Instance Header_eq_dec : EqDecision Header.
Proof. unfold EqDecision, Mask. solve_decision. Defined.

Module Header.
Definition MAX_ENCODED_LEN : nat := 14.

(** The extended length: [match short_len { 126 => .., 127 => .., n => .. }],
    with the cursor after it. [inl] is the early return of [Incomplete]. *)
Definition decode_len (input : list byte) (short_len : Z) (cursor : nat)
  : result FrameError (Incomplete + Z * nat) :=
  if short_len =? 126 then
    if (length input <? cursor + 2)%nat then Ok (inl incomplete) else
    b0 ← index input cursor;
    b1 ← index input (cursor + 1);
    let value := be_val [b0; b1] in
    let cursor := (cursor + 2)%nat in
    if value <? 126 then Err InvalidLength else Ok (inr (value, cursor))
  else if short_len =? 127 then
    if (length input <? cursor + 8)%nat then Ok (inl incomplete) else
    bytes ← slice input cursor (cursor + 8);
    let value := be_val bytes in
    let cursor := (cursor + 8)%nat in
    if negb (Z.land value 0x8000000000000000 =? 0) || (value <=? 0xFFFF)
    then Err InvalidLength else Ok (inr (value, cursor))
  else Ok (inr (short_len, cursor)).

(** The masking key, when the MASK bit was set, and the cursor after it. *)
Definition decode_mask (input : list byte) (masked : bool) (cursor : nat)
  : result FrameError (Incomplete + option Mask * nat) :=
  if masked then
    if (length input <? cursor + 4)%nat then Ok (inl incomplete) else
    k0 ← index input cursor;
    k1 ← index input (cursor + 1);
    k2 ← index input (cursor + 2);
    k3 ← index input (cursor + 3);
    Ok (inr (Some (k0, k1, k2, k3), (cursor + 4)%nat))
  else Ok (inr (None, cursor)).

(** [Header::decode]: [Ok (inl incomplete)] is the source's
    [Ok(Err(Incomplete))], [Ok (inr _)] its [Ok(Ok(_))]. *)
Definition decode (input : list byte) (max_payload : Z)
  : result FrameError (Incomplete + Header * nat) :=
  if (length input <? 2)%nat then Ok (inl incomplete) else
  first ← index input 0;
  second ← index input 1;
  if negb (Z.land (b2z first) 0x70 =? 0) then Err ReservedBitSet else
  let fin := negb (Z.land (b2z first) 0x80 =? 0) in
  opcode ← ok_or (OpCode.from_bits (Z.land (b2z first) 0x0F))
                 (ReservedOpCode (Z.land (b2z first) 0x0F));
  let masked := negb (Z.land (b2z second) 0x80 =? 0) in
  let short_len := Z.land (b2z second) 0x7F in
  if OpCode.is_control opcode && ((125 <? short_len) || negb fin)
  then Err InvalidControlFrame else
  len ← decode_len input short_len 2;
  match len with
  | inl i => Ok (inl i)
  | inr (payload_len, cursor) =>
      if max_payload <? payload_len then Err TooLarge else
      key ← decode_mask input masked cursor;
      match key with
      | inl i => Ok (inl i)
      | inr (mask, cursor) => Ok (inr (mkHeader fin opcode mask payload_len, cursor))
      end
  end.

(** [Header::encoded_len] *)
Definition encoded_len (h : Header) : nat :=
  let length_bytes :=
    if payload_len h <? 126 then 0%nat
    else if payload_len h <=? 0xFFFF then 2%nat else 8%nat in
  let mask_bytes := match mask h with Some _ => 4%nat | None => 0%nat end in
  (2 + length_bytes + mask_bytes)%nat.

(** [Header::encode], on the caller's [&mut [u8]] *)
Definition encode {E} (h : Header) : stM (list byte) E (option nat) :=
  out ← st_get;
  let needed := encoded_len h in
  if (length out <? needed)%nat then mret None else
  set_index 0 (z2b (Z.lor (if fin h then 0x80 else 0) (OpCode.to_bits (opcode h))));;
  let mask_bit := match mask h with Some _ => 0x80 | None => 0 end in
  let cursor := 2%nat in
  cursor ←
    (if payload_len h <? 126 then
       set_index 1 (z2b (Z.lor mask_bit (b2z (z2b (payload_len h)))));;
       mret cursor
     else if payload_len h <=? 0xFFFF then
       set_index 1 (z2b (Z.lor mask_bit 126));;
       copy_from_slice cursor (cursor + 2) (be_bytes 2 (wrap_to 16 (payload_len h)));;
       mret (cursor + 2)%nat
     else
       set_index 1 (z2b (Z.lor mask_bit 127));;
       copy_from_slice cursor (cursor + 8) (be_bytes 8 (payload_len h));;
       mret (cursor + 8)%nat);
  cursor ←
    match mask h with
    | Some key =>
        copy_from_slice cursor (cursor + 4) (mask_bytes key);;
        mret (cursor + 4)%nat
    | None => mret cursor
    end;
  mret (Some cursor).

(** ** The wire form of a header *)

(** The seven-bit length and the extension bytes that a length is sent as. *)
Definition short_of (n : Z) : Z :=
  if n <? 126 then n else if n <=? 0xFFFF then 126 else 127.
Definition ext_of (n : Z) : list byte :=
  if n <? 126 then [] else if n <=? 0xFFFF then be_bytes 2 n else be_bytes 8 n.
Definition key_of (key : option Mask) : list byte :=
  match key with Some key => mask_bytes key | None => [] end.

Definition wire (h : Header) : list byte :=
  [z2b (Z.lor (if fin h then 0x80 else 0) (OpCode.to_bits (opcode h)));
   z2b (Z.lor (if mask h is Some _ then 0x80 else 0) (short_of (payload_len h)))]
  ++ ext_of (payload_len h) ++ key_of (mask h).

(** What RFC 6455 asks of a header: a length of at most sixty-three bits, and
    control frames short and final. *)
Definition wf (h : Header) : Prop :=
  0 <= payload_len h < 2 ^ 63 ∧
  (OpCode.is_control (opcode h) = true → fin h = true ∧ payload_len h <= 125).

Lemma length_wire h : length (wire h) = encoded_len h.
Proof.
  unfold wire, encoded_len, ext_of, key_of. rewrite !length_app.
  destruct (mask h) as [key|]; [rewrite length_mask_bytes|];
    repeat case_match; cbn; try rewrite !length_be_bytes; lia.
Qed.

Lemma encoded_len_bounds h : (2 ≤ encoded_len h ≤ MAX_ENCODED_LEN)%nat.
Proof. unfold encoded_len, MAX_ENCODED_LEN. repeat case_match; lia. Qed.

(** *** The two fixed bytes *)

Lemma first_byte (f : bool) o :
  let b := b2z (z2b (Z.lor (if f then 0x80 else 0) (OpCode.to_bits o))) in
  Z.land b 0x70 = 0 ∧ negb (Z.land b 0x80 =? 0) = f ∧ Z.land b 0x0F = OpCode.to_bits o.
Proof. by destruct f, o. Qed.

Lemma first_byte_inv b :
  Z.land (b2z b) 0x70 = 0 →
  z2b (Z.lor (if negb (Z.land (b2z b) 0x80 =? 0) then 0x80 else 0) (Z.land (b2z b) 0x0F)) = b.
Proof.
  intros H.
  pose proof (byte_forall (λ b, negb (Z.land (b2z b) 0x70 =? 0) ||
    Byte.eqb (z2b (Z.lor (if negb (Z.land (b2z b) 0x80 =? 0) then 0x80 else 0)
                         (Z.land (b2z b) 0x0F))) b) ltac:(vm_compute; reflexivity) b) as Hb.
  cbn beta in Hb. rewrite H in Hb. by apply byte_eqb_eq in Hb.
Qed.

Lemma second_byte (m : bool) n :
  0 <= n < 128 →
  let b := b2z (z2b (Z.lor (if m then 0x80 else 0) n)) in
  negb (Z.land b 0x80 =? 0) = m ∧ Z.land b 0x7F = n.
Proof.
  intros Hn.
  assert (forallb (λ k, let b := b2z (z2b (Z.lor (if m then 0x80 else 0) (Z.of_nat k))) in
    Bool.eqb (negb (Z.land b 0x80 =? 0)) m && (Z.land b 0x7F =? Z.of_nat k)) (seq 0 128) = true)
    as H by (destruct m; vm_compute; reflexivity).
  rewrite forallb_forall in H. specialize (H (Z.to_nat n)). rewrite Z2Nat.id in H by lia.
  rewrite in_seq in H. cbn zeta in *. specialize (H ltac:(lia)). bool_prop.
  by rewrite Bool.eqb_true_iff in *.
Qed.

Lemma second_byte_inv b :
  z2b (Z.lor (if negb (Z.land (b2z b) 0x80 =? 0) then 0x80 else 0) (Z.land (b2z b) 0x7F)) = b.
Proof.
  pose proof (byte_forall (λ b, Byte.eqb
    (z2b (Z.lor (if negb (Z.land (b2z b) 0x80 =? 0) then 0x80 else 0) (Z.land (b2z b) 0x7F))) b)
    ltac:(vm_compute; reflexivity) b) as Hb.
  by apply byte_eqb_eq in Hb.
Qed.

Lemma short_of_range n : 0 <= n → 0 <= short_of n < 128.
Proof. intros. unfold short_of. repeat case_match; bool_prop; lia. Qed.

(** *** The extended length *)

Lemma high_bit_clear v : 0 <= v < 2 ^ 64 → Z.land v 0x8000000000000000 = 0 ↔ v < 2 ^ 63.
Proof.
  intros Hv. change 0x8000000000000000 with (Z.shiftl 1 63). split.
  - intros H. apply (f_equal (λ x, Z.testbit x 63)) in H.
    rewrite Z.land_spec, Z.shiftl_spec, Z.bits_0 in H by lia.
    change (Z.testbit 1 (63 - 63)) with true in H. rewrite andb_true_r in H.
    apply Z.testbit_false in H; [|lia]. change (2 ^ 64) with (2 * 2 ^ 63) in Hv.
    assert (v / 2 ^ 63 < 2) by (apply Z.div_lt_upper_bound; lia).
    assert (0 <= v / 2 ^ 63) by (apply Z.div_pos; lia).
    rewrite Z.mod_small in H by lia.
    apply Z.div_small_iff in H; lia.
  - intros H. apply Z.bits_inj'. intros i Hi. rewrite Z.land_spec, Z.bits_0.
    destruct (decide (i < 63)).
    + by rewrite Z.shiftl_spec_low, andb_false_r.
    + rewrite (high_bit v 63) by lia. done.
Qed.

Lemma decode_len_ext x y n rest :
  0 <= n < 2 ^ 63 →
  decode_len (x :: y :: ext_of n ++ rest) (short_of n) 2
  = Ok (inr (n, (2 + length (ext_of n))%nat)).
Proof.
  intros Hn. unfold decode_len, short_of, ext_of.
  destruct (n <? 126) eqn:H1; bool_prop.
  { rewrite !(proj2 (Z.eqb_neq _ _)) by lia. done. }
  destruct (n <=? 0xFFFF) eqn:H2; bool_prop; cbn [Z.eqb Pos.eqb].
  - assert (be_val (be_bytes 2 n) = n) as Hv by (apply be_val_bytes; cbn; lia).
    destruct (be_bytes 2 n) as [|b0 [|b1 [|]]] eqn:Hb;
      try (apply (f_equal length) in Hb; rewrite length_be_bytes in Hb; cbn in Hb; lia).
    cbn -[be_val]. rewrite Hv. rewrite (proj2 (Z.ltb_ge _ _)) by lia. done.
  - assert (be_val (be_bytes 8 n) = n) as Hv by (apply be_val_bytes; cbn; lia).
    pose proof (length_be_bytes 8 n) as Hl.
    rewrite (proj2 (Nat.ltb_ge _ _)) by (cbn [length]; len_lia).
    rewrite slice_ok by (cbn [length]; try len_lia).
    change (drop 2 (x :: y :: be_bytes 8 n ++ rest)) with (be_bytes 8 n ++ rest).
    rewrite take_app_length' by done. unfold mbind, result_bind. rewrite Hv.
    rewrite (proj2 (Z.eqb_eq _ _)), (proj2 (Z.leb_gt _ _)) by (lia || by apply high_bit_clear; lia).
    by rewrite Hl.
Qed.

Lemma decode_len_inv x y l s n c :
  0 <= s < 128 →
  decode_len (x :: y :: l) s 2 = Ok (inr (n, c)) →
  s = short_of n ∧ 0 <= n < 2 ^ 63 ∧ c = (2 + length (ext_of n))%nat ∧
  ∃ rest, l = ext_of n ++ rest.
Proof.
  intros Hs. unfold decode_len, short_of, ext_of.
  destruct (s =? 126) eqn:H1; bool_prop; [|destruct (s =? 127) eqn:H2; bool_prop].
  - destruct l as [|b0 [|b1 l]]; [done..|]. cbn -[be_val be_bytes].
    pose proof (be_val_range [b0; b1]) as Hv. cbn [length] in Hv. change (256 ^ _) with 65536 in Hv.
    destruct (be_val [b0; b1] <? 126) eqn:H3; intros [= <- <-]; bool_prop.
    rewrite (proj2 (Z.ltb_ge _ _)), (proj2 (Z.leb_le _ _)), length_be_bytes by lia.
    split_and!; try done; try lia. exists l.
    by rewrite (be_bytes_val [b0; b1] : be_bytes 2 _ = _).
  - destruct (length _ <? 2 + 8)%nat eqn:H3; [done|]. bool_prop. cbn in H3.
    rewrite slice_ok by (cbn; lia). change (drop 2 (x :: y :: l)) with l.
    unfold mbind, result_bind. change (2 + 8 - 2)%nat with 8%nat.
    assert (length (take 8 l) = 8%nat) as Hl by len_lia.
    pose proof (be_val_range (take 8 l)) as Hv. rewrite Hl in Hv. change (256 ^ _) with (2 ^ 64) in Hv.
    destruct (negb _ || _) eqn:H4; intros [= <- <-]; bool_prop.
    apply high_bit_clear in H; [|done].
    rewrite (proj2 (Z.ltb_ge _ _)), (proj2 (Z.leb_gt _ _)), length_be_bytes by lia.
    split_and!; try done; try lia. exists (drop 8 l).
    rewrite <- Hl at 1. by rewrite be_bytes_val, take_drop.
  - intros [= <- <-]. rewrite (proj2 (Z.ltb_lt _ _)) by lia.
    split_and!; try done; try lia. by exists l.
Qed.

(** *** The masking key *)

Lemma decode_mask_key pre key rest :
  decode_mask (pre ++ key_of key ++ rest) (if key is Some _ then true else false) (length pre)
  = Ok (inr (key, (length pre + length (key_of key))%nat)).
Proof.
  unfold decode_mask. destruct key as [[[[k0 k1] k2] k3]|]; [|by rewrite Nat.add_0_r].
  cbn [key_of mask_bytes]. rewrite length_app, (proj2 (Nat.ltb_ge _ _)) by (cbn; lia).
  by rewrite index_app_length, !index_app_r.
Qed.

Lemma decode_mask_inv input m c key c' :
  (c ≤ length input)%nat →
  decode_mask input m c = Ok (inr (key, c')) →
  m = (if key is Some _ then true else false) ∧ c' = (c + length (key_of key))%nat ∧
  ∃ rest, drop c input = key_of key ++ rest.
Proof.
  intros Hc.
  assert (∃ pre l, input = pre ++ l ∧ c = length pre) as (pre & l & -> & ->).
  { exists (take c input), (drop c input). rewrite take_drop, length_take. split; [done|lia]. }
  rewrite drop_app_length. unfold decode_mask. destruct m.
  2: { intros [= <- <-]. cbn. split_and!; [done|lia|]. by eexists. }
  destruct (_ <? _)%nat eqn:Hlt; [done|]. bool_prop. rewrite length_app in Hlt.
  rewrite index_app_length, !index_app_r.
  destruct l as [|k0 [|k1 [|k2 [|k3 l]]]]; try (cbn in Hlt; lia).
  cbn. intros [= <- <-]. split_and!; [done|done|]. by exists l.
Qed.

(** *** The codec against the wire form *)

Lemma decode_unfold x y l max :
  decode (x :: y :: l) max =
  if negb (Z.land (b2z x) 0x70 =? 0) then Err ReservedBitSet else
  let fin := negb (Z.land (b2z x) 0x80 =? 0) in
  match OpCode.from_bits (Z.land (b2z x) 0x0F) with
  | None => Err (ReservedOpCode (Z.land (b2z x) 0x0F))
  | Some opcode =>
      let short_len := Z.land (b2z y) 0x7F in
      if OpCode.is_control opcode && ((125 <? short_len) || negb fin)
      then Err InvalidControlFrame else
      len ← decode_len (x :: y :: l) short_len 2;
      match len with
      | inl i => Ok (inl i)
      | inr (payload_len, cursor) =>
          if max <? payload_len then Err TooLarge else
          key ← decode_mask (x :: y :: l) (negb (Z.land (b2z y) 0x80 =? 0)) cursor;
          match key with
          | inl i => Ok (inl i)
          | inr (mask, cursor) => Ok (inr (mkHeader fin opcode mask payload_len, cursor))
          end
      end
  end.
Proof.
  unfold decode. cbn [length Nat.ltb Nat.leb index lookup list_lookup expect].
  change (index (x :: y :: l) 0) with (@Ok FrameError _ x).
  change (index (x :: y :: l) 1) with (@Ok FrameError _ y).
  cbn [mbind result_bind]. destruct (negb (Z.land (b2z x) 112 =? 0)); [done|].
  by destruct (OpCode.from_bits _).
Qed.

Lemma control_ok o f n :
  (OpCode.is_control o = true → f = true ∧ n <= 125) →
  OpCode.is_control o && ((125 <? short_of n) || negb f) = false.
Proof.
  destruct (OpCode.is_control o); [|done]. intros [-> Hn]; [done|].
  unfold short_of. rewrite (proj2 (Z.ltb_lt n 126)) by lia. by rewrite (proj2 (Z.ltb_ge 125 n)).
Qed.

Lemma decode_wire h rest max :
  wf h → payload_len h <= max →
  decode (wire h ++ rest) max = Ok (inr (h, encoded_len h)).
Proof.
  intros [Hlen Hctl] Hmax. rewrite <- length_wire. destruct h as [f o key n]. unfold wire in *.
  cbn [fin opcode mask payload_len app] in *. rewrite decode_unfold, <- app_assoc.
  destruct (first_byte f o) as (-> & -> & ->).
  destruct (second_byte (if key is Some _ then true else false) (short_of n)) as [H1 H2].
  { apply short_of_range. lia. }
  assert (∀ z, Z.lor (if key is Some _ then 0x80 else 0) z
    = Z.lor (if (if key is Some _ then true else false) then 0x80 else 0) z) as -> by by destruct key.
  rewrite H1, H2, OpCode.from_to_bits. cbn [negb Z.eqb]. cbn zeta.
  rewrite control_ok by done.
  rewrite decode_len_ext by done. cbn [mbind result_bind].
  rewrite (proj2 (Z.ltb_ge _ _)) by lia.
  set (b0 := z2b _). set (b1 := z2b _).
  pose proof (decode_mask_key (b0 :: b1 :: ext_of n) key rest) as Hk. cbn [app length] in Hk.
  change (2 + length (ext_of n))%nat with (S (S (length (ext_of n)))). rewrite Hk.
  cbn. do 4 f_equal. rewrite length_app. done.
Qed.

Lemma decode_inv input max h n :
  decode input max = Ok (inr (h, n)) →
  wf h ∧ payload_len h <= max ∧ n = encoded_len h ∧ ∃ rest, input = wire h ++ rest.
Proof.
  destruct input as [|x [|y l]]; [done..|]. rewrite decode_unfold.
  destruct (negb (Z.land (b2z x) 112 =? 0)) eqn:Hrsv; [done|]. bool_prop.
  destruct (OpCode.from_bits _) as [o|] eqn:Ho; [|done]. cbn zeta.
  apply OpCode.from_bits_Some in Ho.
  destruct (_ && _) eqn:Hctl; [done|].
  destruct (decode_len _ _ _) as [[|[len c]]| | |] eqn:Hlen; try done.
  cbn [mbind result_bind]. destruct (max <? len) eqn:Hmax; [done|]. bool_prop.
  destruct (decode_mask _ _ _) as [[|[key c']]| | |] eqn:Hkey; try done.
  intros [= <- <-].
  assert (0 <= Z.land (b2z y) 0x7F < 128) as Hshort.
  { rewrite Z.land_comm. apply (land_range 7); lia. }
  apply decode_len_inv in Hlen as (Hs & Hn & -> & rest & ->); [|done].
  apply decode_mask_inv in Hkey as (Hm & -> & rest' & Hdrop).
  2: { cbn [length]. rewrite length_app. lia. }
  cbn [drop Nat.add] in Hdrop. rewrite drop_app_length in Hdrop. subst rest.
  set (h := mkHeader _ o key len).
  assert (x :: y :: ext_of len ++ key_of key ++ rest' = wire h ++ rest') as ->.
  { unfold wire, h. cbn [fin opcode mask payload_len app]. rewrite <- app_assoc.
    rewrite <- Ho, first_byte_inv by done. f_equal. f_equal.
    rewrite <- (second_byte_inv y) at 1. by rewrite Hm, Hs; destruct key. }
  assert ((2 + length (ext_of len) + length (key_of key))%nat = encoded_len h) as ->.
  { rewrite <- length_wire. unfold wire, h. cbn. rewrite length_app. done. }
  split; [|split_and!; [done|done|by eexists]].
  split; [exact Hn|]. unfold h. cbn [opcode fin payload_len]. intros Hc.
  rewrite Hc in Hctl. destruct Hctl as [|[Hctl ->%negb_false_iff]%orb_false_iff]; [done|].
  bool_prop. split; [done|]. rewrite Hs in *. unfold short_of in *. repeat case_match; bool_prop; lia.
Qed.

(** *** More bytes do not change a decision *)

Lemma decode_len_app input more s c r :
  decode_len input s c = r → r ≠ Ok (inl incomplete) →
  decode_len (input ++ more) s c = r.
Proof.
  intros <-. unfold decode_len. rewrite length_app.
  destruct (s =? 126); [|destruct (s =? 127); [|done]].
  - destruct (length input <? c + 2)%nat eqn:H; [done|]. bool_prop. intros _.
    rewrite (proj2 (Nat.ltb_ge _ _)) by lia. by rewrite !index_app_l by lia.
  - destruct (length input <? c + 8)%nat eqn:H; [done|]. bool_prop. intros _.
    rewrite (proj2 (Nat.ltb_ge _ _)) by lia. by rewrite !slice_app_l by lia.
Qed.

Lemma decode_mask_app input more m c r :
  decode_mask input m c = r → r ≠ Ok (inl incomplete) →
  decode_mask (input ++ more) m c = r.
Proof.
  intros <-. unfold decode_mask. rewrite length_app. destruct m; [|done].
  destruct (length input <? c + 4)%nat eqn:H; [done|]. bool_prop. intros _.
  rewrite (proj2 (Nat.ltb_ge _ _)) by lia. by rewrite !index_app_l by lia.
Qed.

Lemma decode_app input more max r :
  decode input max = r → r ≠ Ok (inl incomplete) → decode (input ++ more) max = r.
Proof.
  intros <-. destruct input as [|x [|y l]]; [done..|].
  change ((x :: y :: l) ++ more) with (x :: y :: l ++ more). rewrite !decode_unfold.
  case_match; [done|]. cbn zeta. case_match; [|done]. case_match; [done|].
  destruct (decode_len (x :: y :: l) _ _) as [[[]|[len c]]| | |] eqn:Hlen; cbn [mbind result_bind];
    intros Hr; try (by destruct Hr);
    pose proof (decode_len_app _ more _ _ _ Hlen ltac:(done)) as Hlen'; cbn [app] in Hlen';
    rewrite Hlen'; try done.
  cbn [mbind result_bind] in *.
  case_match; [done|].
  destruct (decode_mask (x :: y :: l) _ _) as [[[]|[key c']]| | |] eqn:Hkey; try (by destruct Hr);
    pose proof (decode_mask_app _ more _ _ _ Hkey ltac:(done)) as Hkey'; cbn [app] in Hkey';
    by rewrite Hkey'.
Qed.

Lemma decode_len_returns x y l s :
  (∃ p, decode_len (x :: y :: l) s 2 = Ok p ∧
    match p with inl _ => length l < 8 | inr (_, c) => 2 ≤ c ≤ 10 ∧ c ≤ length (x :: y :: l) end%nat)
  ∨ decode_len (x :: y :: l) s 2 = Err InvalidLength.
Proof.
  unfold decode_len. destruct (s =? 126); [|destruct (s =? 127); [|left; eexists; split; [done|]; cbn; lia]].
  - destruct (_ <? _)%nat eqn:H; bool_prop; [left; eexists; split; [done|]; cbn in *; lia|].
    destruct l as [|b0 [|b1 l]]; try (cbn in H; lia). cbn -[be_val].
    destruct (be_val [b0; b1] <? 126); [by right|left]. eexists; split; [done|]. cbn. lia.
  - destruct (_ <? _)%nat eqn:H; bool_prop; [left; eexists; split; [done|]; cbn in *; lia|].
    rewrite slice_ok by lia. cbn [mbind result_bind].
    destruct (negb _ || _); [by right|left]. eexists; split; [done|]. cbn in *. lia.
Qed.

Lemma decode_mask_returns input m c :
  ∃ p, decode_mask input m c = Ok p ∧
    match p with inl _ => (length input < c + 4)%nat | _ => True end.
Proof.
  unfold decode_mask. destruct m; [|by eexists].
  destruct (_ <? _)%nat eqn:H; bool_prop; [by eexists|].
  destruct (@index_lt FrameError _ input c) as (? & _ & ->); [lia|].
  destruct (@index_lt FrameError _ input (c + 1)) as (? & _ & ->); [lia|].
  destruct (@index_lt FrameError _ input (c + 2)) as (? & _ & ->); [lia|].
  destruct (@index_lt FrameError _ input (c + 3)) as (? & _ & ->); [lia|].
  by eexists.
Qed.

(** Decoding never panics, and fourteen bytes always decide. *)
Lemma decode_returns input max :
  returns (decode input max) ∧
  (decode input max = Ok (inl incomplete) → (length input < MAX_ENCODED_LEN)%nat).
Proof.
  unfold MAX_ENCODED_LEN. destruct input as [|x [|y l]]; [cbn; split; [done|lia]..|].
  rewrite decode_unfold. case_match; [done|]. cbn zeta. case_match; [|done]. case_match; [done|].
  destruct (decode_len_returns x y l (Z.land (b2z y) 127)) as [([?|[len c]] & -> & Hp)| ->];
    [..|done]; cbn [mbind result_bind].
  { split; [done|]. cbn. lia. }
  case_match; [done|].
  destruct (decode_mask_returns (x :: y :: l) (negb (Z.land (b2z y) 128 =? 0)) c)
    as ([?|[key c']] & -> & Hk); cbn [mbind result_bind]; [|done].
  split; [done|]. cbn in *. lia.
Qed.

(** *** Encoding *)

Lemma encode_spec {E} h out :
  0 <= payload_len h →
  @encode E h out =
    if (length out <? encoded_len h)%nat then (Ok None, out)
    else (Ok (Some (encoded_len h)), wire h ++ drop (encoded_len h) out).
Proof.
  intros Hpos. unfold encode. rewrite (bind_ok st_get _ out out out) by done. cbn zeta beta.
  destruct (length out <? encoded_len h)%nat eqn:Hout; [reflexivity|]. bool_prop.
  assert (length (wire h) = encoded_len h) as Hwire by apply length_wire.
  rewrite <- Hwire in *. clear Hwire. destruct h as [f o key n]. unfold wire in *.
  cbn [fin opcode mask payload_len] in *.
  set (b0 := z2b _) in *.
  assert (set_index 0 b0 out = (@Ok E _ tt, [b0] ++ drop 1 out)) as H0.
  { apply (set_index_next [] b0 out). rewrite length_app in Hout. cbn in *. lia. }
  rewrite length_app in Hout. cbn [length] in Hout.
  assert (∀ v, @set_index E _ 1 v ([b0] ++ drop 1 out) = (Ok tt, [b0; v] ++ drop 2 out)) as H1.
  { intros v. apply (set_index_next [b0] v out). cbn. lia. }
  unfold mbind at 1, stM_bind at 1. rewrite H0.
  set (k := Z.lor _ (short_of n)) in *.
  set (w := [b0; z2b k] ++ ext_of n).
(* the length field *)
match goal with |- (?m ≫= _) _ = _ =>
  assert (m ([b0] ++ drop 1 out) = (Ok (length w), w ++ drop (length w) out)) as Hlen end.
{ unfold w, k, ext_of, short_of in *. rewrite length_app in Hout.
  destruct (n <? 126) eqn:Hn1; bool_prop; [|destruct (n <=? 0xFFFF) eqn:Hn2; bool_prop].
  - unfold mbind, stM_bind. rewrite H1, b2z_z2b_small by lia. by destruct key.
  - unfold mbind, stM_bind. rewrite H1. rewrite length_be_bytes in Hout.
    unfold wrap_to. rewrite Z.mod_small by lia.
    rewrite (copy_from_slice_next [b0; _]) by (rewrite ?length_be_bytes; cbn in *; lia).
    rewrite length_app, length_be_bytes. by destruct key.
  - unfold mbind, stM_bind. rewrite H1. rewrite length_be_bytes in Hout.
    rewrite (copy_from_slice_next [b0; _]) by (rewrite ?length_be_bytes; cbn in *; lia).
    rewrite length_app, length_be_bytes. by destruct key. }
rewrite (bind_ok _ _ _ _ _ Hlen). clear Hlen H0 H1. rewrite length_app in Hout.
destruct key as [key|]; cbn [key_of].
- unfold mbind, stM_bind. cbn [key_of] in Hout. rewrite length_mask_bytes in Hout.
  rewrite (copy_from_slice_next w)
    by (rewrite ?length_mask_bytes; unfold w; rewrite ?length_app; cbn in *; lia).
  cbn [mret stM_ret]. rewrite !length_app, length_mask_bytes. unfold w.
  rewrite !length_app, <- !app_assoc. cbn [length]. done.
- rewrite app_nil_r. done.
Qed.

(** ** Properties *)

(** C16: writing a well-formed header into a large enough buffer and decoding
    that buffer gives the header back and reports the length that was written;
    the buffer keeps its size and its bytes past the header. *)
Theorem decode_encode_roundtrip h out max :
  wf h → payload_len h <= max → (encoded_len h ≤ length out)%nat →
  ∃ buf, @encode Empty_set h out = (Ok (Some (encoded_len h)), buf) ∧
    length buf = length out ∧ drop (encoded_len h) buf = drop (encoded_len h) out ∧
    decode buf max = Ok (inr (h, encoded_len h)).
Proof.
  intros Hwf Hmax Hout. exists (wire h ++ drop (encoded_len h) out).
  rewrite encode_spec by apply Hwf. rewrite (proj2 (Nat.ltb_ge _ _)) by done.
  rewrite decode_wire, length_app, length_wire, length_drop, drop_app_length' by
    first [done | by rewrite length_wire].
  split_and!; try done. lia.
Qed.

(** C17: decoding is canonical. A header that decodes is well formed and within
    the limit, and the bytes it was read from are the ones [encode] writes for
    it: no header has two accepted encodings. *)
Theorem decode_canonical input max h n :
  decode input max = Ok (inr (h, n)) →
  wf h ∧ payload_len h <= max ∧ (n ≤ length input)%nat ∧
  ∀ out, (n ≤ length out)%nat →
    @encode Empty_set h out = (Ok (Some n), take n input ++ drop n out).
Proof.
  intros (Hwf & Hmax & -> & rest & ->)%decode_inv.
  rewrite length_app, take_app_length', length_wire by by rewrite length_wire.
  split_and!; [apply Hwf..|done|lia|]. intros out Hout.
  rewrite encode_spec, (proj2 (Nat.ltb_ge _ _)) by (done || apply Hwf). done.
Qed.

(** Decoding is incremental. Once a prefix of the stream decides, with a
    header or with an error, any longer prefix decides the same way. *)
Lemma decode_prefix_stable input more max :
  decode input max ≠ Ok (inl incomplete) → decode (input ++ more) max = decode input max.
Proof. intros. by apply decode_app. Qed.

(** Decoding returns on every input, without an out-of-range access, and
    fourteen bytes ([MAX_ENCODED_LEN]) are always enough to decide. *)
Lemma decode_decides input max :
  returns (decode input max) ∧
  (decode input max = Ok (inl incomplete) → (length input < MAX_ENCODED_LEN)%nat).
Proof. apply decode_returns. Qed.

(** The limit is enforced from the length field alone: the two fixed bytes
    and the extended length of an oversized frame are refused with [TooLarge],
    before its masking key or any payload. *)
Lemma decode_too_large_early h more max :
  wf h → max < payload_len h →
  decode (take (2 + length (ext_of (payload_len h))) (wire h) ++ more) max = Err TooLarge.
Proof.
  intros [Hlen Hctl] Hmax. destruct h as [f o key n]. unfold wire.
  cbn [fin opcode mask payload_len app] in *.
  change (take (2 + ?k) (?a :: ?b :: ?l)) with (a :: b :: take k l).
  rewrite take_app_length. cbn [app]. rewrite decode_unfold.
  destruct (first_byte f o) as (-> & -> & ->).
  destruct (second_byte (if key is Some _ then true else false) (short_of n)) as [H1 H2].
  { apply short_of_range. lia. }
  assert (∀ z, Z.lor (if key is Some _ then 0x80 else 0) z
    = Z.lor (if (if key is Some _ then true else false) then 0x80 else 0) z) as -> by by destruct key.
  rewrite H1, H2, OpCode.from_to_bits. cbn [negb Z.eqb]. cbn zeta.
  rewrite control_ok by done. rewrite decode_len_ext by done. cbn [mbind result_bind].
  by rewrite (proj2 (Z.ltb_lt _ _)).
Qed.

(** The first two bytes alone decide the three framing errors of the fixed
    header: a reserved bit, then a reserved opcode, then a control frame that
    is fragmented or longer than 125 bytes; nothing else in the frame does. *)
Lemma decode_fixed_errors x y l max :
  (decode (x :: y :: l) max = Err ReservedBitSet ↔ Z.land (b2z x) 0x70 ≠ 0) ∧
  (∀ bits, decode (x :: y :: l) max = Err (ReservedOpCode bits) ↔
    Z.land (b2z x) 0x70 = 0 ∧ bits = Z.land (b2z x) 0x0F ∧ OpCode.from_bits bits = None) ∧
  (decode (x :: y :: l) max = Err InvalidControlFrame ↔
    Z.land (b2z x) 0x70 = 0 ∧
    ∃ o, OpCode.from_bits (Z.land (b2z x) 0x0F) = Some o ∧ OpCode.is_control o = true ∧
      (Z.land (b2z x) 0x80 = 0 ∨ 125 < Z.land (b2z y) 0x7F)).
Proof.
  assert (∀ s fin' m o e,
    (len ← decode_len (x :: y :: l) s 2;
     match len with
     | inl i => Ok (inl i)
     | inr (payload_len, cursor) =>
         if max <? payload_len then Err TooLarge else
         key ← decode_mask (x :: y :: l) m cursor;
         match key with
         | inl i => Ok (inl i)
         | inr (mask, cursor) => Ok (inr (mkHeader fin' o mask payload_len, cursor))
         end
     end) = Err e → e = InvalidLength ∨ e = TooLarge) as Hlate.
  { intros s fin' m o e.
    destruct (decode_len_returns x y l s) as [([?|[len c]] & -> & Hp)| ->]; cbn [mbind result_bind];
      [done| |by intros [= <-]; left].
    case_match; [intros [= <-]; by right|].
    destruct (decode_mask_returns (x :: y :: l) m c) as ([?|[key c']] & -> & Hk); done. }
  rewrite decode_unfold. cbn zeta.
  destruct (Z.land (b2z x) 0x70 =? 0) eqn:Hrsv; bool_prop; cbn [negb];
    [|split_and!; naive_solver].
  destruct (OpCode.from_bits _) as [o|] eqn:Ho; [|split_and!; naive_solver].
  destruct (OpCode.is_control o && _) eqn:Hctl.
  - split_and!; [naive_solver..|]. split; [intros _; split; [done|]|done]. exists o.
    bool_prop. split_and!; [done..|]. destruct H0; bool_prop; [by right|by left].
  - split_and!; [|intros bits|]; split; intros H; try done;
      try (apply Hlate in H; naive_solver); [naive_solver|].
    destruct H as (_ & o' & [= <-] & Hc & Hl). rewrite Hc in Hctl. cbn [andb] in Hctl.
    bool_prop. destruct Hl; lia.
Qed.
End Header.

(** *** The properties at concrete headers *)

Definition sample_header : Header := mkHeader true Text (Some (x37, xfa, x21, x3d)) 300.
Lemma sample_header_wf : Header.wf sample_header.
Proof. split; [cbn; lia|done]. Qed.

Lemma decode_encode_roundtrip_witness :
  ∃ buf, @Header.encode Empty_set sample_header (replicate 14 x00) = (Ok (Some 8%nat), buf) ∧
    length buf = 14%nat ∧ drop 8 buf = replicate 6 x00 ∧
    Header.decode buf 1000 = Ok (inr (sample_header, 8%nat)).
Proof.
  apply (Header.decode_encode_roundtrip sample_header (replicate 14 x00) 1000).
  - apply sample_header_wf.
  - vm_compute. discriminate.
  - vm_compute. repeat constructor.
Defined.

Lemma decode_canonical_witness :
  let input := [x81; x85; x37; xfa; x21; x3d; x7f] in
  let h := mkHeader true Text (Some (x37, xfa, x21, x3d)) 5 in
  Header.wf h ∧ 5 <= 125 ∧ (6 ≤ 7)%nat ∧
  ∀ out, (6 ≤ length out)%nat →
    @Header.encode Empty_set h out = (Ok (Some 6%nat), take 6 input ++ drop 6 out).
Proof. exact (Header.decode_canonical [x81; x85; x37; xfa; x21; x3d; x7f] 125 _ _ eq_refl). Defined.

Lemma decode_prefix_stable_witness :
  Header.decode ([xc1; x00] ++ [x05; x06]) 10 = Err ReservedBitSet.
Proof. by rewrite (Header.decode_prefix_stable [xc1; x00] [x05; x06] 10). Defined.

Lemma decode_too_large_early_witness :
  Header.decode ([x81; xfe; x01; x2c] ++ [x00]) 100 = Err TooLarge.
Proof.
  exact (Header.decode_too_large_early sample_header [x00] 100 sample_header_wf eq_refl).
Defined.
