(* ===== verification/Utf8.v ===== *)
(** * UTF-8

    Rust's [core::str::from_utf8] as the validation the standard library
    documents (the well-formed byte sequences of the Unicode standard), and its
    specification: the valid sequences are the concatenations of encoded scalar
    values. The vectorised validator of the [simdutf8] crate, which the crate
    uses when the [simd-utf8] feature is on, is a parameter. *)
From Stdlib Require Import ZArith Lia Strings.Byte.
From stdpp Require Import base option list.
From S2P Require Import Prelude Bytes.

(** A [&str] or [String] is its bytes. *)
Abbreviation str := (list byte).

Definition byte_in (lo hi : Z) (b : byte) : bool := (lo <=? b2z b) && (b2z b <=? hi).
Definition is_cont (b : byte) : bool := byte_in 0x80 0xBF b.

(** The second byte a three- or four-byte sequence may continue with. *)
Definition second3 (b0 : byte) : byte → bool :=
  if b2z b0 =? 0xE0 then byte_in 0xA0 0xBF
  else if b2z b0 =? 0xED then byte_in 0x80 0x9F else is_cont.
Definition second4 (b0 : byte) : byte → bool :=
  if b2z b0 =? 0xF0 then byte_in 0x90 0xBF
  else if b2z b0 =? 0xF4 then byte_in 0x80 0x8F else is_cont.

(** [core::str::from_utf8(l).is_ok()] *)
Fixpoint from_utf8 (l : list byte) : bool :=
  match l with
  | [] => true
  | b0 :: l =>
      if b2z b0 <? 0x80 then from_utf8 l
      else if byte_in 0xC2 0xDF b0 then
        match l with b1 :: l => is_cont b1 && from_utf8 l | [] => false end
      else if byte_in 0xE0 0xEF b0 then
        match l with
        | b1 :: b2 :: l => second3 b0 b1 && is_cont b2 && from_utf8 l
        | _ => false
        end
      else if byte_in 0xF0 0xF4 b0 then
        match l with
        | b1 :: b2 :: b3 :: l => second4 b0 b1 && is_cont b2 && is_cont b3 && from_utf8 l
        | _ => false
        end
      else false
  end.

(** The vectorised validator, and whether the feature selects it. *)
Class Utf8Impl := {
  simd_utf8 : bool;
  simdutf8_basic_from_utf8 : list byte → bool;
}.
(** The crate's documented contract: it accepts what the standard library does. *)
Class Utf8ImplOk (U : Utf8Impl) :=
  simdutf8_agrees : ∀ l, simdutf8_basic_from_utf8 l = from_utf8 l.

(** ** Specification *)

(** A Unicode scalar value. *)
Definition scalar (c : Z) : Prop := 0 <= c < 0xD800 ∨ 0xE000 <= c < 0x110000.

(** Its encoding. *)
Definition encode_char (c : Z) : list byte :=
  if c <? 0x80 then [z2b c]
  else if c <? 0x800 then [z2b (0xC0 + c / 64); z2b (0x80 + c mod 64)]
  else if c <? 0x10000 then
    [z2b (0xE0 + c / 4096); z2b (0x80 + c / 64 mod 64); z2b (0x80 + c mod 64)]
  else
    [z2b (0xF0 + c / 262144); z2b (0x80 + c / 4096 mod 64);
     z2b (0x80 + c / 64 mod 64); z2b (0x80 + c mod 64)].

Lemma byte_in_spec lo hi b : byte_in lo hi b = true ↔ lo <= b2z b <= hi.
Proof. unfold byte_in. rewrite andb_true_iff, !Z.leb_le. lia. Qed.
Lemma byte_in_false lo hi b : byte_in lo hi b = false ↔ b2z b < lo ∨ hi < b2z b.
Proof. unfold byte_in. rewrite andb_false_iff, !Z.leb_gt. lia. Qed.

Ltac zdiv := Z.to_euclidean_division_equations; lia.

Lemma from_utf8_encode c l : scalar c → from_utf8 (encode_char c ++ l) = from_utf8 l.
Proof.
  intros Hc. unfold encode_char, scalar in *.
  destruct (c <? 0x80) eqn:H1; [|destruct (c <? 0x800) eqn:H2; [|destruct (c <? 0x10000) eqn:H3]];
    bool_prop; cbn [app from_utf8].
  - rewrite b2z_z2b_small by lia. by rewrite (proj2 (Z.ltb_lt _ _)).
  - assert (b2z (z2b (192 + c / 64)) = 192 + c / 64) as E0 by (apply b2z_z2b_small; zdiv).
    assert (b2z (z2b (128 + c mod 64)) = 128 + c mod 64) as E1 by (apply b2z_z2b_small; zdiv).
    rewrite (proj2 (Z.ltb_ge _ _)) by (rewrite E0; zdiv).
    unfold is_cont. by rewrite !(proj2 (byte_in_spec _ _ _)) by (rewrite ?E0, ?E1; zdiv).
  - assert (b2z (z2b (224 + c / 4096)) = 224 + c / 4096) as E0 by (apply b2z_z2b_small; zdiv).
    assert (b2z (z2b (128 + c / 64 mod 64)) = 128 + c / 64 mod 64) as E1
      by (apply b2z_z2b_small; zdiv).
    assert (b2z (z2b (128 + c mod 64)) = 128 + c mod 64) as E2 by (apply b2z_z2b_small; zdiv).
    rewrite (proj2 (Z.ltb_ge _ _)) by (rewrite E0; zdiv).
    rewrite (proj2 (byte_in_false 194 223 _)) by (rewrite E0; zdiv).
    unfold is_cont. rewrite !(proj2 (byte_in_spec _ _ _)) by (rewrite ?E0, ?E2; zdiv).
    unfold second3, is_cont. rewrite E0.
    destruct (_ =? 0xE0) eqn:Ha; [|destruct (_ =? 0xED) eqn:Hb]; bool_prop;
      by rewrite (proj2 (byte_in_spec _ _ _)) by (rewrite E1; zdiv).
  - assert (b2z (z2b (240 + c / 262144)) = 240 + c / 262144) as E0 by (apply b2z_z2b_small; zdiv).
    assert (b2z (z2b (128 + c / 4096 mod 64)) = 128 + c / 4096 mod 64) as E1
      by (apply b2z_z2b_small; zdiv).
    assert (b2z (z2b (128 + c / 64 mod 64)) = 128 + c / 64 mod 64) as E2
      by (apply b2z_z2b_small; zdiv).
    assert (b2z (z2b (128 + c mod 64)) = 128 + c mod 64) as E3 by (apply b2z_z2b_small; zdiv).
    rewrite (proj2 (Z.ltb_ge _ _)) by (rewrite E0; zdiv).
    rewrite (proj2 (byte_in_false 194 223 _)), (proj2 (byte_in_false 224 239 _))
      by (rewrite E0; zdiv).
    unfold is_cont. rewrite !(proj2 (byte_in_spec _ _ _)) by (rewrite ?E0, ?E2, ?E3; zdiv).
    unfold second4, is_cont. rewrite E0.
    destruct (_ =? 0xF0) eqn:Ha; [|destruct (_ =? 0xF4) eqn:Hb]; bool_prop;
      by rewrite (proj2 (byte_in_spec _ _ _)) by (rewrite E1; zdiv).
Qed.

(** A valid non-empty text starts with an encoded scalar value. *)
Lemma from_utf8_inv b l :
  from_utf8 (b :: l) = true →
  ∃ c rest, scalar c ∧ b :: l = encode_char c ++ rest ∧ from_utf8 rest = true.
Proof.
  cbn [from_utf8]. pose proof (b2z_range b) as Hb.
  assert (∀ x n, n = b2z x → z2b n = x) as Hz by (intros x n ->; apply z2b_b2z).
  destruct (b2z b <? 0x80) eqn:H1; bool_prop.
  { intros. exists (b2z b), l. unfold scalar, encode_char.
    rewrite (proj2 (Z.ltb_lt _ _)), z2b_b2z by lia. split_and!; [lia|done|done]. }
  destruct (byte_in 0xC2 0xDF b) eqn:H2.
  { apply byte_in_spec in H2. destruct l as [|b1 l]; [done|]. intros [Hc ?]%andb_true_iff.
    apply byte_in_spec in Hc. exists ((b2z b - 192) * 64 + (b2z b1 - 128)), l.
    unfold scalar, encode_char. rewrite (proj2 (Z.ltb_ge _ _)), (proj2 (Z.ltb_lt _ _)) by lia.
    rewrite (Hz b), (Hz b1) by zdiv. split_and!; [lia|done|done]. }
  destruct (byte_in 0xE0 0xEF b) eqn:H3.
  { apply byte_in_spec in H3. destruct l as [|b1 [|b2 l]]; [done..|].
    intros [[Hs Hc]%andb_true_iff ?]%andb_true_iff.
    apply byte_in_spec in Hc. exists ((b2z b - 224) * 4096 + (b2z b1 - 128) * 64 + (b2z b2 - 128)), l.
    unfold second3, is_cont in Hs.
    assert (128 <= b2z b1 <= 191 ∧ (b2z b = 224 → 160 <= b2z b1) ∧ (b2z b = 237 → b2z b1 <= 159))
      as (? & ? & ?).
    { repeat case_match; bool_prop; apply byte_in_spec in Hs; lia. }
    unfold scalar, encode_char. rewrite !(proj2 (Z.ltb_ge _ _)), (proj2 (Z.ltb_lt _ _)) by lia.
    rewrite (Hz b), (Hz b1), (Hz b2) by zdiv. split_and!; [lia|done|done]. }
  destruct (byte_in 0xF0 0xF4 b) eqn:H4; [|done].
  apply byte_in_spec in H4. destruct l as [|b1 [|b2 [|b3 l]]]; [done..|].
  intros [[[Hs Hc]%andb_true_iff Hc']%andb_true_iff ?]%andb_true_iff.
  apply byte_in_spec in Hc, Hc'.
  exists ((b2z b - 240) * 262144 + (b2z b1 - 128) * 4096 + (b2z b2 - 128) * 64 + (b2z b3 - 128)), l.
  unfold second4, is_cont in Hs.
  assert (128 <= b2z b1 <= 191 ∧ (b2z b = 240 → 144 <= b2z b1) ∧ (b2z b = 244 → b2z b1 <= 143))
    as (? & ? & ?).
  { repeat case_match; bool_prop; apply byte_in_spec in Hs; lia. }
  unfold scalar, encode_char. rewrite !(proj2 (Z.ltb_ge _ _)) by lia.
  rewrite (Hz b), (Hz b1), (Hz b2), (Hz b3) by zdiv. split_and!; [lia|done|done].
Qed.

Lemma encode_char_nonempty c : (1 ≤ length (encode_char c))%nat.
Proof. unfold encode_char. repeat case_match; cbn; lia. Qed.

Lemma from_utf8_chars l :
  from_utf8 l = true ↔ ∃ cs, Forall scalar cs ∧ l = cs ≫= encode_char.
Proof.
  split.
  - induction l as [l IH] using list_len_ind. destruct l as [|b l]; [by exists []|].
    intros (c & rest & Hc & Hl & Hrest)%from_utf8_inv. rewrite Hl in IH |- *.
    destruct (IH rest) as (cs & Hcs & ->); [|done|].
    { rewrite length_app. pose proof (encode_char_nonempty c). lia. }
    exists (c :: cs). split; [by constructor|done].
  - intros (cs & Hcs & ->). induction Hcs as [|c cs Hc Hcs IH]; [done|].
    cbn [mbind list_bind]. by rewrite from_utf8_encode.
Qed.

(** Valid text in front does not affect validity. *)
Lemma from_utf8_app a b : from_utf8 a = true → from_utf8 (a ++ b) = from_utf8 b.
Proof.
  intros (cs & Hcs & ->)%from_utf8_chars. induction Hcs as [|c cs Hc Hcs IH]; [done|].
  cbn [mbind list_bind]. by rewrite <- app_assoc, from_utf8_encode.
Qed.

Lemma from_utf8_app_true a b :
  from_utf8 a = true → from_utf8 b = true → from_utf8 (a ++ b) = true.
Proof. intros. by rewrite from_utf8_app. Qed.

Definition ascii (l : list byte) : bool := forallb (λ b, b2z b <? 0x80) l.

Lemma from_utf8_ascii l : ascii l = true → from_utf8 l = true.
Proof.
  induction l as [|b l IH]; [done|]. cbn [ascii forallb from_utf8].
  intros [-> Hl]%andb_true_iff. by apply IH.
Qed.

#[export] Hint Resolve from_utf8_app_true from_utf8_ascii : wss.

(** The euro sign and a lone surrogate. *)
Example from_utf8_euro : from_utf8 [xe2; x82; xac] = true.
Proof. reflexivity. Qed.
Example from_utf8_surrogate : from_utf8 [xed; xa0; x80] = false.
Proof. reflexivity. Qed.

(** *** The two builds, for concrete runs *)
Definition utf8_simd : Utf8Impl := {| simd_utf8 := true; simdutf8_basic_from_utf8 := from_utf8 |}.
Lemma utf8_simd_ok : Utf8ImplOk utf8_simd.
Proof. done. Qed.
