(* ===== verification/Message.v ===== *)
(** * Messages: reassembly, validation, closing ([src/proto/message.rs])

    The [Assembler] turns decoded frames into messages. Its methods take
    [&mut self], so they are functions in the state monad over the [Assembler]
    record; its [unreachable!] and [expect] are [Panic]. *)
From Stdlib Require Import ZArith Lia Strings.Byte.
From stdpp Require Import base option list.
From S2P Require Import Prelude Bytes Opcode Utf8.

(** [struct CloseFrame] *)
Record CloseFrame : Type := mkCloseFrame {
  close_code : CloseCode;
  reason : list byte;
}.

#[export] Instance CloseFrame_eq_dec : EqDecision CloseFrame.
Proof. solve_decision. Defined.

Module Message.
(** [enum Message] *)
Inductive t : Type :=
| Text (payload : list byte)
| Binary (payload : list byte)
| Ping (payload : list byte)
| Pong (payload : list byte)
| Close (frame : option CloseFrame).

#[global] Instance eq_dec : EqDecision t.
Proof. solve_decision. Defined.
End Message.
Abbreviation Message := Message.t.

Inductive ProtocolError : Set :=
| UnexpectedContinuation
| InterleavedDataFrame
| InvalidUtf8
| MalformedCloseFrame
| InvalidCloseCode
| MessageTooLarge.

#[export] Instance ProtocolError_eq_dec : EqDecision ProtocolError.
Proof. solve_decision. Defined.

Record Limits : Type := mkLimits {
  max_frame : Z;    (** [u64] *)
  max_message : Z;  (** [usize] *)
}.
(** [impl Default for Limits] *)
Definition Limits_default : Limits := mkLimits (16 * 1024 * 1024) (16 * 1024 * 1024).

Record Assembler : Type := mkAssembler {
  limits : Limits;
  partial : option (OpCode * list byte);
  closed : bool;
}.

Definition set_partial (p : option (OpCode * list byte)) (a : Assembler) : Assembler :=
  mkAssembler (limits a) p (closed a).
Definition set_closed (c : bool) (a : Assembler) : Assembler :=
  mkAssembler (limits a) (partial a) c.

Lemma set_partial_id p a : partial a = p → set_partial p a = a.
Proof. intros <-. by destruct a. Qed.

Section Message.
Context {U : Utf8Impl}.

(** [fn is_utf8]: the feature decides which validator answers. *)
Definition is_utf8 (payload : list byte) : bool :=
  if simd_utf8 then simdutf8_basic_from_utf8 payload else from_utf8 payload.

(** [fn parse_close_body] *)
Definition parse_close_body (payload : list byte) : result ProtocolError (option CloseFrame) :=
  if (length payload =? 0)%nat then Ok None else
  if (length payload =? 1)%nat then Err MalformedCloseFrame else
  b0 ← index payload 0;
  b1 ← index payload 1;
  let code := mkCloseCode (be_val [b0; b1]) in
  if negb (CloseCode.is_sendable code) then Err InvalidCloseCode else
  reason ← slice payload 2 (length payload);
  if negb (is_utf8 reason) then Err InvalidUtf8 else
  Ok (Some (mkCloseFrame code reason)).
End Message.

(** With either validator, [is_utf8] accepts exactly the concatenations of
    encoded Unicode scalar values. *)
Lemma is_utf8_spec `{U : Utf8Impl, !Utf8ImplOk U} payload :
  is_utf8 payload = true ↔ ∃ cs, Forall scalar cs ∧ payload = cs ≫= encode_char.
Proof.
  rewrite <- from_utf8_chars. unfold is_utf8. by destruct simd_utf8; rewrite ?simdutf8_agrees.
Qed.

Lemma is_utf8_from_utf8 `{U : Utf8Impl, !Utf8ImplOk U} payload :
  is_utf8 payload = from_utf8 payload.
Proof. unfold is_utf8. by destruct simd_utf8; rewrite ?simdutf8_agrees. Qed.

Module Assembler.
Section Assembler.
Context {T : Target} {U : Utf8Impl}.

(** [Assembler::new] *)
Definition new (limits : Limits) : Assembler := mkAssembler limits None false.

(** [Assembler::is_closed] *)
Definition is_closed (a : Assembler) : bool := closed a.

Abbreviation M := (stM Assembler ProtocolError).

(** [self.partial.take()] *)
Definition take_partial : M (option (OpCode * list byte)) :=
  λ a, (Ok (partial a), set_partial None a).

(** [Assembler::finish_unfragmented] *)
Definition finish_unfragmented (kind : OpCode) (payload : list byte) : M Message :=
  match kind with
  | Text => if negb (is_utf8 payload) then st_throw InvalidUtf8 else mret (Message.Text payload)
  | Binary => mret (Message.Binary payload)
  | _ => st_lift Panic
  end.

(** [Assembler::finish] *)
Definition finish (kind : OpCode) (buffer : list byte) : M Message :=
  finish_unfragmented kind buffer.

(** [Assembler::accept_control] *)
Definition accept_control (opcode : OpCode) (payload : list byte) : M Message :=
  match opcode with
  | Ping => mret (Message.Ping payload)
  | Pong => mret (Message.Pong payload)
  | Close =>
      st_modify (set_closed true);;
      body ← st_lift (parse_close_body payload);
      mret (Message.Close body)
  | _ => st_lift Panic
  end.

(** [Assembler::accept] *)
Definition accept (opcode : OpCode) (fin : bool) (payload : list byte) : M (option Message) :=
  self ← st_get;
  if closed self then mret None else
  if OpCode.is_control opcode then message ← accept_control opcode payload; mret (Some message)
  else
  match opcode with
  | Continuation =>
      match partial self with
      | None => st_throw UnexpectedContinuation
      | Some (kind, buffer) =>
          if max_message (limits self)
             <? saturating_add (Z.of_nat (length buffer)) (Z.of_nat (length payload))
          then st_throw MessageTooLarge else
          let buffer := buffer ++ payload in
          st_put (set_partial (Some (kind, buffer)) self);;
          if negb fin then mret None else
          taken ← take_partial;
          '(_, buffer) ← st_lift (expect taken);
          message ← finish kind buffer;
          mret (Some message)
      end
  | Text | Binary =>
      if partial self is Some _ then st_throw InterleavedDataFrame else
      if max_message (limits self) <? Z.of_nat (length payload) then st_throw MessageTooLarge else
      if fin then
        message ← finish_unfragmented opcode payload;
        mret (Some message)
      else
        st_put (set_partial (Some (opcode, payload)) self);;
        mret None
  | Close | Ping | Pong => st_lift Panic
  end.

(** ** What one call does, in one step *)

(** The outcome of completing a message of the given kind. *)
Definition deliver (kind : OpCode) (payload : list byte) : result ProtocolError Message :=
  match kind with
  | Text => if is_utf8 payload then Ok (Message.Text payload) else Err InvalidUtf8
  | Binary => Ok (Message.Binary payload)
  | _ => Panic
  end.

Definition too_large (a : Assembler) (len : Z) : bool := max_message (limits a) <? len.

Lemma accept_run o f p a :
  accept o f p a =
  if closed a then (Ok None, a) else
  match o with
  | Ping => (Ok (Some (Message.Ping p)), a)
  | Pong => (Ok (Some (Message.Pong p)), a)
  | Close => ((λ body, Some (Message.Close body)) <$> parse_close_body p, set_closed true a)
  | Continuation =>
      match partial a with
      | None => (Err UnexpectedContinuation, a)
      | Some (kind, buf) =>
          if too_large a (saturating_add (Z.of_nat (length buf)) (Z.of_nat (length p)))
          then (Err MessageTooLarge, a)
          else if f then (Some <$> deliver kind (buf ++ p), set_partial None a)
          else (Ok None, set_partial (Some (kind, buf ++ p)) a)
      end
  | Text | Binary =>
      if partial a is Some _ then (Err InterleavedDataFrame, a)
      else if too_large a (Z.of_nat (length p)) then (Err MessageTooLarge, a)
      else if f then (Some <$> deliver o p, a)
      else (Ok None, set_partial (Some (o, p)) a)
  end.
Proof.
  unfold accept, too_large. unfold mbind at 1, stM_bind at 1. cbn [st_get].
  destruct (closed a); [done|].
  destruct o; cbn [OpCode.is_control]; try done.
  - destruct (partial a) as [[kind buf]|]; [|done].
    destruct (_ <? _); [done|]. destruct f; [|done].
    unfold mbind, stM_bind. cbn. destruct kind; try done. cbn. by destruct (is_utf8 _).
  - destruct (partial a); [done|]. destruct (_ <? _); [done|]. destruct f; [|done].
    unfold mbind, stM_bind. cbn. by destruct (is_utf8 p).
  - destruct (partial a); [done|]. destruct (_ <? _); [done|]. by destruct f.
  - unfold mbind, stM_bind. cbn. by destruct (parse_close_body p).
Qed.

(** ** Well-formed assemblers *)

Definition data_kind (o : OpCode) : Prop := o = Text ∨ o = Binary.

(** The caller's limit leaves [saturating_add] room to exceed it. *)
Definition limits_ok (l : Limits) : Prop := 0 <= max_message l < usize_max.

Definition wf (a : Assembler) : Prop :=
  limits_ok (limits a) ∧
  match partial a with
  | Some (kind, buf) => data_kind kind ∧ Z.of_nat (length buf) <= max_message (limits a)
  | None => True
  end.

(** What a consumer of a delivered message relies on. *)
Definition message_ok (l : Limits) (m : Message) : Prop :=
  match m with
  | Message.Text p => is_utf8 p = true ∧ Z.of_nat (length p) <= max_message l
  | Message.Binary p => Z.of_nat (length p) <= max_message l
  | Message.Close (Some frame) =>
      CloseCode.is_sendable (close_code frame) = true ∧ is_utf8 (reason frame) = true
  | Message.Ping _ | Message.Pong _ | Message.Close None => True
  end.

Lemma too_large_add a x y :
  limits_ok (limits a) → too_large a (saturating_add x y) = too_large a (x + y).
Proof.
  unfold limits_ok, too_large, saturating_add. intros H.
  destruct (Z.min_spec (x + y) usize_max) as [[? ->]|[? ->]]; [done|].
  by rewrite !(proj2 (Z.ltb_lt _ _)) by lia.
Qed.

Lemma parse_close_body_spec p :
  parse_close_body p =
  match p with
  | [] => Ok None
  | [_] => Err MalformedCloseFrame
  | b0 :: b1 :: r =>
      let code := mkCloseCode (be_val [b0; b1]) in
      if CloseCode.is_sendable code then
        if is_utf8 r then Ok (Some (mkCloseFrame code r)) else Err InvalidUtf8
      else Err InvalidCloseCode
  end.
Proof.
  destruct p as [|b0 [|b1 r]]; [done..|]. unfold parse_close_body. cbn [length Nat.eqb].
  change (index (b0 :: b1 :: r) 0) with (@Ok ProtocolError _ b0).
  change (index (b0 :: b1 :: r) 1) with (@Ok ProtocolError _ b1).
  cbn [mbind result_bind]. cbn zeta. destruct (CloseCode.is_sendable _); [|done]. cbn [negb].
  assert (slice (b0 :: b1 :: r) 2 (S (S (length r))) = @Ok ProtocolError _ r) as ->.
  { rewrite slice_ok by (cbn; lia). f_equal. apply take_ge. cbn. lia. }
  cbn. by destruct (is_utf8 r).
Qed.

Lemma deliver_ok a kind p m :
  Z.of_nat (length p) <= max_message (limits a) →
  deliver kind p = Ok m → message_ok (limits a) m.
Proof.
  intros Hlen. destruct kind; cbn; try done.
  - destruct (is_utf8 p) eqn:?; [|done]. by intros [= <-].
  - by intros [= <-].
Qed.

Lemma deliver_returns kind p : data_kind kind → returns (deliver kind p).
Proof. intros [-> | ->]; cbn; [by destruct (is_utf8 p)|done]. Qed.

(** Several frames in a row, with the messages they complete. *)
Definition frame : Type := OpCode * bool * list byte.
Fixpoint feed (frames : list frame) : M (list Message) :=
  match frames with
  | [] => mret []
  | (o, f, p) :: frames =>
      message ← accept o f p;
      messages ← feed frames;
      mret (match message with Some m => m :: messages | None => messages end)
  end.

Lemma feed_cons o f p frames a :
  feed ((o, f, p) :: frames) a =
  match accept o f p a with
  | (Ok message, a1) =>
      let '(r, a2) := feed frames a1 in
      ((λ ms, match message with Some m => m :: ms | None => ms end) <$> r, a2)
  | (Err e, a1) => (Err e, a1)
  | (Panic, a1) => (Panic, a1)
  | (OutOfFuel, a1) => (OutOfFuel, a1)
  end.
Proof.
  cbn [feed]. unfold mbind at 1, stM_bind at 1. destruct (accept o f p a) as [[]?]; try done.
  unfold mbind, stM_bind. by destruct (feed frames _) as [[]?].
Qed.

Lemma feed_app l1 l2 a :
  feed (l1 ++ l2) a =
  match feed l1 a with
  | (Ok ms, a1) => let '(r, a2) := feed l2 a1 in (app ms <$> r, a2)
  | r => r
  end.
Proof.
  revert a. induction l1 as [|[[o f] p] l1 IH]; intros a.
  - cbn. by destruct (feed l2 a) as [[]?].
  - cbn [app]. rewrite !feed_cons. destruct (accept o f p a) as [[m|e| |] a1]; try done.
    rewrite IH. destruct (feed l1 a1) as [[ms|e| |] a2]; try done. cbn.
    destruct (feed l2 a2) as [[]?]; try done. cbn. by destruct m.
Qed.

(** ** Fragmented messages with control frames between the fragments *)

Definition is_ctl (fr : frame) : Prop := let '(o, _, _) := fr in o = Ping ∨ o = Pong.
Definition ctl_message (fr : frame) : Message :=
  let '(o, _, p) := fr in if decide (o = Ping) then Message.Ping p else Message.Pong p.

(** Each piece is the control frames that precede it and its payload. *)
Definition piece : Type := list frame * list byte.
Fixpoint continuations (ps : list piece) : list frame :=
  match ps with
  | [] => []
  | [(ctl, p)] => ctl ++ [(Continuation, true, p)]
  | (ctl, p) :: ps => ctl ++ (Continuation, false, p) :: continuations ps
  end.
Definition fragmented (kind : OpCode) (first : list byte) (ps : list piece) : list frame :=
  (kind, false, first) :: continuations ps.
Definition whole (first : list byte) (ps : list piece) : list byte := first ++ concat (snd <$> ps).
Definition interleaved (ps : list piece) : list Message := ctl_message <$> concat (fst <$> ps).

Definition pieces_ok (ps : list piece) : Prop := ps ≠ [] ∧ Forall (λ pc, Forall is_ctl (fst pc)) ps.

Lemma feed_ctl ctl a :
  closed a = false → Forall is_ctl ctl → feed ctl a = (Ok (ctl_message <$> ctl), a).
Proof.
  intros Ha. induction 1 as [|[[o f] p] ctl Ho Hctl IH]; [done|].
  rewrite feed_cons, accept_run, Ha. destruct Ho as [-> | ->]; by rewrite IH.
Qed.

Lemma feed_continuations kind buf ps a :
  closed a = false → limits_ok (limits a) → pieces_ok ps →
  partial a = Some (kind, buf) → Z.of_nat (length buf) <= max_message (limits a) →
  let total := buf ++ concat (snd <$> ps) in
  if too_large a (Z.of_nat (length total))
  then fst (feed (continuations ps) a) = Err MessageTooLarge
  else feed (continuations ps) a
       = ((λ m, interleaved ps ++ [m]) <$> deliver kind total, set_partial None a).
Proof.
  intros Ha Hlim [Hne Hps]. cbn zeta. revert buf a Ha Hlim.
  induction Hps as [|[ctl p] ps Hctl Hps IH]; [done|]. intros buf a Ha Hlim Hbuf Hlen.
  cbn [fst] in Hctl. unfold interleaved.
  rewrite !fmap_cons. cbn [concat fst snd].
  assert (∀ f rest, feed (ctl ++ (Continuation, f, p) :: rest) a =
    let '(r, a2) := feed ((Continuation, f, p) :: rest) a in (app (ctl_message <$> ctl) <$> r, a2))
    as Hfeed by (intros; by rewrite feed_app, feed_ctl).
  assert (∀ f, accept Continuation f p a =
    if too_large a (Z.of_nat (length buf) + Z.of_nat (length p)) then (Err MessageTooLarge, a)
    else if f then (Some <$> deliver kind (buf ++ p), set_partial None a)
    else (Ok None, set_partial (Some (kind, buf ++ p)) a)) as Hacc.
  { intros f. by rewrite accept_run, Ha, Hbuf, too_large_add. }
  destruct ps as [|pc ps].
  - cbn [continuations]. rewrite !fmap_nil. cbn [concat]. rewrite !app_nil_r. rewrite Hfeed, feed_cons, Hacc.
    rewrite length_app, Nat2Z.inj_add. destruct (too_large _ _); [done|].
    cbn [fst]. by destruct (deliver _ _).
  - change (continuations ((ctl, p) :: pc :: ps))
      with (ctl ++ (Continuation, false, p) :: continuations (pc :: ps)).
    rewrite Hfeed, feed_cons, Hacc. rewrite app_assoc.
    destruct (too_large a (Z.of_nat (length buf) + Z.of_nat (length p))) eqn:Hbig.
    + unfold too_large in *. bool_prop. rewrite (proj2 (Z.ltb_lt _ _)); [done|].
      rewrite !length_app. lia.
    + specialize (IH ltac:(done) (buf ++ p) (set_partial (Some (kind, buf ++ p)) a) Ha Hlim eq_refl).
      unfold too_large in *. bool_prop. cbn [limits set_partial] in IH.
      destruct (_ <? _) eqn:Htotal in IH |- *.
      all: rewrite ?Htotal; specialize (IH ltac:(len_lia));
        destruct (feed (continuations _) _) as [r a2]; cbn [fst] in *.
      * by subst r.
      * injection IH as -> ->. unfold interleaved.
        cbn [fmap list_fmap concat fst snd]. rewrite !app_assoc.
        set (d := deliver kind (((buf ++ p) ++ pc.2) ++ concat (snd <$> ps))).
        change (deliver kind (((buf ++ p) ++ pc.2) ++ concat (list_fmap _ _ snd ps))) with d.
        destruct d; try done. cbn. by rewrite !fmap_app, !app_assoc.
Qed.

Lemma feed_closed frames a : closed a = true → feed frames a = (Ok [], a).
Proof.
  intros Ha. induction frames as [|[[o f] p] frames IH]; [done|].
  by rewrite feed_cons, accept_run, Ha, IH.
Qed.

Lemma accept_wf a o f p :
  wf a →
  let '(r, a') := accept o f p a in
  returns r ∧ wf a' ∧ limits a' = limits a ∧ (closed a = true → closed a' = true) ∧
  (∀ m, r = Ok (Some m) → message_ok (limits a) m).
Proof.
  intros Hwf. pose proof Hwf as [Hlim Hpart]. rewrite accept_run.
  destruct (closed a) eqn:Ha; [split_and!; done|].
  assert (∀ l f, Z.of_nat (length l) <= max_message (limits a) → data_kind f →
    wf (set_partial (Some (f, l)) a)) as Hset by (intros; split; [done|]; by split).
  assert (wf (set_partial None a)) as Hnone by by split.
  destruct o.
  - destruct (partial a) as [[kind buf]|]; [|split_and!; done].
    destruct Hpart as [Hkind Hbuf]. rewrite too_large_add by done.
    destruct (too_large _ _) eqn:Hbig; [split_and!; done|].
    unfold too_large in Hbig. bool_prop.
    assert (Z.of_nat (length (buf ++ p)) <= max_message (limits a)) by len_lia.
    destruct f; [|split_and!; [done|by apply Hset|done..]].
    pose proof (deliver_returns kind (buf ++ p) Hkind).
    split_and!; try done; [by destruct (deliver _ _)|].
    intros m. destruct (deliver _ _) eqn:Hd; try done. intros [= <-]. by eapply deliver_ok.
  - destruct (partial a); [split_and!; done|].
    destruct (too_large _ _) eqn:Hbig; [split_and!; done|].
    unfold too_large in Hbig. bool_prop.
    destruct f; [|split_and!; [done|apply Hset; [done|by left]|done..]].
    cbn. destruct (is_utf8 p) eqn:Hu; split_and!; try done. by intros m [= <-].
  - destruct (partial a); [split_and!; done|].
    destruct (too_large _ _) eqn:Hbig; [split_and!; done|].
    unfold too_large in Hbig. bool_prop.
    destruct f; [|split_and!; [done|apply Hset; [done|by right]|done..]].
    cbn. split_and!; try done. by intros m [= <-].
  - assert (wf (set_closed true a)) by by split.
    rewrite parse_close_body_spec.
    destruct p as [|b0 [|b1 r]]; cbn -[be_val];
      try (split_and!; try done; by intros m [= <-]).
    destruct (CloseCode.is_sendable _) eqn:Hs; [|done]; destruct (is_utf8 r) eqn:Hu; [|done].
    split_and!; try done. by intros m [= <-].
  - split_and!; try done. by intros m [= <-].
  - split_and!; try done. by intros m [= <-].
Qed.

Lemma accept_data kind f p a :
  data_kind kind → closed a = false → partial a = None →
  accept kind f p a =
  if too_large a (Z.of_nat (length p)) then (Err MessageTooLarge, a)
  else if f then (Some <$> deliver kind p, a)
  else (Ok None, set_partial (Some (kind, p)) a).
Proof. intros Hkind Ha Hp. rewrite accept_run, Ha, Hp. by destruct Hkind as [-> | ->]. Qed.

(** ** Properties *)

(** C14: [accept] never panics, keeps the assembler well formed (one partial
    message of a data kind, within the limit), never reopens a closed one, and
    every message it delivers is sound: text is UTF-8, data is within the
    message limit, a close carries a sendable code and a UTF-8 reason. *)
Theorem accept_safe a o f p r a' :
  wf a → accept o f p a = (r, a') →
  returns r ∧ wf a' ∧ limits a' = limits a ∧ (closed a = true → closed a' = true) ∧
  (∀ m, r = Ok (Some m) → message_ok (limits a) m).
Proof. intros Hwf Hr. pose proof (accept_wf a o f p Hwf) as H. by rewrite Hr in H. Qed.

(** C15: a fragmented data message, however it is cut and whatever pings and
    pongs arrive between its fragments, yields those pings and pongs in order
    and then exactly what the same payload yields in a single frame: the same
    message, or the same rejection of text that is not UTF-8 as a whole. *)
Theorem fragmentation_transparent a kind first ps :
  wf a → closed a = false → partial a = None → data_kind kind → pieces_ok ps →
  Z.of_nat (length (whole first ps)) <= max_message (limits a) →
  feed (fragmented kind first ps) a
  = (let '(r, _) := feed [(kind, true, whole first ps)] a in app (interleaved ps) <$> r, a).
Proof.
  intros [Hlim _] Ha Hp Hkind Hps Hlen.
  assert (too_large a (Z.of_nat (length (whole first ps))) = false) as Hsmall
    by by apply Z.ltb_ge.
  assert (Z.of_nat (length first) <= max_message (limits a)) as Hfirst.
  { unfold whole in Hlen. rewrite length_app in Hlen. lia. }
  assert (too_large a (Z.of_nat (length first)) = false) as Hsmall1 by by apply Z.ltb_ge.
  unfold fragmented. rewrite !feed_cons, !accept_data, Hsmall, Hsmall1 by done.
  pose proof (feed_continuations kind first ps (set_partial (Some (kind, first)) a)
    Ha Hlim Hps eq_refl Hfirst) as Hfeed.
  change (first ++ concat (snd <$> ps)) with (whole first ps) in Hfeed. cbn zeta in Hfeed.
  change (too_large (set_partial _ a)) with (too_large a) in Hfeed. rewrite Hsmall in Hfeed.
  rewrite Hfeed. change (set_partial None (set_partial _ a)) with (set_partial None a).
  rewrite (set_partial_id None a) by done.
  by destruct (deliver _ _).
Qed.

(** Fragmentation does not get a peer past the message limit: whatever the
    sizes of the fragments and whatever control frames come between them, a
    message longer than [max_message] is refused with [MessageTooLarge]. *)
Lemma fragmentation_capped a kind first ps :
  wf a → closed a = false → partial a = None → data_kind kind → pieces_ok ps →
  max_message (limits a) < Z.of_nat (length (whole first ps)) →
  fst (feed (fragmented kind first ps) a) = Err MessageTooLarge.
Proof.
  intros [Hlim _] Ha Hp Hkind Hps Hlen.
  unfold fragmented. rewrite feed_cons, accept_data by done.
  destruct (too_large a (Z.of_nat (length first))) eqn:Hfirst; [done|].
  unfold too_large in Hfirst. bool_prop.
  pose proof (feed_continuations kind first ps (set_partial (Some (kind, first)) a)
    Ha Hlim Hps eq_refl Hfirst) as Hfeed.
  change (first ++ concat (snd <$> ps)) with (whole first ps) in Hfeed. cbn zeta in Hfeed.
  unfold too_large in Hfeed. rewrite (proj2 (Z.ltb_lt _ _)) in Hfeed by done.
  destruct (feed (continuations ps) _) as [r a']. cbn [fst] in Hfeed. by subst r.
Qed.

(** C33: a close frame is final. Once one has been received, valid or not, every
    later frame is discarded: it produces no message and no error and leaves
    the assembler alone. *)
Theorem close_is_final a f p r a1 frames :
  accept Close f p a = (r, a1) → feed frames a1 = (Ok [], a1).
Proof.
  intros H. apply feed_closed. rewrite accept_run in H.
  destruct (closed a) eqn:Ha; by injection H as _ <-.
Qed.

(** The message a data frame belongs to: whether the frame may come now, the
    kind of the message, and its bytes up to and including the frame. *)
Definition in_sequence (a : Assembler) (o : OpCode) : bool :=
  match partial a, o with
  | Some _, Continuation | None, Text | None, Binary => true
  | _, _ => false
  end.
Definition message_kind (a : Assembler) (o : OpCode) : OpCode :=
  if partial a is Some (kind, _) then kind else o.
Definition joined (a : Assembler) (p : list byte) : list byte :=
  if partial a is Some (_, buf) then buf ++ p else p.

(** C27: which data frames are refused, and with which error: a continuation
    with nothing open, a new data frame while a message is open, a frame that
    takes its message past the limit, and the last frame of a text that is not
    UTF-8 as a whole. The checks are made in that order. *)
Theorem accept_errors a o f p :
  wf a → closed a = false → OpCode.is_control o = false →
  let e := fst (accept o f p a) in
  let big := too_large a (Z.of_nat (length (joined a p))) in
  (e = Err UnexpectedContinuation ↔ o = Continuation ∧ partial a = None) ∧
  (e = Err InterleavedDataFrame ↔ data_kind o ∧ partial a ≠ None) ∧
  (e = Err MessageTooLarge ↔ in_sequence a o = true ∧ big = true) ∧
  (e = Err InvalidUtf8 ↔
    in_sequence a o = true ∧ big = false ∧ f = true ∧
    message_kind a o = Text ∧ is_utf8 (joined a p) = false).
Proof.
  intros [Hlim Hpart] Ha Ho. cbn zeta. rewrite accept_run, Ha.
  unfold data_kind, in_sequence, message_kind, joined.
  destruct (partial a) as [[kind buf]|] eqn:Hp.
  - rewrite length_app, Nat2Z.inj_add.
    destruct o; try done; [|split_and!; naive_solver..].
    rewrite too_large_add by done. destruct Hpart as [Hkind _].
    destruct (too_large _ _); [split_and!; naive_solver|].
    destruct f; [|split_and!; naive_solver].
    destruct Hkind as [-> | ->]; cbn; [|split_and!; naive_solver].
    destruct (is_utf8 _); split_and!; naive_solver.
  - destruct o; try done; [split_and!; naive_solver|..];
      destruct (too_large _ _); try (split_and!; naive_solver);
      destruct f; cbn; try (split_and!; naive_solver).
    destruct (is_utf8 _); split_and!; naive_solver.
Qed.

(** C34: the body of a close frame: empty means no status, one byte is
    malformed, and otherwise the frame is accepted exactly when its code may be
    sent on the wire and its reason is UTF-8. *)
Theorem accept_close_body a f p :
  closed a = false →
  accept Close f p a =
  (match p with
   | [] => Ok (Some (Message.Close None))
   | [_] => Err MalformedCloseFrame
   | b0 :: b1 :: r =>
       let code := mkCloseCode (be_val [b0; b1]) in
       if CloseCode.is_sendable code then
         if is_utf8 r then Ok (Some (Message.Close (Some (mkCloseFrame code r))))
         else Err InvalidUtf8
       else Err InvalidCloseCode
   end, set_closed true a).
Proof.
  intros Ha. rewrite accept_run, Ha, parse_close_body_spec.
  destruct p as [|b0 [|b1 r]]; [done..|]. cbn -[be_val]. by repeat case_match.
Qed.
End Assembler.
End Assembler.

(** *** The properties at concrete frames *)

Section Witnesses.
#[local] Existing Instance target_x86_64.
#[local] Existing Instance utf8_simd.

Lemma is_utf8_spec_witness :
  is_utf8 [xe2; x82; xac] = true ↔
    ∃ cs, Forall scalar cs ∧ [xe2; x82; xac] = cs ≫= encode_char.
Proof. exact (@is_utf8_spec utf8_simd utf8_simd_ok [xe2; x82; xac]). Defined.

Definition open_text : Assembler := mkAssembler Limits_default (Some (Text, bs "he")) false.

Lemma open_text_wf : Assembler.wf open_text.
Proof. split; [by split|]. split; [by left|done]. Qed.

Lemma new_wf : Assembler.wf (Assembler.new Limits_default).
Proof. by split. Qed.

Lemma accept_safe_witness :
  Assembler.wf open_text ∧
  Assembler.accept Continuation true (bs "llo") open_text
    = (Ok (Some (Message.Text (bs "hello"))), Assembler.new Limits_default) ∧
  Assembler.message_ok Limits_default (Message.Text (bs "hello")).
Proof.
  split; [apply open_text_wf|split; [reflexivity|]].
  exact (proj2 (proj2 (proj2 (proj2 (Assembler.accept_safe open_text Continuation true (bs "llo")
    _ _ open_text_wf eq_refl)))) _ eq_refl).
Defined.

(** The euro sign cut after its first byte, with a ping in between. *)
Definition euro_pieces : list Assembler.piece := [([(Ping, true, bs "x")], [x82; xac])].
Lemma euro_pieces_ok : Assembler.pieces_ok euro_pieces.
Proof. split; [done|]. repeat constructor. Qed.

Lemma fragmentation_transparent_witness :
  Assembler.feed (Assembler.fragmented Text [xe2] euro_pieces) (Assembler.new Limits_default)
  = (Ok [Message.Ping (bs "x"); Message.Text [xe2; x82; xac]], Assembler.new Limits_default).
Proof.
  rewrite (Assembler.fragmentation_transparent (Assembler.new Limits_default) Text [xe2] euro_pieces);
    [reflexivity|apply new_wf|reflexivity|reflexivity|by left|apply euro_pieces_ok|].
  vm_compute. discriminate.
Defined.

Definition small_limits : Limits := mkLimits 1024 8.
Lemma small_wf : Assembler.wf (Assembler.new small_limits).
Proof. by split. Qed.

Lemma fragmentation_capped_witness :
  fst (Assembler.feed (Assembler.fragmented Binary (bs "12345") [([], bs "6789")])
         (Assembler.new small_limits)) = Err MessageTooLarge.
Proof.
  apply (Assembler.fragmentation_capped (Assembler.new small_limits));
    [apply small_wf|reflexivity|reflexivity|by right| |reflexivity].
  split; [done|]. repeat constructor.
Defined.

Lemma close_is_final_witness :
  Assembler.accept Close true [x03] (Assembler.new small_limits)
    = (Err MalformedCloseFrame, mkAssembler small_limits None true) ∧
  Assembler.feed [(Ping, true, []); (Text, true, bs "x")] (mkAssembler small_limits None true)
    = (Ok [], mkAssembler small_limits None true).
Proof.
  split; [reflexivity|].
  exact (Assembler.close_is_final (Assembler.new small_limits) true [x03] _ _ _ eq_refl).
Defined.

Lemma accept_errors_witness :
  fst (Assembler.accept Text true (bs "other") open_text) = Err InterleavedDataFrame.
Proof.
  destruct (Assembler.accept_errors open_text Text true (bs "other") open_text_wf eq_refl eq_refl)
    as (_ & [_ H] & _).
  apply H. split; [by left|done].
Defined.

Lemma accept_close_body_witness :
  Assembler.accept Close true ([x03; xe8] ++ bs "bye") (Assembler.new small_limits)
  = (Ok (Some (Message.Close (Some (mkCloseFrame CloseCode.NORMAL (bs "bye"))))),
     mkAssembler small_limits None true).
Proof. by rewrite Assembler.accept_close_body. Defined.
End Witnesses.
