(* ===== verification/Stream.v ===== *)
(** * The transport ([src/stream.rs])

    A connection is generic over nagoya's byte stream, a trait of two methods,
    and over this crate's [StreamExt], which adds two fast paths with default
    bodies. Here are the two traits as classes, the default bodies as the source
    writes them, the laws a stream keeps, and the proof that the defaults keep
    them. The [bytes] crate's [BytesMut] is modelled by its contents and its
    capacity; how much capacity an allocation ends up with is a parameter.

    [Pipe] is an in-memory stream whose reads come in chunks of the peer's
    choosing: the concrete stream on which the development is run. *)
From Stdlib Require Import ZArith Lia Strings.Byte.
From stdpp Require Import base option list.
From S2P Require Import Prelude Bytes.

(** ** Buffers *)

Record BytesMut : Type := mkBytesMut {
  bm_data : list byte;
  bm_capacity : nat;
}.

(** How allocations of the [bytes] crate and of [Vec] grow. *)
Class Alloc := {
  (** The capacity after [reserve]: length, old capacity, additional bytes. *)
  grow : nat → nat → nat → nat;
  (** The capacity after [with_capacity]. *)
  initial_capacity : nat → nat;
}.
(** Documented: [reserve] makes room, and does nothing if there was room;
    [with_capacity] makes room. *)
Class AllocOk (A : Alloc) := {
  grow_room len cap add : (len + add ≤ grow len cap add)%nat;
  grow_noop len cap add : (len + add ≤ cap)%nat → grow len cap add = cap;
  initial_room n : (n ≤ initial_capacity n)%nat;
}.

Module BytesMut.
Section BytesMut.
Context {A : Alloc}.

Definition new : BytesMut := mkBytesMut [] 0.
Definition with_capacity (n : nat) : BytesMut := mkBytesMut [] (initial_capacity n).
Definition len (b : BytesMut) : nat := length (bm_data b).
(** The contents fit the capacity. *)
Definition ok (b : BytesMut) : Prop := (len b ≤ bm_capacity b)%nat.
Definition reserve (additional : nat) (b : BytesMut) : BytesMut :=
  mkBytesMut (bm_data b) (grow (len b) (bm_capacity b) additional).
Definition extend_from_slice (l : list byte) (b : BytesMut) : BytesMut :=
  mkBytesMut (bm_data b ++ l) (grow (len b) (bm_capacity b) (length l)).
(** [split_to(at)]: the first [at] bytes, and the rest left in place. It
    panics when there are fewer. *)
Definition split_to {E} (at_ : nat) : stM BytesMut E BytesMut := λ b,
  if (at_ <=? len b)%nat
  then (Ok (mkBytesMut (take at_ (bm_data b)) at_),
        mkBytesMut (drop at_ (bm_data b)) (bm_capacity b - at_))
  else (Panic, b).
(** [split_off(at)]: the bytes from [at] on, the first [at] left in place. It
    panics when [at] is past the capacity. *)
Definition split_off {E} (at_ : nat) : stM BytesMut E BytesMut := λ b,
  if (at_ <=? bm_capacity b)%nat
  then (Ok (mkBytesMut (drop at_ (bm_data b)) (bm_capacity b - at_)),
        mkBytesMut (take at_ (bm_data b)) at_)
  else (Panic, b).
End BytesMut.
End BytesMut.

(** ** The traits *)

(** nagoya's error type, and its constructor from a platform code. *)
Class ErrnoType := {
  Errno : Type;
  errno_of : Z → Errno;
}.

(** [nagoya::io::Stream]: [read] fills the front of a buffer of the given size
    and returns the bytes it put there. *)
Class ByteStream `{ErrnoType} (S : Type) := {
  stream_read : nat → stM S Errno (list byte);
  stream_write_all : list byte → stM S Errno unit;
}.

(** [trait StreamExt: ByteStream] *)
Class StreamExt `{ErrnoType} (S : Type) := {
  read_buf : stM (S * BytesMut) Errno nat;
  write_all_vectored : list byte → list byte → stM S Errno unit;
}.

Section Defaults.
Context `{N : ErrnoType, A : Alloc} {S : Type} `{!ByteStream S}.

(** The default [read_buf]: through a stack buffer of 16 KiB, as much as the
    spare capacity allows and at least one byte. *)
Definition default_read_buf : stM (S * BytesMut) Errno nat := λ '(s, buffer),
  let chunk := (16 * 1024)%nat in
  let take := Nat.max (Nat.min chunk (bm_capacity buffer - BytesMut.len buffer)) 1 in
  match stream_read take s with
  | (Ok read, s) => (Ok (length read), (s, BytesMut.extend_from_slice read buffer))
  | (Err e, s) => (Err e, (s, buffer))
  | (Panic, s) => (Panic, (s, buffer))
  | (OutOfFuel, s) => (OutOfFuel, (s, buffer))
  end.

(** The default [write_all_vectored]: one write of the two joined. *)
Definition default_write_all_vectored (header payload : list byte) : stM S Errno unit :=
  stream_write_all (header ++ payload).

(** [impl StreamExt for T {}]: a type that opts in with the default bodies. *)
Definition default_ext : StreamExt S := {|
  read_buf := default_read_buf;
  write_all_vectored := default_write_all_vectored;
|}.
End Defaults.

(** nagoya's socket has both operations itself: a read into the uninitialised tail,
    and a write of two buffers with one call. *)
Class TcpStream `{ErrnoType} {A : Alloc} (S : Type) := {
  tcp_read_buf : stM (S * BytesMut) Errno nat;
  tcp_write_all_vectored : list byte → list byte → stM S Errno unit;
}.
(** [impl StreamExt for nagoya::net::TcpStream] *)
Definition tcp_ext `{N : ErrnoType, A : Alloc} {S : Type} `{!TcpStream S} : StreamExt S := {|
  read_buf := tcp_read_buf;
  write_all_vectored := tcp_write_all_vectored;
|}.

(** ** What a stream promises

    A stream has bytes still to come from the peer, an end after them (an
    orderly close or an error), and the bytes it has taken for the peer. *)
Class StreamView `{ErrnoType} (S : Type) := {
  inbound : S → list byte;
  ending : S → option Errno;
  outbound : S → list byte;
}.

(** The read side of [s'] is that of [s]. *)
Definition same_inbound `{N : ErrnoType} {S : Type} `{!StreamView S} (s s' : S) : Prop :=
  inbound s' = inbound s ∧ ending s' = ending s.

(** What a write may have done by the time it returns. *)
Definition wrote `{N : ErrnoType} {S : Type} `{!StreamView S} (data : list byte) (s : S) (p : result Errno unit * S) : Prop :=
  let '(r, s') := p in
  same_inbound s s' ∧
  match r with
  | Ok _ => outbound s' = outbound s ++ data
  | Err _ => ∃ k, outbound s' = outbound s ++ take k data
  | Panic | OutOfFuel => False
  end.

Lemma wrote_take `{N : ErrnoType} {S : Type} `{!StreamView S} data (s : S) r s' :
  wrote data s (r, s') → ∃ k, outbound s' = outbound s ++ take k data.
Proof.
  intros [_ H]. destruct r; try done. exists (length data). by rewrite firstn_all.
Qed.

Class ByteStreamOk `{N : ErrnoType} (S : Type) `{!ByteStream S, !StreamView S} := {
  read_data s n : (0 < n)%nat → inbound s ≠ [] →
    ∃ chunk s', stream_read n s = (Ok chunk, s') ∧
      chunk ≠ [] ∧ (length chunk ≤ n)%nat ∧ inbound s = chunk ++ inbound s' ∧
      ending s' = ending s ∧ outbound s' = outbound s;
  read_end s n : (0 < n)%nat → inbound s = [] →
    ∃ s', stream_read n s = (match ending s with None => Ok [] | Some e => Err e end, s') ∧
      same_inbound s s' ∧ outbound s' = outbound s;
  write_all_wrote s data : wrote data s (stream_write_all data s);
}.

(** The same for the two fast paths, which is what a connection relies on. *)
Class StreamExtOk `{N : ErrnoType} (S : Type) `{!ByteStream S, !StreamExt S, !StreamView S} := {
  read_buf_data s b : inbound s ≠ [] →
    ∃ chunk s' b', read_buf (s, b) = (Ok (length chunk), (s', b')) ∧
      chunk ≠ [] ∧ bm_data b' = bm_data b ++ chunk ∧ BytesMut.ok b' ∧
      inbound s = chunk ++ inbound s' ∧ ending s' = ending s ∧ outbound s' = outbound s;
  read_buf_end s b : inbound s = [] →
    ∃ s' b', read_buf (s, b) = (match ending s with None => Ok 0%nat | Some e => Err e end, (s', b')) ∧
      bm_data b' = bm_data b ∧ same_inbound s s' ∧ outbound s' = outbound s;
  write_vectored_wrote s header payload :
    wrote (header ++ payload) s (write_all_vectored header payload s);
  ext_write_all_wrote s data : wrote data s (stream_write_all data s);
}.

Lemma default_ext_laws `{N : ErrnoType, A : Alloc, !AllocOk A} (S : Type)
    `{!ByteStream S, !StreamView S, !ByteStreamOk S} :
  @StreamExtOk N S _ default_ext _.
Proof.
  split; cbn [read_buf write_all_vectored default_ext].
  - intros s b Hin. unfold default_read_buf. set (n := Nat.max _ 1).
    destruct (read_data s n) as (chunk & s' & -> & ? & ? & ? & ? & ?); [lia|done|].
    exists chunk, s', (BytesMut.extend_from_slice chunk b). split_and!; try done.
    unfold BytesMut.ok, BytesMut.extend_from_slice, BytesMut.len. cbn [bm_data bm_capacity].
    rewrite length_app. apply grow_room.
  - intros s b Hin. unfold default_read_buf. set (n := Nat.max _ 1).
    destruct (read_end s n) as (s' & -> & ? & ?); [lia|done|].
    destruct (ending s) as [e|].
    + by exists s', b.
    + exists s', (BytesMut.extend_from_slice [] b). cbn. by rewrite app_nil_r.
  - intros s header payload. apply write_all_wrote.
  - intros s data. apply write_all_wrote.
Qed.

(** C40: the default bodies of [StreamExt] keep every promise a connection relies
    on, for any byte stream that keeps its own: they deliver the peer's bytes in
    order, never mistake a full buffer for the end of the stream, report its end and
    its errors, and put the header and the payload on the wire, or a prefix of them if
    the stream fails. And they do it with one call of the stream each: a read of at most
    16 KiB that asks for no more than the buffer has room for (or for one byte, if it is
    full), of which every byte is appended to the buffer; and one write of the header
    and the payload joined. *)
Theorem default_ext_ok `{N : ErrnoType, A : Alloc, !AllocOk A} (S : Type)
    `{!ByteStream S, !StreamView S, !ByteStreamOk S} :
  @StreamExtOk N S _ default_ext _ ∧
  (∀ s header payload,
     @write_all_vectored N S default_ext header payload s = stream_write_all (header ++ payload) s) ∧
  (∀ s b, ∃ n, (0 < n ≤ 16 * 1024)%nat ∧ (n ≤ Nat.max 1 (bm_capacity b - BytesMut.len b))%nat ∧
     let '(r, s') := stream_read n s in
     @read_buf N S default_ext (s, b)
     = (length <$> r, (s', if r is Ok chunk then BytesMut.extend_from_slice chunk b else b))).
Proof.
  split; [by apply default_ext_laws|]. split; [done|]. intros s b.
  exists (Nat.max (Nat.min (16 * 1024) (bm_capacity b - BytesMut.len b)) 1). split_and!; [lia..|].
  cbn [read_buf default_ext]. unfold default_read_buf. by destruct (stream_read _ s) as [[| | |] s'].
Qed.

(** ** An in-memory stream *)

(** Error codes as plain integers, and an allocator that gives what is asked. *)
Definition errno_Z : ErrnoType := {| Errno := Z; errno_of := λ n, n |}.
Definition exact_alloc : Alloc := {|
  grow len cap add := if (len + add <=? cap)%nat then cap else (len + add)%nat;
  initial_capacity n := n |}.
Lemma exact_alloc_ok : AllocOk exact_alloc.
Proof.
  split; cbn; intros; [case_match; bool_prop; lia| |done]. by rewrite (proj2 (Nat.leb_le _ _)).
Qed.

Module Pipe.
Section Pipe.
Context `{N : ErrnoType}.

(** The peer's bytes in the segments they arrive in, how the stream ends, what
    was written so far, and an optional number of bytes after which writing
    fails. *)
Record t : Type := mkPipe {
  segments : list (list byte);
  at_end : option Errno;
  written : list byte;
  budget : option (nat * Errno);
}.

Fixpoint read_segments (n : nat) (segs : list (list byte)) : list byte * list (list byte) :=
  match segs with
  | [] => ([], [])
  | [] :: segs => read_segments n segs
  | seg :: segs =>
      (take n seg, if (length seg <=? n)%nat then segs else drop n seg :: segs)
  end.

#[global] Instance pipe_stream : ByteStream t := {|
  stream_read n p :=
    match read_segments n (segments p) with
    | ([], segs) =>
        (match at_end p with None => Ok [] | Some e => Err e end,
         mkPipe segs (at_end p) (written p) (budget p))
    | (chunk, segs) => (Ok chunk, mkPipe segs (at_end p) (written p) (budget p))
    end;
  stream_write_all data p :=
    match budget p with
    | None => (Ok tt, mkPipe (segments p) (at_end p) (written p ++ data) None)
    | Some (k, e) =>
        if (length data <=? k)%nat
        then (Ok tt, mkPipe (segments p) (at_end p) (written p ++ data)
                       (Some ((k - length data)%nat, e)))
        else (Err e, mkPipe (segments p) (at_end p) (written p ++ take k data) (Some (0%nat, e)))
    end;
|}.

#[global] Instance pipe_view : StreamView t := {|
  inbound p := concat (segments p);
  ending := at_end;
  outbound := written;
|}.

Lemma read_segments_spec n segs :
  (0 < n)%nat →
  let '(chunk, rest) := read_segments n segs in
  concat segs = chunk ++ concat rest ∧ (length chunk ≤ n)%nat ∧ (concat segs ≠ [] → chunk ≠ []).
Proof.
  intros Hn. induction segs as [|[|b seg] segs IH]; [cbn; split_and!; (done || lia)|done|].
  cbn [read_segments]. split_and!.
  - destruct (length (b :: seg) <=? n)%nat eqn:Hl; bool_prop.
    + by rewrite take_ge.
    + cbn [concat]. by rewrite app_assoc, take_drop.
  - rewrite length_take. lia.
  - intros _. by destruct n; [lia|].
Qed.

#[global] Instance pipe_ok : ByteStreamOk t.
Proof.
  split.
  - intros p n Hn Hin. cbn [stream_read pipe_stream inbound ending outbound pipe_view] in *.
    pose proof (read_segments_spec n (segments p) Hn) as H.
    destruct (read_segments n (segments p)) as [[|b chunk] rest]; destruct H as (H1 & H2 & H3).
    + by specialize (H3 Hin).
    + by eexists (b :: chunk), _.
  - intros p n Hn Hin. cbn [stream_read pipe_stream inbound ending outbound pipe_view] in *.
    pose proof (read_segments_spec n (segments p) Hn) as H.
    destruct (read_segments n (segments p)) as [chunk rest]; destruct H as (H1 & H2 & H3).
    rewrite Hin in H1. symmetry in H1. apply app_nil in H1 as [-> Hrest].
    eexists. split; [done|]. split; [|done]. split; cbn; congruence.
  - intros p data. cbn. destruct (budget p) as [[k e]|]; [|done].
    destruct (_ <=? _)%nat; [done|]. split; [done|]. by exists k.
Qed.
End Pipe.
End Pipe.

Lemma default_ext_ok_witness :
  @StreamExtOk errno_Z (@Pipe.t errno_Z) _ (@default_ext errno_Z exact_alloc (@Pipe.t errno_Z) _) _.
Proof. exact (proj1 (@default_ext_ok errno_Z exact_alloc exact_alloc_ok Pipe.t _ _ _)). Defined.
