(* ===== verification/Sha1.v ===== *)
(** * SHA-1 ([src/proto/handshake.rs], [struct Sha1])

    The incremental hasher as the code has it: a state of five words, a buffer of
    the bytes that do not fill a block yet, and a byte count. It is compared with
    the algorithm as FIPS 180-4 states it (section 5.1.1 for the padding, 6.1 for
    the computation): the functions Ch, Parity and Maj, the message schedule, and
    the additions modulo 2^32. Words are 32-bit integers in [Z]. *)
From Stdlib Require Import ZArith Lia Strings.Byte.
From stdpp Require Import base option list.
From S2P Require Import Prelude Bytes.

(** [struct Sha1] *)
Record Sha1 : Type := mkSha1 {
  state : Z * Z * Z * Z * Z;
  buffer : list byte;
  total : Z;  (** the field [length] *)
}.

Module Sha1.

(** [Sha1::new] *)
Definition new : Sha1 :=
  mkSha1 (0x67452301, 0xEFCDAB89, 0x98BADCFE, 0x10325476, 0xC3D2E1F0) [] 0.

(** [!x], [x.wrapping_add(y)] on [u32] *)
Definition not32 (x : Z) : Z := Z.lxor x 0xFFFFFFFF.
Definition wrapping_add (x y : Z) : Z := wrap_to 32 (x + y).

(** The two loops that fill [w]: all the indices are constants of the source and
    within the arrays of 64 bytes and 80 words. *)
Definition load (block : list byte) (w : list Z) : list Z :=
  fold_left (λ w i,
    <[i := be_val [block !!! (i * 4)%nat; block !!! (i * 4 + 1)%nat;
                   block !!! (i * 4 + 2)%nat; block !!! (i * 4 + 3)%nat]]> w)
    (seq 0 16) w.
Definition expand (w : list Z) : list Z :=
  fold_left (λ w i,
    <[i := rotate_left32
             (Z.lxor (Z.lxor (Z.lxor (w !!! (i - 3)%nat) (w !!! (i - 8)%nat))
                             (w !!! (i - 14)%nat)) (w !!! (i - 16)%nat)) 1]> w)
    (seq 16 64) w.

(** The match on [i] in [compress] *)
Definition mixer (i : nat) (b c d : Z) : Z * Z :=
  if (i <=? 19)%nat then (Z.lor (Z.land b c) (Z.land (not32 b) d), 0x5A827999)
  else if (i <=? 39)%nat then (Z.lxor (Z.lxor b c) d, 0x6ED9EBA1)
  else if (i <=? 59)%nat then
    (Z.lor (Z.lor (Z.land b c) (Z.land b d)) (Z.land c d), 0x8F1BBCDC)
  else (Z.lxor (Z.lxor b c) d, 0xCA62C1D6).

(** The body of the main loop *)
Definition round (s : Z * Z * Z * Z * Z) (iw : nat * Z) : Z * Z * Z * Z * Z :=
  let '(a, b, c, d, e) := s in
  let '(i, word) := iw in
  let '(f, k) := mixer i b c d in
  let temp :=
    wrapping_add (wrapping_add (wrapping_add (wrapping_add (rotate_left32 a 5) f) e) k) word in
  (temp, a, rotate_left32 b 30, c, d).

(** [Sha1::compress], on the words of the state *)
Definition compress (st : Z * Z * Z * Z * Z) (block : list byte) : Z * Z * Z * Z * Z :=
  let w := expand (load block (replicate 80 0)) in
  let '(a, b, c, d, e) := fold_left round (imap pair w) st in
  let '(s0, s1, s2, s3, s4) := st in
  (wrapping_add s0 a, wrapping_add s1 b, wrapping_add s2 c, wrapping_add s3 d,
   wrapping_add s4 e).

(** The loop of [update]: one turn for each whole block. *)
Fixpoint update_loop (fuel : nat) (st : Z * Z * Z * Z * Z) (buf : list byte)
  : (Z * Z * Z * Z * Z) * list byte :=
  match fuel with
  | O => (st, buf)
  | S fuel =>
      if (64 <=? length buf)%nat
      then update_loop fuel (compress st (take 64 buf)) (drop 64 buf)
      else (st, buf)
  end.

Section Hasher.
Context {T : Target}.

(** [Sha1::update] *)
Definition update {E} (data : list byte) (self : Sha1) : result E Sha1 :=
  n ← arith 64 (total self + Z.of_nat (length data));
  let buf := buffer self ++ data in
  let '(st, buf) := update_loop (length buf) (state self) buf in
  mret (mkSha1 st buf n).

(** The padding loop of [finish], which runs at most sixty-three times *)
Fixpoint pad_loop (fuel : nat) (buf : list byte) : list byte :=
  match fuel with
  | O => buf
  | S fuel => if (length buf mod 64 =? 56)%nat then buf else pad_loop fuel (buf ++ [x00])
  end.

(** The loop that copies the words into [out] *)
Definition copy_out {E} (words : list Z) : stM (list byte) E unit :=
  foldr (λ '(i, word) rest, copy_from_slice (i * 4) (i * 4 + 4) (be_bytes 4 word);; rest)
    (mret tt) (imap pair words).

(** [Sha1::finish] *)
Definition finish {E} (self : Sha1) : result E (list byte) :=
  bit_length ← arith 64 (total self * 8);
  let buf := pad_loop 64 (buffer self ++ [x80]) in
  let buffered := buf ++ be_bytes 8 bit_length in
  let '(s0, s1, s2, s3, s4) := fold_left compress (chunks_exact 64 buffered) (state self) in
  let '(r, out) := copy_out [s0; s1; s2; s3; s4] (replicate 20 x00) in
  r;; mret out.

(** A hasher fed in pieces *)
Fixpoint updates {E} (pieces : list (list byte)) (self : Sha1) : result E Sha1 :=
  match pieces with
  | [] => mret self
  | piece :: pieces => self ← update piece self; updates pieces self
  end.
Definition digest {E} (pieces : list (list byte)) : result E (list byte) :=
  self ← updates pieces new; finish self.
End Hasher.

(** ** FIPS 180-4 *)
Module Spec.
Definition Ch (x y z : Z) : Z := Z.lxor (Z.land x y) (Z.land (not32 x) z).
Definition Parity (x y z : Z) : Z := Z.lxor (Z.lxor x y) z.
Definition Maj (x y z : Z) : Z := Z.lxor (Z.lxor (Z.land x y) (Z.land x z)) (Z.land y z).

Definition f (t : nat) : Z → Z → Z → Z :=
  if (t <? 20)%nat then Ch else if (t <? 40)%nat then Parity
  else if (t <? 60)%nat then Maj else Parity.
Definition K (t : nat) : Z :=
  if (t <? 20)%nat then 0x5a827999 else if (t <? 40)%nat then 0x6ed9eba1
  else if (t <? 60)%nat then 0x8f1bbcdc else 0xca62c1d6.

(** The schedule: sixteen words of the message, each later one from four before
    it. *)
Definition extend (w : list Z) : list Z :=
  let at_ k := nth (length w - k) w 0 in
  w ++ [rotate_left32 (Z.lxor (Z.lxor (Z.lxor (at_ 3%nat) (at_ 8%nat)) (at_ 14%nat)) (at_ 16%nat)) 1].
Definition W (block : list byte) : list Z :=
  Nat.iter 64 extend (be_val <$> chunks 4 block).

Definition step (s : Z * Z * Z * Z * Z) (tw : nat * Z) : Z * Z * Z * Z * Z :=
  let '(a, b, c, d, e) := s in
  let '(t, w) := tw in
  ((rotate_left32 a 5 + f t b c d + e + K t + w) mod 2 ^ 32, a, rotate_left32 b 30, c, d).

Definition block_hash (h : Z * Z * Z * Z * Z) (block : list byte) : Z * Z * Z * Z * Z :=
  let '(a, b, c, d, e) := fold_left step (imap pair (W block)) h in
  let '(h0, h1, h2, h3, h4) := h in
  ((a + h0) mod 2 ^ 32, (b + h1) mod 2 ^ 32, (c + h2) mod 2 ^ 32, (d + h3) mod 2 ^ 32,
   (e + h4) mod 2 ^ 32).

Definition H0 : Z * Z * Z * Z * Z :=
  (0x67452301, 0xefcdab89, 0x98badcfe, 0x10325476, 0xc3d2e1f0).

(** A one bit, the least number of zeros that leaves room for the length in the
    last block, and the length in bits. *)
Definition padding (len : nat) : list byte :=
  [x80] ++ replicate ((119 - len mod 64) mod 64) x00 ++ be_bytes 8 (8 * Z.of_nat len).

Definition sha1 (message : list byte) : list byte :=
  let '(h0, h1, h2, h3, h4) :=
    fold_left block_hash (chunks_exact 64 (message ++ padding (length message))) H0 in
  be_bytes 4 h0 ++ be_bytes 4 h1 ++ be_bytes 4 h2 ++ be_bytes 4 h3 ++ be_bytes 4 h4.
End Spec.

(** The two published vectors of FIPS 180 *)
Example vector_abc :
  @digest target_x86_64 Empty_set [bs "abc"]
  = Ok [xa9; x99; x3e; x36; x47; x06; x81; x6a; xba; x3e; x25; x71; x78; x50; xc2; x6c;
        x9c; xd0; xd8; x9d].
Proof. by vm_compute. Qed.
Example vector_spec :
  Spec.sha1 (bs "abcdbcdecdefdefgefghfghighijhijkijkljklmklmnlmnomnopnopq")
  = [x84; x98; x3e; x44; x1c; x3b; xd2; x6e; xba; xae; x4a; xa1; xf9; x51; x29; xe5;
     xe5; x46; x70; xf1].
Proof. by vm_compute. Qed.

(** ** The schedule *)

Lemma fill_words (g : nat → Z) :
  fold_left (λ w i, <[i := g i]> w) (seq 0 16) (replicate 80 0)
  = (g <$> seq 0 16) ++ replicate 64 0.
Proof. reflexivity. Qed.

Lemma words_of_block {B} (v : list byte → B) block :
  length block = 64%nat →
  (λ i, v [block !!! (i * 4)%nat; block !!! (i * 4 + 1)%nat;
           block !!! (i * 4 + 2)%nat; block !!! (i * 4 + 3)%nat]) <$> seq 0 16
  = v <$> chunks 4 block.
Proof. intros H. do 64 (destruct block as [|? block]; [done|]). by destruct block. Qed.

Lemma load_words block :
  length block = 64%nat → load block (replicate 80 0) = (be_val <$> chunks 4 block) ++ replicate 64 0.
Proof.
  intros H. rewrite <- (words_of_block be_val) by done. apply fill_words.
Qed.

Lemma length_extend j ws : length (Nat.iter j Spec.extend ws) = (j + length ws)%nat.
Proof.
  induction j as [|j IH]; [done|]. change (Nat.iter (S j) Spec.extend ws) with
    (Spec.extend (Nat.iter j Spec.extend ws)).
  unfold Spec.extend at 1. rewrite length_app, IH. cbn. lia.
Qed.

Lemma expand_extend ws j :
  length ws = 16%nat → (j ≤ 64)%nat →
  fold_left (λ w i,
    <[i := rotate_left32
             (Z.lxor (Z.lxor (Z.lxor (w !!! (i - 3)%nat) (w !!! (i - 8)%nat))
                             (w !!! (i - 14)%nat)) (w !!! (i - 16)%nat)) 1]> w)
    (seq 16 j) (ws ++ replicate 64 0)
  = Nat.iter j Spec.extend ws ++ replicate (64 - j) 0.
Proof.
  intros Hws. induction j as [|j IH]; intros Hj; [done|].
  rewrite seq_S, fold_left_app, IH by lia. cbn [fold_left].
  change (Nat.iter (S j) Spec.extend ws) with (Spec.extend (Nat.iter j Spec.extend ws)).
  set (w := Nat.iter j Spec.extend ws).
  assert (length w = 16 + j)%nat as Hw by (unfold w; rewrite length_extend; lia).
  assert (∀ k r, (1 ≤ k ≤ 16)%nat → (w ++ r) !!! (16 + j - k)%nat = nth (length w - k) w 0) as Hat.
  { intros k r Hk. rewrite lookup_total_app_l by lia. rewrite Hw.
    rewrite list_lookup_total_alt, nth_lookup.
    by destruct (lookup_lt_is_Some_2 w (16 + j - k)) as [x ->]; [lia|]. }
  rewrite !Hat by lia. unfold Spec.extend. rewrite insert_app_r_alt by lia.
  replace (16 + j - length w)%nat with 0%nat by lia.
  replace (64 - j)%nat with (S (64 - S j)) by lia. cbn [replicate].
  by rewrite <- app_assoc.
Qed.

Lemma length_words block :
  length block = 64%nat → length (be_val <$> chunks 4 block) = 16%nat.
Proof. intros H. by rewrite <- (words_of_block be_val), length_fmap. Qed.

Lemma schedule block :
  length block = 64%nat → expand (load block (replicate 80 0)) = Spec.W block.
Proof.
  intros H. unfold expand. rewrite load_words, expand_extend by (done || by apply length_words).
  rewrite Nat.sub_diag. change (replicate 0 0) with (@nil Z). unfold Spec.W. apply app_nil_r.
Qed.

(** ** One round *)

Definition w32 (x : Z) : Prop := 0 <= x < 2 ^ 32.

Lemma choose_xor b c d : w32 b → Z.lor (Z.land b c) (Z.land (not32 b) d) = Spec.Ch b c d.
Proof.
  intros Hb. unfold Spec.Ch, not32. apply Z.bits_inj'. intros i Hi.
  rewrite Z.lor_spec, Z.lxor_spec, !Z.land_spec, Z.lxor_spec.
  change 0xFFFFFFFF with (Z.ones 32). destruct (decide (i < 32)).
  - rewrite Z.ones_spec_low by lia. by destruct (Z.testbit b i), (Z.testbit c i), (Z.testbit d i).
  - rewrite (high_bit b 32), Z.ones_spec_high by (done || lia). done.
Qed.

Lemma majority_xor b c d :
  Z.lor (Z.lor (Z.land b c) (Z.land b d)) (Z.land c d) = Spec.Maj b c d.
Proof.
  unfold Spec.Maj. apply Z.bits_inj'. intros i Hi.
  rewrite !Z.lor_spec, !Z.lxor_spec, !Z.land_spec.
  by destruct (Z.testbit b i), (Z.testbit c i), (Z.testbit d i).
Qed.

Lemma mixer_spec i b c d : w32 b → mixer i b c d = (Spec.f i b c d, Spec.K i).
Proof.
  intros Hb. unfold mixer, Spec.f, Spec.K. rewrite choose_xor, majority_xor by done.
  repeat case_match; bool_prop; try done; lia.
Qed.

Definition words_ok (s : Z * Z * Z * Z * Z) : Prop :=
  let '(a, b, c, d, e) := s in w32 a ∧ w32 b ∧ w32 c ∧ w32 d ∧ w32 e.

Lemma rotate_w32 x s : w32 x → w32 (rotate_left32 x s).
Proof.
  intros Hx. unfold rotate_left32. pose proof (Z.mod_pos_bound s 32 ltac:(lia)).
  apply lor_range; [lia|apply Z.mod_pos_bound; lia|].
  rewrite Z.shiftr_div_pow2 by lia. unfold w32 in Hx.
  split; [apply Z.div_pos; lia|]. apply Z.le_lt_trans with x; [|lia].
  apply Z.div_le_upper_bound; nia.
Qed.

Lemma wrap_w32 x : w32 (x mod 2 ^ 32).
Proof. apply Z.mod_pos_bound. lia. Qed.

Lemma sum_spec r f e k w :
  wrapping_add (wrapping_add (wrapping_add (wrapping_add r f) e) k) w = (r + f + e + k + w) mod 2 ^ 32.
Proof.
  assert (∀ x y, wrapping_add (x mod 2 ^ 32) y = (x + y) mod 2 ^ 32) as H
    by (intros; apply Zplus_mod_idemp_l).
  change (wrapping_add r f) with ((r + f) mod 2 ^ 32). by rewrite !H.
Qed.

Lemma round_spec s iw : words_ok s → round s iw = Spec.step s iw ∧ words_ok (Spec.step s iw).
Proof.
  destruct s as [[[[a b] c] d] e], iw as [i w]. intros (Ha & Hb & Hc & Hd & He).
  unfold round, Spec.step. rewrite mixer_spec, sum_spec by done. split; [done|].
  split_and!; try done; [apply wrap_w32|by apply rotate_w32].
Qed.

Lemma rounds_spec l s :
  words_ok s → fold_left round l s = fold_left Spec.step l s ∧ words_ok (fold_left Spec.step l s).
Proof.
  intros Hs. apply (fold_left_agree words_ok (λ _, True)); [|done|by apply Forall_true].
  intros s' iw Hs' _. by apply round_spec.
Qed.

Lemma compress_spec st block :
  words_ok st → length block = 64%nat →
  compress st block = Spec.block_hash st block ∧ words_ok (Spec.block_hash st block).
Proof.
  intros Hst Hb. unfold compress, Spec.block_hash. rewrite schedule by done.
  destruct (rounds_spec (imap pair (Spec.W block)) st Hst) as [-> _].
  destruct (fold_left _ _ _) as [[[[a b] c] d] e], st as [[[[s0 s1] s2] s3] s4].
  unfold wrapping_add, wrap_to. split; [|split_and!; apply wrap_w32].
  by rewrite (Z.add_comm s0), (Z.add_comm s1), (Z.add_comm s2), (Z.add_comm s3), (Z.add_comm s4).
Qed.

(** From here on a block is opaque. *)
#[local] Strategy opaque [compress Spec.block_hash].

Lemma blocks_spec blocks st :
  words_ok st → Forall (λ b, length b = 64%nat) blocks →
  fold_left compress blocks st = fold_left Spec.block_hash blocks st ∧
  words_ok (fold_left Spec.block_hash blocks st).
Proof.
  intros Hst Hb. by apply (fold_left_agree words_ok _ _ _ compress_spec).
Qed.

(** ** The hasher *)

Lemma update_loop_spec fuel st buf :
  (length buf ≤ fuel)%nat →
  update_loop fuel st buf = (fold_left compress (chunks_exact 64 buf) st, remainder 64 buf).
Proof.
  assert (0 < 64)%nat as H64 by lia.
  revert st buf. induction fuel as [|fuel IH]; intros st buf Hf; cbn [update_loop].
  - by rewrite chunks_exact_short, remainder_short by lia.
  - destruct (64 <=? length buf)%nat eqn:Hl; bool_prop.
    + rewrite IH by len_lia.
      rewrite (chunks_exact_cons 64 H64 buf Hl), (remainder_cons 64 H64 buf Hl).
      by rewrite fold_left_cons.
    + rewrite (chunks_exact_short 64 buf), (remainder_short 64 H64 buf) by lia. reflexivity.
Qed.

Section Hasher_spec.
Context {T : Target}.

(** The hasher after the bytes [d]. *)
Definition absorbed (d : list byte) (self : Sha1) : Prop :=
  state self = fold_left Spec.block_hash (chunks_exact 64 d) Spec.H0 ∧ words_ok (state self) ∧
  buffer self = remainder 64 d ∧ total self = Z.of_nat (length d).

Lemma new_absorbed : absorbed [] new.
Proof. by split_and!. Qed.

Lemma update_absorbed {E} d data self :
  absorbed d self → Z.of_nat (length (d ++ data)) < 2 ^ 64 →
  ∃ self', @update T E data self = Ok self' ∧ absorbed (d ++ data) self'.
Proof.
  intros (Hs & Hw & Hb & Ht) Hlen. unfold update, arith.
  rewrite Ht, <- Nat2Z.inj_add, <- length_app, (proj2 (Z.ltb_lt _ _)) by done.
  cbn [mbind result_bind]. rewrite update_loop_spec by done. eexists. split; [done|].
  destruct (chunks_exact_app 64 ltac:(lia) d data) as [Hc Hr].
  destruct (blocks_spec (chunks_exact 64 (buffer self ++ data)) (state self) Hw)
    as [Hf Hw']; [apply chunks_exact_lengths; lia|].
  unfold absorbed. cbn [state buffer total]. rewrite Hf, Hb, Hc, Hr, fold_left_app, Hs in *.
  by split_and!.
Qed.

Lemma updates_absorbed {E} pieces d self :
  absorbed d self → Z.of_nat (length (d ++ concat pieces)) < 2 ^ 64 →
  ∃ self', @updates T E pieces self = Ok self' ∧ absorbed (d ++ concat pieces) self'.
Proof.
  revert d self. induction pieces as [|p pieces IH]; intros d self Hd Hlen; cbn [updates concat] in *.
  - exists self. by rewrite app_nil_r.
  - rewrite app_assoc in Hlen. destruct (@update_absorbed E d p self Hd) as (self1 & -> & H1).
    { rewrite length_app in Hlen. lia. }
    cbn [mbind result_bind]. rewrite app_assoc. by apply IH.
Qed.

Lemma pad_loop_spec fuel buf :
  let z := ((120 - length buf mod 64) mod 64)%nat in
  (z < fuel)%nat → pad_loop fuel buf = buf ++ replicate z x00.
Proof.
  revert buf. induction fuel as [|fuel IH]; intros buf z Hz; [lia|]. cbn [pad_loop].
  pose proof (Nat.mod_upper_bound (length buf) 64 ltac:(lia)) as Hb.
  pose proof (Nat.div_mod_eq (length buf) 64) as Hd.
  destruct (_ =? 56)%nat eqn:H56; bool_prop.
  - unfold z. rewrite H56. by rewrite app_nil_r.
  - set (r := (length buf mod 64)%nat) in *.
    assert (length (buf ++ [x00]) mod 64 = if decide (r = 63) then 0 else S r)%nat as Hr.
    { rewrite length_app. cbn [length]. case_decide.
      - replace (length buf + 1)%nat with (0 + (length buf / 64 + 1) * 64)%nat by lia.
        by rewrite Nat.Div0.mod_add.
      - replace (length buf + 1)%nat with (S r + (length buf / 64) * 64)%nat by lia.
        rewrite Nat.Div0.mod_add. apply Nat.mod_small. lia. }
    assert (z = S ((120 - length (buf ++ [x00]) mod 64) mod 64))%nat as Hz'.
    { rewrite Hr. unfold z. clear -H56 Hb. case_decide as Hr; [by rewrite Hr|].
      assert (∀ r, (r < 64)%nat → r ≠ 56%nat → r ≠ 63%nat →
        ((120 - r) mod 64 = S ((120 - S r) mod 64))%nat) as H; [|by apply H].
      clear. intros r H1 H2 H3. do 64 (destruct r as [|r]; [done|]). lia. }
    rewrite IH by (cbn zeta; lia). rewrite <- app_assoc. f_equal. by rewrite Hz'.
Qed.

Lemma copy_out_spec {E} h0 h1 h2 h3 h4 :
  @copy_out E [h0; h1; h2; h3; h4] (replicate 20 x00)
  = (Ok tt, be_bytes 4 h0 ++ be_bytes 4 h1 ++ be_bytes 4 h2 ++ be_bytes 4 h3 ++ be_bytes 4 h4).
Proof. reflexivity. Qed.

Lemma finish_absorbed {E} d self :
  absorbed d self → Z.of_nat (length d) < 2 ^ 61 →
  @finish T E self = Ok (Spec.sha1 d).
Proof.
  intros (Hs & Hw & Hb & Ht) Hlen. unfold finish, arith.
  rewrite (proj2 (Z.ltb_lt _ _)) by (rewrite Ht; lia). cbn [mbind result_bind].
  destruct (length_remainder 64 ltac:(lia) d) as [Hr1 Hr2].
  rewrite pad_loop_spec; [|cbn zeta; apply Nat.mod_upper_bound; lia].
  assert ((120 - length (buffer self ++ [x80]) mod 64) mod 64
    = (119 - length d mod 64) mod 64)%nat as ->.
  { rewrite length_app, Hb, Hr2. cbn [length]. rewrite <- Hr2. clear -Hr1.
    set (r := length _) in *. clearbody r. do 64 (destruct r as [|r]; [done|]). lia. }
  destruct (chunks_exact_app 64 ltac:(lia) d (Spec.padding (length d))) as [Hc _].
  unfold Spec.sha1. rewrite Hc, fold_left_app, <- Hs, <- Hb.
  unfold Spec.padding. rewrite Ht, (Z.mul_comm 8), <- !app_assoc.
  set (blocks := chunks_exact 64 _).
  destruct (blocks_spec blocks (state self) Hw) as [-> _]; [apply chunks_exact_lengths; lia|].
  destruct (fold_left Spec.block_hash blocks (state self)) as [[[[h0 h1] h2] h3] h4].
  by rewrite copy_out_spec.
Qed.

Lemma digest_run {E} pieces :
  Z.of_nat (length (concat pieces)) < 2 ^ 61 →
  @digest T E pieces = Ok (Spec.sha1 (concat pieces)).
Proof.
  intros Hlen. unfold digest.
  destruct (@updates_absorbed E pieces [] new new_absorbed) as (self & -> & Hs); [cbn [app]; lia|].
  cbn [mbind result_bind]. by apply finish_absorbed.
Qed.

Lemma length_sha1 d : length (Spec.sha1 d) = 20%nat.
Proof.
  unfold Spec.sha1. destruct (fold_left _ _ _) as [[[[h0 h1] h2] h3] h4].
  by rewrite !length_app, !length_be_bytes.
Qed.

(** C19: the hasher is SHA-1: whatever pieces a message shorter than 2^61 bytes is
    fed in, it returns, without overflow, the digest that FIPS 180-4 defines. *)
Theorem digest_is_sha1 {E} pieces :
  Z.of_nat (length (concat pieces)) < 2 ^ 61 →
  @digest T E pieces = Ok (Spec.sha1 (concat pieces)) ∧
  length (Spec.sha1 (concat pieces)) = 20%nat.
Proof. intros. split; [by apply digest_run|apply length_sha1]. Qed.
End Hasher_spec.
End Sha1.

Lemma digest_is_sha1_witness :
  @Sha1.digest target_x86_64 Empty_set [bs "a"; []; bs "bc"] = Ok (Sha1.Spec.sha1 (bs "abc")).
Proof.
  exact (proj1 (@Sha1.digest_is_sha1 target_x86_64 Empty_set [bs "a"; []; bs "bc"] eq_refl)).
Defined.
