(* ===== verification/Base64.v ===== *)
(** * Base64 ([src/proto/handshake.rs], [base64_encode])

    The encoder of the handshake, with the decoder of RFC 4648 section 4 as its
    specification. *)
From Stdlib Require Import ZArith Lia Strings.Byte.
From stdpp Require Import base option list.
From S2P Require Import Prelude Bytes.

Module Base64.

(** [const B64] *)
Definition B64 : list byte :=
  bs "ABCDEFGHIJKLMNOPQRSTUVWXYZabcdefghijklmnopqrstuvwxyz0123456789+/".
Definition pad : byte := x3d.

(** The body of the loop of [base64_encode]: the four characters of a chunk *)
Definition encode_chunk {E} (chunk : list byte) : result E (list byte) :=
  b0 ← index chunk 0;
  let b1 := default x00 (chunk !! 1%nat) in
  let b2 := default x00 (chunk !! 2%nat) in
  let triple := Z.lor (Z.lor (Z.shiftl (b2z b0) 16) (Z.shiftl (b2z b1) 8)) (b2z b2) in
  let digit k := index B64 (Z.to_nat (Z.land (Z.shiftr triple k) 0x3F)) in
  c0 ← digit 18;
  c1 ← digit 12;
  c2 ← (if (1 <? length chunk)%nat then digit 6 else mret pad);
  c3 ← (if (2 <? length chunk)%nat then digit 0 else mret pad);
  mret [c0; c1; c2; c3].

(** [base64_encode] *)
Definition base64_encode {E} (input : list byte) : result E (list byte) :=
  foldr (λ chunk rest, four ← encode_chunk chunk; out ← rest; mret (four ++ out))
    (mret []) (chunks 3 input).

(** ** RFC 4648 *)
Definition value (c : byte) : option Z :=
  (λ p, Z.of_nat (fst p)) <$> list_find (λ d, c = d) B64.

(** A group of four digits, and the last group with its padding. *)
Definition decode_full (g : list byte) : option (list byte) :=
  match g with
  | [c0; c1; c2; c3] =>
      s0 ← value c0; s1 ← value c1; s2 ← value c2; s3 ← value c3;
      Some (be_bytes 3 (s0 * 2 ^ 18 + s1 * 2 ^ 12 + s2 * 2 ^ 6 + s3))
  | _ => None
  end.
Definition decode_last (g : list byte) : option (list byte) :=
  match g with
  | [c0; c1; c2; c3] =>
      if Byte.eqb c3 pad then
        if Byte.eqb c2 pad then
          s0 ← value c0; s1 ← value c1;
          if s1 mod 16 =? 0 then Some (be_bytes 1 (s0 * 4 + s1 / 16)) else None
        else
          s0 ← value c0; s1 ← value c1; s2 ← value c2;
          if s2 mod 4 =? 0 then Some (be_bytes 2 (s0 * 2 ^ 10 + s1 * 2 ^ 4 + s2 / 4)) else None
      else decode_full g
  | _ => None
  end.
Fixpoint decode_groups (gs : list (list byte)) : option (list byte) :=
  match gs with
  | [] => Some []
  | [g] => decode_last g
  | g :: gs => l ← decode_full g; rest ← decode_groups gs; Some (l ++ rest)
  end.
Definition decode (text : list byte) : option (list byte) := decode_groups (chunks 4 text).

(** RFC 4648 section 10 *)
Example vectors :
  @base64_encode Empty_set <$> [bs "f"; bs "fo"; bs "foo"; bs "foob"; bs "fooba"; bs "foobar"]
  = Ok <$> [bs "Zg=="; bs "Zm8="; bs "Zm9v"; bs "Zm9vYg=="; bs "Zm9vYmE="; bs "Zm9vYmFy"].
Proof. by vm_compute. Qed.

(** ** Digits *)

Definition in_alphabet (c : byte) : bool := existsb (Byte.eqb c) B64.

(** The digit of a value below 64. *)
Definition digit (s : Z) : byte := nth (Z.to_nat s) B64 x00.

Lemma digit_spec s :
  0 <= s < 64 →
  (∀ E, @index E _ B64 (Z.to_nat s) = Ok (digit s)) ∧ value (digit s) = Some s ∧
  in_alphabet (digit s) = true ∧ Byte.eqb (digit s) pad = false.
Proof.
  intros Hs.
  assert (Forall (λ n, B64 !! n = Some (digit (Z.of_nat n)) ∧
    value (digit (Z.of_nat n)) = Some (Z.of_nat n) ∧ in_alphabet (digit (Z.of_nat n)) = true ∧
    Byte.eqb (digit (Z.of_nat n)) pad = false) (seq 0 64)) as H.
  { repeat (apply Forall_cons; split; [by vm_compute|]). by apply Forall_nil. }
  rewrite Forall_seq in H. destruct (H (Z.to_nat s)) as (H1 & H2 & H3 & H4); [lia|].
  rewrite Z2Nat.id in * by lia. split_and!; try done. intros E. unfold index. by rewrite H1.
Qed.

Lemma index_digit {E} s : 0 <= s < 64 → @index E _ B64 (Z.to_nat s) = Ok (digit s).
Proof. intros. by apply digit_spec. Qed.
Lemma value_digit s : 0 <= s < 64 → value (digit s) = Some s.
Proof. intros. by apply digit_spec. Qed.
Lemma digit_pad s : 0 <= s < 64 → Byte.eqb (digit s) pad = false.
Proof. intros. by apply digit_spec. Qed.

Section Chunk.
Context (b0 b1 b2 : byte).

(** The four values of three bytes. *)
Definition s0 : Z := b2z b0 / 4.
Definition s1 : Z := b2z b0 mod 4 * 16 + b2z b1 / 16.
Definition s2 : Z := b2z b1 mod 16 * 4 + b2z b2 / 64.
Definition s3 : Z := b2z b2 mod 64.

Lemma sextets :
  let triple := Z.lor (Z.lor (Z.shiftl (b2z b0) 16) (Z.shiftl (b2z b1) 8)) (b2z b2) in
  Z.land (Z.shiftr triple 18) 0x3F = s0 ∧ Z.land (Z.shiftr triple 12) 0x3F = s1 ∧
  Z.land (Z.shiftr triple 6) 0x3F = s2 ∧ Z.land (Z.shiftr triple 0) 0x3F = s3.
Proof.
  pose proof (b2z_range b0) as H0. pose proof (b2z_range b1) as H1. pose proof (b2z_range b2) as H2.
  cbn zeta. rewrite <- Z.lor_assoc, lor_shiftl, lor_shiftl by (rewrite ?lor_shiftl; lia).
  change 0x3F with (Z.ones 6). rewrite !Z.land_ones, !Z.shiftr_div_pow2 by lia.
  unfold s0, s1, s2, s3. split_and!; Z.div_mod_to_equations; lia.
Qed.

Lemma sextets_range : 0 <= s0 < 64 ∧ 0 <= s1 < 64 ∧ 0 <= s2 < 64 ∧ 0 <= s3 < 64.
Proof.
  pose proof (b2z_range b0). pose proof (b2z_range b1). pose proof (b2z_range b2).
  unfold s0, s1, s2, s3. split_and!; Z.div_mod_to_equations; lia.
Qed.
End Chunk.

(** ** Chunks *)

(** The text of a chunk and how many characters of padding it has. *)
Definition chunk_text (g : list byte) : list byte :=
  match g with
  | [b0] => [digit (s0 b0); digit (s1 b0 x00); pad; pad]
  | [b0; b1] => [digit (s0 b0); digit (s1 b0 b1); digit (s2 b1 x00); pad]
  | [b0; b1; b2] => [digit (s0 b0); digit (s1 b0 b1); digit (s2 b1 b2); digit (s3 b2)]
  | _ => []
  end.

Lemma encode_chunk_run {E} g :
  g ≠ [] → (length g ≤ 3)%nat → @encode_chunk E g = Ok (chunk_text g).
Proof.
  intros Hg Hl. destruct g as [|b0 g]; [done|].
  set (b1 := default x00 ((b0 :: g) !! 1%nat)). set (b2 := default x00 ((b0 :: g) !! 2%nat)).
  destruct (sextets b0 b1 b2) as (H0 & H1 & H2 & H3).
  destruct (sextets_range b0 b1 b2) as (R0 & R1 & R2 & R3).
  unfold encode_chunk. change (index (b0 :: g) 0) with (@Ok E byte b0). cbn [mbind result_bind].
  fold b1 b2. cbn zeta in H0, H1, H2, H3 |- *. rewrite H0, H1, H2, H3.
  rewrite !index_digit by done. cbn [mbind result_bind].
  subst b1 b2. by destruct g as [|b1 [|b2 [|]]]; cbn in Hl |- *; try lia.
Qed.

Lemma be_bytes_of l z : be_val l = z → be_bytes (length l) z = l.
Proof. intros <-. apply be_bytes_val. Qed.

Lemma decode_full_text b0 b1 b2 : decode_full (chunk_text [b0; b1; b2]) = Some [b0; b1; b2].
Proof.
  destruct (sextets_range b0 b1 b2) as (R0 & R1 & R2 & R3).
  cbn [chunk_text decode_full]. rewrite !value_digit by done. cbn [mbind option_bind].
  f_equal. apply (be_bytes_of [b0; b1; b2]). cbn.
  pose proof (b2z_range b0). pose proof (b2z_range b1). pose proof (b2z_range b2).
  unfold s0, s1, s2, s3. Z.div_mod_to_equations; lia.
Qed.

Lemma decode_last_text g :
  g ≠ [] → (length g ≤ 3)%nat → decode_last (chunk_text g) = Some g.
Proof.
  intros Hg Hl. destruct g as [|b0 [|b1 [|b2 [|]]]]; cbn in Hl; try (done || lia).
  - destruct (sextets_range b0 x00 x00) as (R0 & R1 & R2 & R3).
    cbn [chunk_text decode_last]. rewrite !value_digit by done. cbn [mbind option_bind].
    change (Byte.eqb pad pad) with true. cbn iota.
    pose proof (b2z_range b0). change (b2z x00) with 0.
    rewrite (proj2 (Z.eqb_eq _ _))
      by (unfold s1; change (b2z x00) with 0; Z.div_mod_to_equations; lia).
    f_equal. apply (be_bytes_of [b0]). cbn.
    unfold s0, s1. change (b2z x00) with 0. Z.div_mod_to_equations; lia.
  - destruct (sextets_range b0 b1 x00) as (R0 & R1 & R2 & R3).
    cbn [chunk_text decode_last]. rewrite !value_digit, digit_pad by done. cbn [mbind option_bind].
    change (Byte.eqb pad pad) with true. cbn iota.
    pose proof (b2z_range b0). pose proof (b2z_range b1).
    rewrite (proj2 (Z.eqb_eq _ _))
      by (unfold s2; change (b2z x00) with 0; Z.div_mod_to_equations; lia).
    f_equal. apply (be_bytes_of [b0; b1]). cbn.
    unfold s0, s1, s2. change (b2z x00) with 0. Z.div_mod_to_equations; lia.
  - destruct (sextets_range b0 b1 b2) as (R0 & R1 & R2 & R3).
    rewrite <- decode_full_text. unfold decode_last at 1. cbn [chunk_text].
    by rewrite digit_pad.
Qed.

(** ** The whole text *)

Lemma decode_groups_cons g gs :
  gs ≠ [] →
  decode_groups (g :: gs) = (l ← decode_full g; rest ← decode_groups gs; Some (l ++ rest)).
Proof. by destruct gs. Qed.

(** Characters of padding after [n] bytes. *)
Definition padding (n : nat) : nat := (3 - n mod 3) mod 3.

Definition encoded (input text : list byte) : Prop :=
  decode text = Some input ∧ length text = (4 * ((length input + 2) / 3))%nat ∧
  ∃ body, text = body ++ replicate (padding (length input)) pad ∧
    Forall (λ c, in_alphabet c = true) body.

Lemma encode_cons {E} l :
  l ≠ [] →
  @base64_encode E l
  = (out ← base64_encode (drop 3 l); mret (chunk_text (take 3 l) ++ out)).
Proof.
  intros Hl. unfold base64_encode. rewrite chunks_cons by (done || lia). cbn [foldr].
  rewrite encode_chunk_run; [done| |len_lia].
  by destruct l.
Qed.

(** The encoder is base64: on every input it returns a text that the decoder of
    RFC 4648 turns back into the input, of four characters for each three bytes,
    all from the alphabet except one or two characters of padding at the end. *)
Lemma encode_roundtrip input : ∃ text, (∀ E, @base64_encode E input = Ok text) ∧ encoded input text.
Proof.
  induction input as [input IH] using list_len_ind.
  destruct (decide (input = [])) as [->|Hne].
  { exists []. split; [done|]. split_and!; [done|done|]. by exists []. }
  destruct (decide (length input ≤ 3)%nat) as [Hle|Hgt].
  - exists (chunk_text input). split.
    { intros E. rewrite encode_cons, take_ge, drop_ge by done. cbn. by rewrite app_nil_r. }
    pose proof (decode_last_text input Hne Hle) as Hdec.
    destruct input as [|b0 [|b1 [|b2 [|]]]]; cbn in Hle; try (done || lia); (split_and!; [done..|]).
    + destruct (sextets_range b0 x00 x00) as (R0 & R1 & _).
      exists [digit (s0 b0); digit (s1 b0 x00)]. split; [done|].
      repeat constructor; by apply digit_spec.
    + destruct (sextets_range b0 b1 x00) as (R0 & R1 & R2 & _).
      exists [digit (s0 b0); digit (s1 b0 b1); digit (s2 b1 x00)]. split; [done|].
      repeat constructor; by apply digit_spec.
    + destruct (sextets_range b0 b1 b2) as (R0 & R1 & R2 & R3).
      exists (chunk_text [b0; b1; b2]). split; [done|].
      repeat constructor; by apply digit_spec.
  - destruct input as [|b0 [|b1 [|b2 rest]]]; cbn in Hgt; try lia.
    destruct (IH rest) as (text & Htext & Hdec & Hlen & body & Hbody & Hall); [cbn; lia|].
    assert (rest ≠ []) as Hrest by (intros ->; cbn in Hgt; lia).
    exists (chunk_text [b0; b1; b2] ++ text). split.
    { intros E. rewrite encode_cons by done. cbn [drop]. by rewrite Htext. }
    assert (text ≠ []) as Htne.
    { intros ->. unfold decode in Hdec. cbn in Hdec. by injection Hdec as <-. }
    split_and!.
    + unfold decode in *. rewrite chunks_cons by (done || lia).
      change (take 4 _) with (chunk_text [b0; b1; b2]). change (drop 4 _) with text.
      rewrite decode_groups_cons by (by rewrite chunks_cons by (done || lia)).
      by rewrite decode_full_text, Hdec.
    + rewrite length_app, Hlen. cbn [length chunk_text].
      replace (S (S (S (length rest))) + 2)%nat with (length rest + 2 + 1 * 3)%nat by lia.
      rewrite Nat.div_add by lia. lia.
    + destruct (sextets_range b0 b1 b2) as (R0 & R1 & R2 & R3).
      exists (chunk_text [b0; b1; b2] ++ body). split.
      * rewrite Hbody at 1. rewrite app_assoc. do 2 f_equal. unfold padding. cbn [length].
        replace (S (S (S (length rest)))) with (length rest + 1 * 3)%nat by lia.
        by rewrite Nat.Div0.mod_add.
      * apply Forall_app. split; [|done]. repeat constructor; by apply digit_spec.
Qed.
End Base64.
