(* ===== verification/Str.v ===== *)
(** * String operations

    The methods of [str] and [slice] that the handshake and the URL parser use,
    on the bytes of a string. Searching, splitting at an ASCII character and
    comparing without case act on bytes in Rust too; trimming removes the
    characters with the Unicode White_Space property, given here by their
    encodings, which is the same thing on valid UTF-8, where no encoding is a
    proper prefix or suffix of another. *)
From Stdlib Require Import ZArith Lia Strings.Byte.
From stdpp Require Import base option list sets.
From S2P Require Import Prelude Bytes Utf8.

Module Str.

Definition beq : byte → byte → bool := Byte.eqb.
Definition LF : byte := x0a.
Definition CR : byte := x0d.

(** [l.starts_with(p)] *)
Fixpoint starts_with (p l : list byte) : bool :=
  match p, l with
  | [], _ => true
  | x :: p, y :: l => beq x y && starts_with p l
  | _ :: _, [] => false
  end.
(** [l.ends_with(p)] *)
Definition ends_with (p l : list byte) : bool := starts_with (rev p) (rev l).
(** [l.strip_prefix(p)] *)
Definition strip_prefix (p l : list byte) : option (list byte) :=
  if starts_with p l then Some (drop (length p) l) else None.

(** [l.find(p)], and [l.windows(p.len()).position(|w| w == p)] *)
Fixpoint find (p l : list byte) : option nat :=
  if starts_with p l then Some 0%nat
  else match l with [] => None | _ :: l => S <$> find p l end.
(** [l.contains(p)] *)
Definition contains (p l : list byte) : bool := if find p l is Some _ then true else false.

(** [l.split_once(p)] *)
Definition split_once (p l : list byte) : option (list byte * list byte) :=
  (λ i, (take i l, drop (i + length p) l)) <$> find p l.
(** [l.rsplit_once(c)] for a character *)
Definition rsplit_once (c : byte) (l : list byte) : option (list byte * list byte) :=
  (λ '(a, b), (rev b, rev a)) <$> split_once [c] (rev l).

(** [l.split(c)] for a character *)
Fixpoint split (c : byte) (l : list byte) : list (list byte) :=
  match l with
  | [] => [[]]
  | x :: l =>
      if beq x c then [] :: split c l
      else match split c l with
           | piece :: pieces => (x :: piece) :: pieces
           | [] => [[x]]
           end
  end.

(** [pieces.join(sep)] *)
Fixpoint join (sep : list byte) (pieces : list (list byte)) : list byte :=
  match pieces with
  | [] => []
  | [piece] => piece
  | piece :: pieces => piece ++ sep ++ join sep pieces
  end.

(** [l.trim_end_matches(c)] *)
Fixpoint trim_start_matches (c : byte) (l : list byte) : list byte :=
  match l with
  | x :: l' => if beq x c then trim_start_matches c l' else l
  | [] => []
  end.
Definition trim_end_matches (c : byte) (l : list byte) : list byte :=
  rev (trim_start_matches c (rev l)).

(** The encodings of the characters with the White_Space property. *)
Definition white_space : list (list byte) :=
  encode_char <$>
    [0x9; 0xA; 0xB; 0xC; 0xD; 0x20; 0x85; 0xA0; 0x1680; 0x2000; 0x2001; 0x2002; 0x2003; 0x2004;
     0x2005; 0x2006; 0x2007; 0x2008; 0x2009; 0x200A; 0x2028; 0x2029; 0x202F; 0x205F; 0x3000].

Definition strip_one (ws : list (list byte)) (l : list byte) : option (list byte) :=
  foldr (λ p rest, if starts_with p l then Some (drop (length p) l) else rest) None ws.
Fixpoint strip_fuel (fuel : nat) (ws : list (list byte)) (l : list byte) : list byte :=
  match fuel with
  | O => l
  | S fuel => match strip_one ws l with Some l => strip_fuel fuel ws l | None => l end
  end.
Definition strip (ws : list (list byte)) (l : list byte) : list byte := strip_fuel (length l) ws l.
(** [l.trim()] *)
Definition trim_start (l : list byte) : list byte := strip white_space l.
Definition trim_end (l : list byte) : list byte := rev (strip (@rev byte <$> white_space) (rev l)).
Definition trim (l : list byte) : list byte := trim_end (trim_start l).

(** [a.eq_ignore_ascii_case(b)] *)
Definition to_ascii_lowercase (b : byte) : byte :=
  if (0x41 <=? b2z b) && (b2z b <=? 0x5A) then z2b (b2z b + 32) else b.
Definition lower (l : list byte) : list byte := to_ascii_lowercase <$> l.
Definition eq_ignore_ascii_case (a b : list byte) : bool := bool_decide (lower a = lower b).

(** [b.is_ascii_alphanumeric()] *)
Definition is_ascii_alphanumeric (b : byte) : bool :=
  ((0x30 <=? b2z b) && (b2z b <=? 0x39)) || ((0x41 <=? b2z b) && (b2z b <=? 0x5A))
  || ((0x61 <=? b2z b) && (b2z b <=? 0x7A)).

(** [l.parse::<u16>()]: an optional plus sign, then digits, at least one. *)
Fixpoint parse_digits (acc : Z) (l : list byte) : option Z :=
  match l with
  | [] => Some acc
  | b :: l =>
      if (0x30 <=? b2z b) && (b2z b <=? 0x39) then
        let acc := acc * 10 + (b2z b - 0x30) in
        if acc <=? 0xFFFF then parse_digits acc l else None
      else None
  end.
Definition parse_u16 (l : list byte) : option Z :=
  let digits := match strip_prefix (bs "+") l with Some l => l | None => l end in
  match digits with [] => None | _ => parse_digits 0 digits end.

(** [n.to_string()] for an unsigned integer below [10 ^ fuel]. *)
Fixpoint decimal_fuel (fuel : nat) (n : Z) : list byte :=
  match fuel with
  | O => []
  | S fuel =>
      (if n <? 10 then [] else decimal_fuel fuel (n / 10)) ++ [z2b (0x30 + n mod 10)]
  end.
Definition decimal_u16 (n : Z) : list byte := decimal_fuel 5 n.

(** ** Searching *)

Lemma beq_eq x y : beq x y = true ↔ x = y.
Proof. apply byte_eqb_eq. Qed.
Lemma beq_refl x : beq x x = true.
Proof. by apply beq_eq. Qed.
Lemma beq_neq x y : x ≠ y → beq x y = false.
Proof. intros H. apply not_true_is_false. by rewrite beq_eq. Qed.

Lemma starts_with_app p l : starts_with p (p ++ l) = true.
Proof. induction p as [|x p IH]; [done|]. cbn. by rewrite beq_refl. Qed.
Lemma starts_with_spec p l : starts_with p l = true ↔ ∃ r, l = p ++ r.
Proof.
  split; [|intros [r ->]; apply starts_with_app].
  revert l. induction p as [|x p IH]; intros l; [by exists l|].
  destruct l as [|y l]; [done|]. cbn. rewrite andb_true_iff, beq_eq. intros [-> [r ->]%IH]. by exists r.
Qed.

(** [p] first occurs in [l] at [i]. *)
Lemma find_spec p l i :
  find p l = Some i ↔
  (∃ a b, l = a ++ p ++ b ∧ length a = i) ∧ ∀ j, (j < i)%nat → starts_with p (drop j l) = false.
Proof.
  revert i. induction l as [|x l IH]; intros i; cbn [find].
  - destruct (starts_with p []) eqn:Hp.
    + apply starts_with_spec in Hp as [r Hr]. split.
      * intros [= <-]. split; [by exists [], r|lia].
      * intros [(a & b & Ha & <-) _]. symmetry in Ha. by apply app_nil in Ha as [-> _].
    + split; [done|]. intros [(a & b & Ha & _) _].
      symmetry in Ha. apply app_nil in Ha as [_ [-> _]%app_nil]. done.
  - destruct (starts_with p (x :: l)) eqn:Hp.
    + pose proof Hp as [r Hr]%starts_with_spec. split.
      * intros [= <-]. split; [by exists [], r|lia].
      * intros [_ Hmin]. destruct i as [|i]; [done|]. specialize (Hmin 0%nat ltac:(lia)).
        cbn [drop] in Hmin. congruence.
    + destruct i as [|i].
      * split; [by destruct (find p l)|]. intros [(a & b & Ha & Hi) _].
        destruct a; [|done]. cbn [app] in Ha. rewrite Ha, starts_with_app in Hp. done.
      * transitivity (find p l = Some i); [destruct (find p l); cbn; split; congruence|].
        rewrite IH. split.
        -- intros [(a & b & -> & <-) Hmin]. split; [by exists (x :: a), b|].
           intros [|j] Hj; [done|]. cbn [drop]. apply Hmin. lia.
        -- intros [(a & b & Ha & Hi) Hmin]. destruct a as [|y a]; [done|].
           injection Ha as <- ->. injection Hi as <-. split; [by exists a, b|].
           intros j Hj. apply (Hmin (S j)). lia.
Qed.

Lemma find_none p l : find p l = None ↔ ∀ a b, l ≠ a ++ p ++ b.
Proof.
  split.
  - intros Hn a b ->. revert Hn. induction a as [|x a IH]; cbn [app].
    + destruct (p ++ b) eqn:Hp; cbn [find]; rewrite <- Hp, starts_with_app; done.
    + cbn [find]. destruct (starts_with _ _); [done|]. by destruct (find p (a ++ p ++ b)).
  - intros H. destruct (find p l) as [i|] eqn:Hf; [|done].
    apply find_spec in Hf as [(a & b & -> & _) _]. by destruct (H a b).
Qed.

(** Searching for one character: it stops at the first. *)
Lemma find_char c a b : c ∉ a → find [c] (a ++ c :: b) = Some (length a).
Proof.
  intros Ha. induction a as [|x a IH]; cbn [app find starts_with].
  - by rewrite beq_refl.
  - apply not_elem_of_cons in Ha as [Hx Ha]. rewrite (beq_neq c x) by done. cbn [andb].
    by rewrite IH.
Qed.
Lemma find_char_none c a : c ∉ a → find [c] a = None.
Proof.
  intros Ha. apply find_none. intros a' b ->. apply Ha. rewrite !elem_of_app, elem_of_cons. auto.
Qed.
Lemma split_once_char c a b : c ∉ a → split_once [c] (a ++ c :: b) = Some (a, b).
Proof.
  intros Ha. unfold split_once. rewrite find_char by done. cbn [fmap option_fmap option_map].
  rewrite take_app_length. cbn [length]. rewrite Nat.add_1_r.
  rewrite drop_app_ge by lia. by replace (S (length a) - length a)%nat with 1%nat by lia.
Qed.

(** ** Splitting *)

Lemma split_none c l : c ∉ l → split c l = [l].
Proof.
  induction l as [|x l IH]; [done|]. intros [Hx Hl]%not_elem_of_cons. cbn [split].
  by rewrite (beq_neq x c), IH by done.
Qed.
Lemma split_app c a b : c ∉ a → split c (a ++ c :: b) = a :: split c b.
Proof.
  induction a as [|x a IH]; cbn [app split]; [by rewrite beq_refl|].
  intros [Hx Ha]%not_elem_of_cons. by rewrite (beq_neq x c), IH by done.
Qed.
Lemma split_nonempty c l : split c l ≠ [].
Proof. destruct l as [|x l]; [done|]. cbn [split]. destruct (beq x c); [done|]. by destruct (split c l). Qed.

(** Splitting undoes joining. *)
Lemma split_join c l :
  join [c] (split c l) = l ∧ Forall (λ p, c ∉ p) (split c l).
Proof.
  induction l as [|x l [IH1 IH2]]; cbn [split]; [split; [done|repeat constructor; set_solver]|].
  pose proof (split_nonempty c l). destruct (split c l) as [|p ps]; [done|].
  destruct (beq x c) eqn:Hx.
  - apply beq_eq in Hx as ->. split; [|constructor; [set_solver|done]].
    change (join [c] ([] :: p :: ps)) with ([c] ++ join [c] (p :: ps)). by rewrite IH1.
  - assert (x ≠ c) as Hne by (intros ->; by rewrite beq_refl in Hx).
    apply Forall_cons in IH2 as [Hp Hps]. split; [|constructor; [set_solver|done]].
    rewrite <- IH1. by destruct ps.
Qed.

(** ** Trimming *)

Lemma trim_start_matches_spec c l :
  ∃ n, l = replicate n c ++ trim_start_matches c l ∧
    head (trim_start_matches c l) ≠ Some c.
Proof.
  induction l as [|x l (n & Hl & Hh)]; [by exists 0%nat|]. cbn [trim_start_matches].
  destruct (beq x c) eqn:Hx.
  - apply beq_eq in Hx as ->. exists (S n). cbn [replicate app]. by rewrite <- Hl.
  - exists 0%nat. split; [done|]. intros [= ->]. by rewrite beq_refl in Hx.
Qed.
Lemma trim_start_matches_id c l : head l ≠ Some c → trim_start_matches c l = l.
Proof.
  destruct l as [|x l]; [done|]. cbn. intros H. by rewrite (beq_neq x c) by congruence.
Qed.
Lemma trim_end_matches_id c l : last l ≠ Some c → trim_end_matches c l = l.
Proof.
  intros H. unfold trim_end_matches. rewrite trim_start_matches_id; [apply rev_involutive|].
  rewrite rev_alt. change (rev_append l []) with (reverse l). by rewrite head_reverse.
Qed.
Lemma trim_end_matches_app c l : last l ≠ Some c → trim_end_matches c (l ++ [c]) = l.
Proof.
  intros H. unfold trim_end_matches. rewrite rev_app_distr. cbn [rev app trim_start_matches].
  rewrite beq_refl. by apply trim_end_matches_id.
Qed.

Lemma strip_one_shrinks ws l l' :
  Forall (λ p, p ≠ []) ws → strip_one ws l = Some l' → (length l' < length l)%nat.
Proof.
  induction 1 as [|p ws Hp _ IH]; [done|]. cbn. destruct (starts_with p l) eqn:Hs; [|apply IH].
  intros [= <-]. apply starts_with_spec in Hs as [r ->]. rewrite drop_app_length, length_app.
  destruct p; [done|]. cbn. lia.
Qed.

Lemma strip_fuel_enough ws l f1 f2 :
  Forall (λ p, p ≠ []) ws → (length l ≤ f1)%nat → (length l ≤ f2)%nat →
  strip_fuel f1 ws l = strip_fuel f2 ws l.
Proof.
  intros Hws. pose proof (λ l l', strip_one_shrinks ws l l' Hws) as Hshrink.
  revert l f2. induction f1 as [|f1 IH]; intros l [|f2] H1 H2; cbn [strip_fuel]; try done.
  - destruct (strip_one ws l) eqn:Hs; [|done]. apply Hshrink in Hs. lia.
  - destruct (strip_one ws l) eqn:Hs; [|done]. apply Hshrink in Hs. lia.
  - destruct (strip_one ws l) eqn:Hs; [|done]. apply Hshrink in Hs. apply IH; lia.
Qed.

Lemma white_space_nonempty : Forall (λ p, p ≠ []) white_space.
Proof. repeat (apply Forall_cons; split; [by vm_compute|]). by apply Forall_nil. Qed.

(** A leading space goes. *)
Lemma trim_space l : trim (x20 :: l) = trim l.
Proof. unfold trim. by f_equal. Qed.

(** Nothing is left to strip. *)
Lemma strip_done ws l : Forall (λ p, p ≠ []) ws → strip_one ws (strip ws l) = None.
Proof.
  intros Hws. unfold strip. induction l as [l IH] using list_len_ind.
  destruct (length l) as [|f] eqn:Hl; cbn [strip_fuel].
  - apply nil_length_inv in Hl as ->. clear IH.
    induction Hws as [|p ws Hp _ IH]; [done|]. cbn. by destruct p.
  - destruct (strip_one ws l) as [l'|] eqn:Hs; [|done].
    pose proof (strip_one_shrinks ws l l' Hws Hs).
    rewrite (strip_fuel_enough ws l' f (length l')) by (done || lia). apply IH. lia.
Qed.

(** A trimmed value does not end in a carriage return. *)
Lemma trimmed_no_cr l : trim l = l → last l ≠ Some CR.
Proof.
  intros H Hl. unfold trim, trim_end in H. set (ws := @rev byte <$> white_space) in *.
  assert (Forall (λ p, p ≠ []) ws) as Hws.
  { repeat (apply Forall_cons; split; [by vm_compute|]). by apply Forall_nil. }
  pose proof (strip_done ws (rev (trim_start l)) Hws) as Hs.
  rewrite <- (rev_involutive (strip _ _)), H in Hs. apply last_Some in Hl as [m ->].
  by rewrite rev_app_distr in Hs.
Qed.

(** ** Graphic ASCII *)

Definition graphic (b : byte) : bool := (0x21 <=? b2z b) && (b2z b <=? 0x7E).

Lemma strip_one_head ws b l :
  Forall (λ p, head p ≠ Some b ∧ p ≠ []) ws → strip_one ws (b :: l) = None.
Proof.
  induction 1 as [|p ws [Hp Hne] _ IH]; [done|]. destruct p as [|x p]; [done|].
  cbn. by rewrite beq_neq by (intros ->; done).
Qed.

Lemma no_graphic_space ws :
  forallb (λ p, if head p is Some b then negb (graphic b) else false) ws = true →
  ∀ b l, graphic b = true → strip_one ws (b :: l) = None.
Proof.
  intros Hws b l Hb. apply strip_one_head, List.Forall_forall. intros p Hp.
  rewrite forallb_forall in Hws. apply Hws in Hp. destruct p as [|x p]; [done|].
  cbn in *. split; [|done]. intros [= ->]. by rewrite Hb in Hp.
Qed.

Lemma strip_graphic ws l :
  forallb (λ p, if head p is Some b then negb (graphic b) else false) ws = true →
  (if head l is Some b then graphic b else true) = true → strip ws l = l.
Proof.
  intros Hws Hl. unfold strip. destruct l as [|b l]; [done|]. cbn [length strip_fuel].
  by rewrite no_graphic_space.
Qed.

(** A value that begins and ends with a graphic character is trimmed. *)
Definition graphic_ends (l : list byte) : bool :=
  (if head l is Some b then graphic b else true) && (if last l is Some b then graphic b else true).

Lemma trim_graphic_ends l : graphic_ends l = true → trim l = l.
Proof.
  intros [Hh Hl]%andb_true_iff. unfold trim, trim_end, trim_start.
  rewrite (strip_graphic white_space l) by (by vm_compute || done).
  rewrite strip_graphic, rev_involutive; [done|by vm_compute|].
  rewrite rev_alt. change (rev_append l []) with (reverse l). by rewrite head_reverse.
Qed.

Lemma graphic_ends_all l : forallb graphic l = true → graphic_ends l = true.
Proof.
  intros H. rewrite forallb_forall in H. unfold graphic_ends. apply andb_true_iff. split.
  - destruct l as [|b l]; [done|]. apply H. by left.
  - destruct (last l) as [b|] eqn:Hl; [|done]. apply last_Some in Hl as [m ->].
    apply H, in_or_app. right. by left.
Qed.

Lemma trim_graphic l : forallb graphic l = true → trim l = l.
Proof. intros. by apply trim_graphic_ends, graphic_ends_all. Qed.

Lemma graphic_not_elem c l : graphic c = false → forallb graphic l = true → c ∉ l.
Proof.
  intros Hc H Hin. rewrite forallb_forall in H. apply list_elem_of_In in Hin.
  apply H in Hin. congruence.
Qed.

(** ** Lists in a header value *)

Lemma last_app_ne {A} (a b : list A) : b ≠ [] → last (a ++ b) = last b.
Proof. intros Hb. rewrite last_app. by destruct (last b) eqn:Hl; [|apply last_None in Hl]. Qed.

(** Joining values with graphic ends gives one. *)
Lemma graphic_ends_join ps :
  Forall (λ p, graphic_ends p = true ∧ p ≠ []) ps → graphic_ends (join (bs ", ") ps) = true ∧ (ps ≠ [] → join (bs ", ") ps ≠ []).
Proof.
  induction 1 as [|p ps [Hp Hne] Hps [IH IHne]]; [done|]. destruct ps as [|q ps]; [done|].
  change (join (bs ", ") (p :: q :: ps)) with (p ++ bs ", " ++ join (bs ", ") (q :: ps)).
  set (rest := join _ _) in *. specialize (IHne ltac:(done)).
  split; [|by destruct p]. unfold graphic_ends in *. apply andb_true_iff in Hp as [Hp _], IH as [_ IH].
  apply andb_true_iff. split; [by destruct p|]. by rewrite !last_app_ne by (done || by destruct rest).
Qed.

(** A token that can stand in a comma-separated list. *)
Definition token_ok (p : list byte) : Prop := (x2c ∉ p) ∧ trim p = p ∧ p ≠ [].

Lemma split_join_tokens p ps :
  Forall token_ok (p :: ps) →
  trim <$> split x2c (join (bs ", ") (p :: ps)) = p :: ps.
Proof.
  intros H. assert (∀ q, trim (x20 :: q) = trim q) as Hsp by apply trim_space.
  assert (∀ ps p, Forall token_ok (p :: ps) → ∀ pre, (pre = [] ∨ pre = [x20]) →
    trim <$> split x2c (pre ++ join (bs ", ") (p :: ps)) = p :: ps) as Hgen.
  { clear p ps H. intros ps. induction ps as [|q ps IH]; intros p Hp pre Hpre.
    - apply Forall_cons in Hp as [(Hc & Ht & _) _]. cbn [join].
      rewrite split_none by (destruct Hpre as [-> | ->]; set_solver).
      cbn. f_equal. destruct Hpre as [-> | ->]; [done|]. cbn [app]. by rewrite Hsp.
    - apply Forall_cons in Hp as [(Hc & Ht & _) Hps].
      change (join (bs ", ") (p :: q :: ps)) with (p ++ x2c :: ([x20] ++ join (bs ", ") (q :: ps))).
      rewrite app_assoc, split_app by (destruct Hpre as [-> | ->]; set_solver).
      rewrite fmap_cons, IH by auto.
      f_equal. destruct Hpre as [-> | ->]; [done|]. cbn [app]. by rewrite Hsp. }
  by apply (Hgen ps p H []); left.
Qed.

(** ** The last occurrence of a character, and numbers *)

Lemma rsplit_once_char c a b : c ∉ b → rsplit_once c (a ++ c :: b) = Some (a, b).
Proof.
  intros Hb. unfold rsplit_once. rewrite rev_app_distr. cbn [rev]. rewrite <- app_assoc. cbn [app].
  rewrite split_once_char by (rewrite list_elem_of_In, <- in_rev, <- list_elem_of_In; done).
  cbn. by rewrite !rev_involutive.
Qed.
Lemma rsplit_once_none c l : c ∉ l → rsplit_once c l = None.
Proof.
  intros Hl. unfold rsplit_once, split_once.
  by rewrite find_char_none by (rewrite list_elem_of_In, <- in_rev, <- list_elem_of_In; done).
Qed.

Definition is_digit (b : byte) : bool := (0x30 <=? b2z b) && (b2z b <=? 0x39).

Lemma b2z_digit n : b2z (z2b (0x30 + n mod 10)) = 0x30 + n mod 10.
Proof. apply b2z_z2b_small. pose proof (Z.mod_pos_bound n 10). lia. Qed.

Lemma parse_digit acc n rest :
  acc * 10 + n mod 10 <= 0xFFFF →
  parse_digits acc (z2b (0x30 + n mod 10) :: rest) = parse_digits (acc * 10 + n mod 10) rest.
Proof.
  intros H. pose proof (Z.mod_pos_bound n 10). cbn [parse_digits]. rewrite b2z_digit.
  rewrite !(proj2 (Z.leb_le _ _)) by lia. cbn [andb]. f_equal. lia.
Qed.

Lemma parse_decimal fuel n rest :
  0 <= n <= 0xFFFF → n < 10 ^ Z.of_nat fuel →
  parse_digits 0 (decimal_fuel fuel n ++ rest) = parse_digits n rest.
Proof.
  revert n rest. induction fuel as [|fuel IH]; intros n rest Hn Hlt; [cbn in Hlt; by replace n with 0 by lia|].
  rewrite Nat2Z.inj_succ, Z.pow_succ_r in Hlt by lia. cbn [decimal_fuel].
  pose proof (Z.div_mod n 10 ltac:(lia)) as Hd. pose proof (Z.mod_pos_bound n 10 ltac:(lia)).
  destruct (n <? 10) eqn:H10; bool_prop.
  - cbn [app]. rewrite parse_digit by lia. f_equal. rewrite Z.mod_small; lia.
  - rewrite <- app_assoc, IH by lia. cbn [app]. rewrite parse_digit by lia. f_equal. lia.
Qed.

Lemma decimal_digit fuel n : forallb is_digit (decimal_fuel fuel n) = true.
Proof.
  revert n. induction fuel as [|fuel IH]; intros n; [done|]. cbn [decimal_fuel]. rewrite forallb_app.
  apply andb_true_iff. split; [destruct (n <? 10); [done|apply IH]|].
  cbn. unfold is_digit. rewrite b2z_digit, andb_true_r. pose proof (Z.mod_pos_bound n 10).
  apply andb_true_iff. rewrite !Z.leb_le. lia.
Qed.

(** Every [u16] is printed in digits and read back. *)
Lemma parse_decimal_u16 n : 0 <= n < 65536 → parse_u16 (decimal_u16 n) = Some n.
Proof.
  intros Hn. unfold parse_u16. pose proof (parse_decimal 5 n [] ltac:(lia)
    ltac:(change (10 ^ Z.of_nat 5) with 100000; lia)) as H.
  pose proof (decimal_digit 5 n) as Hd. fold (decimal_u16 n) in H, Hd. rewrite app_nil_r in H.
  assert (decimal_u16 n ≠ []) as Hne.
  { unfold decimal_u16. cbn [decimal_fuel]. by intros [_ ?]%app_nil. }
  destruct (decimal_u16 n) as [|b l]; [done|]. unfold strip_prefix.
  cbn [forallb] in Hd. apply andb_true_iff in Hd as [Hb _].
  assert (starts_with (bs "+") (b :: l) = false) as ->; [|exact H].
  change (bs "+") with [x2b]. cbn [starts_with]. rewrite beq_neq; [done|]. by intros <-.
Qed.

Lemma decimal_digits c n : is_digit c = false → c ∉ decimal_u16 n.
Proof.
  intros Hc Hin. pose proof (decimal_digit 5 n) as H. rewrite forallb_forall in H.
  apply list_elem_of_In, H in Hin. congruence.
Qed.

Lemma parse_digits_range acc l n : 0 <= acc <= 0xFFFF → parse_digits acc l = Some n → 0 <= n <= 0xFFFF.
Proof.
  revert acc. induction l as [|b l IH]; intros acc Hacc; cbn [parse_digits]; [by intros [= <-]|].
  destruct (_ && _) eqn:Hd; [|done]. bool_prop. destruct (_ <=? 0xFFFF) eqn:Hm; [|done]. bool_prop.
  apply IH. lia.
Qed.
Lemma parse_u16_range l n : parse_u16 l = Some n → 0 <= n < 65536.
Proof.
  unfold parse_u16. destruct (match strip_prefix _ _ with Some _ => _ | None => _ end); [done|].
  intros H. apply parse_digits_range in H; lia.
Qed.
End Str.
