(* ===== verification/Handshake.v ===== *)
(** * The opening handshake ([src/proto/handshake.rs])

    Requests and responses as the code builds and reads them. [String] and [&str]
    are their bytes; the checks that they are UTF-8 are the code's own. *)
From Stdlib Require Import ZArith Lia Strings.Byte.
From stdpp Require Import base option list sets.
From S2P Require Import Prelude Bytes Utf8 Sha1 Base64 Str.

(** [enum UpgradeError] *)
Inductive UpgradeError : Set :=
| Malformed
| NotGet
| NotAnUpgrade
| WrongVersion
| BadKey
| HeadTooLarge.

#[export] Instance UpgradeError_eq_dec : EqDecision UpgradeError.
Proof. solve_decision. Defined.

(** [enum Method] *)
Inductive Method : Type := Get | Options | Head | Other (name : str).

#[export] Instance Method_eq_dec : EqDecision Method.
Proof. solve_decision. Defined.

(** [struct Request] *)
Module Request.
Record t : Type := mk {
  method : Method;
  path : str;
  key : list byte;
  protocols : list str;
  headers : list (str * str);
}.
End Request.
Abbreviation Request := Request.t.

(** [enum Parsed] *)
Module Parsed.
Inductive t : Type := Upgrade (request : Request) | Plain (request : Request).
(** [Parsed::request], [Parsed::into_request] *)
Definition request (p : t) : Request := match p with Upgrade r | Plain r => r end.
Definition into_request (p : t) : Request := match p with Upgrade r | Plain r => r end.
End Parsed.
Abbreviation Parsed := Parsed.t.

(** [const WS_GUID], [DEFAULT_MAX_HEAD], [MAX_HEADERS] *)
Definition WS_GUID : list byte := bs "258EAFA5-E914-47DA-95CA-C5AB0DC85B11".
Definition DEFAULT_MAX_HEAD : Z := 16 * 1024.
Definition MAX_HEADERS : nat := 128.

Definition CRLF : list byte := [Str.CR; Str.LF].

Section Handshake.
Context {T : Target}.

(** [accept_for] *)
Definition accept_for {E} (key : list byte) : result E str :=
  hasher ← Sha1.update key Sha1.new;
  hasher ← Sha1.update WS_GUID hasher;
  digest ← Sha1.finish hasher;
  Base64.base64_encode digest.

(** [is_valid_key] *)
Definition is_valid_key (key : list byte) : bool :=
  (length key =? 24)%nat
  && Str.ends_with (bs "==") key
  && forallb (λ b, Str.is_ascii_alphanumeric b || Byte.eqb b x2b || Byte.eqb b x2f) (take 22 key).

(** [new_key] *)
Definition new_key {E} (entropy : list byte) : result E str := Base64.base64_encode entropy.

(** [head_end] *)
Definition head_end (input : list byte) : option nat :=
  match Str.find (CRLF ++ CRLF) input with
  | Some at_ => Some (at_ + 4)%nat
  | None => (λ at_, at_ + 2)%nat <$> Str.find [Str.LF; Str.LF] input
  end.

(** The lines of a head: [text.split('\n').map(|line| line.trim_end_matches('\r'))] *)
Definition head_lines (text : str) : list str :=
  Str.trim_end_matches Str.CR <$> Str.split Str.LF text.

(** ** The server's side *)

(** The method of a request line, compared without case *)
Definition method_of (name : str) : Method :=
  if Str.eq_ignore_ascii_case name (bs "GET") then Get
  else if Str.eq_ignore_ascii_case name (bs "OPTIONS") then Options
  else if Str.eq_ignore_ascii_case name (bs "HEAD") then Head
  else Other name.

(** The variables of the loop over the header lines *)
Record Scan : Type := mkScan {
  upgrade_seen : bool;
  connection_seen : bool;
  version_ok : bool;
  key_seen : option (list byte);
  offered : list str;
  kept : list (str * str);
}.
Definition scan_start : Scan := mkScan false false false None [] [].

(** [value.split(',').map(|token| token.trim())] *)
Definition tokens (value : str) : list str := Str.trim <$> Str.split x2c value.

(** The comparisons with the five names the parser interprets *)
Definition interpret (s : Scan) (name value : str) : Scan :=
  if Str.eq_ignore_ascii_case name (bs "upgrade") then
    mkScan (Str.eq_ignore_ascii_case value (bs "websocket")) (connection_seen s) (version_ok s)
      (key_seen s) (offered s) (kept s)
  else if Str.eq_ignore_ascii_case name (bs "connection") then
    mkScan (upgrade_seen s)
      (existsb (λ token, Str.eq_ignore_ascii_case token (bs "upgrade")) (tokens value))
      (version_ok s) (key_seen s) (offered s) (kept s)
  else if Str.eq_ignore_ascii_case name (bs "sec-websocket-version") then
    mkScan (upgrade_seen s) (connection_seen s) (bool_decide (value = bs "13"))
      (key_seen s) (offered s) (kept s)
  else if Str.eq_ignore_ascii_case name (bs "sec-websocket-key") then
    mkScan (upgrade_seen s) (connection_seen s) (version_ok s) (Some value) (offered s) (kept s)
  else if Str.eq_ignore_ascii_case name (bs "sec-websocket-protocol") then
    mkScan (upgrade_seen s) (connection_seen s) (version_ok s) (key_seen s)
      (offered s ++ List.filter (λ token, negb (length token =? 0)%nat) (tokens value)) (kept s)
  else s.

(** The body of the loop *)
Definition scan_line (s : Scan) (line : str) : result UpgradeError Scan :=
  match line with
  | [] => Ok s
  | _ =>
      '(name, value) ← ok_or (Str.split_once [x3a] line) Malformed;
      let value := Str.trim value in
      let s := interpret s name value in
      if (length (kept s) =? MAX_HEADERS)%nat then Err HeadTooLarge
      else Ok (mkScan (upgrade_seen s) (connection_seen s) (version_ok s) (key_seen s) (offered s)
                 (kept s ++ [(name, value)]))
  end.
Fixpoint scan_lines (s : Scan) (lines : list str) : result UpgradeError Scan :=
  match lines with
  | [] => Ok s
  | line :: lines => s ← scan_line s line; scan_lines s lines
  end.

(** [parse_request] *)
Definition parse_request (input : list byte) (max_head : Z) : result UpgradeError Parsed :=
  if max_head <? Z.of_nat (length input) then Err HeadTooLarge else
  if negb (from_utf8 input) then Err Malformed else
  let lines := head_lines input in
  start ← ok_or (head lines) Malformed;
  let parts := Str.split x20 start in
  method ← ok_or (head parts) Malformed;
  path ← ok_or (parts !! 1%nat) Malformed;
  let method := method_of method in
  s ← scan_lines scan_start (tail lines);
  let request := Request.mk method path [] (offered s) (kept s) in
  if negb (bool_decide (method = Get)) || negb (upgrade_seen s) || negb (connection_seen s) then
    Ok (Parsed.Plain request)
  else if negb (version_ok s) then Err WrongVersion
  else
    key ← ok_or (key_seen s) BadKey;
    if negb (is_valid_key key) then Err BadKey
    else Ok (Parsed.Upgrade (Request.mk method path key (offered s) (kept s))).

(** The loop that appends the caller's headers *)
Definition header_line (h : str * str) : list byte := fst h ++ bs ": " ++ snd h ++ CRLF.
Definition header_lines (extra : list (str * str)) : list byte := concat (header_line <$> extra).

(** [build_response] *)
Definition build_response {E} (key : list byte) (protocol : option str) (extra : list (str * str))
  : result E (list byte) :=
  accept ← accept_for key;
  mret (bs "HTTP/1.1 101 Switching Protocols" ++ CRLF
    ++ bs "Upgrade: websocket" ++ CRLF
    ++ bs "Connection: Upgrade" ++ CRLF
    ++ bs "Sec-WebSocket-Accept: " ++ accept ++ CRLF
    ++ match protocol with
       | Some protocol => bs "Sec-WebSocket-Protocol: " ++ protocol ++ CRLF
       | None => []
       end
    ++ header_lines extra ++ CRLF).

(** [build_rejection] *)
Definition build_rejection (error : UpgradeError) (extra : list (str * str)) : list byte :=
  let '(status, reason) :=
    match error with
    | WrongVersion => (bs "426 Upgrade Required", bs "Sec-WebSocket-Version: 13" ++ CRLF)
    | HeadTooLarge => (bs "431 Request Header Fields Too Large", [])
    | _ => (bs "400 Bad Request", [])
    end in
  bs "HTTP/1.1 " ++ status ++ CRLF ++ reason
    ++ bs "Connection: close" ++ CRLF ++ bs "Content-Length: 0" ++ CRLF
    ++ header_lines extra ++ CRLF.

(** ** The client's side *)

(** [build_request] *)
Definition build_request (path host key : str) (protocols : list str) (extra : list (str * str))
  : list byte :=
  bs "GET " ++ path ++ bs " HTTP/1.1" ++ CRLF ++ bs "Host: " ++ host
    ++ CRLF ++ bs "Upgrade: websocket" ++ CRLF ++ bs "Connection: Upgrade" ++ CRLF
    ++ bs "Sec-WebSocket-Key: " ++ key
    ++ CRLF ++ bs "Sec-WebSocket-Version: 13" ++ CRLF
    ++ match protocols with
       | [] => []
       | _ => bs "Sec-WebSocket-Protocol: " ++ Str.join (bs ", ") protocols ++ CRLF
       end
    ++ header_lines extra ++ CRLF.

(** The body of the loop of [check_response] *)
Definition check_line (expected : str) (s : bool * option str) (line : str) : bool * option str :=
  let '(accept_ok, protocol) := s in
  match line with
  | [] => s
  | _ =>
      match Str.split_once [x3a] line with
      | None => s
      | Some (name, value) =>
          let value := Str.trim value in
          if Str.eq_ignore_ascii_case name (bs "sec-websocket-accept")
          then (bool_decide (value = expected), protocol)
          else if Str.eq_ignore_ascii_case name (bs "sec-websocket-protocol")
          then (accept_ok, Some value)
          else s
      end
  end.

(** [check_response] *)
Definition check_response (input : list byte) (key : str) : result UpgradeError (option str) :=
  if negb (from_utf8 input) then Err Malformed else
  let lines := head_lines input in
  status ← ok_or (head lines) Malformed;
  if negb (Str.contains (bs "101") status) then Err NotAnUpgrade else
  expected ← accept_for key;
  let '(accept_ok, protocol) := fold_left (check_line expected) (tail lines) (false, None) in
  if negb accept_ok then Err BadKey else Ok protocol.
End Handshake.

(** RFC 6455 section 1.3 *)
Example accept_rfc :
  @accept_for target_x86_64 Empty_set (bs "dGhlIHNhbXBsZSBub25jZQ==")
  = Ok (bs "s3pPLMBiTxaQ9kYGzzhZRbK+xOo=").
Proof. by vm_compute. Qed.

(** ** The accept value and the key *)
Section Accept.
Context {T : Target}.

Lemma accept_for_run {E} key :
  Z.of_nat (length key) < 2 ^ 60 →
  @accept_for T E key = Base64.base64_encode (Sha1.Spec.sha1 (key ++ WS_GUID)).
Proof.
  intros Hlen. pose proof (@Sha1.digest_run T E [key; WS_GUID]) as H.
  cbn [concat] in H. rewrite app_nil_r in H.
  specialize (H ltac:(rewrite length_app; change (length WS_GUID) with 36%nat; lia)).
  unfold Sha1.digest in H. cbn [Sha1.updates] in H. unfold accept_for.
  destruct (Sha1.update key Sha1.new) as [h1| | |]; try done. cbn [mbind result_bind] in *.
  destruct (Sha1.update WS_GUID h1) as [h2| | |]; try done. cbn [mbind result_bind mret result_ret] in *.
  by rewrite H.
Qed.

(** The accept value is what RFC 6455 section 4.2.2 asks for: for any key shorter
    than 2^60 bytes it is, without overflow, the base64 text, twenty-eight
    characters long, of the SHA-1 digest of the key and the GUID. *)
Lemma accept_for_spec key :
  Z.of_nat (length key) < 2 ^ 60 →
  ∃ text, (∀ E, @accept_for T E key = Ok text) ∧ length text = 28%nat ∧
    Base64.decode text = Some (Sha1.Spec.sha1 (key ++ WS_GUID)) ∧
    Forall (λ c, Base64.in_alphabet c || Byte.eqb c Base64.pad = true) text.
Proof.
  intros Hlen.
  destruct (Base64.encode_roundtrip (Sha1.Spec.sha1 (key ++ WS_GUID))) as
    (text & Htext & Hdec & Hl & body & Hbody & Hall).
  exists text. split_and!; [|by rewrite Hl, Sha1.length_sha1|done|].
  - intros E. by rewrite accept_for_run.
  - rewrite Hbody. apply Forall_app. split.
    + eapply Forall_impl; [exact Hall|]. by intros c ->.
    + apply Forall_replicate. by rewrite orb_true_r.
Qed.

Lemma alphabet_key c :
  Base64.in_alphabet c = true →
  Str.is_ascii_alphanumeric c || Byte.eqb c x2b || Byte.eqb c x2f = true.
Proof.
  intros H. pose proof (byte_forall (λ c, negb (Base64.in_alphabet c) ||
    (Str.is_ascii_alphanumeric c || Byte.eqb c x2b || Byte.eqb c x2f)) eq_refl c) as Hc.
  cbn beta in Hc. by rewrite H in Hc.
Qed.

(** A key made from sixteen bytes is one that a server accepts as well formed, and
    it carries those sixteen bytes. *)
Lemma new_key_run {E} entropy :
  length entropy = 16%nat →
  ∃ key, @new_key E entropy = Ok key ∧ is_valid_key key = true ∧
    Base64.decode key = Some entropy.
Proof.
  intros Hlen. destruct (Base64.encode_roundtrip entropy) as (key & Hkey & Hdec & Hl & body & Hbody & Hall).
  exists key. split_and!; [apply Hkey| |done].
  rewrite Hlen in Hl, Hbody. change (replicate (Base64.padding 16) Base64.pad) with (bs "==") in Hbody.
  subst key. assert (length body = 22%nat) as Hb by (rewrite length_app in Hl; cbn in Hl; lia).
  unfold is_valid_key. rewrite length_app, Hb. change (length (bs "==")) with 2%nat.
  rewrite take_app_length' by done. unfold Str.ends_with. rewrite rev_app_distr, Str.starts_with_app.
  cbn [Nat.add Nat.eqb andb]. apply forallb_forall. intros c Hc.
  rewrite List.Forall_forall in Hall. by apply alphabet_key, Hall.
Qed.
End Accept.

(** ** What the parser sees in a head *)

(** The headers the parser interprets *)
Inductive Known : Set := KUpgrade | KConnection | KVersion | KKey | KProtocol.
#[export] Instance Known_eq_dec : EqDecision Known.
Proof. solve_decision. Defined.

Definition known_name (k : Known) : str :=
  match k with
  | KUpgrade => bs "upgrade"
  | KConnection => bs "connection"
  | KVersion => bs "sec-websocket-version"
  | KKey => bs "sec-websocket-key"
  | KProtocol => bs "sec-websocket-protocol"
  end.

Definition is_named (k : Known) (h : str * str) : bool :=
  Str.eq_ignore_ascii_case (fst h) (known_name k).

(** The values of the headers with a name, and the last of them. *)
Definition values (k : Known) (hs : list (str * str)) : list str :=
  snd <$> List.filter (is_named k) hs.
Definition last_value (k : Known) (hs : list (str * str)) : option str := last (values k hs).

Lemma is_named_excl k k' h : is_named k h = true → k ≠ k' → is_named k' h = false.
Proof.
  unfold is_named, Str.eq_ignore_ascii_case. rewrite bool_decide_eq_true. intros -> Hne.
  by destruct k, k'; try done; vm_compute.
Qed.

Lemma interpret_spec s n v :
  interpret s n v =
  mkScan
    (if is_named KUpgrade (n, v) then Str.eq_ignore_ascii_case v (bs "websocket") else upgrade_seen s)
    (if is_named KConnection (n, v)
     then existsb (λ token, Str.eq_ignore_ascii_case token (bs "upgrade")) (tokens v)
     else connection_seen s)
    (if is_named KVersion (n, v) then bool_decide (v = bs "13") else version_ok s)
    (if is_named KKey (n, v) then Some v else key_seen s)
    (offered s ++ (if is_named KProtocol (n, v)
      then List.filter (λ token, negb (length token =? 0)%nat) (tokens v) else []))
    (kept s).
Proof.
  unfold interpret.
  change (Str.eq_ignore_ascii_case n (bs "upgrade")) with (is_named KUpgrade (n, v)).
  change (Str.eq_ignore_ascii_case n (bs "connection")) with (is_named KConnection (n, v)).
  change (Str.eq_ignore_ascii_case n (bs "sec-websocket-version")) with (is_named KVersion (n, v)).
  change (Str.eq_ignore_ascii_case n (bs "sec-websocket-key")) with (is_named KKey (n, v)).
  change (Str.eq_ignore_ascii_case n (bs "sec-websocket-protocol")) with (is_named KProtocol (n, v)).
  destruct s as [u c w k o l]. cbn [upgrade_seen connection_seen version_ok key_seen offered kept].
  destruct (is_named KUpgrade (n, v)) eqn:H1;
    [by rewrite !(is_named_excl KUpgrade _ _ H1), app_nil_r by done|].
  destruct (is_named KConnection (n, v)) eqn:H2;
    [by rewrite !(is_named_excl KConnection _ _ H2), app_nil_r by done|].
  destruct (is_named KVersion (n, v)) eqn:H3;
    [by rewrite !(is_named_excl KVersion _ _ H3), app_nil_r by done|].
  destruct (is_named KKey (n, v)) eqn:H4;
    [by rewrite !(is_named_excl KKey _ _ H4), app_nil_r by done|].
  destruct (is_named KProtocol (n, v)); by rewrite ?app_nil_r.
Qed.

(** A header line, and all of them: the lines after the first that are not empty. *)
Definition nonempty (l : str) : bool := negb (length l =? 0)%nat.
Definition header_of (line : str) : option (str * str) :=
  '(n, v) ← Str.split_once [x3a] line; Some (n, Str.trim v).
Definition headers_of (lines : list str) : option (list (str * str)) :=
  mapM header_of (List.filter nonempty lines).

(** What a list of headers says, the last header of each name being the one that
    counts, and the offers of all [Sec-WebSocket-Protocol] headers being joined. *)
Definition offers (hs : list (str * str)) : list str :=
  values KProtocol hs ≫= λ v, List.filter nonempty (tokens v).
Definition says_upgrade (hs : list (str * str)) : bool :=
  if last_value KUpgrade hs is Some v then Str.eq_ignore_ascii_case v (bs "websocket") else false.
Definition says_connection (hs : list (str * str)) : bool :=
  if last_value KConnection hs is Some v
  then existsb (λ token, Str.eq_ignore_ascii_case token (bs "upgrade")) (tokens v) else false.
Definition says_version (hs : list (str * str)) : bool :=
  if last_value KVersion hs is Some v then bool_decide (v = bs "13") else false.
Definition scanned (hs : list (str * str)) : Scan :=
  mkScan (says_upgrade hs) (says_connection hs) (says_version hs) (last_value KKey hs) (offers hs) hs.

Lemma values_snoc k hs h :
  values k (hs ++ [h]) = values k hs ++ (if is_named k h then [snd h] else []).
Proof.
  unfold values. rewrite List.filter_app, fmap_app. cbn. by destruct (is_named k h).
Qed.
Lemma last_value_snoc k hs h :
  last_value k (hs ++ [h]) = if is_named k h then Some (snd h) else last_value k hs.
Proof.
  unfold last_value. rewrite values_snoc. destruct (is_named k h); [apply last_snoc|].
  by rewrite app_nil_r.
Qed.

Lemma scanned_snoc hs n v :
  let s := interpret (scanned hs) n v in
  mkScan (upgrade_seen s) (connection_seen s) (version_ok s) (key_seen s) (offered s)
    (kept s ++ [(n, v)]) = scanned (hs ++ [(n, v)]).
Proof.
  cbn zeta. rewrite interpret_spec.
  cbn [upgrade_seen connection_seen version_ok key_seen offered kept scanned].
  unfold scanned, says_upgrade, says_connection, says_version, offers.
  rewrite !last_value_snoc, values_snoc, bind_app. cbn [snd].
  f_equal; try by destruct (is_named _ _).
  f_equal. destruct (is_named KProtocol (n, v)); [|done]. cbn. by rewrite app_nil_r.
Qed.

Lemma scan_lines_spec lines hs :
  (length hs ≤ MAX_HEADERS)%nat →
  match headers_of lines with
  | Some new => scan_lines (scanned hs) lines
      = if (length hs + length new <=? MAX_HEADERS)%nat then Ok (scanned (hs ++ new))
        else Err HeadTooLarge
  | None => scan_lines (scanned hs) lines = Err Malformed ∨
      scan_lines (scanned hs) lines = Err HeadTooLarge ∧
      (MAX_HEADERS < length hs + length (List.filter nonempty lines))%nat
  end.
Proof.
  revert hs. induction lines as [|line lines IH]; intros hs Hhs.
  - cbn. by rewrite Nat.add_0_r, (proj2 (Nat.leb_le _ _)), app_nil_r.
  - unfold headers_of in *. cbn [scan_lines List.filter].
    destruct line as [|b line]; [by apply IH|]. set (l := b :: line).
    change (nonempty l) with true. cbn iota. cbn [mapM].
    assert (header_of l = (λ '(n, v), (n, Str.trim v)) <$> Str.split_once [x3a] l) as ->
      by (unfold header_of; by destruct (Str.split_once _ l) as [[]|]).
    unfold scan_line, l. fold l.
    destruct (Str.split_once [x3a] l) as [[n v]|]; cbn [ok_or mbind result_bind fmap option_fmap option_map option_bind]; [|by left].
    pose proof (scanned_snoc hs n (Str.trim v)) as Hsnoc.
    cbn zeta in Hsnoc |- *.
    replace (kept (interpret _ _ _)) with hs in * by (by rewrite interpret_spec).
    destruct (length hs =? MAX_HEADERS)%nat eqn:Hmax; bool_prop.
    + cbn [mbind result_bind].
      destruct (mapM header_of _) as [new|]; cbn [mbind option_bind mret option_ret]; [|right; cbn [length]; split; [done|lia]].
      rewrite (proj2 (Nat.leb_gt _ _)); [done|]. cbn [length]. lia.
    + rewrite Hsnoc. cbn [mbind result_bind].
      specialize (IH (hs ++ [(n, Str.trim v)])). rewrite length_app in IH. cbn [length] in IH.
      specialize (IH ltac:(lia)).
      destruct (mapM header_of _) as [new|]; cbn [mbind option_bind mret option_ret];
        [|destruct IH as [?|[? ?]]; [by left|right; cbn [length]; split; [done|lia]]].
      rewrite IH, <- app_assoc. cbn [length app mret option_ret].
      by replace (length hs + S (length new))%nat with (length hs + 1 + length new)%nat by lia.
Qed.

Section Server.

(** The method and the path of a head. *)
Definition request_line (input : list byte) : option (str * str) :=
  start ← head (head_lines input);
  let parts := Str.split x20 start in
  m ← head parts; p ← parts !! 1%nat; Some (m, p).

(** An upgrade was asked for: a [GET] whose last [Upgrade] header says websocket
    and whose last [Connection] header lists [Upgrade]. *)
Definition asks_upgrade (m : str) (hs : list (str * str)) : bool :=
  bool_decide (method_of m = Get) && says_upgrade hs && says_connection hs.

(** What a well-formed head with few enough headers comes to. *)
Definition verdict (m path : str) (hs : list (str * str)) : result UpgradeError Parsed :=
  if negb (asks_upgrade m hs) then
    Ok (Parsed.Plain (Request.mk (method_of m) path [] (offers hs) hs))
  else if negb (says_version hs) then Err WrongVersion
  else match last_value KKey hs with
       | Some key =>
           if is_valid_key key then Ok (Parsed.Upgrade (Request.mk Get path key (offers hs) hs))
           else Err BadKey
       | None => Err BadKey
       end.

Lemma parse_request_run input max_head :
  Z.of_nat (length input) <= max_head → from_utf8 input = true →
  match request_line input, headers_of (tail (head_lines input)) with
  | None, _ => parse_request input max_head = Err Malformed
  | Some _, None => parse_request input max_head = Err Malformed ∨
      parse_request input max_head = Err HeadTooLarge ∧
      (MAX_HEADERS < length (List.filter nonempty (tail (head_lines input))))%nat
  | Some (m, path), Some hs => parse_request input max_head
      = if (length hs <=? MAX_HEADERS)%nat then verdict m path hs else Err HeadTooLarge
  end.
Proof.
  intros Hlen Hutf. unfold parse_request, request_line.
  rewrite (proj2 (Z.ltb_ge _ _)), Hutf by done. cbn [negb].
  destruct (head (head_lines input)) as [start|]; [|done]. cbn [ok_or mbind result_bind option_bind].
  destruct (head (Str.split x20 start)) as [m|]; [|done]. cbn [ok_or mbind result_bind option_bind].
  destruct (Str.split x20 start !! 1%nat) as [path|]; [|done].
  cbn [ok_or mbind result_bind option_bind].
  pose proof (scan_lines_spec (tail (head_lines input)) []) as Hs.
  change (scanned []) with scan_start in Hs. specialize (Hs ltac:(unfold MAX_HEADERS; cbn; lia)).
  destruct (headers_of _) as [hs|]; [|by destruct Hs as [-> | [-> ?]]; [left|right]].
  rewrite Hs. cbn [length app Nat.add]. destruct (_ <=? _)%nat; [|done].
  cbn [mbind result_bind scanned upgrade_seen connection_seen version_ok key_seen offered kept].
  unfold verdict, asks_upgrade. rewrite !negb_andb.
  destruct (bool_decide (method_of m = Get)) eqn:Hg; [|done]. apply bool_decide_eq_true in Hg.
  destruct (says_upgrade hs), (says_connection hs), (says_version hs); try done.
  cbn [negb orb]. destruct (last_value KKey hs) as [key|]; [|done].
  cbn [ok_or mbind result_bind]. rewrite Hg. by destruct (is_valid_key key).
Qed.

(** C21: what the parser of requests accepts and how it refuses. It always returns.
    An accepted head is within the limit, UTF-8 and of at most [MAX_HEADERS] header
    lines, all of which are kept in order. It is an upgrade exactly if it asks
    for one, with version 13 and a well-formed key, which is then the key of the
    request; and it is plain exactly if it does not ask. The version and the key are
    errors only in a head that asks, and the other two errors mean the head was
    too long, had too many headers or was not HTTP. *)
Theorem parse_request_spec input max_head :
  let hs := headers_of (tail (head_lines input)) in
  match parse_request input max_head with
  | Ok p =>
      Z.of_nat (length input) <= max_head ∧ from_utf8 input = true ∧
      ∃ m path hs, request_line input = Some (m, path) ∧
        headers_of (tail (head_lines input)) = Some hs ∧ (length hs ≤ MAX_HEADERS)%nat ∧
        match p with
        | Parsed.Plain r => asks_upgrade m hs = false ∧
            r = Request.mk (method_of m) path [] (offers hs) hs
        | Parsed.Upgrade r => asks_upgrade m hs = true ∧
            last_value KVersion hs = Some (bs "13") ∧
            last_value KKey hs = Some (Request.key r) ∧ is_valid_key (Request.key r) = true ∧
            r = Request.mk Get path (Request.key r) (offers hs) hs
        end
  | Err WrongVersion | Err BadKey =>
      ∃ m path hs, request_line input = Some (m, path) ∧
        headers_of (tail (head_lines input)) = Some hs ∧ asks_upgrade m hs = true ∧
        ¬ (last_value KVersion hs = Some (bs "13") ∧
           ∃ key, last_value KKey hs = Some key ∧ is_valid_key key = true)
  | Err HeadTooLarge =>
      max_head < Z.of_nat (length input) ∨ (MAX_HEADERS < length (List.filter nonempty (tail (head_lines input))))%nat
  | Err Malformed => from_utf8 input = false ∨ request_line input = None ∨ hs = None
  | Err NotGet | Err NotAnUpgrade | Panic | OutOfFuel => False
  end.
Proof.
  intros hs0. destruct (decide (max_head < Z.of_nat (length input))) as [Hlen|Hlen].
  { unfold parse_request. rewrite (proj2 (Z.ltb_lt _ _)) by done. by left. }
  destruct (from_utf8 input) eqn:Hutf.
  2: { unfold parse_request. rewrite (proj2 (Z.ltb_ge _ _)), Hutf by lia. by left. }
  apply Z.nlt_ge in Hlen. pose proof (parse_request_run input max_head Hlen Hutf) as H.
  destruct (request_line input) as [[m path]|] eqn:Hl; [|rewrite H; by right; left].
  subst hs0. destruct (headers_of _) as [hs|] eqn:Hhs.
  - rewrite H. clear H. destruct (length hs <=? MAX_HEADERS)%nat eqn:Hmax; bool_prop.
    + unfold verdict. destruct (asks_upgrade m hs) eqn:Hasks; cbn [negb].
      * unfold says_version. destruct (last_value KVersion hs) as [v|] eqn:Hv; cbn [negb].
        2: { exists m, path, hs. split_and!; try done. rewrite Hv. by intros [? _]. }
        destruct (decide (v = bs "13")) as [->|Hne].
        2: { rewrite bool_decide_eq_false_2 by done. exists m, path, hs.
             split_and!; try done. rewrite Hv. intros [? _]. congruence. }
        rewrite bool_decide_eq_true_2 by done. cbn [negb].
        destruct (last_value KKey hs) as [key|] eqn:Hk.
        2: { exists m, path, hs. split_and!; try done. rewrite Hk. by intros [_ (? & ? & _)]. }
        destruct (is_valid_key key) eqn:Hvalid.
        -- split_and!; try done. by exists m, path, hs.
        -- exists m, path, hs. split_and!; try done. rewrite Hk.
           intros [_ (k & ? & ?)]. congruence.
      * split_and!; try done. by exists m, path, hs.
    + right. apply mapM_Some_1, Forall2_length in Hhs. by rewrite Hhs.
  - destruct H as [-> | [-> H]]; [by right; right|by right].
Qed.
End Server.

(** ** Examples *)
Definition nonce : list byte := bs "the sample nonce".
Definition nonce_key : str := bs "dGhlIHNhbXBsZSBub25jZQ==".

Lemma nonce_key_accepted :
  ∃ text, (∀ E, @accept_for target_x86_64 E nonce_key = Ok text) ∧ length text = 28%nat ∧
    Base64.decode text = Some (Sha1.Spec.sha1 (nonce_key ++ WS_GUID)).
Proof.
  destruct (@accept_for_spec target_x86_64 nonce_key eq_refl) as (text & ? & ? & ? & _). by exists text.
Qed.

Example nonce_key_is_new : @new_key Empty_set nonce = Ok nonce_key.
Proof. by vm_compute. Qed.
