(* ===== verification/HandshakeTrip.v ===== *)
(** * What one side builds is what the other side reads

    Round trips of the handshake: the server's parser on the client's request, and
    the client's check on the server's response, with the positions at which
    [head_end] finds their ends. *)
From Stdlib Require Import ZArith Lia Strings.Byte.
From stdpp Require Import base option list sets.
From S2P Require Import Prelude Bytes Utf8 Sha1 Base64 Str Handshake.

(** ** A head as lines *)

Definition line_ok (l : str) : Prop := (Str.LF ∉ l) ∧ last l ≠ Some Str.CR.

(** The lines, each with its CRLF. *)
Definition unlines (ls : list str) : list byte := concat ((λ l, l ++ CRLF) <$> ls).

Lemma unlines_app a b : unlines (a ++ b) = unlines a ++ unlines b.
Proof. unfold unlines. by rewrite fmap_app, concat_app. Qed.
Lemma unlines_cons l ls : unlines (l :: ls) = l ++ CRLF ++ unlines ls.
Proof. unfold unlines. cbn. by rewrite <- app_assoc. Qed.

Lemma head_lines_unlines ls : Forall line_ok ls → head_lines (unlines ls) = ls ++ [[]].
Proof.
  unfold head_lines. induction 1 as [|l ls [Hlf Hcr] _ IH]; [done|].
  rewrite unlines_cons. unfold CRLF. change ([Str.CR; Str.LF]) with ([Str.CR] ++ [Str.LF]).
  rewrite <- (app_assoc [Str.CR]), (app_assoc l). cbn [app].
  rewrite Str.split_app.
  - cbn [fmap list_fmap]. rewrite Str.trim_end_matches_app by done. by rewrite <- IH.
  - intros [H|H]%elem_of_app; [done|]. by apply list_elem_of_singleton in H.
Qed.

(** The end of a head is the first empty line. *)
Lemma find_blank l r :
  Str.LF ∉ l →
  Str.find (CRLF ++ CRLF) (l ++ CRLF ++ r)
  = if Str.starts_with CRLF r then Some (length l)
    else (λ n, length l + 2 + n)%nat <$> Str.find (CRLF ++ CRLF) r.
Proof.
  intros Hlf. induction l as [|x l IH].
  - change ([] ++ CRLF ++ r) with (CRLF ++ r).
    assert (Str.find (CRLF ++ CRLF) (CRLF ++ r)
      = if Str.starts_with CRLF r then Some 0%nat
        else S <$> (S <$> Str.find (CRLF ++ CRLF) r)) as -> by reflexivity.
    destruct (Str.starts_with CRLF r); [done|]. by destruct (Str.find (CRLF ++ CRLF) r).
  - apply not_elem_of_cons in Hlf as [Hx Hl]. cbn [app Str.find].
    assert (Str.starts_with (CRLF ++ CRLF) (x :: (l ++ CRLF ++ r)) = false) as ->.
    { unfold CRLF at 1 2. cbn [app Str.starts_with].
      destruct l as [|y l]; cbn [app]; [by rewrite andb_false_r|].
      apply not_elem_of_cons in Hl as [Hy _].
      by rewrite (Str.beq_neq Str.LF y), andb_false_r by done. }
    rewrite IH by done. destruct (Str.starts_with CRLF r); [done|].
    by destruct (Str.find (CRLF ++ CRLF) r).
Qed.

Lemma starts_with_line l r :
  Str.LF ∉ l → l ≠ [] → Str.starts_with CRLF (l ++ CRLF ++ r) = false.
Proof.
  intros Hlf Hne. destruct l as [|x [|y l]]; [done|cbn; apply andb_false_r|].
  apply not_elem_of_cons in Hlf as [_ [Hy _]%not_elem_of_cons].
  unfold CRLF at 1. cbn [app Str.starts_with].
  by rewrite (Str.beq_neq Str.LF y), andb_false_r by done.
Qed.

Lemma find_unlines ls more :
  ls ≠ [] → Forall (λ l, (Str.LF ∉ l) ∧ l ≠ []) ls →
  Str.find (CRLF ++ CRLF) (unlines ls ++ CRLF ++ more) = Some (length (unlines ls) - 2)%nat.
Proof.
  intros Hne H. induction H as [|l ls [Hlf Hl] Hls IH]; [done|].
  rewrite unlines_cons, <- !app_assoc, find_blank by done.
  destruct ls as [|l2 ls].
  - cbn [app unlines concat fmap list_fmap].
    rewrite Str.starts_with_app. rewrite !length_app. cbn. f_equal. lia.
  - apply Forall_cons in Hls as Hls'. destruct Hls' as [[Hlf2 Hl2] _].
    assert (Str.starts_with CRLF (unlines (l2 :: ls) ++ CRLF ++ more) = false) as Hs
      by (rewrite unlines_cons, <- !app_assoc; by apply starts_with_line).
    assert (2 ≤ length (unlines (l2 :: ls)))%nat
      by (rewrite unlines_cons, !length_app; cbn; lia).
    rewrite Hs, IH by done. cbn [fmap option_fmap option_map]. f_equal.
    rewrite !length_app. change (length CRLF) with 2%nat. lia.
Qed.

Lemma head_end_unlines ls more :
  ls ≠ [] → Forall (λ l, (Str.LF ∉ l) ∧ l ≠ []) ls →
  head_end (unlines (ls ++ [[]]) ++ more) = Some (length (unlines (ls ++ [[]]))).
Proof.
  intros Hne H. rewrite unlines_app. change (unlines [[]]) with CRLF.
  rewrite <- app_assoc. unfold head_end. rewrite find_unlines by done.
  assert (2 ≤ length (unlines ls))%nat.
  { destruct ls; [done|]. rewrite unlines_cons, !length_app. cbn. lia. }
  rewrite length_app. cbn [length CRLF]. f_equal. lia.
Qed.

(** Two line feeds in a row do not come up. *)
Lemma find_lflf l r :
  Str.LF ∉ l → Str.starts_with [Str.LF] r = false →
  Str.find [Str.LF; Str.LF] r = None → Str.find [Str.LF; Str.LF] (l ++ CRLF ++ r) = None.
Proof.
  intros Hlf Hr Hnone. induction l as [|x l IH].
  - change (Str.find [Str.LF; Str.LF] ([] ++ CRLF ++ r))
      with (S <$> (if Str.starts_with [Str.LF] r then Some 0%nat
                   else S <$> Str.find [Str.LF; Str.LF] r)).
    by rewrite Hr, Hnone.
  - apply not_elem_of_cons in Hlf as [Hx Hl]. cbn [app Str.find Str.starts_with].
    rewrite (Str.beq_neq Str.LF x) by done. cbn [andb]. by rewrite IH.
Qed.

Lemma find_lflf_unlines ls :
  Forall (λ l, Str.LF ∉ l) ls →
  Str.find [Str.LF; Str.LF] (unlines ls) = None ∧ Str.starts_with [Str.LF] (unlines ls) = false.
Proof.
  induction 1 as [|l ls Hl Hls [IH1 IH2]]; [done|]. rewrite unlines_cons. split; [by apply find_lflf|].
  destruct l as [|x l]; [done|]. apply not_elem_of_cons in Hl as [Hx _]. cbn [app Str.starts_with].
  by rewrite (Str.beq_neq Str.LF x).
Qed.

(** However much of a stream has come, a head is found when all of it has, and
    then it is that head. *)
Definition ends_at (head : list byte) : Prop :=
  ∀ k more, head_end (take k (head ++ more))
    = if (k <? length head)%nat then None else Some (length head).

Lemma unlines_ends_at ls :
  ls ≠ [] → Forall (λ l, (Str.LF ∉ l) ∧ l ≠ []) ls → ends_at (unlines (ls ++ [[]])).
Proof.
  intros Hne H k more. set (hd := unlines (ls ++ [[]])).
  destruct (k <? length hd)%nat eqn:Hk; bool_prop.
  2: { rewrite take_app_ge by done. by apply head_end_unlines. }
  rewrite take_app_le by lia. unfold head_end.
  assert (Str.find [Str.LF; Str.LF] hd = None) as Hlf.
  { apply find_lflf_unlines, Forall_app. split; [|apply Forall_singleton, not_elem_of_nil].
    eapply Forall_impl; [exact H|]. by intros l [? _]. }
  assert (Str.find (CRLF ++ CRLF) hd = Some (length hd - 4)%nat) as Hcr.
  { pose proof (find_unlines ls [] Hne H) as Hf. rewrite app_nil_r in Hf.
    unfold hd. rewrite unlines_app. change (unlines [[]]) with CRLF. rewrite Hf, length_app.
    cbn [length CRLF]. f_equal. lia. }
  replace (Str.find (CRLF ++ CRLF) (take k hd)) with (@None nat).
  - replace (Str.find [Str.LF; Str.LF] (take k hd)) with (@None nat); [done|]. symmetry.
    rewrite Str.find_none in Hlf |- *. intros a b Hab. apply (Hlf a (b ++ drop k hd)).
    by rewrite <- (take_drop k hd), Hab, <- !app_assoc at 1.
  - symmetry. destruct (Str.find _ (take k hd)) as [i|] eqn:Hi; [|done]. exfalso.
    apply Str.find_spec in Hi as [(a & b & Hab & <-) _]. apply Str.find_spec in Hcr as [_ Hmin].
    assert (length (take k hd) = length a + (4 + length b))%nat as Hlen
      by (rewrite Hab, !length_app; done).
    rewrite length_take in Hlen. specialize (Hmin (length a) ltac:(lia)).
    rewrite <- (take_drop k hd), Hab, <- !app_assoc, drop_app_length in Hmin.
    change (CRLF ++ CRLF ++ b ++ drop k hd) with ((CRLF ++ CRLF) ++ b ++ drop k hd) in Hmin.
    by rewrite Str.starts_with_app in Hmin.
Qed.

(** ** Headers *)

(** A header that can be written on a line and read back. *)
Definition header_ok (h : str * str) : Prop :=
  (x3a ∉ fst h) ∧ (Str.LF ∉ fst h) ∧ (Str.LF ∉ snd h) ∧ Str.trim (snd h) = snd h ∧
  from_utf8 (fst h) = true ∧ from_utf8 (snd h) = true.

Definition line_of (h : str * str) : str := fst h ++ bs ": " ++ snd h.

Lemma header_lines_unlines hs : header_lines hs = unlines (line_of <$> hs).
Proof.
  unfold header_lines, unlines. rewrite <- list_fmap_compose. f_equal. apply list_fmap_ext.
  intros _ h _. unfold header_line, line_of. cbn. by rewrite <- app_assoc.
Qed.

Lemma line_of_ok h : header_ok h → line_ok (line_of h) ∧ line_of h ≠ [] ∧ header_of (line_of h) = Some h.
Proof.
  intros (Hc & Hlf & Hlf' & Ht & _). unfold line_of. split_and!.
  - split.
    + cbn. set_solver.
    + rewrite last_app. cbn [app bs]. change (bs ": " ++ snd h) with (x3a :: x20 :: snd h).
      rewrite !last_cons. pose proof (Str.trimmed_no_cr (snd h) Ht) as H.
      destruct (last (snd h)); [exact H|done].
  - by destruct (fst h).
  - unfold header_of. change (bs ": " ++ snd h) with (x3a :: x20 :: snd h).
    rewrite Str.split_once_char by done. cbn [mbind option_bind].
    rewrite Str.trim_space, Ht. by destruct h.
Qed.

Lemma headers_of_lines hs : Forall header_ok hs → headers_of ((line_of <$> hs) ++ [[]; []]) = Some hs.
Proof.
  unfold headers_of. intros H.
  assert (List.filter nonempty ((line_of <$> hs) ++ [[]; []]) = line_of <$> hs) as ->.
  { rewrite List.filter_app. cbn. rewrite app_nil_r. induction H as [|h hs Hh _ IH]; [done|].
    destruct (line_of_ok h Hh) as (_ & Hne & _). cbn. rewrite IH. by destruct (line_of h). }
  apply mapM_Some_2. induction H as [|h hs Hh _ IH]; [constructor|]. constructor; [|done].
  by apply line_of_ok.
Qed.

Lemma from_utf8_unlines ls : Forall (λ l, from_utf8 l = true) ls → from_utf8 (unlines ls) = true.
Proof.
  induction 1 as [|l ls Hl _ IH]; [done|]. rewrite unlines_cons.
  auto 20 with wss.
Qed.
Lemma from_utf8_line_of h : header_ok h → from_utf8 (line_of h) = true.
Proof. intros (_ & _ & _ & _ & H1 & H2). unfold line_of. auto 20 with wss. Qed.

(** A head: a start line, then headers. Its lines are read back, it is UTF-8, and it ends
    where it should. *)
Lemma head_written start hs :
  line_ok start → start ≠ [] → from_utf8 start = true → Forall header_ok hs →
  let input := unlines (start :: (line_of <$> hs) ++ [[]]) in
  head_lines input = start :: (line_of <$> hs) ++ [[]; []] ∧ from_utf8 input = true ∧ ends_at input.
Proof.
  intros Hok Hne Hutf Hhs. cbn zeta.
  change (start :: (line_of <$> hs) ++ [[]]) with ((start :: (line_of <$> hs)) ++ [[]]).
  assert (Forall (λ l, line_ok l ∧ l ≠ [] ∧ from_utf8 l = true) (start :: (line_of <$> hs))) as Hls.
  { apply Forall_cons. split; [done|]. apply Forall_fmap. eapply Forall_impl; [exact Hhs|].
    intros h Hh. destruct (line_of_ok h Hh) as (? & ? & _).
    split_and!; [done..|by apply from_utf8_line_of]. }
  split_and!.
  - rewrite head_lines_unlines; [by rewrite <- app_assoc|].
    apply Forall_app. split; [|apply Forall_singleton; split; [apply not_elem_of_nil|done]].
    eapply Forall_impl; [exact Hls|]. by intros l [? _].
  - apply from_utf8_unlines, Forall_app. split; [|by repeat constructor].
    eapply Forall_impl; [exact Hls|]. by intros l (_ & _ & ?).
  - apply unlines_ends_at; [done|]. eapply Forall_impl; [exact Hls|]. by intros l ([? _] & ? & _).
Qed.

(** Headers the parser has no interest in. *)
Definition uninteresting (h : str * str) : Prop := ∀ k, is_named k h = false.

Lemma values_app k a b : values k (a ++ b) = values k a ++ values k b.
Proof. unfold values. by rewrite List.filter_app, fmap_app. Qed.
Lemma values_uninteresting k hs : Forall uninteresting hs → values k hs = [].
Proof.
  induction 1 as [|h hs Hh _ IH]; [done|]. unfold values in *. cbn. by rewrite Hh.
Qed.
Lemma values_extra k hs extra : Forall uninteresting extra → values k (hs ++ extra) = values k hs.
Proof. intros H. by rewrite values_app, (values_uninteresting k extra H), app_nil_r. Qed.

(** ** The request *)

Definition protocol_header (protocols : list str) : list (str * str) :=
  match protocols with
  | [] => []
  | _ => [(bs "Sec-WebSocket-Protocol", Str.join (bs ", ") protocols)]
  end.

(** The headers of a request, in the order [build_request] writes them. *)
Definition request_headers (host key : str) (protocols : list str) (extra : list (str * str))
  : list (str * str) :=
  [(bs "Host", host); (bs "Upgrade", bs "websocket"); (bs "Connection", bs "Upgrade");
   (bs "Sec-WebSocket-Key", key); (bs "Sec-WebSocket-Version", bs "13")]
  ++ protocol_header protocols ++ extra.

Definition request_start (path : str) : str := bs "GET " ++ path ++ bs " HTTP/1.1".

(** A subprotocol name: visible ASCII without a comma. *)
Definition protocol_ok (p : str) : Prop := forallb Str.graphic p = true ∧ (x2c ∉ p) ∧ p ≠ [].

(** What makes a request one that can be read back. *)
Record request_ok (path host key : str) (protocols : list str) (extra : list (str * str)) : Prop :=
  mkRequestOk {
  path_ok : (x20 ∉ path) ∧ (Str.LF ∉ path) ∧ from_utf8 path = true;
  host_ok : header_ok (bs "Host", host);
  key_ok : is_valid_key key = true;
  protocols_ok : Forall protocol_ok protocols;
  extra_ok : Forall header_ok extra;
  extra_free : Forall uninteresting extra;
  count_ok : (6 + length extra ≤ MAX_HEADERS)%nat;
}.

Lemma build_request_unlines path host key protocols extra :
  build_request path host key protocols extra
  = unlines (request_start path :: (line_of <$> request_headers host key protocols extra) ++ [[]]).
Proof.
  unfold build_request, request_headers, request_start. rewrite header_lines_unlines.
  rewrite unlines_cons, unlines_app, !fmap_app, !unlines_app. change (unlines [[]]) with CRLF.
  unfold unlines, line_of.
  destruct protocols as [|p ps]; cbn [protocol_header fmap list_fmap concat fst snd];
    by rewrite <- ?app_assoc, ?app_nil_r.
Qed.

Lemma valid_key_graphic key : is_valid_key key = true → forallb Str.graphic key = true.
Proof.
  unfold is_valid_key. intros [[Hl He]%andb_true_iff Ha]%andb_true_iff.
  unfold Str.ends_with in He. apply Str.starts_with_spec in He as [r Hr].
  apply (f_equal (@rev byte)) in Hr. rewrite rev_involutive, rev_app_distr, rev_involutive in Hr. subst key.
  apply Nat.eqb_eq in Hl. rewrite length_app in Hl. change (length (bs "==")) with 2%nat in Hl.
  rewrite take_app_length' in Ha by lia. rewrite forallb_app. apply andb_true_iff. split; [|done].
  rewrite forallb_forall in *. intros b Hb. apply Ha in Hb.
  pose proof (byte_forall (λ b, negb (Str.is_ascii_alphanumeric b || Byte.eqb b x2b || Byte.eqb b x2f)
    || Str.graphic b) eq_refl b) as H. cbn beta in H. by rewrite Hb in H.
Qed.

Lemma graphic_utf8 l : forallb Str.graphic l = true → from_utf8 l = true.
Proof.
  intros H. apply from_utf8_ascii. unfold ascii. rewrite forallb_forall in *. intros b Hb.
  apply H in Hb. unfold Str.graphic in Hb. bool_prop. apply Z.ltb_lt. lia.
Qed.

(** A header whose name and value are visible ASCII. *)
Lemma graphic_header n v :
  forallb Str.graphic n = true → x3a ∉ n → forallb Str.graphic v = true → header_ok (n, v).
Proof.
  intros Hn Hc Hv. split_and!; cbn [fst snd]; try done;
    first [by apply Str.graphic_not_elem|by apply Str.trim_graphic|by apply graphic_utf8].
Qed.

Lemma not_elem_bool c l : forallb (λ b, negb (Str.beq b c)) l = true → c ∉ l.
Proof.
  intros H Hin. rewrite forallb_forall in H. apply list_elem_of_In, H in Hin.
  by rewrite Str.beq_refl in Hin.
Qed.

Lemma not_elem_join c protocols :
  c ≠ x2c → c ≠ x20 → Forall (λ p, c ∉ p) protocols → c ∉ Str.join (bs ", ") protocols.
Proof.
  intros H1 H2. induction 1 as [|p ps Hp _ IH]; [set_solver|].
  destruct ps as [|q ps]; [done|].
  change (Str.join (bs ", ") (p :: q :: ps)) with (p ++ [x2c; x20] ++ Str.join (bs ", ") (q :: ps)).
  set_solver.
Qed.

Lemma from_utf8_join protocols :
  Forall (λ p, from_utf8 p = true) protocols → from_utf8 (Str.join (bs ", ") protocols) = true.
Proof.
  induction 1 as [|p ps Hp _ IH]; [done|]. destruct ps as [|q ps]; [done|].
  change (Str.join (bs ", ") (p :: q :: ps)) with (p ++ bs ", " ++ Str.join (bs ", ") (q :: ps)).
  auto 20 with wss.
Qed.

Lemma protocol_header_ok protocols :
  Forall protocol_ok protocols → Forall header_ok (protocol_header protocols).
Proof.
  intros H. destruct protocols as [|p ps]; [constructor|]. apply Forall_singleton.
  set (all := p :: ps) in *. split_and!; cbn [fst snd].
  - by apply not_elem_bool.
  - by apply not_elem_bool.
  - apply not_elem_join; [done|done|]. eapply Forall_impl; [exact H|].
    intros q (Hq & _). by apply Str.graphic_not_elem.
  - apply Str.trim_graphic_ends, Str.graphic_ends_join. eapply Forall_impl; [exact H|].
    intros q (Hq & _ & Hne). split; [by apply Str.graphic_ends_all|done].
  - done.
  - apply from_utf8_join. eapply Forall_impl; [exact H|].
    intros q (Hq & _). by apply graphic_utf8.
Qed.

Section Trip.
Context {T : Target}.

Lemma request_headers_ok path host key protocols extra :
  request_ok path host key protocols extra →
  Forall header_ok (request_headers host key protocols extra).
Proof.
  intros [_ Hhost Hkey Hp He _ _]. unfold request_headers.
  assert (∀ n v, forallb Str.graphic n && forallb (λ b, negb (Str.beq b x3a)) n
    && forallb Str.graphic v = true → header_ok (n, v)) as Hg.
  { intros n v [[Hn Hc]%andb_true_iff Hv]%andb_true_iff.
    apply graphic_header; [done|by apply not_elem_bool|done]. }
  apply valid_key_graphic in Hkey.
  repeat (apply Forall_cons; split; [first [done | apply Hg; vm_compute; reflexivity | idtac]|]).
  - apply Hg. by rewrite Hkey.
  - apply Forall_app. split; [by apply protocol_header_ok|done].
Qed.

Lemma request_start_ok path :
  x20 ∉ path → Str.LF ∉ path →
  line_ok (request_start path) ∧ request_start path ≠ [] ∧
  Str.split x20 (request_start path) = [bs "GET"; path; bs "HTTP/1.1"].
Proof.
  intros Hs Hlf. unfold request_start. split_and!; [split|done|].
  - intros [H|[H|H]%elem_of_app]%elem_of_app; [|done|]; revert H; by apply not_elem_bool.
  - by rewrite app_assoc, Str.last_app_ne by done.
  - change (bs "GET " ++ path ++ bs " HTTP/1.1")
      with (bs "GET" ++ x20 :: (path ++ x20 :: bs "HTTP/1.1")).
    rewrite Str.split_app by (by apply not_elem_bool). by rewrite Str.split_app by done.
Qed.

Lemma tokens_join protocols :
  Forall protocol_ok protocols → protocols ≠ [] →
  List.filter nonempty (tokens (Str.join (bs ", ") protocols)) = protocols.
Proof.
  intros H Hne. destruct protocols as [|p ps]; [done|]. unfold tokens.
  rewrite Str.split_join_tokens.
  - clear Hne. induction H as [|q qs (_ & _ & Hq) _ IH]; [done|]. cbn. rewrite IH. by destruct q.
  - eapply Forall_impl; [exact H|]. intros q (Hg & Hc & Hq).
    split_and!; [done|by apply Str.trim_graphic|done].
Qed.

Lemma request_values path host key protocols extra :
  request_ok path host key protocols extra →
  let hs := request_headers host key protocols extra in
  says_upgrade hs = true ∧ says_connection hs = true ∧ says_version hs = true ∧
  last_value KKey hs = Some key ∧ offers hs = protocols.
Proof.
  intros [_ _ _ Hp _ Hextra _]. cbn zeta. unfold request_headers. rewrite app_assoc.
  set (own := [_; _; _; _; _] ++ _).
  assert (∀ k, values k (own ++ extra) = values k own) as Hv by (intros; by apply values_extra).
  unfold says_upgrade, says_connection, says_version, offers, last_value. rewrite !Hv.
  unfold own. rewrite !values_app.
  destruct protocols as [|p ps]; cbn [protocol_header]; (split_and!; [done..|]).
  - done.
  - set (all := p :: ps) in *.
    transitivity (List.filter nonempty (tokens (Str.join (bs ", ") all)) ++ []); [reflexivity|].
    rewrite app_nil_r. by apply tokens_join.
Qed.

(** The server reads what the client asked for. The request that
    [build_request] writes, for a path without spaces, a well-formed key and headers
    that can stand on a line and are not the handshake's own, is parsed as an
    upgrade with that path and key, the offered protocols in order, and every
    header in order; and [head_end] finds its end, when it has come and not before. *)
Lemma request_roundtrip path host key protocols extra max_head :
  request_ok path host key protocols extra →
  let request := build_request path host key protocols extra in
  Z.of_nat (length request) <= max_head →
  parse_request request max_head
    = Ok (Parsed.Upgrade (Request.mk Get path key protocols
            (request_headers host key protocols extra))) ∧
  ends_at request.
Proof.
  intros Hok. cbn zeta. pose proof Hok as [[Hsp [Hlf Hutf]] _ Hkey _ Hextra _ Hcount].
  pose proof (request_headers_ok _ _ _ _ _ Hok) as Hhs.
  destruct (request_values _ _ _ _ _ Hok) as (Hu & Hc & Hv & Hk & Ho).
  destruct (request_start_ok path Hsp Hlf) as (Hstart & Hsne & Hsplit).
  assert (length (request_headers host key protocols extra) ≤ MAX_HEADERS)%nat as Hlen.
  { unfold request_headers. rewrite !length_app. destruct protocols; cbn [length protocol_header]; lia. }
  rewrite build_request_unlines. set (hs := request_headers host key protocols extra) in *.
  assert (from_utf8 (request_start path) = true) as Hsu by (unfold request_start; auto 20 with wss).
  destruct (head_written (request_start path) hs Hstart Hsne Hsu Hhs) as (Hlines & Hinput & Hends).
  set (input := unlines _) in *. intros Hmax. split; [|done].
  pose proof (parse_request_run input max_head Hmax Hinput) as Hrun.
  unfold request_line in Hrun. rewrite Hlines in Hrun. cbn [head tail] in Hrun.
  cbn [mbind option_bind] in Hrun. rewrite Hsplit in Hrun. cbn [head mbind option_bind] in Hrun.
  rewrite headers_of_lines in Hrun by done. rewrite Hrun, (proj2 (Nat.leb_le _ _)) by done.
  unfold verdict, asks_upgrade. by rewrite Hu, Hc, Hv, Hk, Hkey, Ho.
Qed.

(** ** The response *)

Definition accept_name : str := bs "sec-websocket-accept".

(** The headers [check_response] sees: lines without a colon are passed over. *)
Definition seen_headers (input : list byte) : list (str * str) :=
  omap header_of (tail (head_lines input)).
Definition last_named (name : str) (hs : list (str * str)) : option str :=
  last (snd <$> List.filter (λ h, Str.eq_ignore_ascii_case (fst h) name) hs).

Lemma last_named_snoc name hs h :
  last_named name (hs ++ [h])
  = if Str.eq_ignore_ascii_case (fst h) name then Some (snd h) else last_named name hs.
Proof.
  unfold last_named. rewrite List.filter_app, fmap_app. cbn.
  destruct (Str.eq_ignore_ascii_case _ _); [apply last_snoc|by rewrite app_nil_r].
Qed.

Lemma check_lines_spec expected lines :
  fold_left (check_line expected) lines (false, None)
  = (bool_decide (last_named accept_name (omap header_of lines) = Some expected),
     last_named (known_name KProtocol) (omap header_of lines)).
Proof.
  induction lines as [|line lines IH] using rev_ind; [done|].
  rewrite fold_left_app, IH, omap_app. cbn [fold_left]. unfold check_line at 1.
  assert (omap header_of [line] = if header_of line is Some h then [h] else []) as Hone
    by (cbn; by destruct (header_of line)).
  rewrite Hone. clear Hone. unfold header_of.
  destruct line as [|b line]; [by rewrite app_nil_r|].
  destruct (Str.split_once [x3a] (b :: line)) as [[n v]|]; cbn [mbind option_bind];
    [|by rewrite app_nil_r].
  rewrite !last_named_snoc. cbn [fst snd]. unfold accept_name, known_name.
  destruct (Str.eq_ignore_ascii_case n (bs "sec-websocket-accept")) eqn:Ha.
  - unfold Str.eq_ignore_ascii_case in *. apply bool_decide_eq_true in Ha. rewrite Ha.
    f_equal.
    apply bool_decide_ext. split; [by intros ->|by intros [= ->]].
  - by destruct (Str.eq_ignore_ascii_case n (bs "sec-websocket-protocol")).
Qed.

Lemma head_lines_nonempty input : ∃ status rest, head_lines input = status :: rest.
Proof.
  unfold head_lines. pose proof (Str.split_nonempty Str.LF input).
  destruct (Str.split Str.LF input) as [|l ls]; [done|]. by eexists _, _.
Qed.

Lemma check_response_run input key :
  Z.of_nat (length key) < 2 ^ 60 →
  ∃ text, @accept_for T Empty_set key = Ok text ∧
  let hs := seen_headers input in
  let status := default [] (head (head_lines input)) in
  check_response input key
  = if negb (from_utf8 input) then Err Malformed
    else if negb (Str.contains (bs "101") status) then Err NotAnUpgrade
    else if bool_decide (last_named accept_name hs = Some text)
    then Ok (last_named (known_name KProtocol) hs)
    else Err BadKey.
Proof.
  intros Hlen. destruct (accept_for_spec key Hlen) as (text & Htext & _). exists text. split; [done|].
  cbn zeta. unfold check_response, seen_headers.
  destruct (from_utf8 input); [|done]. cbn [negb].
  destruct (head_lines_nonempty input) as (status & rest & ->).
  cbn [head ok_or mbind result_bind default tail from_option id].
  destruct (Str.contains (bs "101") status); cbn [negb]; [|done].
  rewrite Htext. cbn [mbind result_bind]. rewrite check_lines_spec.
  by case_bool_decide as Hok.
Qed.

Lemma check_response_returns input key :
  Z.of_nat (length key) < 2 ^ 60 → returns (check_response input key).
Proof.
  intros Hlen. destruct (check_response_run input key Hlen) as (text & _ & H). cbn zeta in H.
  rewrite H. by repeat case_match.
Qed.

(** C26: a client goes on only with a server that answered its own key. For a key
    shorter than 2^60 bytes, the verdict on a response is decided in this order: one
    that is not UTF-8 is [Malformed]; one whose status line does not mention 101 is
    [NotAnUpgrade], whatever its headers; one whose last [Sec-WebSocket-Accept] header
    is not the accept value of that key, or that has none, is [BadKey]; and any other
    is taken, with the protocol that its last [Sec-WebSocket-Protocol] header names, if
    it has one. *)
Theorem check_response_spec input key :
  Z.of_nat (length key) < 2 ^ 60 →
  ∃ text, @accept_for T Empty_set key = Ok text ∧
  let hs := seen_headers input in
  let status := default [] (head (head_lines input)) in
  check_response input key
  = if negb (from_utf8 input) then Err Malformed
    else if negb (Str.contains (bs "101") status) then Err NotAnUpgrade
    else if bool_decide (last_named accept_name hs = Some text)
    then Ok (last_named (known_name KProtocol) hs)
    else Err BadKey.
Proof. apply check_response_run. Qed.

Lemma seen_lines hs :
  Forall header_ok hs → omap header_of ((line_of <$> hs) ++ [[]; []]) = hs.
Proof.
  induction 1 as [|h hs Hh _ IH]; [done|]. rewrite fmap_cons.
  destruct (line_of_ok h Hh) as (_ & _ & Hl).
  change (match header_of (line_of h) with
          | Some y => y :: omap header_of ((line_of <$> hs) ++ [[]; []])
          | None => omap header_of ((line_of <$> hs) ++ [[]; []])
          end = h :: hs).
  by rewrite Hl, IH.
Qed.

(** The headers of a response, in the order [build_response] writes them. *)
Definition response_headers (accept : str) (protocol : option str) (extra : list (str * str))
  : list (str * str) :=
  [(bs "Upgrade", bs "websocket"); (bs "Connection", bs "Upgrade");
   (bs "Sec-WebSocket-Accept", accept)]
  ++ match protocol with Some p => [(bs "Sec-WebSocket-Protocol", p)] | None => [] end
  ++ extra.

Lemma build_response_unlines {E} key accept protocol extra :
  (∀ E, @accept_for T E key = Ok accept) →
  @build_response T E key protocol extra
  = Ok (unlines (bs "HTTP/1.1 101 Switching Protocols"
      :: (line_of <$> response_headers accept protocol extra) ++ [[]])).
Proof.
  intros Hacc. unfold build_response, response_headers. rewrite Hacc. cbn [mbind result_bind].
  unfold mret, result_ret. f_equal. rewrite header_lines_unlines.
  rewrite unlines_cons, unlines_app, !fmap_app, !unlines_app. change (unlines [[]]) with CRLF.
  unfold unlines, line_of.
  destruct protocol as [p|]; cbn [fmap list_fmap concat fst snd];
    by rewrite <- ?app_assoc, ?app_nil_r.
Qed.

(** A header of the caller's that is not one of the two the client looks at. *)
Definition response_free (h : str * str) : Prop :=
  Str.eq_ignore_ascii_case (fst h) accept_name = false ∧
  Str.eq_ignore_ascii_case (fst h) (known_name KProtocol) = false.

Lemma last_named_free name hs extra :
  Forall (λ h, Str.eq_ignore_ascii_case (fst h) name = false) extra →
  last_named name (hs ++ extra) = last_named name hs.
Proof.
  intros H. unfold last_named. rewrite List.filter_app, fmap_app.
  replace (List.filter _ extra) with (@nil (str * str)); [by rewrite app_nil_r|].
  induction H as [|h extra Hh _ IH]; [done|]. cbn. by rewrite Hh.
Qed.

Lemma response_trip {E} key protocol extra :
  Z.of_nat (length key) < 2 ^ 60 →
  (∀ p, protocol = Some p → header_ok (bs "Sec-WebSocket-Protocol", p)) →
  Forall header_ok extra → Forall response_free extra →
  ∃ response, @build_response T E key protocol extra = Ok response ∧
    check_response response key = Ok protocol ∧
    ends_at response.
Proof.
  intros Hlen Hp Hextra Hfree.
  destruct (accept_for_spec key Hlen) as (accept & Hacc & _ & _ & Hall).
  eexists. split; [by apply (build_response_unlines key accept)|].
  set (hs := response_headers accept protocol extra).
  set (status := bs "HTTP/1.1 101 Switching Protocols").
  assert (Forall header_ok hs) as Hhs.
  { unfold hs, response_headers.
    do 2 (apply Forall_cons; split; [apply graphic_header; [done|by apply not_elem_bool|done]|]).
    apply Forall_cons; split.
    - apply graphic_header; [done|by apply not_elem_bool|].
      apply forallb_forall. intros b Hb. rewrite List.Forall_forall in Hall. apply Hall in Hb.
      pose proof (byte_forall (λ b, negb (Base64.in_alphabet b || Byte.eqb b Base64.pad)
        || Str.graphic b) eq_refl b) as H. cbn beta in H. by rewrite Hb in H.
    - apply Forall_app. split; [|done]. destruct protocol as [p|]; [|done].
      apply Forall_singleton. by apply Hp. }
  assert (line_ok status) as Hstatus by (by split; [apply not_elem_bool|]).
  destruct (head_written status hs Hstatus ltac:(done) eq_refl Hhs) as (Hlines & Hinput & Hends).
  set (input := unlines _) in *. split; [|done].
  unfold check_response. rewrite Hinput, Hlines, Hacc.
  cbn [negb head ok_or mbind result_bind tail]. change (Str.contains (bs "101") status) with true.
  cbn [negb]. rewrite check_lines_spec, seen_lines by done.
  unfold hs, response_headers. rewrite app_assoc, !(last_named_free _ _ extra).
  - destruct protocol; by rewrite bool_decide_eq_true_2.
  - eapply Forall_impl; [exact Hfree|]. by intros h [_ ?].
  - eapply Forall_impl; [exact Hfree|]. by intros h [? _].
Qed.

(** ** The refusal *)
Definition rejection_start (error : UpgradeError) : str :=
  bs "HTTP/1.1 " ++
  match error with
  | WrongVersion => bs "426 Upgrade Required"
  | HeadTooLarge => bs "431 Request Header Fields Too Large"
  | _ => bs "400 Bad Request"
  end.
Definition rejection_headers (error : UpgradeError) (extra : list (str * str)) : list (str * str) :=
  match error with WrongVersion => [(bs "Sec-WebSocket-Version", bs "13")] | _ => [] end
  ++ [(bs "Connection", bs "close"); (bs "Content-Length", bs "0")] ++ extra.

Lemma build_rejection_unlines error extra :
  build_rejection error extra
  = unlines (rejection_start error :: (line_of <$> rejection_headers error extra) ++ [[]]).
Proof.
  unfold build_rejection, rejection_start, rejection_headers. rewrite header_lines_unlines.
  rewrite unlines_cons, unlines_app, !fmap_app, !unlines_app. change (unlines [[]]) with CRLF.
  by destruct error.
Qed.

(** A refusal, whatever it is for, is no answer that a client goes on with. *)
Lemma rejection_trip error extra key :
  Forall header_ok extra →
  check_response (build_rejection error extra) key = Err NotAnUpgrade ∧
  ends_at (build_rejection error extra).
Proof.
  intros Hextra. rewrite build_rejection_unlines.
  set (hs := rejection_headers error extra).
  assert (line_ok (rejection_start error)) as Hstart.
  { split; [apply not_elem_bool|]; by destruct error. }
  assert (rejection_start error ≠ [] ∧ from_utf8 (rejection_start error) = true ∧
    Str.contains (bs "101") (rejection_start error) = false) as (Hne & Hutf & Hno)
    by (by destruct error).
  assert (Forall header_ok hs) as Hhs.
  { assert (∀ n v, forallb Str.graphic n && forallb (λ b, negb (Str.beq b x3a)) n
      && forallb Str.graphic v = true → header_ok (n, v)) as Hg.
    { intros n v [[Hn Hc]%andb_true_iff Hv]%andb_true_iff.
      apply graphic_header; [done|by apply not_elem_bool|done]. }
    unfold hs, rejection_headers. apply Forall_app. split.
    - destruct error; repeat (apply Forall_cons; split; [by apply Hg|]); by apply Forall_nil.
    - do 2 (apply Forall_cons; split; [by apply Hg|]). done. }
  destruct (head_written _ hs Hstart Hne Hutf Hhs) as (Hlines & Hinput & Hends).
  set (input := unlines _) in *. split; [|done].
  unfold check_response. rewrite Hinput, Hlines. cbn [negb head ok_or mbind result_bind].
  by rewrite Hno.
Qed.

(** The client takes the server's answer. The response that [build_response]
    writes to a key, with any subprotocol and any further headers that can stand
    on a line and are not the two that the client looks at, passes the client's
    check of that key, which reports that subprotocol; and [head_end] finds its
    end, when it has come and not before. *)
Lemma response_roundtrip {E} key protocol extra :
  Z.of_nat (length key) < 2 ^ 60 →
  (∀ p, protocol = Some p → header_ok (bs "Sec-WebSocket-Protocol", p)) →
  Forall header_ok extra → Forall response_free extra →
  ∃ response, @build_response T E key protocol extra = Ok response ∧
    check_response response key = Ok protocol ∧
    ends_at response.
Proof. apply response_trip. Qed.
End Trip.

(** ** Examples: the handshake of RFC 6455 section 1.2 *)
Definition chat_extra : list (str * str) := [(bs "Origin", bs "http://example.com")].

Lemma chat_extra_ok : Forall header_ok chat_extra ∧ Forall uninteresting chat_extra.
Proof.
  split; apply Forall_singleton.
  - split_and!; by first [apply not_elem_bool|vm_compute].
  - intros k. by destruct k; vm_compute.
Qed.

Lemma chat_request_ok :
  request_ok (bs "/chat") (bs "server.example.com") nonce_key [bs "chat"; bs "superchat"] chat_extra.
Proof.
  destruct chat_extra_ok as [He Hf]. split; try done.
  - split_and!; by first [apply not_elem_bool|done].
  - by apply graphic_header; first [done|apply not_elem_bool].
  - repeat (apply Forall_cons; split; [split_and!; by first [done|apply not_elem_bool]|]).
    by apply Forall_nil.
  - vm_compute. lia.
Qed.

Lemma chat_request_parses :
  parse_request
    (build_request (bs "/chat") (bs "server.example.com") nonce_key [bs "chat"; bs "superchat"] chat_extra)
    DEFAULT_MAX_HEAD
  = Ok (Parsed.Upgrade (Request.mk Get (bs "/chat") nonce_key [bs "chat"; bs "superchat"]
      (request_headers (bs "server.example.com") nonce_key [bs "chat"; bs "superchat"] chat_extra))).
Proof.
  refine (proj1 (request_roundtrip _ _ _ _ _ DEFAULT_MAX_HEAD chat_request_ok _)).
  by vm_compute.
Defined.

Lemma check_response_spec_witness :
  let page := bs "HTTP/1.1 404 Not Found" ++ CRLF ++ CRLF in
  check_response (T := target_x86_64) page nonce_key = Err NotAnUpgrade.
Proof.
  destruct (@check_response_spec target_x86_64 (bs "HTTP/1.1 404 Not Found" ++ CRLF ++ CRLF)
    nonce_key eq_refl) as (text & _ & H).
  exact H.
Defined.

Lemma response_roundtrip_witness :
  ∃ response, @build_response target_x86_64 Empty_set nonce_key (Some (bs "chat")) chat_extra = Ok response ∧
    @check_response target_x86_64 response nonce_key = Ok (Some (bs "chat")) ∧
    ends_at response.
Proof.
  apply (@response_roundtrip target_x86_64 Empty_set nonce_key (Some (bs "chat")) chat_extra).
  - by vm_compute.
  - intros p [= <-]. by apply graphic_header; first [done|apply not_elem_bool].
  - apply chat_extra_ok.
  - by apply Forall_singleton; split; vm_compute.
Defined.
