(* ===== verification/Conn.v ===== *)
(** * A live connection ([src/conn.rs])

    The protocol core driven over a stream. Every method of [Connection] is a
    function in the state monad over the whole connection record; [.await] on
    the stream runs the stream's own operation on its state. The two loops
    ([read] and [parse_buffered]) carry a step bound: [parse_buffered] is given
    one more than the bytes it holds, since each turn of its loop consumes a
    frame header of at least two bytes, and [read] takes the bound as an
    argument, since only the stream can say how often it has to be asked. *)
From Stdlib Require Import ZArith Lia Strings.Byte.
From stdpp Require Import base option list.
From S2P Require Import Prelude Bytes Opcode Mask Frame Utf8 Message Stream Str Handshake.

(** [enum Role] *)
Inductive Role : Set := Client | Server.
#[export] Instance Role_eq_dec : EqDecision Role.
Proof. solve_decision. Defined.

(** [enum Error] *)
Inductive Error `{N : ErrnoType} : Type :=
| Io (e : Errno)
| Frame (e : FrameError)
| Protocol (e : ProtocolError)
| MaskingViolation
| UnexpectedEof
| Upgrade (e : UpgradeError)
| Url (reason : str).

(** [Error::close_code] *)
Definition error_close_code `{N : ErrnoType} (e : Error) : option CloseCode :=
  match e with
  | Frame TooLarge => Some CloseCode.TOO_LARGE
  | Frame _ | MaskingViolation => Some CloseCode.PROTOCOL
  | Protocol InvalidUtf8 => Some CloseCode.INVALID_PAYLOAD
  | Protocol MessageTooLarge => Some CloseCode.TOO_LARGE
  | Protocol _ => Some CloseCode.PROTOCOL
  | Io _ | UnexpectedEof | Upgrade _ | Url _ => None
  end.

(** [impl From<Errno> for Error] *)
Definition from_errno `{N : ErrnoType} (value : Errno) : Error := Io value.

(** [{error:?}], as [derive(Debug)] prints the three kinds of error *)
Definition frame_error_debug (e : FrameError) : str :=
  match e with
  | ReservedOpCode bits => bs "ReservedOpCode(" ++ Str.decimal_u16 bits ++ bs ")"
  | ReservedBitSet => bs "ReservedBitSet"
  | InvalidControlFrame => bs "InvalidControlFrame"
  | InvalidLength => bs "InvalidLength"
  | TooLarge => bs "TooLarge"
  end.
Definition protocol_error_debug (e : ProtocolError) : str :=
  match e with
  | UnexpectedContinuation => bs "UnexpectedContinuation"
  | InterleavedDataFrame => bs "InterleavedDataFrame"
  | InvalidUtf8 => bs "InvalidUtf8"
  | MalformedCloseFrame => bs "MalformedCloseFrame"
  | InvalidCloseCode => bs "InvalidCloseCode"
  | MessageTooLarge => bs "MessageTooLarge"
  end.
Definition upgrade_error_debug (e : UpgradeError) : str :=
  match e with
  | Malformed => bs "Malformed"
  | NotGet => bs "NotGet"
  | NotAnUpgrade => bs "NotAnUpgrade"
  | WrongVersion => bs "WrongVersion"
  | BadKey => bs "BadKey"
  | HeadTooLarge => bs "HeadTooLarge"
  end.

(** [impl Display for Error], given how a stream error is displayed *)
Definition error_fmt `{N : ErrnoType} (errno_fmt : Errno → str) (e : Error) : str :=
  match e with
  | Io error => bs "io: " ++ errno_fmt error
  | Frame error => bs "frame: " ++ frame_error_debug error
  | Protocol error => bs "protocol: " ++ protocol_error_debug error
  | MaskingViolation => bs "masking rule violated"
  | UnexpectedEof => bs "closed without a handshake"
  | Upgrade error => bs "upgrade: " ++ upgrade_error_debug error
  | Url reason => bs "url: " ++ reason
  end.

(** [impl std::error::Error for Error] *)
Definition error_source `{N : ErrnoType} (e : Error) : option Errno :=
  match e with Io error => Some error | _ => None end.

(** An error can be told from its message, if stream errors can. The opcode of a
    [ReservedOpCode] is four bits of a byte. *)
Definition printable `{N : ErrnoType} (e : Error) : Prop :=
  match e with Frame (ReservedOpCode bits) => 0 <= bits < 256 | _ => True end.

Lemma frame_error_debug_inj e1 e2 :
  (∀ bits, e1 = ReservedOpCode bits → 0 <= bits < 256) →
  (∀ bits, e2 = ReservedOpCode bits → 0 <= bits < 256) →
  frame_error_debug e1 = frame_error_debug e2 → e1 = e2.
Proof.
  intros H1 H2. destruct e1, e2; try done; cbn [frame_error_debug].
  intros H. apply app_inv_head, app_inv_tail in H. f_equal.
  pose proof (Str.parse_decimal_u16 bits ltac:(by pose proof (H1 _ eq_refl); lia)) as E1.
  pose proof (Str.parse_decimal_u16 bits0 ltac:(by pose proof (H2 _ eq_refl); lia)) as E2.
  congruence.
Qed.

Lemma error_fmt_inj `{N : ErrnoType} (errno_fmt : Errno → str) `{!Inj (=) (=) errno_fmt} e1 e2 :
  printable e1 → printable e2 → error_fmt errno_fmt e1 = error_fmt errno_fmt e2 → e1 = e2.
Proof.
  intros H1 H2. destruct e1 as [e1|e1|e1| | |e1|e1], e2 as [e2|e2|e2| | |e2|e2]; try done;
    cbn [error_fmt]; intros H; try (apply app_inv_head in H); f_equal; try done.
  - by apply (inj errno_fmt).
  - apply frame_error_debug_inj; [by intros bits ->..|done].
  - by destruct e1, e2.
  - by destruct e1, e2.
Qed.

(** [const READ_CHUNK], [const MAX_RETAINED_OUTGOING] *)
Definition READ_CHUNK : nat := 16 * 1024.
Definition MAX_RETAINED_OUTGOING : nat := 8 * 1024.

(** A [Vec<u8>] whose capacity matters. *)
Record Vec : Type := mkVec { vec_data : list byte; vec_capacity : nat }.
(** [Vec::extend_from_slice] *)
Definition vec_extend `{A : Alloc} (l : list byte) (v : Vec) : Vec :=
  mkVec (vec_data v ++ l) (grow (length (vec_data v)) (vec_capacity v) (length l)).

(** [struct Connection] *)
Record Connection (S : Type) : Type := mkConnection {
  stream : S;
  role : Role;
  assembler : Assembler;
  read_buffer : BytesMut;
  scratch : list byte;
  outgoing : Vec;
  mask_state : Z;
  close_sent : bool;
}.
Arguments mkConnection {S}.
Arguments stream {S}.
Arguments role {S}.
Arguments assembler {S}.
Arguments read_buffer {S}.
Arguments scratch {S}.
Arguments outgoing {S}.
Arguments mask_state {S}.
Arguments close_sent {S}.

Section Setters.
Context {S : Type}.
Implicit Types c : Connection S.
Definition set_stream (x : S) c :=
  mkConnection x (role c) (assembler c) (read_buffer c) (scratch c) (outgoing c)
    (mask_state c) (close_sent c).
Definition set_assembler x c :=
  mkConnection (stream c) (role c) x (read_buffer c) (scratch c) (outgoing c)
    (mask_state c) (close_sent c).
Definition set_read_buffer x c :=
  mkConnection (stream c) (role c) (assembler c) x (scratch c) (outgoing c)
    (mask_state c) (close_sent c).
Definition set_scratch x c :=
  mkConnection (stream c) (role c) (assembler c) (read_buffer c) x (outgoing c)
    (mask_state c) (close_sent c).
Definition set_outgoing x c :=
  mkConnection (stream c) (role c) (assembler c) (read_buffer c) (scratch c) x
    (mask_state c) (close_sent c).
Definition set_mask_state x c :=
  mkConnection (stream c) (role c) (assembler c) (read_buffer c) (scratch c) (outgoing c)
    x (close_sent c).
Definition set_close_sent x c :=
  mkConnection (stream c) (role c) (assembler c) (read_buffer c) (scratch c) (outgoing c)
    (mask_state c) x.
End Setters.

(** [fn encode_close_body] *)
Definition encode_close_body (frame : option CloseFrame) : list byte :=
  match frame with
  | None => []
  | Some frame =>
      let sent :=
        if CloseCode.is_sendable (close_code frame) then close_code frame
        else CloseCode.INTERNAL_ERROR in
      be_bytes 2 (code sent) ++ reason frame
  end.

(** The opcode and payload a message is sent with: the match at the head of
    [write] and of the loop of [encode_all]. *)
Definition message_frame (message : Message) : OpCode * list byte :=
  match message with
  | Message.Text payload => (Text, payload)
  | Message.Binary payload => (Binary, payload)
  | Message.Ping payload => (Ping, payload)
  | Message.Pong payload => (Pong, payload)
  | Message.Close frame => (Close, encode_close_body frame)
  end.
Definition is_close (message : Message) : bool :=
  if message is Message.Close _ then true else false.

(** [fn stream_seed], on the clock and the stack address it reads *)
Definition stream_seed `{T : Target} (nanos address : Z) : list byte :=
  to_ne_bytes 8 (wrap_to 64 nanos) ++ to_ne_bytes 8 (wrap_to 64 address).
(** [fn seed_from] *)
Definition seed_from `{T : Target} (bytes : list byte) : Z :=
  Z.lxor (from_ne_bytes (take 8 bytes)) (from_ne_bytes (drop 8 bytes)).

Module Connection.
Section Connection.
Context `{T : Target, U : Utf8Impl, A : Alloc, N : ErrnoType}.
Context {S : Type} `{!ByteStream S, !StreamExt S}.

Abbreviation Conn := (Connection S).
Abbreviation M := (stM Conn Error).

(** [Connection::with_buffered]; [nanos] and [address] are what
    [stream_seed] reads from the machine. *)
Definition with_buffered (nanos address : Z) (s : S) (r : Role) (l : Limits)
    (buffered : BytesMut) : Conn :=
  {| stream := s;
     role := r;
     assembler := Assembler.new l;
     read_buffer :=
       BytesMut.extend_from_slice (bm_data buffered) (BytesMut.with_capacity READ_CHUNK);
     scratch := [];
     outgoing := mkVec [] (initial_capacity 512);
     mask_state := seed_from (stream_seed nanos address);
     close_sent := false |}.

(** [Connection::new] *)
Definition new (nanos address : Z) (s : S) (r : Role) (l : Limits) : Conn :=
  with_buffered nanos address s r l BytesMut.new.

Definition on_read_buffer {X} (m : stM BytesMut Error X) : M X :=
  st_zoom read_buffer set_read_buffer m.
Definition on_stream {X} (m : stM S Errno X) : M X :=
  st_zoom stream set_stream (st_map_err Io m).

(** ** Reading *)

(** The body of the loop of [parse_buffered]: [Some r] is [return Ok(r)], and
    [None] is [continue]. *)
Definition parse_step : M (option (option Message)) :=
  self ← st_get;
  let limits := limits (assembler self) in
  decoded ← st_lift (map_err Frame (Header.decode (bm_data (read_buffer self)) (max_frame limits)));
  match decoded with
  | inl _ => mret (Some None)
  | inr (header, header_len) =>
      total ← st_lift (usize_add (Z.of_nat header_len) (as_usize (payload_len header)));
      let len := Z.of_nat (BytesMut.len (read_buffer self)) in
      if len <? total then
        st_modify (set_read_buffer
          (BytesMut.reserve (Z.to_nat (total - len)) (read_buffer self)));;
        mret (Some None)
      else
      match role self, mask header with
      | Server, None | Client, Some _ => st_throw MaskingViolation
      | _, _ =>
          taken ← on_read_buffer (BytesMut.split_to (Z.to_nat total));
          payload ← st_lift (fst (BytesMut.split_off header_len taken));
          let payload :=
            match mask header with
            | Some key => fst (Mask.apply (bm_data payload) key 0)
            | None => bm_data payload
            end in
          message ← st_zoom assembler set_assembler
            (st_map_err Protocol (Assembler.accept (opcode header) (fin header) payload));
          match message with
          | Some message => mret (Some (Some message))
          | None => mret None
          end
      end
  end.

Fixpoint parse_loop (fuel : nat) : M (option Message) :=
  match fuel with
  | O => st_lift OutOfFuel
  | Datatypes.S fuel =>
      next ← parse_step;
      match next with
      | Some r => mret r
      | None => parse_loop fuel
      end
  end.

(** [Connection::parse_buffered] *)
Definition parse_buffered : M (option Message) := λ c,
  parse_loop (Datatypes.S (BytesMut.len (read_buffer c))) c.

(** [if capacity - len < READ_CHUNK { reserve(READ_CHUNK) }] *)
Definition ensure_room : M unit :=
  st_modify (λ c,
    let b := read_buffer c in
    if (bm_capacity b - BytesMut.len b <? READ_CHUNK)%nat
    then set_read_buffer (BytesMut.reserve READ_CHUNK b) c else c).

(** [self.stream.read_buf(&mut self.read_buffer).await?] *)
Definition fill : M nat :=
  st_zoom (λ c, (stream c, read_buffer c))
    (λ '(s, b) c, set_read_buffer b (set_stream s c)) (st_map_err Io read_buf).

(** [Connection::read] *)
Fixpoint read (fuel : nat) : M (option Message) :=
  match fuel with
  | O => st_lift OutOfFuel
  | Datatypes.S fuel =>
      parsed ← parse_buffered;
      match parsed with
      | Some message => mret (Some message)
      | None =>
          ensure_room;;
          n ← fill;
          if (n =? 0)%nat then
            self ← st_get;
            if Assembler.is_closed (assembler self) then mret None
            else st_throw UnexpectedEof
          else read fuel
      end
  end.

(** ** Writing *)

(** [Connection::next_mask] *)
Definition next_mask : M Mask :=
  self ← st_get;
  let state := wrap_to 64 (mask_state self + 0x9E3779B97F4A7C15) in
  st_put (set_mask_state state self);;
  let z := state in
  let z := wrap_to 64 (Z.lxor z (Z.shiftr z 30) * 0xBF58476D1CE4E5B9) in
  let z := wrap_to 64 (Z.lxor z (Z.shiftr z 27) * 0x94D049BB133111EB) in
  let z := Z.lxor z (Z.shiftr z 31) in
  st_lift (expect (mask_of_bytes (to_ne_bytes 4 (wrap_to 32 z)))).

(** [match self.role { Client => Some(self.next_mask()), Server => None }] *)
Definition frame_mask : M (option Mask) :=
  self ← st_get;
  match role self with
  | Client => key ← next_mask; mret (Some key)
  | Server => mret None
  end.

(** [header.encode(&mut header_bytes).expect(..)] on a fresh array, and the
    slice of it that was written *)
Definition encode_header (header : Header) : M (list byte) :=
  let '(r, header_bytes) := Header.encode header (replicate Header.MAX_ENCODED_LEN x00) in
  written ← st_lift r;
  header_len ← st_lift (expect written);
  mret (take header_len header_bytes).

(** [Connection::write_frame] *)
Definition write_frame (opcode : OpCode) (fin : bool) (payload : list byte) : M unit :=
  mask ← frame_mask;
  let header := mkHeader fin opcode mask (Z.of_nat (length payload)) in
  header_bytes ← encode_header header;
  match mask with
  | None => on_stream (write_all_vectored header_bytes payload)
  | Some key =>
      let scratch := fst (Mask.apply payload key 0) in
      result ← st_try (on_stream (write_all_vectored header_bytes scratch));
      st_modify (set_scratch scratch);;
      st_lift result
  end.

(** [Connection::write] *)
Definition write (message : Message) : M unit :=
  (if is_close message then st_modify (set_close_sent true) else mret tt);;
  let '(opcode, payload) := message_frame message in
  write_frame opcode true payload.

(** [Connection::encode_frame]: the buffer is an argument, and the result is what has
    become of it. *)
Definition encode_frame (out : Vec) (opcode : OpCode) (fin : bool) (payload : list byte)
  : M Vec :=
  mask ← frame_mask;
  let header := mkHeader fin opcode mask (Z.of_nat (length payload)) in
  header_bytes ← encode_header header;
  let out := vec_extend header_bytes out in
  let from := length (vec_data out) in
  let out := vec_extend payload out in
  mret
    match mask with
    | Some key =>
        mkVec (take from (vec_data out) ++ fst (Mask.apply (drop from (vec_data out)) key 0))
          (vec_capacity out)
    | None => out
    end.

(** [Connection::encode_all] *)
Fixpoint encode_all (out : Vec) (messages : list Message) : M Vec :=
  match messages with
  | [] => mret out
  | message :: messages =>
      (if is_close message then st_modify (set_close_sent true) else mret tt);;
      let '(opcode, payload) := message_frame message in
      out ← encode_frame out opcode true payload;
      encode_all out messages
  end.

(** The end of [write_all]: clear the buffer and give back the capacity that a
    large batch grew. *)
Definition retain (v : Vec) : Vec :=
  if (MAX_RETAINED_OUTGOING <? vec_capacity v)%nat
  then mkVec [] (Nat.max 0 MAX_RETAINED_OUTGOING) else mkVec [] (vec_capacity v).

(** [Connection::write_all]; [encode_all] cannot fail, so its [result?] is the
    [←] that propagates it. *)
Definition write_all (messages : list Message) : M unit :=
  self ← st_get;
  st_put (set_outgoing (mkVec [] 0) self);;
  out ← encode_all (mkVec [] (vec_capacity (outgoing self))) messages;
  flushed ← st_try (if (length (vec_data out) =? 0)%nat then mret tt
                    else on_stream (stream_write_all (vec_data out)));
  st_modify (set_outgoing (retain out));;
  st_lift flushed.

(** [Connection::pong] *)
Definition pong (payload : list byte) : M unit := write_frame Pong true payload.

(** [Connection::close] *)
Definition close (frame : option CloseFrame) : M unit :=
  self ← st_get;
  if close_sent self then mret tt else write (Message.Close frame).
End Connection.
End Connection.
