(* ===== verification/Sample.v ===== *)
(** * Concrete connections

    Every parameter of the development at once: a 64-bit little-endian target, the
    validator that is the standard library's, the allocator that gives what is
    asked, integers for error codes, and connections over [Pipe]s. The examples
    of the other files are evaluated here. Nothing but examples uses this file. *)
From Stdlib Require Import ZArith Lia Strings.Byte.
From stdpp Require Import base option list.
From S2P Require Import Prelude Bytes Opcode Mask Frame Utf8 Message Stream Handshake Conn.

Module Sample.
#[export] Instance target : Target := target_x86_64.
#[export] Instance target_ok : TargetOk target := target_x86_64_ok.
#[export] Instance utf8 : Utf8Impl := utf8_simd.
#[export] Instance utf8_ok : Utf8ImplOk utf8 := utf8_simd_ok.
#[export] Instance errno : ErrnoType := errno_Z.
#[export] Instance alloc : Alloc := exact_alloc.
#[export] Instance alloc_ok : AllocOk alloc := exact_alloc_ok.
#[export] Instance ext : StreamExt Pipe.t := default_ext.
#[export] Instance ext_ok : StreamExtOk Pipe.t := default_ext_laws Pipe.t.

(** A pipe on which the peer sends the given segments and then closes. *)
Definition pipe (segs : list (list byte)) : Pipe.t := Pipe.mkPipe segs None [] None.

(** A result that is known to be there. *)
Definition given {E X : Type} (x : X) (r : result E X) : X := if r is Ok y then y else x.

Definition small : Limits := mkLimits 1024 1024.

(** A fresh connection over it. *)
Definition conn (r : Role) (segs : list (list byte)) : Connection Pipe.t :=
  Connection.new 1700000000 0x7ffc0010 (pipe segs) r small.

(** RFC 6455 section 5.7: a masked ["Hello"]. *)
Definition masked_hello : list byte :=
  [x81; x85; x37; xfa; x21; x3d; x7f; x9f; x4d; x51; x58].

(** A close frame with code 1000, masked with zeros. *)
Definition masked_close : list byte :=
  [x88; x82; x00; x00; x00; x00; x03; xe8].
End Sample.
