(* ===== verification/ConnRead.v ===== *)
(** * What reading a connection means

    The specification of [Connection::read] and the proof that the code meets
    it. [frame_step] says what one frame at the front of the unread bytes does;
    [read_spec] iterates it over all the bytes the peer will send, without any
    notion of reads, buffers or chunks. [Connection.read] is shown to produce
    exactly what [read_spec] says of its buffer followed by its stream, so what a
    connection delivers cannot depend on how the bytes were cut into reads. *)
From Stdlib Require Import ZArith Lia Strings.Byte.
From stdpp Require Import base option list.
From S2P Require Import Prelude Bytes Opcode Mask Frame Utf8 Message Stream Handshake Conn Sample.

Section Spec.
Context `{T : Target, U : Utf8Impl, N : ErrnoType}.

(** RFC 6455 section 5.1, both directions. *)
Definition masking_violation (r : Role) (h : Header) : bool :=
  match r, mask h with
  | Server, None | Client, Some _ => true
  | _, _ => false
  end.

Definition unmask (key : option Mask) (payload : list byte) : list byte :=
  match key with Some key => Mask.reference payload key 0 | None => payload end.

Inductive step : Type :=
| Need
| Fail (e : Error) (a : Assembler) (rest : list byte)
| Got (m : option Message) (a : Assembler) (rest : list byte).

(** What the frame at the front of [buf] does. *)
Definition frame_step (r : Role) (a : Assembler) (buf : list byte) : step :=
  match Header.decode buf (max_frame (limits a)) with
  | Err e => Fail (Frame e) a buf
  | Ok (inr (h, n)) =>
      if Z.of_nat (length buf) <? Z.of_nat n + payload_len h then Need
      else if masking_violation r h then Fail MaskingViolation a buf
      else
        let len := Z.to_nat (payload_len h) in
        let payload := unmask (mask h) (take len (drop n buf)) in
        let rest := drop (n + len) buf in
        match Assembler.accept (opcode h) (fin h) payload a with
        | (Ok m, a') => Got m a' rest
        | (Err e, a') => Fail (Protocol e) a' rest
        | (_, a') => Need
        end
  | _ => Need
  end.

(** What is reported when the peer sends nothing more. *)
Definition at_end (ending : option Errno) (a : Assembler) : result Error (option Message) :=
  match ending with
  | Some e => Err (Io e)
  | None => if closed a then Ok None else Err UnexpectedEof
  end.

(** [read_spec r ending a w res a' w']: with assembler [a] and [w] all the
    bytes still to come, a read returns [res] and leaves [a'] and [w']. *)
Inductive read_spec (r : Role) (ending : option Errno)
  : Assembler → list byte → result Error (option Message) → Assembler → list byte → Prop :=
| read_end a w :
    frame_step r a w = Need → read_spec r ending a w (at_end ending a) a w
| read_fail a w e a' w' :
    frame_step r a w = Fail e a' w' → read_spec r ending a w (Err e) a' w'
| read_message a w m a' w' :
    frame_step r a w = Got (Some m) a' w' → read_spec r ending a w (Ok (Some m)) a' w'
| read_skip a w a1 w1 res a' w' :
    frame_step r a w = Got None a1 w1 → read_spec r ending a1 w1 res a' w' →
    read_spec r ending a w res a' w'.

(** From the assembler [a] and the bytes [w], frames that complete no message lead to
    [a'] and [w']. *)
Inductive skips (r : Role) : Assembler → list byte → Assembler → list byte → Prop :=
| skips_done a w : skips r a w a w
| skips_next a w a1 w1 a' w' :
    frame_step r a w = Got None a1 w1 → skips r a1 w1 a' w' → skips r a w a' w'.

(** A control message is as small as the protocol wants it: 125 bytes of payload, of
    which a close frame's code takes two. *)
Definition control_fits (m : Message) : Prop :=
  match m with
  | Message.Ping p | Message.Pong p => (length p ≤ 125)%nat
  | Message.Close (Some frame) => (length (reason frame) ≤ 123)%nat
  | _ => True
  end.

(** The same over the bytes at hand only: [None] when they run out. *)
Inductive drain (r : Role)
  : Assembler → list byte → option (result Error (option Message)) → Assembler → list byte → Prop :=
| drain_need a w : frame_step r a w = Need → drain r a w None a w
| drain_fail a w e a' w' :
    frame_step r a w = Fail e a' w' → drain r a w (Some (Err e)) a' w'
| drain_message a w m a' w' :
    frame_step r a w = Got (Some m) a' w' → drain r a w (Some (Ok (Some m))) a' w'
| drain_skip a w a1 w1 res a' w' :
    frame_step r a w = Got None a1 w1 → drain r a1 w1 res a' w' →
    drain r a w res a' w'.

(** ** Frames at the front of the bytes *)

(** A frame consumes at least its two fixed bytes. *)
Lemma frame_step_shrinks r a buf m a' rest :
  frame_step r a buf = Got m a' rest → (length rest + 2 ≤ length buf)%nat.
Proof.
  unfold frame_step. destruct (Header.decode _ _) as [[|[h n]]| | |] eqn:Hd; try done.
  apply Header.decode_inv in Hd as ([[Hpos _] _] & _ & -> & _).
  pose proof (Header.encoded_len_bounds h).
  destruct (_ <? _) eqn:Hlen; [done|]. bool_prop.
  repeat (case_match; try done). intros [= <- <- <-]. rewrite length_drop. lia.
Qed.

(** More bytes do not change what the frame at the front does. *)
Lemma frame_step_app r a buf more :
  match frame_step r a buf with
  | Need => True
  | Fail e a' rest => frame_step r a (buf ++ more) = Fail e a' (rest ++ more)
  | Got m a' rest => frame_step r a (buf ++ more) = Got m a' (rest ++ more)
  end.
Proof.
  unfold frame_step. destruct (Header.decode buf _) as [[|[h n]]|e| |] eqn:Hd; try done.
  - pose proof (Header.decode_inv _ _ _ _ Hd) as ([[Hpos _] _] & _ & -> & w & Hbuf).
    rewrite (Header.decode_app _ more _ _ Hd) by done.
    destruct (_ <? _) eqn:Hlen; [done|]. bool_prop.
    rewrite (proj2 (Z.ltb_ge _ _)) by len_lia.
    destruct (masking_violation r h); [done|].
    set (n := Header.encoded_len h) in *. set (len := Z.to_nat (payload_len h)).
    rewrite (drop_app_le buf more n), (drop_app_le buf more (n + len)), take_app_le
      by (rewrite ?length_drop; lia).
    by destruct (Assembler.accept _ _ _ a) as [[| | |] ?].
  - by rewrite (Header.decode_app _ more _ _ Hd).
Qed.

Lemma drain_app r a buf res a' rest more :
  drain r a buf res a' rest →
  match res with
  | Some res => ∀ ending, read_spec r ending a (buf ++ more) res a' (rest ++ more)
  | None => ∀ ending res a2 w2,
      read_spec r ending a' (rest ++ more) res a2 w2 →
      read_spec r ending a (buf ++ more) res a2 w2
  end.
Proof.
  induction 1 as [a w H|a w e a' w' H|a w m a' w' H|a w a1 w1 res a' w' H Hd IH];
    pose proof (frame_step_app r a w more) as Happ; rewrite H in Happ; [done|..].
  - intros. by apply read_fail.
  - intros. by apply read_message.
  - destruct res; intros; eapply read_skip; eauto.
Qed.

(** A read passes over the frames that complete nothing, and is decided by the first
    that does something else. *)
Lemma read_spec_skips r ending a w res a' w' :
  read_spec r ending a w res a' w' →
  ∃ a1 w1, skips r a w a1 w1 ∧
    match frame_step r a1 w1 with
    | Need => res = at_end ending a1 ∧ a' = a1 ∧ w' = w1
    | Fail e a2 w2 => res = Err e ∧ a' = a2 ∧ w' = w2
    | Got (Some m) a2 w2 => res = Ok (Some m) ∧ a' = a2 ∧ w' = w2
    | Got None _ _ => False
    end.
Proof.
  induction 1 as [a w H|a w e a' w' H|a w m a' w' H|a w a1 w1 res a' w' H Hd IH].
  1-3: exists a, w; split; [apply skips_done|by rewrite H].
  destruct IH as (a2 & w2 & ? & ?). exists a2, w2. split; [by eapply skips_next|done].
Qed.

Lemma skips_read_spec r ending a w a1 w1 res a' w' :
  skips r a w a1 w1 → read_spec r ending a1 w1 res a' w' → read_spec r ending a w res a' w'.
Proof. induction 1; [done|]. intros. by eapply read_skip; [|auto]. Qed.

(** What a frame that is passed over or refused is not. *)
Lemma frame_step_fail r a w e a' w' :
  frame_step r a w = Fail e a' w' →
  match e with Frame _ | Protocol _ | MaskingViolation => True | _ => False end.
Proof. unfold frame_step. by repeat (case_match; simplify_eq). Qed.

Lemma frame_step_control r a w m a' w' :
  frame_step r a w = Got (Some m) a' w' → control_fits m.
Proof.
  unfold frame_step. destruct (Header.decode _ _) as [[|[h n]]| | |] eqn:Hd; try done.
  apply Header.decode_inv in Hd as ([[Hpos _] Hctl] & _ & _).
  destruct (_ <? _); [done|]. destruct (masking_violation r h); [done|].
  set (p := unmask _ _).
  assert (length p ≤ Z.to_nat (payload_len h))%nat as Hp.
  { unfold p, unmask. destruct (mask h); unfold Mask.reference; rewrite ?length_imap, length_take; lia. }
  clearbody p. pose proof (Assembler.accept_run (opcode h) (fin h) p a) as Hrun.
  destruct (Assembler.accept (opcode h) (fin h) p a) as [[[x|]|e| |] a1]; try done.
  intros [= -> _ _]. symmetry in Hrun.
  destruct (closed a); [done|]. destruct (opcode h); cbn [OpCode.is_control] in Hctl.
  1-3: destruct m as [| | | |[]]; try done;
    repeat (case_match; simplify_eq/=); unfold Assembler.deliver in *;
    repeat (case_match; simplify_eq/=).
  - rewrite Assembler.parse_close_body_spec in Hrun.
    destruct p as [|b0 [|b1 p]]; cbn -[be_val] in Hrun; [by injection Hrun as <- _|done|].
    destruct (CloseCode.is_sendable _), (is_utf8 p); try done.
    injection Hrun as <- _. cbn [control_fits reason length] in *. lia.
  - injection Hrun as <- _. cbn. lia.
  - injection Hrun as <- _. cbn. lia.
Qed.

(** The specification is a function of the bytes. *)
Lemma read_spec_deterministic r ending a w res1 a1 w1 res2 a2 w2 :
  read_spec r ending a w res1 a1 w1 → read_spec r ending a w res2 a2 w2 →
  res1 = res2 ∧ a1 = a2 ∧ w1 = w2.
Proof.
  intros H1. revert res2 a2 w2.
  induction H1 as [a w H|a w e a' w' H|a w m a' w' H|a w b v res a' w' H Hd IH];
    intros res2 a2 w2 H2; inversion H2; subst;
    match goal with H1 : frame_step _ _ _ = _, H2 : frame_step _ _ _ = _ |- _ =>
      rewrite H1 in H2; simplify_eq end; try done.
  by apply IH.
Qed.
End Spec.

Section Refinement.
Context `{T : Target, !TargetOk T, U : Utf8Impl, A : Alloc, N : ErrnoType}.

(** The length of a frame within the limit, header included, is a [usize]: any
    limit on a 64-bit target, and one up to 4 GiB on a 32-bit target. *)
Definition limits_fit (l : Limits) : Prop :=
  usize_bits = 64 ∨ max_frame l + 14 <= usize_max.

Lemma frame_total_fits {E} h n l :
  limits_fit l → Header.wf h → payload_len h <= max_frame l → n = Header.encoded_len h →
  @usize_add T E (Z.of_nat n) (as_usize (payload_len h)) = Ok (Z.of_nat n + payload_len h).
Proof.
  intros Hl [[Hpos Hlt] _] Hmax ->. pose proof (Header.encoded_len_bounds h) as Hb.
  unfold Header.MAX_ENCODED_LEN in Hb.
  assert (Z.of_nat (Header.encoded_len h) + payload_len h <= usize_max) as Hfit.
  { destruct Hl as [Hl|Hl]; [unfold usize_max; rewrite Hl|]; lia. }
  unfold usize_add, as_usize, wrap_to. rewrite Z.mod_small by (unfold usize_max in *; lia).
  by rewrite (proj2 (Z.leb_le _ _)).
Qed.

Section Wf.
Lemma frame_step_wf r a buf :
  Assembler.wf a →
  match frame_step r a buf with
  | Need => True
  | Fail _ a' _ => Assembler.wf a' ∧ limits a' = limits a
  | Got m a' _ => Assembler.wf a' ∧ limits a' = limits a ∧
      (closed a = true → closed a' = true) ∧
      (∀ x, m = Some x → Assembler.message_ok (limits a) x)
  end.
Proof.
  intros Hwf. unfold frame_step. destruct (Header.decode _ _) as [[|[h n]]| | |]; try done.
  destruct (_ <? _); [done|]. destruct (masking_violation r h); [done|].
  set (p := unmask _ _). pose proof (Assembler.accept_wf a (opcode h) (fin h) p Hwf) as H.
  destruct (Assembler.accept _ _ _ a) as [[m| | |] a'];
    destruct H as (_ & ? & ? & ? & Hm); try done.
  split_and!; try done. intros x ->. by apply Hm.
Qed.

Lemma read_spec_wf r ending a w res a' w' :
  Assembler.wf a → read_spec r ending a w res a' w' →
  returns res ∧ Assembler.wf a' ∧ limits a' = limits a ∧
  (∀ m, res = Ok (Some m) → Assembler.message_ok (limits a) m) ∧
  (res = Ok None → closed a' = true ∧ ending = None).
Proof.
  intros Hwf. induction 1 as [a w H|a w e a' w' H|a w m a' w' H|a w a1 w1 res a' w' H Hd IH];
    pose proof (frame_step_wf r a w Hwf) as Hs; rewrite H in Hs.
  - unfold at_end. destruct (ending) as [e|]; [|destruct (closed a) eqn:?];
      split_and!; naive_solver.
  - destruct Hs. by split_and!.
  - destruct Hs as (? & ? & _ & Hm). split_and!; try done. intros x [= <-]. by apply Hm.
  - destruct Hs as (Hwf1 & <- & _). by apply IH.
Qed.

Lemma read_spec_errors r ending a w res a' w' :
  read_spec r ending a w res a' w' →
  match res with
  | Err UnexpectedEof => closed a' = false ∧ ending = None
  | Err (Io e) => ending = Some e
  | Err (Upgrade _) | Err (Url _) => False
  | _ => True
  end.
Proof.
  induction 1 as [a w H|a w e a' w' H|a w m a' w' H|a w a1 w1 res a' w' H Hd IH]; try done.
  - unfold at_end. destruct ending; [done|]. by destruct (closed a) eqn:?.
  - unfold frame_step in H. repeat (case_match; simplify_eq; try done).
Qed.

Lemma read_spec_frame_error r ending a w e a' w' :
  read_spec r ending a w (Err e) a' w' → (∃ f, e = Frame f) ∨ e = MaskingViolation →
  frame_step r a' w' = Fail e a' w'.
Proof.
  intros H He. remember (Err e) as res eqn:Hres.
  induction H as [a w H|a w e' a' w' H|a w m a' w' H|a w a1 w1 res a' w' H Hd IH];
    [| |done|by apply IH].
  - unfold at_end in Hres. repeat case_match; destruct He as [[f ->]| ->]; congruence.
  - injection Hres as ->. pose proof H as H'. revert H'. unfold frame_step at 1.
    repeat (case_match; try done); destruct He as [[f ->]| ->]; congruence.
Qed.

Lemma drain_wf r a w res a' w' :
  Assembler.wf a → drain r a w res a' w' → Assembler.wf a' ∧ limits a' = limits a.
Proof.
  intros Hwf. induction 1 as [a w H|a w e a' w' H|a w m a' w' H|a w a1 w1 res a' w' H Hd IH];
    pose proof (frame_step_wf r a w Hwf) as Hs; rewrite H in Hs.
  - done.
  - done.
  - by destruct Hs as (? & ? & _).
  - destruct Hs as (Hwf1 & <- & _). by apply IH.
Qed.
End Wf.

Context {S : Type} `{!ByteStream S, !StreamExt S, !StreamView S, !StreamExtOk S}.
Implicit Types c : Connection S.

(** The bytes of the peer that no message was made of yet. *)
Definition unread c : list byte := bm_data (read_buffer c) ++ inbound (stream c).

(** [c'] is [c] with another assembler and other bytes in its buffer. *)
Definition moved c (a : Assembler) (rest : list byte) c' : Prop :=
  ∃ b, bm_data b = rest ∧ c' = set_read_buffer b (set_assembler a c).

(** Everything a read leaves alone. *)
Definition same_writer c c' : Prop :=
  role c' = role c ∧ scratch c' = scratch c ∧ outgoing c' = outgoing c ∧
  mask_state c' = mask_state c ∧ close_sent c' = close_sent c ∧
  ending (stream c') = ending (stream c) ∧ outbound (stream c') = outbound (stream c).

Lemma same_writer_refl c : same_writer c c.
Proof. by split_and!. Qed.
Lemma same_writer_trans c1 c2 c3 : same_writer c1 c2 → same_writer c2 c3 → same_writer c1 c3.
Proof. unfold same_writer. intuition congruence. Qed.
Lemma moved_trans c1 c2 c3 a a' w w' :
  moved c1 a w c2 → moved c2 a' w' c3 → moved c1 a' w' c3.
Proof. intros (b & _ & ->) (b' & <- & ->). by exists b'. Qed.
Lemma moved_same_writer c c' a w : moved c a w c' → same_writer c c'.
Proof. intros (b & _ & ->). by split_and!. Qed.

(** *** One turn of [parse_buffered] *)

Lemma parse_step_frame c :
  Assembler.wf (assembler c) → limits_fit (limits (assembler c)) →
  match frame_step (role c) (assembler c) (bm_data (read_buffer c)) with
  | Need => ∃ c', Connection.parse_step c = (Ok (Some None), c') ∧
      moved c (assembler c) (bm_data (read_buffer c)) c'
  | Fail e a rest => ∃ c', Connection.parse_step c = (Err e, c') ∧ moved c a rest c'
  | Got m a rest => ∃ c', Connection.parse_step c = (Ok (Some <$> m), c') ∧ moved c a rest c'
  end.
Proof.
  intros Hwf Hl. unfold frame_step, Connection.parse_step, st_get, st_lift, mbind, stM_bind.
  set (buf := bm_data (read_buffer c)).
  assert (moved c (assembler c) buf c) as Hstay
    by (exists (read_buffer c); by destruct c).
  destruct (Header.decode_returns buf (max_frame (limits (assembler c)))) as [Hret _].
  destruct (Header.decode buf _) as [[|[h n]]|e| |] eqn:Hd; try done; cbn [map_err];
    [by exists c| |by exists c].
  apply Header.decode_inv in Hd as (Hh & Hmax & -> & _).
  rewrite (frame_total_fits h _ (limits (assembler c))) by done.
  unfold BytesMut.len. fold buf. destruct (_ <? _) eqn:Hlen.
  { eexists. split; [done|]. eexists; split; [|reflexivity]. done. }
  bool_prop. destruct Hh as [[Hpos _] _].
  set (n := Header.encoded_len h) in *. set (len := Z.to_nat (payload_len h)).
  replace (Z.to_nat (Z.of_nat n + payload_len h)) with (n + len)%nat by lia.
  assert (BytesMut.split_to (E := Error) (n + len) (read_buffer c)
    = (Ok (mkBytesMut (take (n + len) buf) (n + len)),
       mkBytesMut (drop (n + len) buf) (bm_capacity (read_buffer c) - (n + len)))) as Hsplit.
  { unfold BytesMut.split_to. by rewrite (proj2 (Nat.leb_le _ _))
      by (unfold BytesMut.len; fold buf; lia). }
  assert (fst (BytesMut.split_off (E := Error) n (mkBytesMut (take (n + len) buf) (n + len)))
    = Ok (mkBytesMut (take len (drop n buf)) len)) as Hoff.
  { unfold BytesMut.split_off. cbn [bm_capacity bm_data].
    rewrite (proj2 (Nat.leb_le _ _)) by lia. cbn [fst].
    by rewrite skipn_firstn_comm, Nat.add_comm, Nat.add_sub. }
  unfold masking_violation, unmask.
  destruct (role c) eqn:Hr, (mask h) as [key|] eqn:Hk; try by exists c.
  all: unfold Connection.on_read_buffer, st_zoom; rewrite Hsplit; unfold st_lift;
    rewrite Hoff; cbn [bm_data fst assembler set_read_buffer]; unfold st_map_err;
    rewrite ?Mask.apply_fst.
  all: set (p := Assembler.accept _ _ _ _);
    pose proof (Assembler.accept_wf (assembler c) (opcode h) (fin h)) as Hacc.
  all: match goal with p := Assembler.accept _ _ ?q _ |- _ => specialize (Hacc q Hwf) end.
  all: fold p in Hacc; destruct p as [[[m|]| | |] a']; destruct Hacc as [Hacc _]; try done.
  all: eexists; split; [reflexivity|]; eexists; split; [|reflexivity]; done.
Qed.

(** *** The loop of [parse_buffered] *)

Definition drained (res : option (result Error (option Message)))
  : result Error (option Message) :=
  match res with Some res => res | None => Ok None end.

(** One turn for each frame, and a frame has at least two bytes. *)
Lemma parse_loop_drain fuel c :
  Assembler.wf (assembler c) → limits_fit (limits (assembler c)) →
  (length (bm_data (read_buffer c)) < fuel)%nat →
  ∃ res a rest c', drain (role c) (assembler c) (bm_data (read_buffer c)) res a rest ∧
    Connection.parse_loop fuel c = (drained res, c') ∧ moved c a rest c'.
Proof.
  revert c. induction fuel as [|fuel IH]; intros c Hwf Hl Hfuel; [lia|].
  pose proof (parse_step_frame c Hwf Hl) as Hstep.
  pose proof (frame_step_wf (role c) (assembler c) (bm_data (read_buffer c)) Hwf) as Hw.
  cbn [Connection.parse_loop]. unfold mbind, stM_bind.
  destruct (frame_step _ _ _) as [|e a rest|[m|] a rest] eqn:Hf;
    destruct Hstep as (c1 & -> & Hm); cbn [fmap option_fmap option_map].
  - exists None, (assembler c), (bm_data (read_buffer c)), c1. split; [by apply drain_need|done].
  - exists (Some (Err e)), a, rest, c1. split; [by apply drain_fail|done].
  - exists (Some (Ok (Some m))), a, rest, c1. split; [by apply drain_message|done].
  - apply frame_step_shrinks in Hf as Hlt. destruct Hw as (Hwf1 & Hl1 & _).
    pose proof Hm as (b & Hb & ->).
    destruct (IH (set_read_buffer b (set_assembler a c))) as (res & a2 & w2 & c2 & Hdr & He & Hm2);
      cbn [assembler read_buffer set_read_buffer set_assembler]; [done|by rewrite Hl1|rewrite Hb; lia|].
    exists res, a2, w2, c2. split; [|split; [done|by eapply moved_trans]].
    cbn in Hdr. rewrite Hb in Hdr. by eapply drain_skip.
Qed.

Lemma parse_buffered_drain c :
  Assembler.wf (assembler c) → limits_fit (limits (assembler c)) →
  ∃ res a rest c', drain (role c) (assembler c) (bm_data (read_buffer c)) res a rest ∧
    Connection.parse_buffered c = (drained res, c') ∧ moved c a rest c'.
Proof. intros. apply parse_loop_drain; try done. unfold BytesMut.len. lia. Qed.

(** *** [read] *)

Lemma ensure_room_run c :
  ∃ b, Connection.ensure_room c = (Ok tt, set_read_buffer b c) ∧
    bm_data b = bm_data (read_buffer c).
Proof.
  unfold Connection.ensure_room, st_modify. destruct (_ <? _)%nat.
  - by eexists.
  - exists (read_buffer c). by destruct c.
Qed.

Lemma drain_none r a w o a' w' :
  drain r a w o a' w' → o = None → frame_step r a' w' = Need.
Proof. induction 1; naive_solver. Qed.

(** What one read promises: the result and the state of the specification. *)
Definition reads_to c (res : result Error (option Message)) c' : Prop :=
  read_spec (role c) (ending (stream c)) (assembler c) (unread c) res (assembler c') (unread c')
  ∧ same_writer c c' ∧ (length (inbound (stream c')) ≤ length (inbound (stream c)))%nat.

Lemma drain_some r a w o a' w' res :
  drain r a w o a' w' → o = Some res → (∃ m, res = Ok (Some m)) ∨ ∃ e, res = Err e.
Proof. induction 1; naive_solver. Qed.

(** [read_buf] at the end of the stream. *)
Lemma fill_end c :
  inbound (stream c) = [] →
  ∃ s b, Connection.fill c
      = (match ending (stream c) with None => Ok 0%nat | Some e => Err (Io e) end,
         set_read_buffer b (set_stream s c)) ∧
    bm_data b = bm_data (read_buffer c) ∧ same_inbound (stream c) s ∧
    outbound s = outbound (stream c).
Proof.
  intros Hin. unfold Connection.fill, st_zoom, st_map_err.
  destruct (read_buf_end (stream c) (read_buffer c) Hin) as (s & b & -> & ? & ? & ?).
  exists s, b. by destruct (ending (stream c)).
Qed.

(** [read_buf] while there are bytes to come. *)
Lemma fill_data c :
  inbound (stream c) ≠ [] →
  ∃ chunk s b, Connection.fill c
      = (Ok (length chunk), set_read_buffer b (set_stream s c)) ∧
    chunk ≠ [] ∧ bm_data b = bm_data (read_buffer c) ++ chunk ∧
    inbound (stream c) = chunk ++ inbound s ∧ ending s = ending (stream c) ∧
    outbound s = outbound (stream c).
Proof.
  intros Hin. unfold Connection.fill, st_zoom, st_map_err.
  destruct (read_buf_data (stream c) (read_buffer c) Hin) as (chunk & s & b & -> & ? & ? & _ & ?).
  by exists chunk, s, b.
Qed.

Lemma reads_to_later c c1 res c' :
  (∀ res a w, read_spec (role c) (ending (stream c)) (assembler c1) (unread c1) res a w →
     read_spec (role c) (ending (stream c)) (assembler c) (unread c) res a w) →
  same_writer c c1 → (length (inbound (stream c1)) ≤ length (inbound (stream c)))%nat →
  reads_to c1 res c' → reads_to c res c'.
Proof.
  intros Hspec Hsame Hlen (Hs & Hsame1 & Hlen1). split_and!.
  - apply Hspec. destruct Hsame as (<- & _ & _ & _ & _ & <- & _). done.
  - by eapply same_writer_trans.
  - lia.
Qed.

Lemma read_run fuel c :
  Assembler.wf (assembler c) → limits_fit (limits (assembler c)) →
  (length (inbound (stream c)) < fuel)%nat →
  ∃ res c', Connection.read fuel c = (res, c') ∧ reads_to c res c'.
Proof.
  revert c. induction fuel as [|fuel IH]; intros c Hwf Hl Hfuel; [lia|].
  destruct (parse_buffered_drain c Hwf Hl) as (res & a & rest & c1 & Hdr & Hrun & Hm).
  pose proof (drain_wf _ _ _ _ _ _ Hwf Hdr) as [Hwf1 Hl1].
  pose proof (drain_app _ _ _ _ _ _ (inbound (stream c)) Hdr) as Happ.
  pose proof (moved_same_writer _ _ _ _ Hm) as Hsame. destruct Hm as (b & Hb & ->).
  cbn [Connection.read]. unfold mbind at 1, stM_bind at 1. rewrite Hrun.
  destruct res as [res|]; cbn [drained] in *.
  { assert (reads_to c res (set_read_buffer b (set_assembler a c))) as Hto.
    { split; [unfold unread; cbn; rewrite Hb; apply Happ|by split]. }
    destruct (drain_some _ _ _ _ _ _ _ Hdr eq_refl) as [[m ->]|[e ->]]; by eexists _, _. }
  destruct (ensure_room_run (set_read_buffer b (set_assembler a c))) as (b1 & Hroom & Hb1).
  rewrite (bind_ok _ _ _ _ _ Hroom). clear Hroom. cbn [read_buffer set_read_buffer] in Hb1.
  set (c1 := set_read_buffer b1 _).
  assert (same_writer c c1) as Hsame1 by by split_and!.
  assert (unread c1 = rest ++ inbound (stream c)) as Hun
    by (unfold unread; cbn; by rewrite Hb1, Hb).
  destruct (decide (inbound (stream c1) = [])) as [Hin|Hin].
  - destruct (fill_end c1 Hin) as (s & b2 & Hfill & Hb2 & [Hi He] & Ho).
    set (c2 := set_read_buffer b2 _) in *.
    unfold mbind, stM_bind. rewrite Hfill.
    assert (unread c2 = rest) as Hun2.
    { unfold unread. cbn [read_buffer stream c2 set_read_buffer set_stream].
      rewrite Hi, Hin, app_nil_r, Hb2. cbn. by rewrite Hb1. }
    assert (reads_to c (at_end (ending (stream c)) a) c2) as Hto.
    { split; [|split; [by split_and!|cbn; by rewrite Hi]].
      change (inbound (stream c) = []) in Hin. apply Happ. rewrite Hun2, Hin, app_nil_r.
      apply read_end. by eapply drain_none. }
    unfold at_end in Hto. cbn [ending stream c1].
    change (ending (stream c1)) with (ending (stream c)).
    destruct (ending (stream c)); [by eexists _, _|]. unfold st_get. cbn [Nat.eqb].
    unfold Assembler.is_closed. change (assembler c2) with a.
    destruct (closed a); by eexists _, _.
  - destruct (fill_data c1 Hin) as (chunk & s & b2 & Hfill & Hne & Hb2 & Hi & He & Ho).
    set (c2 := set_read_buffer b2 _) in *.
    rewrite (bind_ok _ _ _ _ _ Hfill).
    destruct chunk as [|x chunk]; [done|].
    cbn [length Nat.eqb].
    assert (length (inbound (stream c)) = length (x :: chunk) + length (inbound s))%nat as Hlen
      by (rewrite <- length_app, <- Hi; done).
    cbn [length] in Hlen.
    destruct (IH c2) as (res & c' & Hread & Hto); [done|by cbn; rewrite Hl1|cbn; lia|].
    exists res, c'. split; [done|]. eapply reads_to_later; [| | |exact Hto]; [|by split_and!|cbn; lia].
    intros res' a' w' Hs. apply Happ. rewrite <- Hun.
    by replace (unread c1) with (unread c2)
      by (unfold unread; cbn; by rewrite Hb2, <- app_assoc, <- Hi).
Qed.

(** C9: reading refines [read_spec]: with one turn for each byte the peer still
    has and one more, [read] comes back, neither panicking nor running out; what it
    returns and the assembler and bytes it leaves are those the specification
    gives for the buffered bytes followed by the stream's; the assembler stays
    well formed; and nothing of the write side is touched. *)
Theorem read_refines fuel c :
  Assembler.wf (assembler c) → limits_fit (limits (assembler c)) →
  (length (inbound (stream c)) < fuel)%nat →
  ∃ res c', Connection.read fuel c = (res, c') ∧ returns res ∧
    read_spec (role c) (ending (stream c)) (assembler c) (unread c)
      res (assembler c') (unread c') ∧
    Assembler.wf (assembler c') ∧ limits (assembler c') = limits (assembler c) ∧
    same_writer c c'.
Proof.
  intros Hwf Hl Hfuel. destruct (read_run fuel c Hwf Hl Hfuel) as (res & c' & Hrun & Hto).
  destruct Hto as (Hspec & Hsame & _).
  destruct (read_spec_wf _ _ _ _ _ _ _ Hwf Hspec) as (? & ? & ? & _ & _).
  by exists res, c'.
Qed.

(** C25: what a caller may rely on, whatever the peer sends. Reading passes over the
    frames that complete no message. A message that [read] returns is within the limits
    (a text or binary message within the message limit, the payload of a ping, pong or
    close frame within 125 bytes), its text or close reason is UTF-8, and it is what the
    first of the other frames completes. An error that is not of the stream's end is the
    verdict on that frame, on its header or, once it is whole, on its masking or its
    payload. And the end of the stream is reported exactly when the bytes that the peer
    sent hold no such frame: then an error of the stream is reported as it is, and an
    orderly end is [Ok(None)] if a close frame was received before, and [UnexpectedEof]
    if none was. *)
Theorem read_results fuel c res c' :
  Assembler.wf (assembler c) → limits_fit (limits (assembler c)) →
  (length (inbound (stream c)) < fuel)%nat →
  Connection.read fuel c = (res, c') →
  let from := skips (role c) (assembler c) (unread c) in
  let ran_out := from (assembler c') (unread c') ∧
    frame_step (role c) (assembler c') (unread c') = Need in
  match res with
  | Ok (Some m) => Assembler.message_ok (limits (assembler c)) m ∧ control_fits m ∧
      ∃ a w, from a w ∧ frame_step (role c) a w = Got (Some m) (assembler c') (unread c')
  | Ok None => ran_out ∧ ending (stream c) = None ∧ closed (assembler c') = true
  | Err UnexpectedEof => ran_out ∧ ending (stream c) = None ∧ closed (assembler c') = false
  | Err (Io e) => ran_out ∧ ending (stream c) = Some e
  | Err (Upgrade _) | Err (Url _) => False
  | Err e => ∃ a w, from a w ∧ frame_step (role c) a w = Fail e (assembler c') (unread c')
  | Panic | OutOfFuel => False
  end ∧
  ∀ a w, from a w → frame_step (role c) a w = Need →
    assembler c' = a ∧ unread c' = w ∧
    res = match ending (stream c) with
          | Some e => Err (Io e)
          | None => if closed a then Ok None else Err UnexpectedEof
          end.
Proof.
  intros Hwf Hl Hfuel Hrun from ran_out.
  destruct (read_run fuel c Hwf Hl Hfuel) as (r & c1 & Hrun' & Hto & _).
  rewrite Hrun in Hrun'. injection Hrun' as <- <-. split.
  - pose proof (read_spec_wf _ _ _ _ _ _ _ Hwf Hto) as (_ & _ & _ & Hm & _).
    apply read_spec_skips in Hto as (a & w & Hskip & H).
    destruct (frame_step (role c) a w) as [|e a2 w2|[m|] a2 w2] eqn:Hf; [|..|done];
      destruct H as (-> & Ha & Hw).
    + unfold ran_out, from. rewrite Ha, Hw. unfold at_end.
      destruct (ending (stream c)); [done|]. by destruct (closed a) eqn:?.
    + rewrite <- Ha, <- Hw in Hf. pose proof (frame_step_fail _ _ _ _ _ _ Hf) as He.
      destruct e; try done; by exists a, w.
    + split; [by apply Hm|]. split; [by eapply frame_step_control|].
      exists a, w. by rewrite Ha, Hw.
  - intros a w Hskip Hneed.
    destruct (read_spec_deterministic _ _ _ _ _ _ _ _ _ _ Hto
      (skips_read_spec _ _ _ _ _ _ _ _ _ Hskip (read_end _ _ _ _ Hneed))) as (-> & -> & ->).
    done.
Qed.

(** C32: an error of the framing is final: a frame that is refused (by its header,
    by the limit or by its masking) is not consumed, so every later read reports it
    again, whatever has arrived since. *)
Theorem frame_error_sticky fuel c e c1 fuel2 :
  Assembler.wf (assembler c) → limits_fit (limits (assembler c)) →
  (length (inbound (stream c)) < fuel)%nat → (length (inbound (stream c1)) < fuel2)%nat →
  Connection.read fuel c = (Err e, c1) →
  (∃ f, e = Frame f) ∨ e = MaskingViolation →
  fst (Connection.read fuel2 c1) = Err e.
Proof.
  intros Hwf Hl Hfuel Hfuel2 Hrun He.
  destruct (read_run fuel c Hwf Hl Hfuel) as (r & c1' & Hrun' & Hto & Hsame & _).
  rewrite Hrun in Hrun'. injection Hrun' as <- <-.
  destruct (read_spec_wf _ _ _ _ _ _ _ Hwf Hto) as (_ & Hwf1 & Hl1 & _).
  rewrite <- Hl1 in Hl. destruct (read_run fuel2 c1 Hwf1 Hl Hfuel2) as (r & c2 & -> & Hto2 & _).
  cbn [fst]. destruct Hsame as (Hro & _ & _ & _ & _ & Hen & _). rewrite Hro, Hen in Hto2.
  eapply read_spec_deterministic; [exact Hto2|]. apply read_fail.
  by eapply read_spec_frame_error.
Qed.

(** The room that is set aside for a frame the peer has only announced is
    within the limit: if a turn of [parse_buffered] reserves, then for at most
    [max_frame] bytes and a header, counting what is already there. *)
Lemma reserve_bounded c r c' :
  limits_fit (limits (assembler c)) → 0 <= max_frame (limits (assembler c)) →
  Connection.parse_step c = (r, c') →
  let b := read_buffer c in
  (bm_capacity (read_buffer c') ≤ bm_capacity b)%nat ∨
  ∃ add, bm_capacity (read_buffer c') = grow (BytesMut.len b) (bm_capacity b) add ∧
    Z.of_nat (BytesMut.len b + add) <= max_frame (limits (assembler c)) + 14.
Proof.
  intros Hl Hmax0. unfold Connection.parse_step, st_get, st_lift, mbind, stM_bind.
  set (buf := bm_data (read_buffer c)).
  destruct (Header.decode_returns buf (max_frame (limits (assembler c)))) as [Hret _].
  destruct (Header.decode buf _) as [[|[h n]]|e| |] eqn:Hd; try done; cbn [map_err];
    [by intros [= <- <-]; left| |by intros [= <- <-]; left].
  apply Header.decode_inv in Hd as (Hh & Hmax & -> & _).
  pose proof (Header.encoded_len_bounds h) as Hb. unfold Header.MAX_ENCODED_LEN in Hb.
  rewrite (frame_total_fits h _ (limits (assembler c))) by done.
  destruct (_ <? _) eqn:Hlen; bool_prop.
  { intros [= <- <-]. right. eexists. split; [reflexivity|]. destruct Hh as [[? _] _]. lia. }
  unfold Connection.on_read_buffer, st_zoom, st_map_err, BytesMut.split_to, st_throw.
  intros Hrun. left.
  repeat (case_match; simplify_eq);
    try (injection Hrun as <- <-); cbn [read_buffer set_read_buffer set_assembler bm_capacity]; lia.
Qed.

(** The stream is never asked to read into less than [READ_CHUNK] spare
    bytes: a read of nothing means the end of the stream, not a full buffer. *)
Lemma ensure_room_spec `{!AllocOk A} c :
  let c' := snd (Connection.ensure_room c) in
  fst (Connection.ensure_room c) = Ok tt ∧ bm_data (read_buffer c') = bm_data (read_buffer c) ∧
  (BytesMut.len (read_buffer c') + READ_CHUNK ≤ bm_capacity (read_buffer c'))%nat ∧
  ∃ b, c' = set_read_buffer b c.
Proof.
  unfold Connection.ensure_room, st_modify. destruct (_ <? _)%nat eqn:Hroom; bool_prop; cbn [fst snd].
  - split_and!; [done|done| |by eexists]. apply grow_room.
  - split_and!; [done|done| |by exists (read_buffer c); destruct c].
    unfold READ_CHUNK in *. lia.
Qed.
End Refinement.

(** ** Examples *)
Section Witnesses.
Import Sample.

Lemma conn_wf r segs : Assembler.wf (assembler (conn r segs)).
Proof. split; [by vm_compute|done]. Qed.
Lemma conn_fit r segs : limits_fit (limits (assembler (conn r segs))).
Proof. by left. Qed.

Lemma short r segs fuel :
  (length (concat segs) <? fuel)%nat = true → (length (inbound (stream (conn r segs))) < fuel)%nat.
Proof. apply Nat.ltb_lt. Qed.

(** A message cut inside its header, then inside its payload, arrives whole. *)
Lemma read_refines_witness :
  ∃ c', Connection.read 12 (conn Server [take 1 masked_hello; drop 1 masked_hello])
        = (Ok (Some (Message.Text (bs "Hello"))), c') ∧
    Assembler.wf (assembler c').
Proof.
  destruct (read_refines 12 (conn Server [take 1 masked_hello; drop 1 masked_hello])
    (conn_wf _ _) (conn_fit _ _) ltac:(by apply short)) as (res & c' & Hrun & _ & _ & Hwf & _).
  exists c'. split; [|done]. vm_compute in Hrun. injection Hrun as _ <-. by vm_compute.
Defined.

Lemma read_results_witness :
  Assembler.message_ok Sample.small (Message.Text (bs "Hello")) ∧
  fst (Connection.read 12 (conn Server [take 9 masked_hello])) = Err UnexpectedEof.
Proof.
  split.
  - exact (proj1 (proj1 (read_results 12 (conn Server [masked_hello])
      (Ok (Some (Message.Text (bs "Hello"))))
      (snd (Connection.read 12 (conn Server [masked_hello])))
      (conn_wf _ _) (conn_fit _ _) ltac:(by apply short) ltac:(by vm_compute)))).
  - set (c := conn Server [take 9 masked_hello]).
    destruct (Connection.read 12 c) as [res c'] eqn:Hrun.
    destruct (read_results 12 c res c' (conn_wf _ _) (conn_fit _ _) ltac:(by apply short) Hrun)
      as [_ H].
    destruct (H (assembler c) (unread c) (skips_done _ _ _) ltac:(by vm_compute)) as (_ & _ & Hres).
    exact Hres.
Defined.

(** A client's frame without a mask is refused, and refused again. *)
Lemma frame_error_sticky_witness :
  let c1 := snd (Connection.read 5 (conn Server [[x81; x02]; bs "hi"])) in
  fst (Connection.read 5 c1) = Err MaskingViolation.
Proof.
  apply (frame_error_sticky 5 (conn Server [[x81; x02]; bs "hi"]));
    [apply conn_wf|apply conn_fit|by apply short|by apply Nat.ltb_lt|by vm_compute|by right].
Defined.

Lemma reserve_bounded_witness :
  let c := set_read_buffer (mkBytesMut (take 6 masked_hello) 0) (conn Server []) in
  ∃ add, bm_capacity (read_buffer (snd (Connection.parse_step c))) = grow 6 0 add ∧
    Z.of_nat (6 + add) <= 1024 + 14.
Proof.
  cbn zeta. set (c := set_read_buffer _ _).
  destruct (reserve_bounded c (fst (Connection.parse_step c)) (snd (Connection.parse_step c)))
    as [H|H]; [by left|by vm_compute|by destruct (Connection.parse_step c)|vm_compute in H; lia|exact H].
Defined.

Lemma ensure_room_spec_witness :
  let c' := snd (Connection.ensure_room (conn Server [])) in
  (BytesMut.len (read_buffer c') + READ_CHUNK ≤ bm_capacity (read_buffer c'))%nat.
Proof. exact (proj1 (proj2 (proj2 (ensure_room_spec (conn Server []))))). Defined.
End Witnesses.
