(* ===== verification/ConnWrite.v ===== *)
(** * What a connection writes

    The bytes every writing method of [Connection] puts on the wire, as functions
    of the role, the mask state and the messages ([frame_out], [messages_out]),
    and the proofs that the methods put exactly these on the stream. The masking
    keys come from a SplitMix64 generator, whose full period is proved here. *)
From Stdlib Require Import ZArith Znumtheory Lia Strings.Byte.
From stdpp Require Import base option list.
From S2P Require Import Prelude Bytes Opcode Mask Frame Utf8 Message Stream Handshake Conn Sample ConnRead.

(** ** The generator of masking keys *)
Module SplitMix.
Definition GAMMA : Z := 0x9E3779B97F4A7C15.
Definition next (state : Z) : Z := wrap_to 64 (state + GAMMA).

(** The output function of [next_mask], before it is cut to 32 bits. *)
Definition mix (z : Z) : Z :=
  let z := wrap_to 64 (Z.lxor z (Z.shiftr z 30) * 0xBF58476D1CE4E5B9) in
  let z := wrap_to 64 (Z.lxor z (Z.shiftr z 27) * 0x94D049BB133111EB) in
  Z.lxor z (Z.shiftr z 31).

Definition word64 (z : Z) : Prop := 0 <= z < 2 ^ 64.

Lemma wrap_word64 z : word64 (wrap_to 64 z).
Proof. apply Z.mod_pos_bound. lia. Qed.

(** A right shift xored in loses nothing: the top bits are still there, and
    each of the others is found from a higher one. *)
Lemma xorshift_inj k x y :
  0 < k → word64 x → word64 y →
  Z.lxor x (Z.shiftr x k) = Z.lxor y (Z.shiftr y k) → x = y.
Proof.
  intros Hk Hx Hy H. apply Z.bits_inj'. intros n Hn.
  assert (∀ m : nat, ∀ n, 0 <= n → 64 - Z.of_nat m <= n → Z.testbit x n = Z.testbit y n) as Hm.
  { intros m. induction m as [m IH] using lt_wf_ind. intros i Hi Him.
    destruct (decide (64 <= i)) as [Hbig|Hsmall].
    { rewrite (Z.bits_above_log2 x), (Z.bits_above_log2 y); try done;
        try (unfold word64 in *; lia).
      - destruct (decide (y = 0)) as [->|]; [cbn; lia|].
        apply Z.log2_lt_pow2; unfold word64 in *; [lia|].
        apply Z.lt_le_trans with (2 ^ 64); [lia|]. apply Z.pow_le_mono_r; lia.
      - destruct (decide (x = 0)) as [->|]; [cbn; lia|].
        apply Z.log2_lt_pow2; unfold word64 in *; [lia|].
        apply Z.lt_le_trans with (2 ^ 64); [lia|]. apply Z.pow_le_mono_r; lia. }
    assert (Z.testbit x (i + k) = Z.testbit y (i + k)) as Hup.
    { destruct m as [|m]; [lia|]. apply (IH m); lia. }
    assert (Z.testbit (Z.lxor x (Z.shiftr x k)) i = Z.testbit (Z.lxor y (Z.shiftr y k)) i)
      as Hi' by by rewrite H.
    rewrite !Z.lxor_spec, !Z.shiftr_spec in Hi' by done. rewrite Hup in Hi'.
    by destruct (Z.testbit x i), (Z.testbit y i), (Z.testbit y (i + k)). }
  apply (Hm 64%nat); lia.
Qed.

(** Multiplying by a constant that has an inverse loses nothing. *)
Lemma mul_inj a inv x y :
  wrap_to 64 (a * inv) = 1 → word64 x → word64 y →
  wrap_to 64 (x * a) = wrap_to 64 (y * a) → x = y.
Proof.
  unfold wrap_to. intros Hinv Hx Hy H.
  assert (∀ z, word64 z → z = ((z * a) mod 2 ^ 64 * inv) mod 2 ^ 64) as Hz.
  { intros z Hz. rewrite Zmult_mod_idemp_l, <- Z.mul_assoc, <- Zmult_mod_idemp_r, Hinv,
      Z.mul_1_r. symmetry. by apply Z.mod_small. }
  rewrite (Hz x Hx), (Hz y Hy). by rewrite H.
Qed.

Lemma shiftr_word64 x k : 0 <= k → word64 x → word64 (Z.lxor x (Z.shiftr x k)).
Proof.
  intros Hk Hx. apply lxor_range; try done. unfold word64 in *.
  rewrite Z.shiftr_div_pow2 by done. split; [apply Z.div_pos; lia|].
  apply Z.le_lt_trans with x; [|lia]. apply Z.div_le_upper_bound; nia.
Qed.

Lemma mix_inj x y : word64 x → word64 y → mix x = mix y → x = y.
Proof.
  intros Hx Hy H. unfold mix in H.
  apply xorshift_inj in H; [|lia|apply wrap_word64..].
  apply (mul_inj _ 0x319642b2d24d8ec3) in H; [|by vm_compute|apply shiftr_word64; [lia|apply wrap_word64]..].
  apply xorshift_inj in H; [|lia|apply wrap_word64..].
  apply (mul_inj _ 0x96de1b173f119089) in H; [|by vm_compute|by apply shiftr_word64..].
  by apply xorshift_inj in H.
Qed.

Lemma iter_next n state : word64 state → Nat.iter n next state = wrap_to 64 (state + Z.of_nat n * GAMMA).
Proof.
  intros Hs. induction n as [|n IH].
  - cbn. unfold wrap_to. rewrite Z.add_0_r. symmetry. by apply Z.mod_small.
  - change (next (Nat.iter n next state) = wrap_to 64 (state + Z.of_nat (S n) * GAMMA)).
    rewrite IH. unfold next, wrap_to. rewrite Zplus_mod_idemp_l. f_equal. lia.
Qed.

(** The outputs repeat with the period 2^64, and not before. *)
Lemma mix_period i j state :
  word64 state →
  mix (Nat.iter i next state) = mix (Nat.iter j next state) ↔
  Z.of_nat i mod 2 ^ 64 = Z.of_nat j mod 2 ^ 64.
Proof.
  intros Hs. rewrite !iter_next by done. unfold wrap_to. split.
  - intros H. apply mix_inj in H; [|apply wrap_word64..].
    apply (mul_inj GAMMA 0xf1de83e19937733d); [by vm_compute|apply wrap_word64..|].
    unfold wrap_to. rewrite !Zmult_mod_idemp_l.
    replace (Z.of_nat i * GAMMA) with (state + Z.of_nat i * GAMMA - state) by lia.
    replace (Z.of_nat j * GAMMA) with (state + Z.of_nat j * GAMMA - state) by lia.
    by rewrite Zminus_mod, H, <- Zminus_mod.
  - intros H. f_equal. rewrite <- Zplus_mod_idemp_r, <- Zmult_mod_idemp_l, H.
    by rewrite Zmult_mod_idemp_l, Zplus_mod_idemp_r.
Qed.
End SplitMix.

(** ** What goes on the wire *)
Section Wire.
Context `{T : Target}.

(** The key cut from a state of the generator. *)
Definition key_at (state : Z) : Mask :=
  default (x00, x00, x00, x00) (mask_of_bytes (to_ne_bytes 4 (wrap_to 32 (SplitMix.mix state)))).

(** Server frames carry no key, and client frames the next one. *)
Definition key_out (r : Role) (state : Z) : option Mask :=
  match r with Client => Some (key_at (SplitMix.next state)) | Server => None end.
Definition state_out (r : Role) (state : Z) : Z :=
  match r with Client => SplitMix.next state | Server => state end.

Definition frame_bytes (key : option Mask) (opcode : OpCode) (fin : bool) (payload : list byte)
  : list byte :=
  Header.wire (mkHeader fin opcode key (Z.of_nat (length payload))) ++ unmask key payload.

Definition message_bytes (r : Role) (state : Z) (m : Message) : list byte :=
  let '(opcode, payload) := message_frame m in
  frame_bytes (key_out r state) opcode true payload.

(** How many they are depends on the mask being there, not on the key. *)
Definition message_size (r : Role) (m : Message) : nat := length (message_bytes r 0 m).

Lemma length_message_bytes r state m : length (message_bytes r state m) = message_size r m.
Proof.
  unfold message_size, message_bytes. destruct (message_frame m) as [o p].
  unfold frame_bytes. rewrite !length_app, !Header.length_wire. unfold Header.encoded_len, unmask.
  destruct r; cbn [key_out mask payload_len]; [|done].
  unfold Mask.reference. by rewrite !length_imap.
Qed.

(** Several messages, one after the other, and the state after them. *)
Fixpoint messages_bytes (r : Role) (state : Z) (ms : list Message) : list byte :=
  match ms with
  | [] => []
  | m :: ms => message_bytes r state m ++ messages_bytes r (state_out r state) ms
  end.
Definition states_out (r : Role) (state : Z) (ms : list Message) : Z :=
  fold_left (λ st _, state_out r st) ms state.

Lemma frame_bytes_nonempty key opcode fin payload : frame_bytes key opcode fin payload ≠ [].
Proof. by unfold frame_bytes, Header.wire. Qed.
Lemma messages_bytes_nil r state ms : messages_bytes r state ms = [] → ms = [].
Proof.
  destruct ms as [|m ms]; [done|]. cbn. unfold message_bytes.
  destruct (message_frame m) as [o p]. intros [H _]%app_nil. by apply frame_bytes_nonempty in H.
Qed.

Lemma messages_bytes_app r st ms1 ms2 :
  messages_bytes r st (ms1 ++ ms2)
  = messages_bytes r st ms1 ++ messages_bytes r (states_out r st ms1) ms2.
Proof.
  revert st. induction ms1 as [|m ms1 IH]; intros st; [done|]. cbn [app messages_bytes].
  by rewrite IH, <- app_assoc.
Qed.
Lemma states_out_app r st ms1 ms2 :
  states_out r st (ms1 ++ ms2) = states_out r (states_out r st ms1) ms2.
Proof. apply fold_left_app. Qed.
End Wire.

Section Write.
Context `{T : Target, U : Utf8Impl, A : Alloc, N : ErrnoType}.
Context {S : Type} `{!ByteStream S, !StreamExt S, !StreamView S, !StreamExtOk S}.
Implicit Types c : Connection S.

Lemma next_mask_run c :
  Connection.next_mask c
  = (Ok (key_at (SplitMix.next (mask_state c))), set_mask_state (SplitMix.next (mask_state c)) c).
Proof.
  unfold Connection.next_mask, key_at. set (l := to_ne_bytes 4 _).
  assert (length l = 4%nat) as Hl
    by (unfold l, to_ne_bytes; destruct little_endian;
        [apply length_le_bytes|apply length_be_bytes]).
  unfold mbind, stM_bind, st_get, st_put, st_lift. fold (SplitMix.next (mask_state c)).
  fold (SplitMix.mix (SplitMix.next (mask_state c))).
  change (to_ne_bytes 4 (wrap_to 32 _)) with l.
  by destruct l as [|k0 [|k1 [|k2 [|k3 []]]]].
Qed.

(** What is left of the connection after [n] keys were drawn. *)
Definition drawn (n : nat) c : Connection S :=
  Nat.iter n (λ c, snd (Connection.next_mask c)) c.

Lemma drawn_run n c : drawn n c = set_mask_state (Nat.iter n SplitMix.next (mask_state c)) c.
Proof.
  induction n as [|n IH]; [by destruct c|].
  change (drawn (Datatypes.S n) c) with (snd (Connection.next_mask (drawn n c))).
  by rewrite IH, next_mask_run.
Qed.

Lemma mask_bytes_key_at state :
  mask_bytes (key_at state) = to_ne_bytes 4 (wrap_to 32 (SplitMix.mix state)).
Proof.
  unfold key_at. set (l := to_ne_bytes 4 _).
  assert (length l = 4%nat) as Hl
    by (unfold l, to_ne_bytes; destruct little_endian;
        [apply length_le_bytes|apply length_be_bytes]).
  by destruct l as [|k0 [|k1 [|k2 [|k3 []]]]].
Qed.

Lemma frame_mask_run c :
  Connection.frame_mask c
  = (Ok (key_out (role c) (mask_state c)), set_mask_state (state_out (role c) (mask_state c)) c).
Proof.
  unfold Connection.frame_mask, key_out, state_out. rewrite (bind_ok st_get _ c c c) by done.
  destruct (role c) eqn:Hr.
  - by rewrite (bind_ok _ _ _ _ _ (next_mask_run c)).
  - by destruct c.
Qed.

(** C35: the generator behind the masking keys has its full period. Let its state be a
    64-bit word, as that of every connection is. Drawing the next key never fails,
    touches nothing but the generator's state, and gives the four bytes of the low half
    of a word that [SplitMix.mix] makes of the new state; and of the keys that a
    connection draws, one for each frame of a client, the [i]th and the [j]th are cut
    from the same word only if [i] and [j] agree modulo 2^64, for the state comes back
    after 2^64 draws and not before. *)
Theorem full_period i j c :
  SplitMix.word64 (mask_state c) →
  let word n := SplitMix.mix (mask_state (snd (Connection.next_mask (drawn n c)))) in
  (∀ n, ∃ key, Connection.next_mask (drawn n c)
      = (Ok key, set_mask_state (mask_state (drawn (n + 1) c)) c) ∧
    mask_bytes key = to_ne_bytes 4 (wrap_to 32 (word n))) ∧
  (word i = word j ↔ Z.of_nat i mod 2 ^ 64 = Z.of_nat j mod 2 ^ 64) ∧
  (mask_state (drawn i c) = mask_state (drawn j c) ↔ Z.of_nat i mod 2 ^ 64 = Z.of_nat j mod 2 ^ 64).
Proof.
  intros Hs word.
  assert (∀ n, word n = SplitMix.mix (Nat.iter (Datatypes.S n) SplitMix.next (mask_state c))) as Hword
    by (intros n; unfold word; by rewrite next_mask_run, drawn_run).
  split_and!.
  - intros n. exists (key_at (Nat.iter (Datatypes.S n) SplitMix.next (mask_state c))). split.
    + rewrite next_mask_run, !drawn_run, Nat.add_1_r. done.
    + by rewrite mask_bytes_key_at, Hword.
  - rewrite !Hword, SplitMix.mix_period by done. rewrite !Nat2Z.inj_succ, <- !Z.add_1_r. split.
    + intros H. apply (f_equal (λ z, (z - 1) mod 2 ^ 64)) in H. revert H.
      rewrite !Zminus_mod_idemp_l. by rewrite !Z.add_simpl_r.
    + intros H. by rewrite <- Zplus_mod_idemp_l, H, Zplus_mod_idemp_l.
  - rewrite !drawn_run. cbn [mask_state set_mask_state]. rewrite <- SplitMix.mix_period by done.
    split; [by intros ->|]. apply SplitMix.mix_inj; rewrite SplitMix.iter_next by done;
      apply SplitMix.wrap_word64.
Qed.

Lemma encode_header_run h c :
  0 <= payload_len h → Connection.encode_header h c = (Ok (Header.wire h), c).
Proof.
  intros Hpos. unfold Connection.encode_header. rewrite Header.encode_spec by done.
  rewrite length_replicate. pose proof (Header.encoded_len_bounds h).
  rewrite (proj2 (Nat.ltb_ge _ _)) by lia.
  unfold mbind, stM_bind, st_lift. cbn [expect]. unfold mret, stM_ret.
  by rewrite take_app_length' by (by rewrite Header.length_wire).
Qed.

Lemma on_stream_run {X} (m : stM S Errno X) c :
  Connection.on_stream m c
  = (map_err Io (fst (m (stream c))), set_stream (snd (m (stream c))) c).
Proof. unfold Connection.on_stream, st_zoom, st_map_err. by destruct (m (stream c)). Qed.

(** The first step of [write], and of each turn of [encode_all]. *)
Lemma close_flag_run m c :
  (if is_close m then st_modify (E := Error) (set_close_sent true) else mret tt) c
  = (Ok tt, set_close_sent (close_sent c || is_close m) c).
Proof. destruct (is_close m); cbn; [by rewrite orb_true_r|]. rewrite orb_false_r. by destruct c. Qed.

(** The bytes were given to the stream, in one call, and this is what the call did. *)
Definition handed (data : list byte) (s : S) (p : result Errno unit * S) : Prop :=
  ∃ header payload, header ++ payload = data ∧ write_all_vectored header payload s = p.

Lemma handed_wrote data s p : handed data s p → wrote data s p.
Proof. intros (header & payload & <- & <-). apply write_vectored_wrote. Qed.

(** What a frame that was written leaves behind. *)
Definition sent (data : list byte) (state : Z) c (p : result Error unit * Connection S) : Prop :=
  ∃ r s sc, p = (map_err Io r, set_scratch sc (set_mask_state state (set_stream s c))) ∧
    handed data (stream c) (r, s).

Lemma write_frame_sent opcode fin payload c :
  sent (frame_bytes (key_out (role c) (mask_state c)) opcode fin payload)
    (state_out (role c) (mask_state c)) c (Connection.write_frame opcode fin payload c).
Proof.
  unfold Connection.write_frame. rewrite (bind_ok _ _ _ _ _ (frame_mask_run c)).
  set (key := key_out _ _). set (st := state_out _ _).
  rewrite (bind_ok _ _ _ _ _ 
    (encode_header_run (mkHeader fin opcode key (Z.of_nat (length payload))) _ (Nat2Z.is_nonneg _))).
  unfold frame_bytes, unmask. destruct key as [key|].
  - rewrite Mask.apply_fst. unfold mbind, stM_bind, st_try, st_modify, st_lift.
    rewrite on_stream_run. cbn [stream set_mask_state].
    set (d := Mask.reference payload key 0).
    pose proof (write_vectored_wrote (stream c)
      (Header.wire (mkHeader fin opcode (Some key) (Z.of_nat (length payload)))) d) as Hw.
    destruct (write_all_vectored _ d (stream c)) as [r s] eqn:Hrun. exists r, s, d.
    split; [by destruct r, Hw|]. by eexists _, _.
  - rewrite on_stream_run. cbn [stream set_mask_state].
    destruct (write_all_vectored _ payload (stream c)) as [r s] eqn:Hrun. exists r, s, (scratch c).
    split; [by destruct c|]. by eexists _, _.
Qed.

(** A stream that takes what it is given gives no error to report. *)
Lemma write_frame_succeeds opcode fin payload c :
  (∀ header payload, fst (write_all_vectored header payload (stream c)) = Ok tt) →
  fst (Connection.write_frame opcode fin payload c) = Ok tt.
Proof.
  intros Htakes. unfold Connection.write_frame. rewrite (bind_ok _ _ _ _ _ (frame_mask_run c)).
  set (key := key_out _ _). set (st := state_out _ _).
  rewrite (bind_ok _ _ _ _ _ 
    (encode_header_run (mkHeader fin opcode key (Z.of_nat (length payload))) _ (Nat2Z.is_nonneg _))).
  destruct key as [key|].
  - rewrite Mask.apply_fst. unfold mbind, stM_bind, st_try, st_modify, st_lift.
    rewrite on_stream_run. cbn [stream set_mask_state]. by rewrite Htakes.
  - rewrite on_stream_run. cbn [stream set_mask_state fst]. by rewrite Htakes.
Qed.

(** What no write touches. *)
Definition same_reader c c' : Prop :=
  role c' = role c ∧ assembler c' = assembler c ∧ read_buffer c' = read_buffer c.

(** What writing a message does: one frame, or a prefix of it if the stream
    fails, and the bookkeeping. *)
Definition writes_message m c (p : result Error unit * Connection S) : Prop :=
  ∃ r c', p = (map_err Io r, c') ∧
    wrote (message_bytes (role c) (mask_state c) m) (stream c) (r, stream c') ∧
    same_reader c c' ∧ outgoing c' = outgoing c ∧
    mask_state c' = state_out (role c) (mask_state c) ∧
    close_sent c' = close_sent c || is_close m.

Lemma write_run m c : writes_message m c (Connection.write m c).
Proof.
  unfold writes_message, Connection.write, message_bytes.
  set (c1 := set_close_sent (close_sent c || is_close m) c).
  rewrite (bind_ok _ _ c tt c1) by apply close_flag_run.
  destruct (message_frame m) as [o p].
  destruct (write_frame_sent o true p c1) as (r & s & sc & -> & Hw).
  exists r, (set_scratch sc (set_mask_state (state_out (role c1) (mask_state c1)) (set_stream s c1))).
  split; [done|]. split; [by apply handed_wrote|done].
Qed.

(** All the bytes of the frame went to the stream in one call. *)
Lemma write_handed m c :
  ∃ r c', Connection.write m c = (map_err Io r, c') ∧
    handed (message_bytes (role c) (mask_state c) m) (stream c) (r, stream c') ∧
    close_sent c' = close_sent c || is_close m.
Proof.
  unfold Connection.write, message_bytes. set (c1 := set_close_sent (close_sent c || is_close m) c).
  rewrite (bind_ok _ _ c tt c1) by apply close_flag_run.
  destruct (message_frame m) as [o p].
  destruct (write_frame_sent o true p c1) as (r & s & sc & -> & Hw).
  by exists r, (set_scratch sc (set_mask_state (state_out (role c1) (mask_state c1)) (set_stream s c1))).
Qed.

Lemma write_succeeds m c :
  (∀ header payload, fst (write_all_vectored header payload (stream c)) = Ok tt) →
  fst (Connection.write m c) = Ok tt.
Proof.
  intros Htakes. unfold Connection.write. set (c1 := set_close_sent (close_sent c || is_close m) c).
  rewrite (bind_ok _ _ c tt c1) by apply close_flag_run.
  destruct (message_frame m) as [o p]. by apply write_frame_succeeds.
Qed.

(** [write] puts exactly one frame on the stream, final and unfragmented, with
    the next masking key for a client and none for a server, or a prefix of it if
    the stream fails; it reports the stream's own error, leaves the read side
    alone, and records that a close frame was sent. *)
Lemma write_wire m c : writes_message m c (Connection.write m c).
Proof. apply write_run. Qed.

Lemma encode_frame_run out opcode fin payload c :
  ∃ cap, Connection.encode_frame out opcode fin payload c
  = (Ok (mkVec (vec_data out ++ frame_bytes (key_out (role c) (mask_state c)) opcode fin payload) cap),
     set_mask_state (state_out (role c) (mask_state c)) c).
Proof.
  unfold Connection.encode_frame. rewrite (bind_ok _ _ _ _ _ (frame_mask_run c)).
  set (key := key_out _ _).
  rewrite (bind_ok _ _ _ _ _
    (encode_header_run (mkHeader fin opcode key (Z.of_nat (length payload))) _ (Nat2Z.is_nonneg _))).
  unfold mret, stM_ret, frame_bytes, unmask, vec_extend. cbn [vec_data].
  destruct key as [key|]; eexists.
  - by rewrite take_app_length, drop_app_length, Mask.apply_fst, app_assoc.
  - by rewrite app_assoc.
Qed.

Lemma encode_all_run ms out c :
  ∃ cap, Connection.encode_all out ms c
  = (Ok (mkVec (vec_data out ++ messages_bytes (role c) (mask_state c) ms) cap),
     set_close_sent (close_sent c || existsb is_close ms)
       (set_mask_state (states_out (role c) (mask_state c) ms) c)).
Proof.
  revert out c. induction ms as [|m ms IH]; intros out c.
  - exists (vec_capacity out). cbn. rewrite app_nil_r, orb_false_r. by destruct c, out.
  - cbn [Connection.encode_all]. set (c1 := set_close_sent (close_sent c || is_close m) c).
    rewrite (bind_ok _ _ c tt c1) by apply close_flag_run.
    cbn [messages_bytes existsb]. unfold message_bytes. destruct (message_frame m) as [o p].
    destruct (encode_frame_run out o true p c1) as [cap1 Hframe]. rewrite (bind_ok _ _ _ _ _ Hframe).
    set (out1 := mkVec _ cap1). set (c2 := set_mask_state _ c1).
    destruct (IH out1 c2) as [cap ->]. exists cap.
    cbn [vec_data out1 c2 role mask_state set_mask_state set_close_sent c1 close_sent].
    by rewrite <- app_assoc, orb_assoc.
Qed.

(** What writing several messages does. *)
Definition writes_messages ms c (p : result Error unit * Connection S) : Prop :=
  ∃ r c', p = (map_err Io r, c') ∧
    (let data := messages_bytes (role c) (mask_state c) ms in
     wrote data (stream c) (r, stream c') ∧
     (r, stream c')
     = (if decide (ms = []) then (Ok tt, stream c) else stream_write_all data (stream c))) ∧
    same_reader c c' ∧
    mask_state c' = states_out (role c) (mask_state c) ms ∧
    close_sent c' = close_sent c || existsb is_close ms ∧
    vec_data (outgoing c') = [] ∧
    (vec_capacity (outgoing c') ≤ MAX_RETAINED_OUTGOING)%nat.

Lemma write_all_run ms c : writes_messages ms c (Connection.write_all ms c).
Proof.
  unfold writes_messages, Connection.write_all. rewrite (bind_ok st_get _ c c c) by done.
  rewrite (bind_ok (st_put _) _ c tt (set_outgoing (mkVec [] 0) c)) by done.
  destruct (encode_all_run ms (mkVec [] (vec_capacity (outgoing c))) (set_outgoing (mkVec [] 0) c))
    as [cap Hall].
  rewrite (bind_ok _ _ _ _ _ Hall). cbn [app vec_data role mask_state set_outgoing].
  set (data := messages_bytes _ _ ms). set (c1 := set_close_sent _ _).
  assert (∀ v, vec_data (Connection.retain v) = [] ∧
    (vec_capacity (Connection.retain v) ≤ MAX_RETAINED_OUTGOING)%nat) as Hret.
  { intros v. unfold Connection.retain. by destruct (_ <? _)%nat eqn:?; bool_prop. }
  unfold mbind, stM_bind, st_try, st_modify, st_lift.
  destruct (length data =? 0)%nat eqn:Hlen; bool_prop.
  - apply nil_length_inv in Hlen as Hnil. pose proof Hnil as ->%messages_bytes_nil.
    eexists (Ok tt), _. split; [reflexivity|]. split_and!; try done; [|apply Hret..].
    cbn [stream set_outgoing]. unfold wrote. rewrite Hnil, app_nil_r. by split.
  - rewrite on_stream_run. change (stream c1) with (stream c).
    pose proof (ext_write_all_wrote (stream c) data) as Hw.
    rewrite decide_False by (intros ->; done).
    destruct (stream_write_all data (stream c)) as [r s].
    exists r. destruct r; try (by destruct Hw as [_ []]); (eexists; split; [reflexivity|]; split_and!; try done; apply Hret).
Qed.

(** C12: [write_all] puts the frames of all its messages on the stream, in order,
    with one write, and with none if there are no messages. Whether that write
    succeeds or fails, the coalescing buffer is empty afterwards and keeps at most
    [MAX_RETAINED_OUTGOING] bytes of capacity. *)
Theorem write_all_wire ms c : writes_messages ms c (Connection.write_all ms c).
Proof. apply write_all_run. Qed.

(** Writing the messages one at a time. *)
Fixpoint write_each (ms : list Message) : stM (Connection S) Error unit :=
  match ms with
  | [] => mret tt
  | m :: ms => Connection.write m;; write_each ms
  end.

Lemma write_each_wire ms c c' :
  write_each ms c = (Ok tt, c') →
  outbound (stream c') = outbound (stream c) ++ messages_bytes (role c) (mask_state c) ms ∧
  same_inbound (stream c) (stream c') ∧ same_reader c c' ∧
  mask_state c' = states_out (role c) (mask_state c) ms ∧
  close_sent c' = close_sent c || existsb is_close ms.
Proof.
  revert c. induction ms as [|m ms IH]; intros c.
  - intros [= <-]. cbn. by rewrite app_nil_r, orb_false_r.
  - intros ([] & c1 & Hm & Hms)%bind_inv_ok.
    destruct (write_run m c) as (r & c1' & Hm' & [Hin Hw] & (Hro & Ha & Hb) & _ & Hst & Hcl).
    rewrite Hm in Hm'. injection Hm' as Hr <-. destruct r as [[]| | |]; try done.
    apply IH in Hms as (-> & [Hi He] & (Hro' & Ha' & Hb') & -> & ->).
    destruct Hin as [Hi1 He1]. rewrite Hw, Hro, Hst, Hcl. cbn [messages_bytes existsb].
    rewrite <- app_assoc, orb_assoc.
    split_and!; try done; unfold same_inbound; split_and!; congruence.
Qed.

(** C28: coalescing changes nothing but the number of writes: where both succeed,
    [write_all] and the same messages written one by one leave the same bytes on
    the wire, use the same masking keys and leave the connection in the same
    state. *)
Theorem write_all_is_writes ms c c1 c2 :
  write_each ms c = (Ok tt, c1) → Connection.write_all ms c = (Ok tt, c2) →
  outbound (stream c2) = outbound (stream c1) ∧ same_inbound (stream c1) (stream c2) ∧
  same_reader c1 c2 ∧ mask_state c2 = mask_state c1 ∧ close_sent c2 = close_sent c1.
Proof.
  intros H1 H2. apply write_each_wire in H1 as (-> & [Hi1 He1] & (Hr1 & Ha1 & Hb1) & -> & ->).
  destruct (write_all_run ms c) as (r & c2' & H2' & [[[Hi He] Hw] _] & (Hr & Ha & Hb) & Hst & Hcl & _).
  rewrite H2 in H2'. injection H2' as Hro <-. destruct r as [[]| | |]; try done.
  unfold same_inbound, same_reader. split_and!; congruence.
Qed.

(** C31: a close frame is sent at most once through [close]: after one call the
    connection remembers it, and every later call succeeds without touching the
    stream. *)
Theorem close_once f1 f2 c :
  let c1 := snd (Connection.close f1 c) in
  close_sent c1 = true ∧ Connection.close f2 c1 = (Ok tt, c1) ∧
  (close_sent c = true → c1 = c) ∧
  ∃ k, outbound (stream c1)
    = outbound (stream c) ++ take k (message_bytes (role c) (mask_state c) (Message.Close f1)).
Proof.
  assert (∀ f c, close_sent c = true → Connection.close f c = (Ok tt, c)) as Hdone.
  { intros f c' Hc. unfold Connection.close. rewrite (bind_ok st_get _ c' c' c') by done.
    by rewrite Hc. }
  destruct (close_sent c) eqn:Hc.
  - rewrite (Hdone f1 c Hc). cbn [snd]. split_and!; [done|by apply Hdone|done|].
    exists 0%nat. by rewrite take_0, app_nil_r.
  - assert (Connection.close f1 c = Connection.write (Message.Close f1) c) as ->.
    { unfold Connection.close. rewrite (bind_ok st_get _ c c c) by done. by rewrite Hc. }
    destruct (write_run (Message.Close f1) c) as (r & c1 & -> & [_ Hw] & _ & _ & _ & Hcl).
    cbn [is_close snd] in *. rewrite orb_true_r in Hcl.
    split_and!; [done|by apply Hdone|done|].
    destruct r as [[]|e| |]; try done.
    exists (length (message_bytes (role c) (mask_state c) (Message.Close f1))).
    by rewrite firstn_all.
Qed.

(** What the peer is told of a close reason: a code that may not be sent is
    replaced. *)
Definition sanitised (f : CloseFrame) : CloseFrame :=
  mkCloseFrame
    (if CloseCode.is_sendable (close_code f) then close_code f else CloseCode.INTERNAL_ERROR)
    (reason f).

Lemma parse_encode_close_body f :
  parse_close_body (encode_close_body f)
  = match f with
    | None => Ok None
    | Some f => if is_utf8 (reason f) then Ok (Some (sanitised f)) else Err InvalidUtf8
    end.
Proof.
  destruct f as [f|]; [|done]. unfold encode_close_body.
  set (sent := if CloseCode.is_sendable _ then _ else _).
  assert (CloseCode.is_sendable sent = true) as Hs by (unfold sent; by case_match).
  assert (0 <= code sent < 65536) as Hr by by apply CloseCode.is_sendable_range.
  pose proof (length_be_bytes 2 (code sent)) as Hlen.
  pose proof (be_val_bytes 2 (code sent) Hr) as Hval.
  destruct (be_bytes 2 (code sent)) as [|b0 [|b1 [|]]]; try done.
  rewrite Assembler.parse_close_body_spec. cbn [app]. rewrite Hval.
  by replace (mkCloseCode (code sent)) with sent by (by destruct sent); rewrite Hs.
Qed.

(** Whatever code the caller gives, the body of a close frame is one that a
    peer accepts: parsing it gives the code back, or [INTERNAL_ERROR] in place of
    one that may not be sent, with the reason unchanged, unless the reason is not
    UTF-8; no frame gives an empty body, which parses to no frame. *)
Lemma close_body_roundtrip f :
  parse_close_body (encode_close_body f)
  = match f with
    | None => Ok None
    | Some f => if is_utf8 (reason f) then Ok (Some (sanitised f)) else Err InvalidUtf8
    end.
Proof. apply parse_encode_close_body. Qed.
End Write.

(** ** Examples *)

Section Witnesses.
Import Sample.

Lemma full_period_witness :
  let c := conn Client [] in
  mask_state (drawn 3 c) ≠ mask_state (drawn 1 c) ∧
  SplitMix.mix (mask_state (snd (Connection.next_mask (drawn 3 c))))
    ≠ SplitMix.mix (mask_state (snd (Connection.next_mask (drawn 1 c)))).
Proof.
  cbn zeta. set (c := conn Client []).
  assert (SplitMix.word64 (mask_state c)) as Hs by (split; [by vm_compute|by vm_compute]).
  destruct (full_period 3 1 c Hs) as (_ & Hword & Hstate).
  split; intros H; [apply Hstate in H|apply Hword in H]; by vm_compute in H.
Defined.

Lemma write_wire_witness :
  ∃ c', Connection.write (Message.Text (bs "Hello")) (conn Server []) = (Ok tt, c') ∧
    outbound (stream c') = [x81; x05] ++ bs "Hello".
Proof.
  destruct (write_wire (Message.Text (bs "Hello")) (conn Server []))
    as (r & c' & Hrun & [_ Hw] & _).
  assert (fst (Connection.write (Message.Text (bs "Hello")) (conn Server [])) = Ok tt) as Hok
    by by vm_compute.
  rewrite Hrun in Hok. exists c'. by destruct r as [[]| | |].
Defined.

Lemma write_all_wire_witness :
  ∃ c', Connection.write_all [Message.Ping []; Message.Binary (bs "x")] (conn Server []) = (Ok tt, c') ∧
    outbound (stream c') = [x89; x00; x82; x01; x78] ∧
    (vec_capacity (outgoing c') ≤ MAX_RETAINED_OUTGOING)%nat.
Proof.
  destruct (write_all_wire [Message.Ping []; Message.Binary (bs "x")] (conn Server []))
    as (r & c' & Hrun & [[_ Hw] _] & _ & _ & _ & _ & Hcap).
  assert (fst (Connection.write_all [Message.Ping []; Message.Binary (bs "x")] (conn Server []))
    = Ok tt) as Hok by by vm_compute.
  rewrite Hrun in Hok. exists c'. by destruct r as [[]| | |].
Defined.

Lemma write_all_is_writes_witness :
  let ms := [Message.Text (bs "a"); Message.Close None] in
  let c := conn Client [] in
  outbound (stream (snd (Connection.write_all ms c))) = outbound (stream (snd (write_each ms c))).
Proof.
  cbn zeta. set (ms := [_; _]). set (c := conn Client []).
  destruct (write_all_is_writes ms c (snd (write_each ms c)) (snd (Connection.write_all ms c)))
    as [H _]; [by vm_compute|by vm_compute|exact H].
Defined.

Lemma close_once_witness :
  let c1 := snd (Connection.close None (conn Server [])) in
  Connection.close None c1 = (Ok tt, c1).
Proof. exact (proj1 (proj2 (close_once None None (conn Server [])))). Defined.
End Witnesses.
