(* ===== verification/Cancel.v ===== *)
(** * Calls that are given up

    [Connection::read] is an [async fn]: a caller that waits for something else as
    well drops the future while it is suspended, and reads again later. The
    connection is what is left: the future's own state is where it stands in the
    loop. [suspended c c'] says that [c'] is the connection when a read of [c] waits
    for the stream, after any number of turns of the loop of [Connection.read]. A
    suspended [read_buf] has taken nothing from the stream, or it would have
    returned.

    A write can be dropped as well. Then the stream may have taken any part of the
    bytes, and what the call had taken out of the connection to work with ([scratch],
    [outgoing]) is gone with the future. [write_dropped] and [batch_dropped] are the
    connections that are left, [Connection.write] and [Connection.write_all] up to
    their only await. *)
From Stdlib Require Import ZArith Lia Strings.Byte.
From stdpp Require Import base option list.
From S2P Require Import Prelude Bytes Opcode Mask Frame Utf8 Message Stream Handshake Conn Sample.
From S2P Require Import ConnRead ConnWrite.

Section Cancel.
Context `{T : Target, !TargetOk T, U : Utf8Impl, !Utf8ImplOk U, A : Alloc, N : ErrnoType}.
Context {S : Type} `{!ByteStream S, !StreamExt S, !StreamView S, !StreamExtOk S}.
Implicit Types c : Connection S.

Inductive suspended c : Connection S → Prop :=
| suspended_here c1 c2 :
    Connection.parse_buffered c = (Ok None, c1) → Connection.ensure_room c1 = (Ok tt, c2) →
    suspended c c2
| suspended_later c1 c2 n c3 c' :
    Connection.parse_buffered c = (Ok None, c1) → Connection.ensure_room c1 = (Ok tt, c2) →
    Connection.fill c2 = (Ok n, c3) → n ≠ 0%nat → suspended c3 c' →
    suspended c c'.

(** [c'] stands for [c]: whatever the specification says of a read of [c'], it says
    of a read of [c]. *)
Record resumes c c' : Prop := mkResumes {
  rs_wf : Assembler.wf (assembler c) → Assembler.wf (assembler c');
  rs_limits : limits (assembler c') = limits (assembler c);
  rs_writer : same_writer c c';
  rs_inbound : (length (inbound (stream c')) ≤ length (inbound (stream c)))%nat;
  rs_spec : ∀ res a w,
    read_spec (role c) (ending (stream c)) (assembler c') (unread c') res a w →
    read_spec (role c) (ending (stream c)) (assembler c) (unread c) res a w;
}.

Lemma resumes_trans c1 c2 c3 : resumes c1 c2 → resumes c2 c3 → resumes c1 c3.
Proof.
  intros [Hwf1 Hl1 Hs1 Hi1 H1] [Hwf2 Hl2 Hs2 Hi2 H2]. split; [auto|congruence| |lia|].
  - by eapply same_writer_trans.
  - destruct Hs1 as (Hr & _ & _ & _ & _ & He & _). rewrite Hr, He in H2. auto.
Qed.

Lemma parse_resumes c c' :
  Assembler.wf (assembler c) → limits_fit (limits (assembler c)) →
  Connection.parse_buffered c = (Ok None, c') → resumes c c'.
Proof.
  intros Hwf Hl Hrun. destruct (parse_buffered_drain c Hwf Hl) as (res & a & rest & c1 & Hdr & Hrun' & Hm).
  rewrite Hrun in Hrun'. injection Hrun' as Hres <-.
  assert (res = None) as ->.
  { destruct res as [res|]; [|done]. cbn [drained] in Hres. subst res.
    by destruct (drain_some _ _ _ _ _ _ _ Hdr eq_refl) as [[m Hm']|[e He]]. }
  destruct (drain_wf _ _ _ _ _ _ Hwf Hdr) as [Hwf1 Hl1].
  pose proof (drain_app _ _ _ _ _ _ (inbound (stream c)) Hdr) as Happ.
  pose proof (moved_same_writer _ _ _ _ Hm) as Hsame. destruct Hm as (b & Hb & ->).
  split; [done..|]. intros res a' w' Hs. apply Happ. unfold unread in Hs. cbn in Hs.
  by rewrite Hb in Hs.
Qed.

Lemma room_resumes c c' : Connection.ensure_room c = (Ok tt, c') → resumes c c'.
Proof.
  intros Hrun. destruct (ensure_room_run c) as (b & Hrun' & Hb). rewrite Hrun in Hrun'.
  injection Hrun' as ->. split; [done..|by split_and!|done|].
  intros res a w. unfold unread. cbn. by rewrite Hb.
Qed.

Lemma fill_resumes c n c' : Connection.fill c = (Ok n, c') → n ≠ 0%nat → resumes c c'.
Proof.
  intros Hrun Hn. destruct (decide (inbound (stream c) = [])) as [Hin|Hin].
  - destruct (fill_end c Hin) as (s & b & Hrun' & _). rewrite Hrun in Hrun'.
    by destruct (ending (stream c)); simplify_eq.
  - destruct (fill_data c Hin) as (chunk & s & b & Hrun' & Hne & Hb & Hi & He & Ho).
    rewrite Hrun in Hrun'. injection Hrun' as -> ->.
    split; [done..|by split_and!| |]; cbn [stream set_stream set_read_buffer].
    + rewrite Hi. len_lia.
    + intros res a w. unfold unread. cbn. by rewrite Hb, Hi, <- app_assoc.
Qed.

Lemma suspended_resumes c c' :
  Assembler.wf (assembler c) → limits_fit (limits (assembler c)) → suspended c c' → resumes c c'.
Proof.
  intros Hwf Hl Hsus. revert Hwf Hl.
  induction Hsus as [c c1 c2 Hparse Hroom|c c1 c2 n c3 c' Hparse Hroom Hfill Hn Hsus IH]; intros Hwf Hl.
  all: pose proof (parse_resumes _ _ Hwf Hl Hparse) as H1; pose proof (room_resumes _ _ Hroom) as H2.
  - by eapply resumes_trans.
  - pose proof (resumes_trans _ _ _ (resumes_trans _ _ _ H1 H2) (fill_resumes _ _ _ Hfill Hn)) as H3.
    eapply resumes_trans; [exact H3|]. apply IH; [by apply H3|]. by rewrite (rs_limits _ _ H3).
Qed.

(** C11: a read may be given up while it waits, and begun again: it returns what the
    first one would have returned, and leaves the connection with the same
    assembler and the same bytes unread. So a caller may wait for a message and for
    something else at once without losing any of the stream. *)
Theorem abandoned_read_loses_nothing c c' fuel1 fuel2 :
  Assembler.wf (assembler c) → limits_fit (limits (assembler c)) → suspended c c' →
  (length (inbound (stream c)) < fuel1)%nat → (length (inbound (stream c)) < fuel2)%nat →
  let '(res, d) := Connection.read fuel1 c in
  let '(res', d') := Connection.read fuel2 c' in
  res' = res ∧ assembler d' = assembler d ∧ unread d' = unread d ∧ same_writer d d'.
Proof.
  intros Hwf Hl Hsus Hfuel1 Hfuel2. pose proof (suspended_resumes _ _ Hwf Hl Hsus) as [Hwf' Hl' Hs Hi Hspec].
  destruct (read_run fuel1 c Hwf Hl Hfuel1) as (res & d & -> & Hd & Hsd & _).
  destruct (read_run fuel2 c' (Hwf' Hwf) ltac:(by rewrite Hl') ltac:(lia)) as (res' & d' & -> & Hd' & Hsd' & _).
  pose proof Hs as (Hr & _ & _ & _ & _ & He & _). rewrite Hr, He in Hd'.
  destruct (read_spec_deterministic _ _ _ _ _ _ _ _ _ _ Hd (Hspec _ _ _ Hd')) as (-> & -> & ->).
  split_and!; try done. unfold same_writer in *. intuition congruence.
Qed.
(** ** Writes *)

(** The stream has taken a part of the bytes. *)
Definition partly (data : list byte) (s s' : S) : Prop :=
  same_inbound s s' ∧ ∃ k, outbound s' = outbound s ++ take k data.

Inductive write_dropped (m : Message) c : Connection S → Prop :=
| write_dropped_masked opcode payload key c1 header_bytes s :
    let c0 := if is_close m then set_close_sent true c else c in
    message_frame m = (opcode, payload) →
    Connection.frame_mask c0 = (Ok (Some key), c1) →
    Connection.encode_header (mkHeader true opcode (Some key) (Z.of_nat (length payload))) c1
      = (Ok header_bytes, c1) →
    partly (header_bytes ++ fst (Mask.apply payload key 0)) (stream c) s →
    write_dropped m c (set_scratch [] (set_stream s c1))
| write_dropped_plain opcode payload c1 header_bytes s :
    let c0 := if is_close m then set_close_sent true c else c in
    message_frame m = (opcode, payload) →
    Connection.frame_mask c0 = (Ok None, c1) →
    Connection.encode_header (mkHeader true opcode None (Z.of_nat (length payload))) c1
      = (Ok header_bytes, c1) →
    partly (header_bytes ++ payload) (stream c) s →
    write_dropped m c (set_stream s c1).

Inductive batch_dropped (ms : list Message) c : Connection S → Prop :=
| batch_dropped_at out c1 s :
    Connection.encode_all (mkVec [] (vec_capacity (outgoing c))) ms (set_outgoing (mkVec [] 0) c)
      = (Ok out, c1) →
    partly (vec_data out) (stream c) s → batch_dropped ms c (set_stream s c1).

(** Like a write that failed: a prefix of the frames, and the bookkeeping. *)
Lemma write_dropped_run m c c' :
  write_dropped m c c' →
  partly (message_bytes (role c) (mask_state c) m) (stream c) (stream c') ∧
  same_reader c c' ∧ outgoing c' = outgoing c ∧
  mask_state c' = state_out (role c) (mask_state c) ∧ close_sent c' = close_sent c || is_close m.
Proof.
  assert (∀ c0, c0 = (if is_close m then set_close_sent true c else c) →
    same_reader c c0 ∧ outgoing c0 = outgoing c ∧ mask_state c0 = mask_state c ∧
    close_sent c0 = close_sent c || is_close m) as Hc0.
  { intros c0 ->. destruct (is_close m); cbn; by rewrite ?orb_true_r, ?orb_false_r. }
  unfold message_bytes, frame_bytes.
  intros [o p key c1 hdr s c0 Hf Hmask Hhdr Hpart|o p c1 hdr s c0 Hf Hmask Hhdr Hpart].
  all: specialize (Hc0 c0 eq_refl) as (Hsame & Ho & Hm & Hcl); rewrite Hf.
  all: rewrite frame_mask_run in Hmask; injection Hmask as Hkey <-.
  all: rewrite encode_header_run in Hhdr by apply Nat2Z.is_nonneg; injection Hhdr as <-.
  all: destruct Hsame as (Hr & Ha & Hb); rewrite Hr, Hm in *; rewrite Hkey.
  all: rewrite ?Mask.apply_fst in Hpart; cbn [unmask]; by split_and!.
Qed.

Lemma batch_dropped_run ms c c' :
  batch_dropped ms c c' →
  partly (messages_bytes (role c) (mask_state c) ms) (stream c) (stream c') ∧
  same_reader c c' ∧ outgoing c' = mkVec [] 0 ∧
  mask_state c' = states_out (role c) (mask_state c) ms ∧
  close_sent c' = close_sent c || existsb is_close ms.
Proof.
  intros [out c1 s Hrun Hpart].
  destruct (encode_all_run ms (mkVec [] (vec_capacity (outgoing c))) (set_outgoing (mkVec [] 0) c))
    as [cap Hrun']. rewrite Hrun in Hrun'. injection Hrun' as -> ->. by split_and!.
Qed.
End Cancel.

(** ** Example *)
Section Witnesses.
Import Sample.

(** A server that has three bytes of a frame when its read is given up. *)
Definition waiting : Connection Pipe.t := conn Server [take 3 masked_hello; drop 3 masked_hello].
Definition woken : Connection Pipe.t :=
  snd (Connection.fill (snd (Connection.ensure_room (snd (Connection.parse_buffered waiting))))).
Definition given_up : Connection Pipe.t :=
  snd (Connection.ensure_room (snd (Connection.parse_buffered woken))).

Lemma given_up_suspended : suspended waiting given_up.
Proof.
  eapply (suspended_later _ _ _ 3 woken); [apply pair_eq; by vm_compute..|done|].
  eapply suspended_here; apply pair_eq; by vm_compute.
Qed.

Lemma abandoned_read_loses_nothing_witness :
  fst (Connection.read 20 given_up) = Ok (Some (Message.Text (bs "Hello"))).
Proof.
  assert (fst (Connection.read 20 waiting) = Ok (Some (Message.Text (bs "Hello")))) as E by by vm_compute.
  pose proof (abandoned_read_loses_nothing waiting given_up 20 20 (conn_wf _ _) (conn_fit _ _)
    given_up_suspended ltac:(apply Nat.ltb_lt; by vm_compute) ltac:(apply Nat.ltb_lt; by vm_compute)) as H.
  destruct (Connection.read 20 waiting) as [res d], (Connection.read 20 given_up) as [res' d'].
  cbn [fst] in *. exact (eq_trans (proj1 H) E).
Defined.
End Witnesses.
