(* ===== verification/Memory.v ===== *)
(** * What a connection keeps, and how much

    An invariant of a connection over its whole life: whatever its caller does with it
    (reads that succeed, fail or are given up, writes that succeed or fail), and
    whatever the peer sends, its assembler stays well formed, its buffers stay within
    what the limits allow, and nothing written is held back.

    How much capacity the [bytes] crate gives for a request is its own affair, so the
    bound is on the requests: [allocated n cap] says that the capacity [cap] came out
    of requests for at most [n] bytes in all. *)
From Stdlib Require Import ZArith Lia Strings.Byte.
From stdpp Require Import base option list relations.
From S2P Require Import Prelude Bytes Opcode Mask Frame Utf8 Message Stream Handshake Conn Sample.
From S2P Require Import ConnRead Cancel ConnWrite.

Inductive allocated `{A : Alloc} (n : nat) : nat → Prop :=
| allocated_nothing : allocated n 0
| allocated_initial k : (k ≤ n)%nat → allocated n (initial_capacity k)
| allocated_grow len cap add : allocated n cap → (len + add ≤ n)%nat → allocated n (grow len cap add)
| allocated_split cap k : allocated n cap → allocated n (cap - k).

(** The allocator keeps to [bound] if it is asked for [n] bytes at most: an allocation
    starts within it and growing does not leave it. *)
Definition alloc_within `{A : Alloc} (n bound : nat) : Prop :=
  (∀ k, (k ≤ n)%nat → (initial_capacity k ≤ bound)%nat) ∧
  (∀ len cap add, (cap ≤ bound)%nat → (len + add ≤ n)%nat → (grow len cap add ≤ bound)%nat).

(** Giving exactly what is asked keeps to what is asked; the amortised doubling of [Vec],
    to twice that. *)
Lemma exact_alloc_within n : @alloc_within exact_alloc n n.
Proof. split; cbn; [done|]. intros len cap add Hcap Hadd. by destruct (_ <=? _)%nat. Qed.

Definition doubling_alloc : Alloc := {|
  grow len cap add := if (len + add <=? cap)%nat then cap else Nat.max (2 * cap) (len + add);
  initial_capacity n := n |}.
Lemma doubling_alloc_ok : AllocOk doubling_alloc.
Proof.
  split; cbn [grow initial_capacity doubling_alloc]; intros; [|by rewrite (proj2 (Nat.leb_le _ _))|done].
  destruct (_ <=? _)%nat eqn:H; bool_prop; lia.
Qed.
Lemma doubling_alloc_within n : @alloc_within doubling_alloc n (2 * n).
Proof.
  split; cbn [grow initial_capacity doubling_alloc]; [lia|]. intros len cap add Hcap Hadd.
  destruct (_ <=? _)%nat eqn:H; bool_prop; lia.
Qed.

(** A bound that the allocator keeps for requests of [n] bytes is a bound. *)
Lemma allocated_bounded `{A : Alloc} n bound cap :
  (∀ k, (k ≤ n)%nat → (initial_capacity k ≤ bound)%nat) →
  (∀ len cap add, (cap ≤ bound)%nat → (len + add ≤ n)%nat → (grow len cap add ≤ bound)%nat) →
  allocated n cap → (cap ≤ bound)%nat.
Proof. intros Hinit Hgrow. induction 1; [lia|by apply Hinit|by apply Hgrow|lia]. Qed.

(** [read_buf] reads into the spare capacity: it does not grow a buffer that has
    some. *)
Class ReadInPlace `{N : ErrnoType} (S : Type) `{!StreamExt S} :=
  read_buf_in_place (s : S) b :
    BytesMut.ok b → (BytesMut.len b < bm_capacity b)%nat →
    let b' := snd (snd (read_buf (s, b))) in BytesMut.ok b' ∧ bm_capacity b' = bm_capacity b.

#[export] Instance default_in_place `{N : ErrnoType, A : Alloc, !AllocOk A} (S : Type)
    `{!ByteStream S, !StreamView S, !ByteStreamOk S} : @ReadInPlace N S default_ext.
Proof.
  intros s b Hok Hroom. cbn [read_buf default_ext]. unfold default_read_buf. set (n := Nat.max _ 1).
  assert (n ≤ bm_capacity b - BytesMut.len b)%nat as Hn by lia.
  assert (∀ chunk : list byte, (length chunk ≤ n)%nat →
    let b' := BytesMut.extend_from_slice chunk b in BytesMut.ok b' ∧ bm_capacity b' = bm_capacity b) as H.
  { intros chunk Hchunk. unfold BytesMut.ok, BytesMut.extend_from_slice, BytesMut.len in *.
    cbn [bm_data bm_capacity]. rewrite grow_noop by lia. split; [len_lia|done]. }
  destruct (decide (inbound s = [])) as [Hin|Hin].
  - destruct (Stream.read_end s n) as (s' & -> & _); [lia|done|].
    destruct (ending s); [done|]. apply (H []). cbn. lia.
  - destruct (Stream.read_data s n) as (chunk & s' & -> & _ & Hlen & _); [lia|done|]. by apply H.
Qed.

Section Memory.
Context `{T : Target, !TargetOk T, U : Utf8Impl, A : Alloc, !AllocOk A, N : ErrnoType}.
Context {S : Type} `{!ByteStream S, !StreamExt S, !StreamView S, !StreamExtOk S, !ReadInPlace S}.
Implicit Types c : Connection S.

(** ** The read buffer *)
Definition room (l : Limits) : nat := Z.to_nat (max_frame l) + 14 + READ_CHUNK.

(** The reading half: [n] bounds the requests, and leaves room for a frame within the
    limit and for a read. *)
Record kept (l : Limits) (n : nat) c : Prop := mkKept {
  kp_wf : Assembler.wf (assembler c);
  kp_limits : limits (assembler c) = l;
  kp_ok : BytesMut.ok (read_buffer c);
  kp_allocated : allocated n (bm_capacity (read_buffer c));
}.

Context (l : Limits) (n : nat).
Hypothesis l_fit : limits_fit l.
Hypothesis l_positive : 0 <= max_frame l.
Hypothesis n_room : (room l ≤ n)%nat.

Lemma parse_step_kept c r c' : kept l n c → Connection.parse_step c = (r, c') → kept l n c'.
Proof.
  intros [Hwf Hl Hok Hal] Hrun. pose proof l_fit as Hfit. rewrite <- Hl in Hfit.
  pose proof (parse_step_frame c Hwf Hfit) as Hstep.
  pose proof (frame_step_wf (role c) (assembler c) (bm_data (read_buffer c)) Hwf) as Hstep_wf.
  assert (Assembler.wf (assembler c') ∧ limits (assembler c') = l) as [Hwf' Hl'].
  { destruct (frame_step _ _ _) as [|e a rest|m a rest]; destruct Hstep as (c1 & Hrun' & b & _ & ->);
      rewrite Hrun in Hrun'; injection Hrun' as _ ->; cbn [assembler set_read_buffer set_assembler];
      intuition congruence. }
  split; [done|done|..]; clear Hstep Hstep_wf Hwf' Hl' Hwf.
  all: revert Hrun; unfold Connection.parse_step, st_get, st_lift, mbind, stM_bind.
  all: set (buf := bm_data (read_buffer c)).
  all: destruct (Header.decode_returns buf (max_frame (limits (assembler c)))) as [Hret _].
  all: destruct (Header.decode buf _) as [[|[h k]]|e| |] eqn:Hd; try done; cbn [map_err];
    [by intros [= <- <-]| |by intros [= <- <-]].
  all: apply Header.decode_inv in Hd as (Hh & Hmax & -> & _).
  all: pose proof (Header.encoded_len_bounds h) as Hb; unfold Header.MAX_ENCODED_LEN in Hb.
  all: rewrite (frame_total_fits h _ (limits (assembler c))) by done.
  all: destruct (_ <? _) eqn:Hlen; bool_prop; destruct Hh as [[Hpos _] _].
  1: { intros [= <- <-]. unfold BytesMut.ok, BytesMut.reserve. cbn [read_buffer set_read_buffer bm_capacity].
       pose proof (grow_room (BytesMut.len (read_buffer c)) (bm_capacity (read_buffer c))
         (Z.to_nat (Z.of_nat (Header.encoded_len h) + payload_len h
           - Z.of_nat (BytesMut.len (read_buffer c))))) as Hg.
       unfold BytesMut.len in *. cbn [bm_data]. lia. }
  2: { intros [= <- <-]. apply allocated_grow; [done|]. unfold room in n_room. rewrite Hl in Hmax. lia. }
  all: unfold Connection.on_read_buffer, st_zoom, st_map_err, BytesMut.split_to, st_throw.
  all: intros Hrun; unfold BytesMut.ok, BytesMut.len in *; repeat (case_match; simplify_eq);
    try (injection Hrun as <- <-); cbn [read_buffer set_read_buffer set_assembler bm_capacity bm_data];
    rewrite ?length_drop; first [lia|by apply allocated_split|done].
Qed.

Lemma parse_loop_kept fuel c : kept l n c → kept l n (snd (Connection.parse_loop fuel c)).
Proof.
  revert c. induction fuel as [|fuel IH]; intros c Hk; [done|]. cbn [Connection.parse_loop].
  unfold mbind, stM_bind. destruct (Connection.parse_step c) as [r c1] eqn:Hstep.
  apply parse_step_kept in Hstep; [|done].
  destruct r as [[res|]| | |]; [done|by apply IH|done..].
Qed.

(** What is in the buffer while a read waits is less than a frame. *)
Lemma frame_step_need r a buf :
  Assembler.wf a → 0 <= max_frame (limits a) → frame_step r a buf = Need →
  Z.of_nat (length buf) < max_frame (limits a) + 14.
Proof.
  intros Hwf Hpos. unfold frame_step.
  destruct (Header.decode_returns buf (max_frame (limits a))) as [Hret Hshort].
  destruct (Header.decode buf _) as [[[]|[h k]]|e| |] eqn:Hd; try done.
  { specialize (Hshort eq_refl). unfold Header.MAX_ENCODED_LEN in Hshort. lia. }
  apply Header.decode_inv in Hd as (_ & Hmax & -> & _).
  pose proof (Header.encoded_len_bounds h) as Hb. unfold Header.MAX_ENCODED_LEN in Hb.
  destruct (_ <? _) eqn:Hlen; bool_prop; [lia|]. destruct (masking_violation r h); [done|].
  pose proof (Assembler.accept_wf a (opcode h) (fin h)
    (unmask (mask h) (take (Z.to_nat (payload_len h)) (drop (Header.encoded_len h) buf))) Hwf) as Hacc.
  destruct (Assembler.accept _ _ _ a) as [[m|e| |] a']; destruct Hacc as [Hacc _]; done.
Qed.

Lemma parse_buffered_waits c c1 :
  kept l n c → Connection.parse_buffered c = (Ok None, c1) →
  kept l n c1 ∧ Z.of_nat (BytesMut.len (read_buffer c1)) < max_frame l + 14.
Proof.
  intros Hk Hrun. pose proof (parse_loop_kept (Datatypes.S (BytesMut.len (read_buffer c))) c Hk) as Hk1.
  unfold Connection.parse_buffered in Hrun. rewrite Hrun in Hk1. split; [done|].
  destruct Hk as [Hwf Hl _ _]. pose proof l_fit as Hfit. rewrite <- Hl in Hfit.
  destruct (parse_buffered_drain c Hwf Hfit) as (res & a & rest & c2 & Hdr & Hrun' & Hm).
  unfold Connection.parse_buffered in Hrun'. rewrite Hrun in Hrun'. injection Hrun' as Hres <-.
  assert (res = None) as ->.
  { destruct res as [res|]; [|done]. cbn [drained] in Hres. subst res.
    by destruct (drain_some _ _ _ _ _ _ _ Hdr eq_refl) as [[m Hm']|[e He]]. }
  apply drain_none in Hdr as Hneed; [|done]. destruct (drain_wf _ _ _ _ _ _ Hwf Hdr) as [Hwf1 Hl1].
  destruct Hm as (b & Hb & ->). unfold BytesMut.len. cbn [read_buffer set_read_buffer set_assembler].
  rewrite Hb, <- Hl, <- Hl1. apply (frame_step_need (role c)); [done| |done]. by rewrite Hl1, Hl.
Qed.

(** Then there is room for a read, and the read stays in it. *)
Lemma ensure_room_kept c c1 :
  kept l n c → Z.of_nat (BytesMut.len (read_buffer c)) < max_frame l + 14 →
  Connection.ensure_room c = (Ok tt, c1) →
  kept l n c1 ∧ (BytesMut.len (read_buffer c1) < bm_capacity (read_buffer c1))%nat.
Proof.
  intros [Hwf Hl Hok Hal] Hlen Hrun. pose proof (ensure_room_spec c) as (_ & Hdata & Hroom & _).
  rewrite Hrun in Hdata, Hroom. cbn [snd] in Hdata, Hroom.
  assert (READ_CHUNK ≠ 0)%nat by done. split; [|lia]. unfold Connection.ensure_room, st_modify in Hrun.
  destruct (_ <? _)%nat; injection Hrun as <-; [|done]. split; [done|done| |].
  - unfold BytesMut.ok in *. lia.
  - apply allocated_grow; [done|]. unfold room in n_room. lia.
Qed.

Lemma fill_kept c r c1 :
  kept l n c → (BytesMut.len (read_buffer c) < bm_capacity (read_buffer c))%nat →
  Connection.fill c = (r, c1) → kept l n c1.
Proof.
  intros [Hwf Hl Hok Hal] Hroom. unfold Connection.fill, st_zoom, st_map_err.
  pose proof (read_buf_in_place (stream c) (read_buffer c) Hok Hroom) as Hplace.
  destruct (read_buf _) as [res [s b]]. cbn [snd] in Hplace. destruct Hplace as [Hok' Hcap].
  intros [= <- <-]. split; try done. cbn [read_buffer set_read_buffer]. by rewrite Hcap.
Qed.

Lemma read_kept fuel c : kept l n c → kept l n (snd (Connection.read fuel c)).
Proof.
  revert c. induction fuel as [|fuel IH]; intros c Hk; [done|]. cbn [Connection.read].
  unfold mbind at 1, stM_bind at 1.
  destruct (Connection.parse_buffered c) as [r c1] eqn:Hparse.
  assert (kept l n c1) as Hk1.
  { unfold Connection.parse_buffered in Hparse.
    pose proof (parse_loop_kept (Datatypes.S (BytesMut.len (read_buffer c))) c Hk) as H.
    by rewrite Hparse in H. }
  destruct r as [[m|]|e| |]; try done. apply parse_buffered_waits in Hparse as [_ Hlen]; [|done].
  destruct (ensure_room_run c1) as (b & Hroom & _). rewrite (bind_ok _ _ _ _ _ Hroom).
  apply ensure_room_kept in Hroom as [Hk2 Hspare]; [|done..].
  unfold mbind at 1, stM_bind at 1. destruct (Connection.fill _) as [r c2] eqn:Hfill.
  apply fill_kept in Hfill; [|done..].
  destruct r as [k|e| |]; try done. destruct (k =? 0)%nat; [|by apply IH].
  unfold mbind, stM_bind, st_get. by destruct (Assembler.is_closed _).
Qed.

Lemma suspended_kept c c' : kept l n c → suspended c c' → kept l n c'.
Proof.
  intros Hk Hsus. revert Hk.
  induction Hsus as [c c1 c2 Hparse Hroom|c c1 c2 k c3 c' Hparse Hroom Hfill Hk0 Hsus IH]; intros Hk.
  all: apply parse_buffered_waits in Hparse as [Hk1 Hlen]; [|done].
  all: apply ensure_room_kept in Hroom as [Hk2 Hspare]; [|done..].
  - done.
  - apply IH. by apply (fill_kept c2 (Ok k)).
Qed.
End Memory.

(** ** A connection's life *)
Section Life.
Context `{T : Target, !TargetOk T, U : Utf8Impl, A : Alloc, !AllocOk A, N : ErrnoType}.
Context {S : Type} `{!ByteStream S, !StreamExt S, !StreamView S, !StreamExtOk S, !ReadInPlace S}.
Implicit Types c : Connection S.

(** What can happen to a connection: its caller's calls, with whatever result; a call
    that is given up while it waits; and whatever the network does to the stream
    meanwhile. *)
Inductive use c : Connection S → Prop :=
| use_read fuel : (length (inbound (stream c)) < fuel)%nat → use c (snd (Connection.read fuel c))
| use_wait c' : suspended c c' → use c c'
| use_write m : use c (snd (Connection.write m c))
| use_write_all ms : use c (snd (Connection.write_all ms c))
| use_pong payload : use c (snd (Connection.pong payload c))
| use_close f : use c (snd (Connection.close f c))
| use_write_dropped m c' : write_dropped m c c' → use c c'
| use_batch_dropped ms c' : batch_dropped ms c c' → use c c'
| use_network s : use c (set_stream s c).

Record healthy (r : Role) (l : Limits) (n : nat) c : Prop := mkHealthy {
  hl_role : role c = r;
  hl_kept : kept l n c;
  hl_sent : vec_data (outgoing c) = [];
  hl_outgoing : (vec_capacity (outgoing c) ≤ Nat.max (initial_capacity 512) MAX_RETAINED_OUTGOING)%nat;
  hl_mask : SplitMix.word64 (mask_state c);
}.

Lemma seed_word64 nanos address : SplitMix.word64 (seed_from (stream_seed nanos address)).
Proof.
  assert (∀ z, length (to_ne_bytes 8 z) = 8%nat) as Hlen
    by (intros z; unfold to_ne_bytes; destruct little_endian; apply length_le_bytes || apply length_be_bytes).
  assert (∀ bytes, length bytes = 8%nat → 0 <= from_ne_bytes bytes < 2 ^ 64) as Hrange.
  { intros bytes Hb. pose proof (from_ne_bytes_range bytes) as H. by rewrite Hb in H. }
  unfold seed_from, stream_seed. apply lxor_range; [done|apply Hrange..].
  - by rewrite take_app_length', Hlen by (by rewrite Hlen).
  - by rewrite drop_app_length', Hlen by (by rewrite Hlen).
Qed.

Lemma state_out_word64 r state : SplitMix.word64 state → SplitMix.word64 (state_out r state).
Proof. destruct r; [intros; apply SplitMix.wrap_word64|done]. Qed.
Lemma states_out_word64 r ms state : SplitMix.word64 state → SplitMix.word64 (states_out r state ms).
Proof.
  unfold states_out. revert state. induction ms as [|m ms IH]; intros state; [done|].
  cbn [fold_left]. intros. by apply IH, state_out_word64.
Qed.

(** A writing method touches neither the assembler nor the read buffer. *)
Lemma same_reader_kept l n c c' : same_reader c c' → kept l n c → kept l n c'.
Proof. intros (_ & Ha & Hb) []. split; by rewrite ?Ha, ?Hb. Qed.

Lemma write_healthy r l n m c : healthy r l n c → healthy r l n (snd (Connection.write m c)).
Proof.
  intros [Hr Hk Hs Ho Hm]. destruct (write_run m c) as (res & c' & -> & _ & Hsame & Ho' & Hm' & _).
  cbn [snd]. split; rewrite ?Ho', ?Hm'; try done.
  - destruct Hsame as (-> & _). done.
  - by eapply same_reader_kept.
  - by apply state_out_word64.
Qed.

Lemma read_healthy r l n fuel c :
  limits_fit l → 0 <= max_frame l → (room l ≤ n)%nat → (length (inbound (stream c)) < fuel)%nat →
  healthy r l n c → healthy r l n (snd (Connection.read fuel c)).
Proof.
  intros Hfit Hpos Hn Hfuel [Hr Hk Hs Ho Hm]. pose proof (read_kept l n Hfit Hpos Hn fuel c Hk) as Hk'.
  destruct Hk as [Hwf Hl _ _]. rewrite <- Hl in Hfit.
  destruct (read_run fuel c Hwf Hfit Hfuel) as (res & c1 & Hrun & _ & (H1 & _ & H2 & H3 & _) & _).
  rewrite Hrun in *. cbn [snd] in *. split; by rewrite ?H1, ?H2, ?H3.
Qed.

Lemma use_healthy r l n c c' :
  limits_fit l → 0 <= max_frame l → (room l ≤ n)%nat → use c c' → healthy r l n c → healthy r l n c'.
Proof.
  intros Hfit Hpos Hn [fuel Hfuel|c1 Hsus|m|ms|payload|f|m c1 Hdrop|ms c1 Hdrop|s] Hh.
  - by apply read_healthy.
  - destruct Hh as [Hr Hk Hs Ho Hm]. pose proof Hk as [Hwf Hl _ _].
    destruct (suspended_resumes c c1 Hwf ltac:(by rewrite Hl) Hsus) as [_ _ (H1 & _ & H2 & H3 & _) _ _].
    split; rewrite ?H1, ?H2, ?H3; try done. by eapply suspended_kept.
  - by apply write_healthy.
  - destruct Hh as [Hr Hk Hs Ho Hm].
    destruct (write_all_run ms c) as (res & c1 & -> & _ & Hsame & Hm' & _ & Ho1 & Ho2). cbn [snd].
    split; rewrite ?Hm'; [|by eapply same_reader_kept|done|lia|by apply states_out_word64].
    by destruct Hsame as (-> & _).
  - by apply (write_healthy r l n (Message.Pong payload)).
  - unfold Connection.close. rewrite (bind_ok st_get _ c c c) by done.
    destruct (close_sent c); [done|by apply write_healthy].
  - destruct Hh as [Hr Hk Hs Ho Hm]. apply write_dropped_run in Hdrop as (_ & Hsame & Ho' & Hm' & _).
    split; rewrite ?Ho', ?Hm'; [|by eapply same_reader_kept|done..|by apply state_out_word64].
    by destruct Hsame as (-> & _).
  - destruct Hh as [Hr Hk Hs Ho Hm]. apply batch_dropped_run in Hdrop as (_ & Hsame & Ho' & Hm' & _).
    split; rewrite ?Ho', ?Hm'; [|by eapply same_reader_kept|done|cbn; lia|by apply states_out_word64].
    by destruct Hsame as (-> & _).
  - destruct Hh as [Hr [] Hs Ho Hm]. by split.
Qed.

(** A connection that was just made, with what came behind the handshake. *)
Lemma with_buffered_healthy nanos address s r l buffered n :
  Assembler.limits_ok l → limits_fit l → 0 <= max_frame l →
  (BytesMut.len buffered ≤ n)%nat → (room l ≤ n)%nat →
  healthy r l n (Connection.with_buffered nanos address s r l buffered).
Proof.
  intros Hl Hfit Hpos Hbuf Hn. assert (READ_CHUNK ≤ n)%nat by (unfold room in Hn; lia).
  split; [done| |done|cbn; lia|].
  - split; [by split|done| |].
    + unfold BytesMut.ok, BytesMut.len. cbn. pose proof (grow_room 0 (initial_capacity READ_CHUNK)
        (length (bm_data buffered))). cbn in *. lia.
    + cbn. apply allocated_grow; [by apply allocated_initial|]. unfold BytesMut.len in *. lia.
  - apply seed_word64.
Qed.

Lemma life_healthy r l n c c' :
  limits_fit l → 0 <= max_frame l → (room l ≤ n)%nat →
  rtc use c c' → healthy r l n c → healthy r l n c'.
Proof.
  intros Hfit Hpos Hn. induction 1 as [c|c c1 c2 Huse Hlife IH]; [done|]. intros Hh. apply IH.
  by eapply use_healthy.
Qed.

Lemma healthy_within r l n bound c :
  alloc_within n bound → healthy r l n c →
  (BytesMut.len (read_buffer c) ≤ bm_capacity (read_buffer c) ≤ bound)%nat.
Proof.
  intros [Hinit Hgrow] [_ [_ _ Hok Hal] _ _ _]. split; [done|]. by apply (allocated_bounded n).
Qed.

(** The invariant of a connection. Whatever is done with a connection and whatever
    its peer sends, for the connection's whole life: its role and limits stay, its
    assembler is well formed and keeps at most [max_message] bytes of a message;
    its read buffer holds no more than its capacity, which came out of requests for
    at most a frame within the limit, its header and [READ_CHUNK] (or for what came
    with the handshake, if that was more), so [bound] bounds it if the allocator
    keeps [bound] for such requests; the coalescing buffer holds nothing back, and
    no more capacity than it keeps by design; and the state of the key generator is
    a 64-bit word. *)
Lemma connection_invariant nanos address s r l buffered c bound :
  Assembler.limits_ok l → limits_fit l → 0 <= max_frame l →
  let n := Nat.max (BytesMut.len buffered) (room l) in
  alloc_within n bound →
  rtc use (Connection.with_buffered nanos address s r l buffered) c →
  healthy r l n c ∧ (BytesMut.len (read_buffer c) ≤ bm_capacity (read_buffer c) ≤ bound)%nat.
Proof.
  intros Hl Hfit Hpos n Hbound Hlife.
  assert (healthy r l n c) as Hh.
  { eapply life_healthy; [done|done| |done|]; [|apply with_buffered_healthy; try done]; lia. }
  split; [done|]. by eapply healthy_within.
Qed.
End Life.

(** ** Example *)
Section Witnesses.
Import Sample.

(** A server reads a message in two pieces, answers, and closes. *)
Definition talking : Connection Pipe.t := conn Server [take 3 masked_hello; drop 3 masked_hello].
Definition talked : Connection Pipe.t :=
  snd (Connection.close None (snd (Connection.pong (bs "!") (snd (Connection.read 20 talking))))).

Lemma talked_life : rtc use talking talked.
Proof.
  eapply rtc_l; [apply (use_read talking 20); by apply short|].
  eapply rtc_l; [apply (use_pong _ (bs "!"))|]. apply rtc_once. apply use_close.
Qed.

Lemma connection_invariant_witness :
  healthy Server small (room small) talked ∧
  (bm_capacity (read_buffer talked) ≤ 1024 + 14 + READ_CHUNK)%nat.
Proof.
  destruct (connection_invariant 1700000000 0x7ffc0010 (pipe [take 3 masked_hello; drop 3 masked_hello])
    Server small BytesMut.new talked (room small)) as [Hh Hb].
  - split; by vm_compute.
  - by left.
  - done.
  - apply exact_alloc_within.
  - exact talked_life.
  - split; [exact Hh|exact (proj2 Hb)].
Defined.
End Witnesses.
