(* ===== verification/Session.v ===== *)
(** * Two ends of a connection

    Reading several messages in a row, and what follows from the specifications of
    [read] and of the writing methods taken together: how the bytes were cut into
    reads does not matter, and what one side writes is what the other side reads. *)
From Stdlib Require Import ZArith Lia Strings.Byte.
From stdpp Require Import base option list.
From S2P Require Import Prelude Bytes Opcode Mask Frame Utf8 Message Stream Handshake Conn Sample.
From S2P Require Import ConnRead ConnWrite.

Section Session.
Context `{T : Target, !TargetOk T, U : Utf8Impl, A : Alloc, N : ErrnoType}.

(** [n] reads in a row, each with the same step bound. *)
Fixpoint session {S : Type} `{!ByteStream S, !StreamExt S} (fuel n : nat) (c : Connection S)
  : list (result Error (option Message)) * Connection S :=
  match n with
  | O => ([], c)
  | Datatypes.S n =>
      let '(res, c1) := Connection.read fuel c in
      let '(rest, c2) := session fuel n c1 in
      (res :: rest, c2)
  end.

(** What is enough for a connection to be read from. *)
Definition ready {S : Type} `{!StreamView S} (fuel : nat) (c : Connection S) : Prop :=
  Assembler.wf (assembler c) ∧ limits_fit (limits (assembler c)) ∧
  (length (inbound (stream c)) < fuel)%nat.

Lemma ready_step {S : Type} `{!ByteStream S, !StreamExt S, !StreamView S, !StreamExtOk S}
    fuel (c : Connection S) :
  ready fuel c →
  ∃ res c', Connection.read fuel c = (res, c') ∧ reads_to c res c' ∧ ready fuel c'.
Proof.
  intros (Hwf & Hl & Hfuel). destruct (read_run fuel c Hwf Hl Hfuel) as (res & c' & Hrun & Hto).
  exists res, c'. split_and!; try done.
  destruct Hto as (Hspec & _ & Hle).
  destruct (read_spec_wf _ _ _ _ _ _ _ Hwf Hspec) as (_ & Hwf' & Hl' & _).
  split_and!; [done|by rewrite Hl'|lia].
Qed.

(** C10: how the network cut the bytes up does not show. Two connections in the
    same role and protocol state, over streams of any kind, with the same bytes
    still to be read (however much of them is in the buffer, and in however many
    chunks the rest will arrive) and the same end of the stream, give the same
    results to any number of reads, and agree again afterwards. *)
Theorem chunking_irrelevant {S1 S2 : Type}
    `{!ByteStream S1, !StreamExt S1, !StreamView S1, !StreamExtOk S1}
    `{!ByteStream S2, !StreamExt S2, !StreamView S2, !StreamExtOk S2}
    fuel1 fuel2 n (c1 : Connection S1) (c2 : Connection S2) :
  ready fuel1 c1 → ready fuel2 c2 →
  role c1 = role c2 → assembler c1 = assembler c2 → unread c1 = unread c2 →
  ending (stream c1) = ending (stream c2) →
  let '(r1, d1) := session fuel1 n c1 in
  let '(r2, d2) := session fuel2 n c2 in
  r1 = r2 ∧ assembler d1 = assembler d2 ∧ unread d1 = unread d2.
Proof.
  revert c1 c2. induction n as [|n IH]; intros c1 c2 H1 H2 Hr Ha Hu He; [done|].
  cbn [session].
  destruct (ready_step fuel1 c1 H1) as (res1 & d1 & -> & (Hs1 & Hw1 & _) & Hd1).
  destruct (ready_step fuel2 c2 H2) as (res2 & d2 & -> & (Hs2 & Hw2 & _) & Hd2).
  rewrite Hr, Ha, Hu, He in Hs1.
  destruct (read_spec_deterministic _ _ _ _ _ _ _ _ _ _ Hs1 Hs2) as (-> & Ha' & Hu').
  destruct Hw1 as (Hr1 & _ & _ & _ & _ & He1 & _), Hw2 as (Hr2 & _ & _ & _ & _ & He2 & _).
  specialize (IH d1 d2 Hd1 Hd2 ltac:(congruence) Ha' Hu' ltac:(congruence)).
  destruct (session fuel1 n d1) as [r1 e1], (session fuel2 n d2) as [r2 e2].
  destruct IH as (-> & ? & ?). done.
Qed.

(** ** From one side to the other *)

Definition peer (r : Role) : Role := match r with Client => Server | Server => Client end.

Lemma no_masking_violation r st o f n :
  masking_violation (peer r) (mkHeader f o (key_out r st) n) = false.
Proof. by destruct r. Qed.

Lemma unmask_unmask key p : unmask key (unmask key p) = p.
Proof. destruct key; [apply Mask.reference_involutive|done]. Qed.
Lemma length_unmask key p : length (unmask key p) = length p.
Proof. destruct key; [apply length_imap|done]. Qed.

(** A frame that a peer wrote is the frame that is read. *)
Lemma frame_step_frame r st a o f p more :
  let h := mkHeader f o (key_out r st) (Z.of_nat (length p)) in
  Header.wf h → Z.of_nat (length p) <= max_frame (limits a) →
  frame_step (peer r) a (frame_bytes (key_out r st) o f p ++ more)
  = match Assembler.accept o f p a with
    | (Ok m, a') => Got m a' more
    | (Err e, a') => Fail (Protocol e) a' more
    | _ => Need
    end.
Proof.
  intros h Hwf Hmax. unfold frame_step, frame_bytes. fold h. rewrite <- app_assoc.
  pose proof (no_masking_violation r st o f (Z.of_nat (length p))) as Hmv. fold h in Hmv.
  rewrite Header.decode_wire by done. rewrite Hmv.
  rewrite !length_app, Header.length_wire, length_unmask. cbn [payload_len mask opcode fin h].
  rewrite (proj2 (Z.ltb_ge _ _)) by lia. rewrite Nat2Z.id. fold h.
  rewrite <- (Header.length_wire h), <- drop_drop, drop_app_length.
  rewrite take_app_length', drop_app_length' by (by rewrite length_unmask).
  by rewrite unmask_unmask.
Qed.

(** The messages that may be sent to a peer with the given limits: within them,
    control payloads and close reasons within the 125 bytes of a control frame,
    text and reasons UTF-8. *)
Definition deliverable (l : Limits) (m : Message) : Prop :=
  let '(opcode, payload) := message_frame m in
  let len := Z.of_nat (length payload) in
  len < 2 ^ 63 ∧ len <= max_frame l ∧
  match m with
  | Message.Text p => is_utf8 p = true ∧ len <= max_message l
  | Message.Binary p => len <= max_message l
  | Message.Ping _ | Message.Pong _ => len <= 125
  | Message.Close f =>
      len <= 125 ∧ match f with Some f => is_utf8 (reason f) = true | None => True end
  end.

Definition received (m : Message) : Message :=
  match m with
  | Message.Close (Some f) => Message.Close (Some (sanitised f))
  | m => m
  end.

Definition after_message (m : Message) (a : Assembler) : Assembler :=
  if is_close m then set_closed true a else a.

Lemma frame_step_message r st a m more :
  closed a = false → partial a = None → deliverable (limits a) m →
  frame_step (peer r) a (message_bytes r st m ++ more)
  = Got (Some (received m)) (after_message m a) more.
Proof.
  intros Hc Hp Hm. unfold message_bytes, deliverable in *.
  destruct (message_frame m) as [o p] eqn:Ho. destruct Hm as (Hlt & Hmax & Hm).
  rewrite frame_step_frame; [|split|done].
  - rewrite Assembler.accept_run, Hc, Hp.
    destruct m as [x|x|x|x|f]; cbn [message_frame] in Ho; injection Ho as <- <-.
    + destruct Hm as [Hu Hm]. unfold Assembler.too_large.
      rewrite (proj2 (Z.ltb_ge _ _)) by done. cbn [Assembler.deliver]. by rewrite Hu.
    + unfold Assembler.too_large. by rewrite (proj2 (Z.ltb_ge _ _)).
    + done.
    + done.
    + rewrite parse_encode_close_body. destruct f as [f|]; [|done].
      destruct Hm as [_ Hu]. by rewrite Hu.
  - cbn [payload_len]. lia.
  - cbn [opcode fin payload_len]. intros Hctl. split; [done|].
    destruct m as [x|x|x|x|f]; cbn [message_frame] in Ho; injection Ho as <- <-; try done.
    by destruct Hm.
Qed.

Lemma read_spec_got r ending a w m a1 w1 res a' w' :
  frame_step r a w = Got (Some m) a1 w1 → read_spec r ending a w res a' w' →
  res = Ok (Some m) ∧ a' = a1 ∧ w' = w1.
Proof.
  intros H Hspec. eapply read_spec_deterministic; [done|]. by apply read_message.
Qed.

(** A close frame, if any, comes last. *)
Fixpoint closes_last (ms : list Message) : Prop :=
  match ms with
  | [] => True
  | m :: ms => (is_close m = true → ms = []) ∧ closes_last ms
  end.

Lemma closes_last_app ms1 ms2 :
  closes_last (ms1 ++ ms2) ↔
  closes_last ms1 ∧ closes_last ms2 ∧ (existsb is_close ms1 = true → ms2 = []).
Proof.
  induction ms1 as [|m ms1 IH]; cbn [app closes_last existsb]; [naive_solver|]. rewrite IH, orb_true_iff.
  split.
  - intros (Hm & H1 & H2 & H3). split_and!; try done.
    + intros [H _]%Hm%app_nil. done.
    + intros [[_ H]%Hm%app_nil|H]; [done|by apply H3].
  - intros ([Hm H1] & H2 & H3). split_and!; try done.
    + intros H. rewrite Hm, H3 by auto. done.
    + auto.
Qed.

Lemma session_reads {S : Type} `{!ByteStream S, !StreamExt S, !StreamView S, !StreamExtOk S}
    fuel r st ms more (c : Connection S) :
  ready fuel c → role c = peer r → unread c = messages_bytes r st ms ++ more →
  closed (assembler c) = false → partial (assembler c) = None →
  Forall (deliverable (limits (assembler c))) ms → closes_last ms →
  let '(results, c') := session fuel (length ms) c in
  results = (λ m, Ok (Some (received m))) <$> ms ∧ unread c' = more ∧
  closed (assembler c') = existsb is_close ms.
Proof.
  revert st c. induction ms as [|m ms IH]; intros st c Hready Hr Hun Hc Hp Hms Hlast; [done|].
  cbn [length session messages_bytes existsb] in *. apply Forall_cons in Hms as [Hm Hms].
  destruct Hlast as [Hlast1 Hlast].
  destruct (ready_step fuel c Hready) as (res & c1 & -> & (Hspec & Hsame & _) & Hready1).
  rewrite Hr, Hun, <- app_assoc in Hspec.
  eapply read_spec_got in Hspec as (-> & Ha1 & Hu1); [|by apply frame_step_message].
  destruct Hsame as (Hr1 & _). unfold after_message in Ha1.
  destruct (is_close m) eqn:Hclose.
  - rewrite Hlast1 in * by done. cbn [length session messages_bytes] in *.
    split_and!; [done|by rewrite Hu1|by rewrite Ha1].
  - specialize (IH (state_out r st) c1 Hready1 ltac:(congruence) Hu1
      ltac:(by rewrite Ha1) ltac:(by rewrite Ha1) ltac:(by rewrite Ha1) Hlast).
    destruct (session fuel (length ms) c1) as [results c2]. by destruct IH as (-> & -> & ->).
Qed.

(** C1: what one side writes is what the other reads. Take messages that a receiver can
    take: within its frame and message limits, pings, pongs and close frames with at
    most 125 bytes of payload, text and close reasons UTF-8, and no message after a
    close frame. If [write_all] of them by a sender succeeds and its bytes reach a
    receiver in the other role that has read no close frame and no part of a message, in
    order, split in any way over any stream, and followed by anything, then the
    receiver's reads return exactly the messages that were sent, a close frame with its
    code sanitised, and leave what followed unread. *)
Theorem delivery {S1 S2 : Type}
    `{!ByteStream S1, !StreamExt S1, !StreamView S1, !StreamExtOk S1}
    `{!ByteStream S2, !StreamExt S2, !StreamView S2, !StreamExtOk S2}
    fuel ms more (sender sender' : Connection S1) (receiver : Connection S2) :
  Connection.write_all ms sender = (Ok tt, sender') →
  ready fuel receiver → role receiver = peer (role sender) →
  unread receiver
  = drop (length (outbound (stream sender))) (outbound (stream sender')) ++ more →
  closed (assembler receiver) = false → partial (assembler receiver) = None →
  Forall (deliverable (limits (assembler receiver))) ms → closes_last ms →
  let '(results, receiver') := session fuel (length ms) receiver in
  results = (λ m, Ok (Some (received m))) <$> ms ∧ unread receiver' = more ∧
  closed (assembler receiver') = existsb is_close ms.
Proof.
  intros Hw Hready Hr Hun. destruct (write_all_run ms sender) as (r & s' & Hw' & [[_ Ho] _] & _).
  rewrite Hw in Hw'. injection Hw' as Hro <-. destruct r as [[]| | |]; try done.
  rewrite Ho, drop_app_length in Hun. by apply (session_reads fuel (role sender) (mask_state sender)).
Qed.
End Session.

(** ** Examples *)
Section Witnesses.
Import Sample.

Lemma conn_ready r segs fuel :
  (length (concat segs) <? fuel)%nat = true → ready fuel (conn r segs).
Proof. intros H. split_and!; [apply conn_wf|apply conn_fit|by apply short]. Qed.

(** Two messages byte by byte, and in one segment. *)
Lemma chunking_irrelevant_witness :
  let bytes := masked_hello ++ masked_close in
  fst (session 40 3 (conn Server [bytes]))
    = fst (session 40 3 (conn Server ((λ b, [b]) <$> bytes))) ∧
  fst (session 40 3 (conn Server [bytes]))
    = [Ok (Some (Message.Text (bs "Hello")));
       Ok (Some (Message.Close (Some (mkCloseFrame CloseCode.NORMAL []))));
       Ok None].
Proof.
  cbn zeta. set (bytes := _ ++ _). split; [|by vm_compute].
  pose proof (chunking_irrelevant 40 40 3 (conn Server [bytes])
    (conn Server ((λ b, [b]) <$> bytes))
    ltac:(by apply conn_ready) ltac:(by apply conn_ready) eq_refl eq_refl eq_refl eq_refl) as H.
  destruct (session 40 3 (conn Server [bytes])), (session 40 3 _). by destruct H.
Defined.

(** A client's batch, read by a server from segments of one byte. *)
Lemma delivery_witness :
  let ms := [Message.Text (bs "hi"); Message.Ping (bs "?");
             Message.Close (Some (mkCloseFrame (mkCloseCode 1006) (bs "bye")))] in
  let sender' := snd (Connection.write_all ms (conn Client [])) in
  let receiver := conn Server ((λ b, [b]) <$> outbound (stream sender')) in
  fst (session 60 3 receiver)
    = [Ok (Some (Message.Text (bs "hi"))); Ok (Some (Message.Ping (bs "?")));
       Ok (Some (Message.Close (Some (mkCloseFrame CloseCode.INTERNAL_ERROR (bs "bye")))))].
Proof.
  cbn zeta. set (ms := [_; _; _]). set (sender := conn Client []).
  set (sender' := snd (Connection.write_all ms sender)).
  set (receiver := conn Server _).
  assert (let '(results, receiver') := session 60 3 receiver in
    results = (λ m, Ok (Some (received m))) <$> ms ∧ unread receiver' = [] ∧
    closed (assembler receiver') = true) as H.
  { apply (delivery 60 ms [] sender sender' receiver).
    - by vm_compute.
    - by apply conn_ready.
    - done.
    - by vm_compute.
    - done.
    - done.
    - change (limits (assembler receiver)) with small.
      repeat (apply Forall_cons; split); [by vm_compute..|by apply Forall_nil].
    - by vm_compute. }
  destruct (session 60 3 receiver). by destruct H as [-> _].
Defined.
(** A caller may write a ping that is too long for a control frame: [write] succeeds, and
    the peer refuses the frame. *)
Lemma long_ping_refused :
  let '(r, c) := Connection.write (Message.Ping (replicate 126 x70)) (conn Client []) in
  r = Ok tt ∧ fst (Connection.read 200 (conn Server [outbound (stream c)])) = Err (Frame InvalidControlFrame).
Proof. vm_compute. split; reflexivity. Qed.
End Witnesses.
