(* ===== verification/Truncation.v ===== *)
(** * What arrives of a message that was cut short

    A write can fail half way, a caller can drop it while it waits, and a network can
    break: then a part of the bytes arrives, and after it the stream ends. Here is
    what a reader makes of any such part: every message of which the last byte has
    arrived, nothing else, and then the end, in order only if a close frame was among
    the messages. No piece of a message is ever taken for a message. *)
From Stdlib Require Import ZArith Lia Strings.Byte.
From stdpp Require Import base option list.
From S2P Require Import Prelude Bytes Opcode Mask Frame Utf8 Message Stream Handshake Conn Sample.
From S2P Require Import ConnRead ConnWrite Cancel Session.

Section Truncation.
Context `{T : Target, !TargetOk T, U : Utf8Impl, A : Alloc, N : ErrnoType}.

(** How many of the messages have all their bytes among the first [k]. *)
Fixpoint whole (r : Role) (st : Z) (ms : list Message) (k : nat) : nat :=
  match ms with
  | [] => 0
  | m :: ms =>
      let len := length (message_bytes r st m) in
      if (len <=? k)%nat then S (whole r (state_out r st) ms (k - len)) else 0
  end.

Lemma whole_all r st ms k :
  (length (messages_bytes r st ms) ≤ k)%nat → whole r st ms k = length ms.
Proof.
  revert st k. induction ms as [|m ms IH]; intros st k; [done|].
  cbn [messages_bytes whole length]. rewrite length_app. intros Hk.
  rewrite (proj2 (Nat.leb_le _ _)), IH by lia. done.
Qed.

Lemma whole_length r st ms k : (whole r st ms k ≤ length ms)%nat.
Proof.
  revert st k. induction ms as [|m ms IH]; intros st k; [done|]. cbn [whole length].
  destruct (_ <=? _)%nat; [|lia]. specialize (IH (state_out r st) (k - length (message_bytes r st m))%nat).
  lia.
Qed.

(** Part of a message is no frame. *)
Lemma frame_step_part r st a m k :
  closed a = false → partial a = None → deliverable (limits a) m →
  (k < length (message_bytes r st m))%nat →
  frame_step (peer r) a (take k (message_bytes r st m)) = Need.
Proof.
  intros Hc Hp Hm Hk. set (bytes := message_bytes r st m) in *.
  pose proof (frame_step_app (peer r) a (take k bytes) (drop k bytes)) as Happ.
  pose proof (frame_step_message r st a m [] Hc Hp Hm) as Hfull. fold bytes in Hfull.
  rewrite app_nil_r in Hfull. rewrite take_drop, Hfull in Happ.
  assert (drop k bytes ≠ []) as Hrest.
  { intros E%(f_equal length). rewrite length_drop in E. cbn in E. lia. }
  destruct (frame_step (peer r) a (take k bytes)) as [|e a0 w|om a0 w]; [done|done|].
  exfalso. apply Hrest. injection Happ as _ _ E. symmetry in E. by apply app_nil in E as [_ E].
Qed.

Section Reader.
Context {S : Type} `{!ByteStream S, !StreamExt S, !StreamView S, !StreamExtOk S}.
Implicit Types c : Connection S.

(** Where the bytes run out, every read says how the stream ended. *)
Lemma session_at_end fuel n c :
  ready fuel c → frame_step (role c) (assembler c) (unread c) = Need →
  let '(results, c') := session fuel n c in
  results = replicate n (at_end (ending (stream c)) (assembler c)) ∧
  assembler c' = assembler c ∧ unread c' = unread c.
Proof.
  revert c. induction n as [|n IH]; intros c Hready Hneed; [done|]. cbn [session].
  destruct (ready_step fuel c Hready) as (res & c1 & -> & (Hspec & Hsame & _) & Hready1).
  pose proof (read_spec_deterministic _ _ _ _ _ _ _ _ _ _ Hspec (read_end _ _ _ _ Hneed))
    as (-> & Ha & Hu).
  destruct Hsame as (Hr & _ & _ & _ & _ & He & _).
  specialize (IH c1 Hready1 ltac:(by rewrite Hr, Ha, Hu)). rewrite He, Ha in IH.
  destruct (session fuel n c1) as [results c2]. destruct IH as (-> & -> & ->).
  by rewrite Hu.
Qed.

(** What is read of the first [k] bytes of some messages, by any number of reads. *)
Lemma session_part fuel r st ms k extra c :
  ready fuel c → role c = peer r → unread c = take k (messages_bytes r st ms) →
  closed (assembler c) = false → partial (assembler c) = None →
  Forall (deliverable (limits (assembler c))) ms → closes_last ms →
  let n := whole r st ms k in
  let '(results, c') := session fuel (n + extra) c in
  results = ((λ m, Ok (Some (received m))) <$> take n ms)
    ++ replicate extra
         match ending (stream c) with
         | Some e => Err (Io e)
         | None => if existsb is_close (take n ms) then Ok None else Err UnexpectedEof
         end.
Proof.
  revert st k c. induction ms as [|m ms IH]; intros st k c Hready Hr Hun Hc Hp Hms Hlast n; subst n.
  { cbn [whole take messages_bytes] in *. rewrite take_nil in Hun.
    pose proof (session_at_end fuel extra c Hready) as H. rewrite Hun in H.
    specialize (H eq_refl). cbn [Nat.add]. destruct (session fuel extra c) as [results c'].
    destruct H as [-> _]. unfold at_end. by rewrite Hc. }
  apply Forall_cons in Hms as [Hm Hms]. destruct Hlast as [Hlast1 Hlast].
  cbn [whole messages_bytes] in *. destruct (_ <=? _)%nat eqn:Hk; bool_prop.
  - rewrite take_app_ge in Hun by done. set (k' := (k - length (message_bytes r st m))%nat) in *.
    cbn [Nat.add session take fmap list_fmap existsb app].
    destruct (ready_step fuel c Hready) as (res & c1 & -> & (Hspec & Hsame & _) & Hready1).
    rewrite Hr, Hun in Hspec.
    eapply read_spec_got in Hspec as (-> & Ha1 & Hu1); [|by apply frame_step_message].
    destruct Hsame as (Hr1 & _ & _ & _ & _ & He1 & _). unfold after_message in Ha1.
    destruct (is_close m) eqn:Hclose.
    + rewrite (Hlast1 eq_refl) in *. cbn [messages_bytes whole take] in *. rewrite take_nil in Hu1.
      pose proof (session_at_end fuel extra c1 Hready1) as H. rewrite Hu1 in H.
      specialize (H eq_refl). cbn [Nat.add]. destruct (session fuel extra c1) as [results c2].
      destruct H as [-> _]. by rewrite He1, Ha1.
    + specialize (IH (state_out r st) k' c1 Hready1 ltac:(congruence) Hu1
        ltac:(by rewrite Ha1) ltac:(by rewrite Ha1) ltac:(by rewrite Ha1) Hlast). cbn zeta in IH.
      destruct (session fuel _ c1) as [results c2]. by rewrite IH, He1.
  - cbn [take fmap list_fmap existsb app Nat.add]. rewrite take_app_le in Hun by lia.
    pose proof (session_at_end fuel extra c Hready) as H. rewrite Hr, Hun in H.
    specialize (H (frame_step_part r st _ m k Hc Hp Hm Hk)).
    destruct (session fuel extra c) as [results c']. destruct H as [-> _]. unfold at_end. by rewrite Hc.
Qed.
End Reader.

(** What a sender had written when it was interrupted: some messages one by one, and
    then a [write] or a [write_all], which may have returned, with success or not, or
    been given up. *)
Section Sender.
Context {S : Type} `{!ByteStream S, !StreamExt S, !StreamView S, !StreamExtOk S}.
Implicit Types c : Connection S.

Inductive attempt c : list Message → Connection S → Prop :=
| attempt_write m r c' : Connection.write m c = (r, c') → attempt c [m] c'
| attempt_write_dropped m c' : write_dropped m c c' → attempt c [m] c'
| attempt_all ms r c' : Connection.write_all ms c = (r, c') → attempt c ms c'
| attempt_all_dropped ms c' : batch_dropped ms c c' → attempt c ms c'
| attempt_next m c1 ms c' :
    Connection.write m c = (Ok tt, c1) → attempt c1 ms c' → attempt c (m :: ms) c'.

Lemma wrote_partly data s r s' : wrote data s (r, s') → partly data s s'.
Proof.
  intros [Hin Ho]. split; [done|]. destruct r; [|done..]. exists (length data). by rewrite firstn_all.
Qed.

Lemma attempt_partly c ms c' :
  attempt c ms c' → partly (messages_bytes (role c) (mask_state c) ms) (stream c) (stream c').
Proof.
  induction 1 as [c m r c' Hw|c m c' Hw|c ms r c' Hw|c ms c' Hw|c m c1 ms c' Hw _ IH].
  - destruct (write_run m c) as (w & c1 & Hw' & Hwrote & _). rewrite Hw in Hw'.
    injection Hw' as _ <-. cbn [messages_bytes]. rewrite app_nil_r. by eapply wrote_partly.
  - apply write_dropped_run in Hw as [Hw _]. cbn [messages_bytes]. by rewrite app_nil_r.
  - destruct (write_all_run ms c) as (w & c1 & Hw' & [Hwrote _] & _). rewrite Hw in Hw'.
    injection Hw' as _ <-. by eapply wrote_partly.
  - by apply batch_dropped_run in Hw as [Hw _].
  - destruct (write_run m c) as (w & c2 & Hw' & [[Hi1 He1] Ho1] & (Hr & _) & _ & Hm & _).
    rewrite Hw in Hw'. injection Hw' as Hok <-. destruct w as [[]| | |]; try done.
    destruct IH as [[Hi He] [k Ho]]. rewrite Hr, Hm in Ho. cbn [messages_bytes].
    split; [split; congruence|]. exists (length (message_bytes (role c) (mask_state c) m) + k)%nat.
    by rewrite Ho, Ho1, <- app_assoc, take_app_add.
Qed.
End Sender.

(** C7: an interrupted sender is not misread. Take messages that a receiver can take:
    within its frame and message limits, pings, pongs and close frames with at most 125
    bytes of payload, text and close reasons UTF-8, and no message after a close frame.
    Whatever became of the last [write] or [write_all] of them (it may have succeeded,
    failed half way, or been given up), if any part of the bytes on the wire arrives at
    a receiver in the other role that has read no close frame and no part of a message,
    and then the stream ends, the reads return the messages that arrived whole, as they
    were sent, and after them nothing but the end: the stream's own error; or, where the
    stream ends in order, a clean end if and only if the close frame was among them,
    and [UnexpectedEof] if not. *)
Theorem interrupted_delivery {S1 S2 : Type}
    `{!ByteStream S1, !StreamExt S1, !StreamView S1, !StreamExtOk S1}
    `{!ByteStream S2, !StreamExt S2, !StreamView S2, !StreamExtOk S2}
    fuel ms k extra (sender sender' : Connection S1) (receiver : Connection S2) :
  attempt sender ms sender' →
  ready fuel receiver → role receiver = peer (role sender) →
  unread receiver
  = take k (drop (length (outbound (stream sender))) (outbound (stream sender'))) →
  closed (assembler receiver) = false → partial (assembler receiver) = None →
  Forall (deliverable (limits (assembler receiver))) ms → closes_last ms →
  let n := whole (role sender) (mask_state sender) ms (length (unread receiver)) in
  (n ≤ length ms)%nat ∧
  fst (session fuel (n + extra) receiver)
  = ((λ m, Ok (Some (received m))) <$> take n ms)
    ++ replicate extra
         match ending (stream receiver) with
         | Some e => Err (Io e)
         | None => if existsb is_close (take n ms) then Ok None else Err UnexpectedEof
         end.
Proof.
  intros Hw Hready Hr Hun Hc Hp Hms Hlast n. split; [apply whole_length|].
  apply attempt_partly in Hw as [_ [j Ho]].
  set (bytes := messages_bytes (role sender) (mask_state sender) ms) in *.
  assert (unread receiver = take (length (unread receiver)) bytes) as Hpart.
  { rewrite Ho, drop_app_length, take_take in Hun. rewrite Hun. by rewrite take_length_take. }
  pose proof (session_part fuel _ _ _ _ extra receiver Hready Hr Hpart Hc Hp Hms Hlast) as H.
  cbn zeta in H. fold n in H. by destruct (session fuel (n + extra) receiver).
Qed.
End Truncation.

(** ** Example *)
Section Witnesses.
Import Sample.

(** A client whose socket fails after ten bytes: a frame of eight, and two of the
    next. *)
Definition failing : Connection Pipe.t :=
  Connection.new 1700000000 0x7ffc0010 (Pipe.mkPipe [] None [] (Some (10%nat, 32))) Client small.
Definition batch : list Message := [Message.Text (bs "hi"); Message.Binary (bs "there"); Message.Close None].
Definition failed : Connection Pipe.t := snd (Connection.write_all batch failing).
(** A server that gets the ten bytes one by one *)
Definition stranded : Connection Pipe.t :=
  conn Server ((λ b, [b]) <$> outbound (stream failed)).

Lemma batch_ok : Forall (deliverable small) batch.
Proof. repeat (apply Forall_cons; split); [by vm_compute..|by apply Forall_nil]. Qed.
Lemma batch_closes : closes_last batch.
Proof. by vm_compute. Qed.

Lemma interrupted_delivery_witness :
  fst (Connection.write_all batch failing) = Err (Io 32) ∧
  fst (session 20 3 stranded)
  = [Ok (Some (Message.Text (bs "hi"))); Err UnexpectedEof; Err UnexpectedEof].
Proof.
  split; [vm_compute; reflexivity|].
  pose proof (interrupted_delivery 20 batch 10 2 failing failed stranded) as H.
  assert (length (unread stranded) = 10%nat) as Hlen by (vm_compute; reflexivity).
  rewrite Hlen in H.
  assert (whole (role failing) (mask_state failing) batch 10 = 1%nat) as Hn by (vm_compute; reflexivity).
  rewrite Hn in H. destruct H as [_ H].
  - exact (attempt_all failing batch _ failed (surjective_pairing _)).
  - by apply conn_ready.
  - reflexivity.
  - vm_compute. reflexivity.
  - reflexivity.
  - reflexivity.
  - apply batch_ok.
  - apply batch_closes.
  - exact H.
Defined.

(** A connection does not remember that a frame was cut short. A caller that writes on
    after it gave up a write has the peer take the next frame for the rest of the torn
    one: here the client reads five bytes that nobody sent as a message. *)
Definition torn : Connection Pipe.t :=
  set_stream (Pipe.mkPipe [] None [x82; x05; x68] None) (conn Server []).
Lemma torn_dropped : write_dropped (Message.Binary (bs "hello")) (conn Server []) torn.
Proof.
  apply (write_dropped_plain (Message.Binary (bs "hello")) (conn Server []) Binary (bs "hello")
    (conn Server []) [x82; x05]); [done|vm_compute; reflexivity..|].
  split; [done|]. by exists 3%nat.
Qed.
Example written_on_is_misread :
  let '(r, c) := Connection.write (Message.Binary (bs "yes")) torn in
  r = Ok tt ∧
  fst (Connection.read 20 (conn Client [outbound (stream c)]))
  = Ok (Some (Message.Binary [x68; x82; x03; x79; x65])).
Proof. vm_compute. split; reflexivity. Qed.
End Witnesses.
