(* ===== verification/Upgrade.v ===== *)
(** * The handshake over a stream ([src/upgrade.rs])

    [read_head], [accept] and [connect] in the state monad over the stream. The
    clock and the stack address that seed a new connection's masking keys are
    arguments, as in [Conn]. *)
From Stdlib Require Import ZArith Lia Strings.Byte.
From stdpp Require Import base option list sets.
From S2P Require Import Prelude Bytes Opcode Mask Frame Utf8 Message Stream Base64 Str Handshake.
From S2P Require Import HandshakeTrip Conn Sample ConnRead ConnWrite Session.

(** [impl From<UpgradeError> for Error] *)
Definition from_upgrade_error `{N : ErrnoType} (value : UpgradeError) : Error := Upgrade value.

(** [enum UpgradeOutcome] *)
Inductive UpgradeOutcome (S : Type) : Type :=
| Upgraded (connection : Connection S) (request : Request)
| Plain (stream : S) (request : Request) (buffered : BytesMut).
Arguments Upgraded {S}.
Arguments Plain {S}.

Section Upgrade.
Context `{T : Target, U : Utf8Impl, A : Alloc, N : ErrnoType}.
Context {S : Type} `{!ByteStream S, !StreamExt S}.
Abbreviation M := (stM S Error).

(** [stream.read_buf(&mut buffer).await?], for a buffer that is a local *)
Definition read_local (buffer : BytesMut) : M (nat * BytesMut) := λ s,
  let '(r, (s, buffer)) := read_buf (s, buffer) in
  ((λ n, (n, buffer)) <$> map_err Io r, s).

(** The loop of [read_head] *)
Fixpoint read_head_loop (fuel : nat) (max_head : Z) (buffer : BytesMut)
  : M (list byte * BytesMut) :=
  match fuel with
  | O => st_lift OutOfFuel
  | Datatypes.S fuel =>
      match head_end (bm_data buffer) with
      | Some end_ =>
          let '(r, buffer) := BytesMut.split_off end_ buffer in
          rest ← st_lift r;
          mret (bm_data buffer, rest)
      | None =>
          if max_head <? Z.of_nat (BytesMut.len buffer) then st_throw (Upgrade HeadTooLarge) else
          let buffer :=
            if (bm_capacity buffer - BytesMut.len buffer <? 1024)%nat
            then BytesMut.reserve (2 * 1024) buffer else buffer in
          '(read, buffer) ← read_local buffer;
          if (read =? 0)%nat then st_throw (Upgrade Malformed)
          else read_head_loop fuel max_head buffer
      end
  end.

(** [read_head] *)
Definition read_head (fuel : nat) (max_head : Z) : M (list byte * BytesMut) :=
  read_head_loop fuel max_head (BytesMut.with_capacity (2 * 1024)).

(** [accept] *)
Definition accept (fuel : nat) (nanos address : Z) (limits : Limits)
    (error_headers : list (str * str))
    (select : Request → option str * list (str * str)) : M (UpgradeOutcome S) :=
  '(head, rest) ← read_head fuel DEFAULT_MAX_HEAD;
  match parse_request head DEFAULT_MAX_HEAD with
  | Ok (Parsed.Upgrade request) =>
      let '(protocol, headers) := select request in
      response ← st_lift (build_response (Request.key request) protocol headers);
      st_map_err Io (stream_write_all response);;
      stream ← st_get;
      mret (Upgraded (Connection.with_buffered nanos address stream Server limits rest) request)
  | Ok (Parsed.Plain request) =>
      stream ← st_get;
      mret (Plain stream request rest)
  | Err error =>
      ignored ← st_try (stream_write_all (build_rejection error error_headers));
      st_throw (Upgrade error)
  | Panic => st_lift Panic
  | OutOfFuel => st_lift OutOfFuel
  end.

(** [connect] *)
Definition connect (fuel : nat) (nanos address : Z) (path host : str) (protocols : list str)
    (headers : list (str * str)) (entropy : list byte) (limits : Limits)
  : M (Connection S * option str) :=
  key ← st_lift (new_key entropy);
  let request := build_request path host key protocols headers in
  st_map_err Io (stream_write_all request);;
  '(head, rest) ← read_head fuel DEFAULT_MAX_HEAD;
  protocol ← st_lift (map_err from_upgrade_error (check_response head key));
  stream ← st_get;
  mret (Connection.with_buffered nanos address stream Client limits rest, protocol).
End Upgrade.

(** ** Reading a head *)
Section Read.
Context `{T : Target, U : Utf8Impl, A : Alloc, !AllocOk A, N : ErrnoType}.
Context {S : Type} `{!ByteStream S, !StreamExt S, !StreamView S, !StreamExtOk S}.

Lemma find_bound p l i : Str.find p l = Some i → (i + length p ≤ length l)%nat.
Proof.
  intros [(a & b & -> & <-) _]%Str.find_spec. rewrite !length_app. lia.
Qed.
Lemma head_end_bound l n : head_end l = Some n → (n ≤ length l)%nat.
Proof.
  unfold head_end. destruct (Str.find (CRLF ++ CRLF) l) as [i|] eqn:Hi.
  - intros [= <-]. by apply find_bound in Hi.
  - destruct (Str.find [Str.LF; Str.LF] l) as [j|] eqn:Hj; [|done].
    intros [= <-]. by apply find_bound in Hj.
Qed.

(** What a head that was read tells of the stream. *)
Definition head_read (max_head : Z) (before : list byte) (s : S)
    (p : result Error (list byte * BytesMut) * S) : Prop :=
  let '(r, s') := p in
  ending s' = ending s ∧ outbound s' = outbound s ∧
  match r with
  | Ok (head, rest) =>
      head ++ bm_data rest ++ inbound s' = before ++ inbound s ∧
      head_end (head ++ bm_data rest) = Some (length head)
  | Err (Upgrade HeadTooLarge) => ∃ got,
      before ++ inbound s = got ++ inbound s' ∧ head_end got = None ∧
      max_head < Z.of_nat (length got)
  | Err (Upgrade Malformed) =>
      inbound s' = [] ∧ ending s = None ∧ head_end (before ++ inbound s) = None
  | Err (Io e) => inbound s' = [] ∧ ending s = Some e ∧ head_end (before ++ inbound s) = None
  | _ => False
  end.

Lemma read_head_loop_run fuel max_head b s :
  BytesMut.ok b → (length (inbound s) < fuel)%nat →
  head_read max_head (bm_data b) s (read_head_loop fuel max_head b s).
Proof.
  revert b s. induction fuel as [|fuel IH]; intros b s Hb Hfuel; [lia|]. cbn [read_head_loop].
  destruct (head_end (bm_data b)) as [n|] eqn:Hend.
  - pose proof (head_end_bound _ _ Hend) as Hn.
    assert (n ≤ bm_capacity b)%nat as Hcap by (unfold BytesMut.ok, BytesMut.len in Hb; lia).
    unfold BytesMut.split_off. rewrite (proj2 (Nat.leb_le _ _)) by done.
    unfold mbind, stM_bind, st_lift, mret, stM_ret, head_read. cbn [bm_data].
    split_and!; try done.
    + by rewrite app_assoc, take_drop.
    + rewrite take_drop, Hend, length_take. f_equal. lia.
  - destruct (max_head <? _) eqn:Hmax; bool_prop.
    { split_and!; try done. by exists (bm_data b). }
    set (b1 := if (bm_capacity b - BytesMut.len b <? 1024)%nat
               then BytesMut.reserve (2 * 1024) b else b).
    assert (bm_data b1 = bm_data b) as Hb1 by (unfold b1; by destruct (_ <? _)%nat).
    unfold mbind, stM_bind, read_local.
    destruct (decide (inbound s = [])) as [Hin|Hin].
    + destruct (read_buf_end s b1 Hin) as (s' & b2 & -> & _ & [Hin' He] & Ho).
      rewrite Hin in Hin'.
      destruct (ending s) as [e|] eqn:Hes; cbn; rewrite Hes, Hin, app_nil_r;
        split_and!; done || congruence.
    + destruct (read_buf_data s b1 Hin) as (chunk & s' & b2 & -> & Hne & Hb2 & Hok & Hin' & He & Ho).
      cbn [map_err fmap result_fmap]. destruct chunk as [|x chunk]; [done|].
      cbn [length Nat.eqb].
      assert (length (inbound s) = Datatypes.S (length chunk) + length (inbound s'))%nat
        as Hlen by (rewrite Hin', length_app; done).
      specialize (IH b2 s' Hok ltac:(lia)). unfold head_read in *.
      assert (bm_data b2 ++ inbound s' = bm_data b ++ inbound s) as Hall
        by (by rewrite Hb2, Hb1, Hin', <- app_assoc).
      rewrite Hall, He, Ho in IH. exact IH.
Qed.

(** Reading a head loses nothing. With one turn for each byte the peer still has and
    one more, [read_head] returns: either a head that ends in its blank line, the
    head, what was read past it and what is left in the stream being together what
    the peer sent; or [HeadTooLarge] once more than the limit has come without a
    blank line; or, when the stream ends first, [Malformed] or the stream's own
    error. It writes nothing. *)
Lemma read_head_run fuel max_head s :
  (length (inbound s) < fuel)%nat →
  head_read max_head [] s (read_head fuel max_head s).
Proof.
  intros Hfuel. unfold read_head.
  apply (read_head_loop_run fuel max_head (BytesMut.with_capacity (2 * 1024)) s); [|done].
  unfold BytesMut.ok. cbn. lia.
Qed.

(** A head that ends where it should is found, in whatever pieces it comes. *)
Lemma read_head_found fuel max_head head more s :
  (length (inbound s) < fuel)%nat → ends_at head → inbound s = head ++ more →
  Z.of_nat (length head) <= max_head →
  ∃ rest s', read_head fuel max_head s = (Ok (head, rest), s') ∧
    bm_data rest ++ inbound s' = more ∧ ending s' = ending s ∧ outbound s' = outbound s.
Proof.
  intros Hfuel Hends Hin Hmax.
  pose proof (read_head_run fuel max_head s Hfuel) as H.
  destruct (read_head fuel max_head s) as [r s']. destruct H as (He & Ho & H).
  assert (∀ pre post, pre ++ post = head ++ more →
    head_end pre = if (length pre <? length head)%nat then None else Some (length head)) as Hpre.
  { intros pre post Heq. rewrite <- (Hends (length pre) more), <- Heq. by rewrite take_app_length. }
  assert (head_end (head ++ more) = Some (length head)) as Hfull.
  { rewrite (Hpre (head ++ more) []) by apply app_nil_r.
    by rewrite (proj2 (Nat.ltb_ge _ _)) by len_lia. }
  rewrite Hin in H. destruct r as [[h rest]|[e| | | | |e|]| |]; try done.
  - destruct H as [Hall Hend]. cbn [app] in Hall. rewrite (app_assoc h) in Hall.
    rewrite (Hpre _ _ Hall) in Hend. destruct (_ <? _)%nat; [done|]. injection Hend as Hlen.
    rewrite <- app_assoc in Hall. apply app_inj_1 in Hall as [<- <-]; [|done].
    by exists rest, s'.
  - destruct H as (_ & _ & H). cbn [app] in H. congruence.
  - destruct e; try done.
    + destruct H as (_ & _ & H). cbn [app] in H. congruence.
    + destruct H as (got & Hall & Hnone & Hgot). symmetry in Hall.
      rewrite (Hpre _ _ Hall) in Hnone. destruct (_ <? _)%nat eqn:Hlt; bool_prop; [lia|done].
Qed.

(** A part of it is not, and if the peer then hangs up, the head is malformed. *)
Lemma read_head_part fuel max_head head k s :
  (length (inbound s) < fuel)%nat → ends_at head → inbound s = take k head →
  (k < length head)%nat → Z.of_nat (length head) <= max_head → ending s = None →
  ∃ s', read_head fuel max_head s = (Err (Upgrade Malformed), s').
Proof.
  intros Hfuel Hends Hin Hk Hmax He. pose proof (read_head_run fuel max_head s Hfuel) as H.
  assert (∀ pre post, pre ++ post = inbound s → head_end pre = None ∧ (length pre < length head)%nat)
    as Hpre.
  { intros pre post Heq. rewrite Hin in Heq.
    assert (length pre ≤ k)%nat as Hlen.
    { apply (f_equal length) in Heq. rewrite length_app, length_take in Heq. lia. }
    split; [|lia]. pose proof (Hends (length pre) []) as Hnone.
    rewrite (proj2 (Nat.ltb_lt _ _)) in Hnone by lia. rewrite <- Hnone, app_nil_r. f_equal.
    rewrite <- (take_app_length pre post), Heq, take_take. f_equal. len_lia. }
  destruct (read_head fuel max_head s) as [r s']. destruct H as (_ & _ & H).
  destruct r as [[h rest]|[e| | | | |e|]| |]; try done.
  - destruct H as [Hall Hend]. cbn [app] in Hall. rewrite (app_assoc h) in Hall.
    destruct (Hpre _ _ Hall). congruence.
  - destruct H as (_ & H & _). congruence.
  - destruct e; try done; [by exists s'|].
    destruct H as (got & Hall & _ & Hgot). symmetry in Hall. destruct (Hpre _ _ Hall). lia.
Qed.
End Read.

(** ** Both sides *)
Section Sides.
Context `{T : Target, U : Utf8Impl, A : Alloc, !AllocOk A, N : ErrnoType}.

Lemma parse_request_safe input max_head :
  match parse_request input max_head with
  | Ok (Parsed.Upgrade r) => is_valid_key (Request.key r) = true
  | Panic | OutOfFuel => False
  | _ => True
  end.
Proof.
  destruct (decide (max_head < Z.of_nat (length input))) as [Hlen|Hlen].
  { unfold parse_request. by rewrite (proj2 (Z.ltb_lt _ _)). }
  destruct (from_utf8 input) eqn:Hutf.
  2: { unfold parse_request. by rewrite (proj2 (Z.ltb_ge _ _)), Hutf by lia. }
  apply Z.nlt_ge in Hlen. pose proof (parse_request_run input max_head Hlen Hutf) as H.
  destruct (request_line input) as [[m path]|]; [|by rewrite H].
  destruct (headers_of _) as [hs|]; [|by destruct H as [-> | [-> _]]].
  rewrite H. destruct (_ <=? _)%nat; [|done]. unfold verdict.
  repeat (case_match; simplify_eq/=; try done).
Qed.

Lemma valid_key_short key : is_valid_key key = true → Z.of_nat (length key) < 2 ^ 60.
Proof. unfold is_valid_key. intros [[H _]%andb_true_iff _]%andb_true_iff. bool_prop. lia. Qed.

Context {S : Type} `{!ByteStream S, !StreamExt S, !StreamView S, !StreamExtOk S}.

(** A connection as the handshake hands it over. *)
Definition fresh (r : Role) (l : Limits) (s : S) (rest : list byte) (c : Connection S) : Prop :=
  role c = r ∧ assembler c = Assembler.new l ∧ stream c = s ∧ bm_data (read_buffer c) = rest ∧
  vec_data (outgoing c) = [] ∧ close_sent c = false.

Lemma with_buffered_fresh nanos address s r l rest :
  fresh r l s (bm_data rest) (Connection.with_buffered nanos address s r l rest).
Proof. by split_and!. Qed.

(** A head was read, ending in its blank line: the head, what was read past it and
    what is left in the stream are together what the peer sent, and nothing was
    written. *)
Definition head_taken (s s1 : S) (head rest : list byte) : Prop :=
  head ++ rest ++ inbound s1 = inbound s ∧ head_end (head ++ rest) = Some (length head) ∧
  ending s1 = ending s ∧ outbound s1 = outbound s.

(** No head was read, for this reason: more than the limit came without a blank line,
    or the stream ended, in order or in an error, with no blank line in all it had.
    Nothing was written. *)
Definition no_head (s s1 : S) (e : Error) : Prop :=
  ending s1 = ending s ∧ outbound s1 = outbound s ∧
  match e with
  | Upgrade HeadTooLarge => ∃ got,
      inbound s = got ++ inbound s1 ∧ head_end got = None ∧
      DEFAULT_MAX_HEAD < Z.of_nat (length got)
  | Upgrade Malformed => inbound s1 = [] ∧ ending s = None ∧ head_end (inbound s) = None
  | Io io => inbound s1 = [] ∧ ending s = Some io ∧ head_end (inbound s) = None
  | _ => False
  end.

Lemma read_head_cases fuel s :
  (length (inbound s) < fuel)%nat →
  match read_head fuel DEFAULT_MAX_HEAD s with
  | (Ok (head, rest), s1) => head_taken s s1 head (bm_data rest)
  | (Err e, s1) => no_head s s1 e
  | _ => False
  end.
Proof.
  intros Hfuel. pose proof (read_head_run fuel DEFAULT_MAX_HEAD s Hfuel) as H.
  destruct (read_head fuel DEFAULT_MAX_HEAD s) as [r s1]. destruct H as (He & Ho & H).
  destruct r as [[head rest]|[e| | | | |e|]| |]; try done. by destruct H.
Qed.

(** What [accept] may make of a stream. *)
Definition accept_gives (limits : Limits) (error_headers : list (str * str))
    (select : Request → option str * list (str * str)) (s : S)
    (p : result Error (UpgradeOutcome S) * S) : Prop :=
  let '(r, s') := p in
  let response request :=
    build_response (E := Error) (Request.key request) (fst (select request)) (snd (select request)) in
  match r with
  | Ok (Upgraded c request) => ∃ head rest s1 bytes,
      head_taken s s1 head rest ∧
      parse_request head DEFAULT_MAX_HEAD = Ok (Parsed.Upgrade request) ∧
      response request = Ok bytes ∧ stream_write_all bytes s1 = (Ok tt, s') ∧
      outbound s' = outbound s ++ bytes ∧ ending s' = ending s ∧
      fresh Server limits s' rest c ∧ head ++ unread c = inbound s
  | Ok (Plain s1 request buffered) => ∃ head,
      head_taken s s' head (bm_data buffered) ∧ s1 = s' ∧
      parse_request head DEFAULT_MAX_HEAD = Ok (Parsed.Plain request)
  | Err e =>
      no_head s s' e ∨
      ∃ head rest s1, head_taken s s1 head rest ∧
        ((∃ error w, parse_request head DEFAULT_MAX_HEAD = Err error ∧ e = Upgrade error ∧
            let refusal := build_rejection error error_headers in
            stream_write_all refusal s1 = (w, s') ∧ wrote refusal s1 (w, s')) ∨
         (∃ request bytes io, parse_request head DEFAULT_MAX_HEAD = Ok (Parsed.Upgrade request) ∧
            response request = Ok bytes ∧ e = Io io ∧ stream_write_all bytes s1 = (Err io, s')))
  | _ => False
  end.

Lemma accept_stream_run fuel nanos address limits error_headers select s :
  (length (inbound s) < fuel)%nat →
  accept_gives limits error_headers select s
    (accept fuel nanos address limits error_headers select s).
Proof.
  intros Hfuel. unfold accept_gives, accept. pose proof (read_head_cases fuel s Hfuel) as Hhead.
  unfold mbind at 1, stM_bind at 1.
  destruct (read_head fuel DEFAULT_MAX_HEAD s) as [[[head rest]|e| |] s1]; try done; [|by left].
  pose proof Hhead as (Hall & _ & He & Ho).
  pose proof (parse_request_safe head DEFAULT_MAX_HEAD) as Hsafe.
  destruct (parse_request head DEFAULT_MAX_HEAD) as [[request|request]|e| |] eqn:Hparse; try done.
  - destruct (accept_for_spec _ (valid_key_short _ Hsafe)) as (accept & Hacc & _).
    pose proof (build_response_unlines (E := Error) _ _ (fst (select request)) (snd (select request))
      Hacc) as Hb.
    rewrite (surjective_pairing (select request)).
    set (response := unlines _) in Hb. unfold mbind, stM_bind, st_lift, st_get, st_map_err.
    rewrite Hb. pose proof (ext_write_all_wrote s1 response) as Hw.
    destruct (stream_write_all response s1) as [[[]|e| |] s2] eqn:Hwr;
      destruct Hw as [[Hi2 He2] Hw]; cbn [map_err]; try done.
    + exists head, (bm_data rest), s1, response.
      pose proof (with_buffered_fresh nanos address s2 Server limits rest) as Hfresh.
      split_and!; try done; try congruence.
      change (head ++ bm_data rest ++ inbound s2 = inbound s). by rewrite Hi2.
    + right. exists head, (bm_data rest), s1. split; [done|]. right. by exists request, response, e.
  - by exists head.
  - unfold mbind, stM_bind, st_try, st_throw.
    set (data := build_rejection e error_headers).
    pose proof (ext_write_all_wrote s1 data) as Hw.
    assert (wrote data s1 (stream_write_all data s1) → fst (stream_write_all data s1) ≠ Panic ∧
      fst (stream_write_all data s1) ≠ OutOfFuel) as Hret
      by (by destruct (stream_write_all data s1) as [[[]|e2| |] s2]; intros [_ ?]).
    destruct (stream_write_all data s1) as [w s2] eqn:Hwr. destruct (Hret Hw) as [? ?].
    destruct w; try done; right; exists head, (bm_data rest), s1; (split; [done|]); left;
      by eexists e, _.
Qed.

(** C22: what [accept] does on every branch, with a turn for each byte that the peer
    still has to send and one more. It returns. If it upgrades, the head that came
    was parsed as that upgrade, the response to its key with what [select] chose was
    written, nothing else, and the connection is a fresh server's which still has to
    read exactly what the peer sent after the head. If the request is plain, nothing
    was written and what came after the head is handed back. If the head came whole
    and is refused, the error is [parse_request]'s verdict on it and the refusal for
    that error, with the caller's headers, was handed to the stream, all of it unless
    the stream failed. A head that did not come whole is answered by nothing: it is
    [HeadTooLarge] only once more than the limit came without a blank line, [Malformed]
    only when the stream ended with no blank line in it, and otherwise the stream's own
    error. The one error left is that of a stream that failed in writing the response. *)
Theorem accept_spec fuel nanos address limits error_headers select s :
  (length (inbound s) < fuel)%nat →
  accept_gives limits error_headers select s
    (accept fuel nanos address limits error_headers select s).
Proof. apply accept_stream_run. Qed.

(** The bytes of a request go out whole, or the write failed and a part of them
    did. *)
Definition asked (request : list byte) (s s' : S) : Prop :=
  ∃ k, outbound s' = outbound s ++ take k request.

(** What [connect] made of the server's answer, having sent [request] for [key]. *)
Definition answered (key : str) (request : list byte) (limits : Limits) (s s' : S)
    (r : result Error (Connection S * option str)) : Prop :=
  match r with
  | Ok (c, protocol) => ∃ head rest s0,
      stream_write_all request s = (Ok tt, s0) ∧ head_taken s0 s' head rest ∧
      outbound s' = outbound s ++ request ∧ ending s' = ending s ∧
      check_response head key = Ok protocol ∧
      fresh Client limits s' rest c ∧ head ++ unread c = inbound s
  | Err e =>
      (∃ io, e = Io io ∧ stream_write_all request s = (Err io, s')) ∨
      ∃ s0, stream_write_all request s = (Ok tt, s0) ∧ same_inbound s s0 ∧
        outbound s' = outbound s ++ request ∧
        (no_head s0 s' e ∨
         ∃ head rest u, head_taken s0 s' head rest ∧ check_response head key = Err u ∧ e = Upgrade u)
  | _ => False
  end.

Lemma connect_run fuel nanos address path host protocols headers entropy limits s :
  length entropy = 16%nat → (length (inbound s) < fuel)%nat →
  ∃ key, @new_key Error entropy = Ok key ∧ is_valid_key key = true ∧
  let request := build_request path host key protocols headers in
  let '(r, s') := connect fuel nanos address path host protocols headers entropy limits s in
  asked request s s' ∧ answered key request limits s s' r.
Proof.
  intros Hent Hfuel. destruct (@new_key_run Error entropy Hent) as (key & Hkey & Hvalid & _).
  exists key. split; [exact Hkey|]. split; [exact Hvalid|]. intros request. unfold connect.
  rewrite (bind_ok (st_lift (new_key entropy)) _ s key s) by (unfold st_lift; by rewrite Hkey).
  fold request. pose proof (ext_write_all_wrote s request) as Hw.
  destruct (stream_write_all request s) as [[[]|e| |] s1] eqn:Hwr; destruct Hw as [[Hi1 He1] Hw];
    try done.
  2: { rewrite (bind_err (st_map_err Io (stream_write_all request)) _ s (Io e) s1)
         by (unfold st_map_err; by rewrite Hwr).
       split; [done|]. left. by exists e. }
  rewrite (bind_ok (st_map_err Io (stream_write_all request)) _ s tt s1)
    by (unfold st_map_err; by rewrite Hwr).
  rewrite <- Hi1 in Hfuel. pose proof (read_head_cases fuel s1 Hfuel) as Hhead.
  unfold mbind at 1, stM_bind at 1.
  destruct (read_head fuel DEFAULT_MAX_HEAD s1) as [[[head rest]|e| |] s2]; try done.
  2: { pose proof Hhead as (_ & Ho & _). split; [exists (length request); by rewrite Ho, Hw, firstn_all|].
       right. exists s1. split_and!; try done; [congruence|by left]. }
  pose proof Hhead as (Hall & _ & He & Ho).
  assert (asked request s s2) as Hasked
    by (exists (length request); by rewrite Ho, Hw, firstn_all).
  pose proof (check_response_returns head key (valid_key_short key Hvalid)) as Hcheck.
  unfold mbind, stM_bind, st_lift, st_get.
  destruct (check_response head key) as [protocol|e| |] eqn:Hres; try done; cbn [map_err].
  - split; [done|]. exists head, (bm_data rest), s1.
    pose proof (with_buffered_fresh nanos address s2 Client limits rest) as Hfresh.
    rewrite Hi1 in Hall. split_and!; try done; congruence.
  - split; [done|]. right. exists s1. split_and!; try done; [congruence|]. right.
    by exists head, (bm_data rest), e.
Qed.

(** C23: what [connect] does on every branch, for sixteen bytes of entropy and with a
    turn for each byte that the peer still has to send and one more. Its key is valid
    and it returns. It never writes anything but its request, whole unless the stream
    fails. A connection it returns is a fresh client's, over a response that
    [check_response] takes for that key, with the protocol that response names, and
    still has to read exactly what came after the response. An error is the stream's,
    in writing the request; or [check_response]'s verdict on a head that came whole;
    or, the request being written, [HeadTooLarge] once more than the limit came
    without a blank line; or [Malformed] or the stream's own error for a stream that
    ended with no blank line in all it had. *)
Theorem connect_spec fuel nanos address path host protocols headers entropy limits s :
  length entropy = 16%nat → (length (inbound s) < fuel)%nat →
  ∃ key, @new_key Error entropy = Ok key ∧ is_valid_key key = true ∧
  let request := build_request path host key protocols headers in
  let '(r, s') := connect fuel nanos address path host protocols headers entropy limits s in
  asked request s s' ∧ answered key request limits s s' r.
Proof. apply connect_run. Qed.
End Sides.

(** ** The two sides together *)
Section Agreement.
Context `{T : Target, U : Utf8Impl, A : Alloc, !AllocOk A, N : ErrnoType}.
(** What the two sides of a handshake were called with, and that it can be put on
    the lines of a head. *)
Record exchange (path host key : str) (protocols : list str) (extra : list (str * str))
    (entropy : list byte) (select : Request → option str * list (str * str))
    (response : list byte) : Prop := mkExchange {
  ex_request : request_ok path host key protocols extra;
  ex_key : @new_key Error entropy = Ok key;
  ex_request_size :
    Z.of_nat (length (build_request path host key protocols extra)) <= DEFAULT_MAX_HEAD;
  ex_protocol p :
    fst (select (Request.mk Get path key protocols (request_headers host key protocols extra)))
      = Some p → header_ok (bs "Sec-WebSocket-Protocol", p);
  ex_headers :
    let chosen :=
      snd (select (Request.mk Get path key protocols (request_headers host key protocols extra))) in
    Forall header_ok chosen ∧ Forall response_free chosen;
  ex_response :
    let chosen := select (Request.mk Get path key protocols (request_headers host key protocols extra)) in
    @build_response T Error key (fst chosen) (snd chosen) = Ok response;
  ex_response_size : Z.of_nat (length response) <= DEFAULT_MAX_HEAD;
}.

(** The server's half *)
Lemma accept_agrees {S : Type} `{!ByteStream S, !StreamExt S, !StreamView S, !StreamExtOk S}
    path host key protocols extra entropy select response fuel nanos address limits error_headers
    more (server : S) :
  exchange path host key protocols extra entropy select response →
  (length (inbound server) < fuel)%nat →
  inbound server = build_request path host key protocols extra ++ more →
  let '(r, server') := accept fuel nanos address limits error_headers select server in
  match r with
  | Ok (Upgraded c req) =>
      req = Request.mk Get path key protocols (request_headers host key protocols extra) ∧
      ending server' = ending server ∧ outbound server' = outbound server ++ response ∧
      ∃ rest, fresh Server limits server' rest c ∧ unread c = more
  | Err (Io _) => True
  | _ => False
  end.
Proof.
  intros [Hok Hnew Hreq Hp [Hh Hfree] Hresp Hres] Hfuel Hin.
  set (request := Request.mk Get path key protocols (request_headers host key protocols extra)) in *.
  destruct (request_roundtrip _ _ _ _ _ DEFAULT_MAX_HEAD Hok Hreq) as [Hparse Hends].
  fold request in Hparse.
  destruct (read_head_found fuel DEFAULT_MAX_HEAD _ more server Hfuel Hends Hin Hreq)
    as (rest & s1 & Hread & Hmore & He1 & Ho1).
  unfold accept. rewrite (bind_ok _ _ _ _ _ Hread). rewrite Hparse.
  destruct (select request) as [protocol headers]. cbn [fst snd Request.key request] in *.
  unfold mbind, stM_bind, st_lift, st_get, st_map_err. rewrite Hresp.
  pose proof (ext_write_all_wrote s1 response) as Hw.
  destruct (stream_write_all response s1) as [[[]|e| |] s2]; destruct Hw as [[Hi2 He2] Hw];
    cbn [map_err]; try done.
  pose proof (with_buffered_fresh nanos address s2 Server limits rest) as Hfresh.
  split_and!; [done|congruence|by rewrite Hw, Ho1|]. exists (bm_data rest). split; [done|].
  unfold unread. cbn. by rewrite Hi2.
Qed.

(** The client's half *)
Lemma connect_agrees {S : Type} `{!ByteStream S, !StreamExt S, !StreamView S, !StreamExtOk S}
    path host key protocols extra entropy select response fuel nanos address limits more (client : S) :
  exchange path host key protocols extra entropy select response →
  (length (inbound client) < fuel)%nat →
  inbound client = response ++ more →
  let request := Request.mk Get path key protocols (request_headers host key protocols extra) in
  let '(r, client') := connect fuel nanos address path host protocols extra entropy limits client in
  match r with
  | Ok (c, protocol) => protocol = fst (select request) ∧
      ending client' = ending client ∧
      outbound client' = outbound client ++ build_request path host key protocols extra ∧
      ∃ rest, fresh Client limits client' rest c ∧ unread c = more
  | Err (Io _) => True
  | _ => False
  end.
Proof.
  intros [Hok Hnew Hreq Hp [Hh Hfree] Hresp Hres] Hfuel Hin request.
  fold request in Hp, Hh, Hfree, Hresp.
  pose proof (valid_key_short key (key_ok _ _ _ _ _ Hok)) as Hshort.
  destruct (@response_trip T Error key (fst (select request)) (snd (select request)) Hshort Hp Hh Hfree)
    as (response' & Hresp' & Hcheck & Hends).
  rewrite Hresp in Hresp'. injection Hresp' as <-. unfold connect.
  rewrite (bind_ok (st_lift (new_key entropy)) _ client key client)
    by (unfold st_lift; by rewrite Hnew).
  set (bytes := build_request path host key protocols extra) in *.
  pose proof (ext_write_all_wrote client bytes) as Hw.
  destruct (stream_write_all bytes client) as [[[]|e| |] s0] eqn:Hwr; destruct Hw as [[Hi0 He0] Hw];
    try done.
  2: { by rewrite (bind_err (st_map_err Io (stream_write_all bytes)) _ client (Io e) s0)
         by (unfold st_map_err; by rewrite Hwr). }
  rewrite (bind_ok (st_map_err Io (stream_write_all bytes)) _ client tt s0)
    by (unfold st_map_err; by rewrite Hwr).
  rewrite <- Hi0 in Hin, Hfuel.
  destruct (read_head_found fuel DEFAULT_MAX_HEAD _ more s0 Hfuel Hends Hin Hres)
    as (rest & s1 & Hread & Hmore & He1 & Ho1).
  rewrite (bind_ok _ _ _ _ _ Hread). unfold st_lift. rewrite Hcheck.
  pose proof (with_buffered_fresh nanos address s1 Client limits rest) as Hfresh.
  cbn [map_err]. unfold mbind, stM_bind, st_get. split_and!; [done|congruence|by rewrite Ho1, Hw|].
  by exists (bm_data rest).
Qed.

(** C13: the two sides agree. This for an [exchange]: a path, a host, protocols and
    extra headers that can stand on the lines of a head, extra headers that override
    none of the handshake's own, no more headers than a request may have, headers of
    [select]'s that can stand on a line and are neither the accept value nor a
    protocol, and a request and a response of at most 16 KiB each. If then the request
    that [connect] writes reaches a server, followed by anything and in any pieces,
    [accept] upgrades it to a fresh server connection, writes the response, and leaves
    exactly what followed to be read; and if that response reaches the client, followed
    by anything and in any pieces, [connect] returns a fresh client connection and the
    subprotocol the server selected, and leaves exactly what followed to be read. Of
    such an exchange only a failing stream can keep either side. *)
Theorem handshake_agrees {S1 S2 : Type}
    `{!ByteStream S1, !StreamExt S1, !StreamView S1, !StreamExtOk S1}
    `{!ByteStream S2, !StreamExt S2, !StreamView S2, !StreamExtOk S2}
    path host key protocols extra entropy select response
    fuel1 fuel2 nanos1 address1 nanos2 address2 limits1 limits2 error_headers more1 more2
    (client : S1) (server : S2) :
  exchange path host key protocols extra entropy select response →
  (length (inbound server) < fuel2)%nat → (length (inbound client) < fuel1)%nat →
  inbound server = build_request path host key protocols extra ++ more1 →
  inbound client = response ++ more2 →
  let request := Request.mk Get path key protocols (request_headers host key protocols extra) in
  (let '(r, server') := accept fuel2 nanos2 address2 limits2 error_headers select server in
   match r with
   | Ok (Upgraded c req) => req = request ∧ role c = Server ∧
       assembler c = Assembler.new limits2 ∧ unread c = more1 ∧
       outbound server' = outbound server ++ response
   | Err (Io _) => True
   | _ => False
   end) ∧
  (let '(r, client') :=
     connect fuel1 nanos1 address1 path host protocols extra entropy limits1 client in
   match r with
   | Ok (c, protocol) => protocol = fst (select request) ∧ role c = Client ∧
       assembler c = Assembler.new limits1 ∧ unread c = more2 ∧
       outbound client' = outbound client ++ build_request path host key protocols extra
   | Err (Io _) => True
   | _ => False
   end).
Proof.
  intros Hex Hf2 Hf1 Hin2 Hin1 request. split.
  - pose proof (accept_agrees _ _ _ _ _ _ _ _ fuel2 nanos2 address2 limits2 error_headers more1 server
      Hex Hf2 Hin2) as H.
    destruct (accept _ _ _ _ _ _ server) as [[[c req| ]|e| |] server']; try done.
    by destruct H as (-> & _ & Ho & rest & (Hr & Ha & _) & Hun).
  - pose proof (connect_agrees _ _ _ _ _ _ _ _ fuel1 nanos1 address1 limits1 more2 client
      Hex Hf1 Hin1) as H.
    destruct (connect _ _ _ _ _ _ _ _ _ client) as [[[c protocol]|e| |] client']; try done.
    by destruct H as (-> & _ & Ho & rest & (Hr & Ha & _) & Hun).
Qed.
End Agreement.

(** ** Examples *)
Section Witnesses.
Import Sample.

Definition chat_protocols : list str := [bs "chat"; bs "superchat"].
Definition chat_request : list byte :=
  build_request (bs "/chat") (bs "server.example.com") nonce_key chat_protocols chat_extra.
Definition chat_select (r : Request) : option str * list (str * str) := (Some (bs "chat"), []).
Definition chat_response : list byte :=
  match @build_response target Empty_set nonce_key (Some (bs "chat")) [] with Ok r => r | _ => [] end.

Lemma chat_exchange :
  exchange (bs "/chat") (bs "server.example.com") nonce_key chat_protocols chat_extra nonce
    chat_select chat_response.
Proof.
  split.
  - apply chat_request_ok.
  - by vm_compute.
  - by vm_compute.
  - intros p [= <-]. by apply graphic_header; first [done|apply not_elem_bool].
  - by split; apply Forall_nil.
  - by vm_compute.
  - by vm_compute.
Qed.

(** A head in two pieces, the second with two bytes of a frame behind it. *)
Definition chat_pieces : list (list byte) := [take 20 chat_request; drop 20 chat_request ++ [x81; x85]].

Lemma accept_spec_witness :
  ∃ c request s', accept 400 1 2 small [] chat_select (pipe chat_pieces)
      = (Ok (Upgraded c request), s') ∧
    Request.path request = bs "/chat" ∧ (∃ response, outbound s' = [] ++ response) ∧ unread c = [x81; x85].
Proof.
  assert (length (inbound (pipe chat_pieces)) < 400)%nat as Hf by by apply Nat.ltb_lt.
  pose proof (accept_spec 400 1 2 small [] chat_select (pipe chat_pieces) Hf) as H.
  assert (match fst (accept 400 1 2 small [] chat_select (pipe chat_pieces)) with
    | Ok (Upgraded c request) => Some (Request.path request, unread c)
    | _ => None end = Some (bs "/chat", [x81; x85])) as Hrun by (vm_compute; reflexivity).
  destruct (accept 400 1 2 small [] chat_select (pipe chat_pieces)) as [[[c request| ]| | |] s'];
    cbn [fst] in Hrun; [|discriminate Hrun..].
  injection Hrun as Hpath Hun. destruct H as (head & rest & s1 & response & _ & _ & _ & _ & Ho & _).
  exists c, request, s'. split; [reflexivity|]. split; [exact Hpath|]. split; [|exact Hun].
  by exists response.
Defined.

Lemma handshake_agrees_witness :
  let server := pipe chat_pieces in
  let client := pipe [chat_response ++ [x89; x00]] in
  (∃ c server', accept 400 1 2 small [] chat_select server
     = (Ok (Upgraded c (Request.mk Get (bs "/chat") nonce_key chat_protocols
          (request_headers (bs "server.example.com") nonce_key chat_protocols chat_extra))), server')) ∧
  (∃ c client', connect 400 3 4 (bs "/chat") (bs "server.example.com") chat_protocols chat_extra
       nonce small client = (Ok (c, Some (bs "chat")), client') ∧ unread c = [x89; x00]).
Proof.
  cbn zeta. set (server := pipe _). set (client := pipe _).
  assert (length (inbound server) < 400)%nat as Hf2 by by apply Nat.ltb_lt.
  assert (length (inbound client) < 400)%nat as Hf1 by by apply Nat.ltb_lt.
  assert (inbound server = chat_request ++ [x81; x85]) as Hin2 by by vm_compute.
  assert (inbound client = chat_response ++ [x89; x00]) as Hin1 by by vm_compute.
  pose proof (handshake_agrees (bs "/chat") (bs "server.example.com") nonce_key chat_protocols
    chat_extra nonce chat_select chat_response 400 400 3 4 1 2 small small [] [x81; x85] [x89; x00]
    client server chat_exchange Hf2 Hf1 Hin2 Hin1) as [Hs Hc].
  assert (match fst (accept 400 1 2 small [] chat_select server) with Err _ => true | _ => false end = false)
    as Hno by (vm_compute; reflexivity).
  assert (match fst (connect 400 3 4 (bs "/chat") (bs "server.example.com") chat_protocols chat_extra
       nonce small client) with Err _ => true | _ => false end = false) as Hno2 by (vm_compute; reflexivity).
  split.
  - destruct (accept _ _ _ _ _ _ _) as [[[c req| ]|e| |] s']; cbn [fst] in Hno;
      [|destruct Hs|discriminate Hno|destruct Hs..].
    destruct Hs as (-> & _). eexists c, s'. reflexivity.
  - destruct (connect _ _ _ _ _ _ _ _ _ _) as [[[c p]|e| |] s']; cbn [fst] in Hno2;
      [|discriminate Hno2|destruct Hc..].
    destruct Hc as (-> & _ & _ & Hun & _). exists c, s'. split; [reflexivity|exact Hun].
Defined.

(** A server that answers the request with a plain page. *)
Lemma connect_spec_witness :
  length nonce = 16%nat ∧
  let server := pipe [bs "HTTP/1.1 200 OK" ++ CRLF ++ CRLF] in
  ∃ s', connect 100 3 4 (bs "/chat") (bs "server.example.com") chat_protocols chat_extra nonce small
      server = (Err (Upgrade NotAnUpgrade), s') ∧ outbound s' = [] ++ chat_request.
Proof.
  split; [reflexivity|]. cbn zeta. set (server := pipe _).
  assert (length (inbound server) < 100)%nat as Hf by by apply Nat.ltb_lt.
  destruct (connect_spec 100 3 4 (bs "/chat") (bs "server.example.com") chat_protocols chat_extra
    nonce small server eq_refl Hf) as (key & Hkey & _ & H).
  assert (@new_key Error nonce = Ok nonce_key) as Hk by by vm_compute.
  rewrite Hk in Hkey. injection Hkey as <-.
  assert (match fst (connect 100 3 4 (bs "/chat") (bs "server.example.com") chat_protocols chat_extra
    nonce small server) with Err (Upgrade NotAnUpgrade) => true | _ => false end = true) as Hrun by (vm_compute; reflexivity).
  destruct (connect _ _ _ _ _ _ _ _ _ _) as [r s']; cbn [fst] in Hrun.
  destruct r as [|e| |]; try discriminate Hrun. destruct e as [| | | | |e|]; try discriminate Hrun.
  destruct e; try discriminate Hrun.
  destruct H as [_ [(io & Hio & _)|(s0 & _ & _ & Ho & _)]]; [discriminate Hio|]. exists s'. split; [reflexivity|exact Ho].
Defined.
(** A head may end in two bare line feeds, but an end in [CRLF CRLF] is looked for first,
    in all that is there. So what [accept] makes of the same bytes depends on how they
    were cut: if the next request is there already, its lines are headers of this one. *)
Definition bare_head : list byte := bs "GET / HTTP/1.1" ++ [Str.LF] ++ bs "Host: a" ++ [Str.LF; Str.LF].
Definition next_lines : list byte := bs "X: 1" ++ CRLF ++ CRLF.

Definition plain_headers (r : result Error (UpgradeOutcome Pipe.t)) : option (list (str * str) * list byte) :=
  match r with
  | Ok (Plain _ request buffered) => Some (Request.headers request, bm_data buffered)
  | _ => None
  end.

Lemma bare_head_runs_on :
  plain_headers (fst (accept 100 1 2 small [] chat_select (pipe [bare_head; next_lines])))
    = Some ([(bs "Host", bs "a")], []) ∧
  plain_headers (fst (accept 100 1 2 small [] chat_select (pipe [bare_head ++ next_lines])))
    = Some ([(bs "Host", bs "a"); (bs "X", bs "1")], []).
Proof. split; vm_compute; reflexivity. Qed.
End Witnesses.
