(* ===== verification/Lifetime.v ===== *)
(** * A connection from its handshake on

    [Memory] follows a connection from its constructor. A connection that comes out of
    [accept] or [connect] starts with what was read past the head, which the peer
    chose: here is that it, too, is bounded, by the limit on a head and the size of
    one read, so the memory of a connection is bounded however it was made and
    whatever the peer has sent since the first byte. *)
From Stdlib Require Import ZArith Lia Strings.Byte.
From stdpp Require Import base option list relations.
From S2P Require Import Prelude Bytes Opcode Mask Frame Utf8 Message Stream Handshake Conn Sample.
From S2P Require Import HandshakeTrip ConnRead ConnWrite Memory Upgrade.

Section Lifetime.
Context `{T : Target, !TargetOk T, U : Utf8Impl, A : Alloc, !AllocOk A, N : ErrnoType}.
Context {S : Type} `{!ByteStream S, !StreamExt S, !StreamView S, !StreamExtOk S, !ReadInPlace S}.

(** ** What a handshake hands over *)

(** The requests of [read_head]: at most [max_head] bytes are there when it asks for
    another 2 KiB. *)
Definition head_room (max_head : Z) : nat := Z.to_nat max_head + 2 * 1024.

Lemma read_local_kept n b (s : S) r s' :
  BytesMut.ok b → (BytesMut.len b < bm_capacity b)%nat → allocated n (bm_capacity b) →
  read_local b s = (r, s') →
  match r with
  | Ok (_, b') => BytesMut.ok b' ∧ allocated n (bm_capacity b')
  | _ => True
  end.
Proof.
  intros Hok Hroom Hal. unfold read_local. pose proof (read_buf_in_place s b Hok Hroom) as H.
  destruct (read_buf (s, b)) as [res [s1 b1]]. cbn [snd] in H. destruct H as [Hok1 Hcap].
  intros [= <- <-]. destruct res; cbn; try done. by rewrite Hcap.
Qed.

Lemma read_head_loop_kept fuel max_head n b (s : S) head rest s' :
  BytesMut.ok b → allocated n (bm_capacity b) → (head_room max_head ≤ n)%nat →
  read_head_loop fuel max_head b s = (Ok (head, rest), s') →
  ∃ cap, allocated n cap ∧ (length head + BytesMut.len rest ≤ cap)%nat.
Proof.
  intros Hok Hal Hn. revert b s Hok Hal. induction fuel as [|fuel IH]; intros b s Hok Hal; [done|].
  cbn [read_head_loop]. destruct (head_end (bm_data b)) as [k|] eqn:Hend.
  - pose proof (head_end_bound _ _ Hend) as Hk. unfold BytesMut.ok, BytesMut.len in *.
    unfold BytesMut.split_off. rewrite (proj2 (Nat.leb_le _ _)) by lia.
    intros [= <- <- <-]. exists (bm_capacity b). split; [done|]. cbn [bm_data].
    rewrite length_take, length_drop. lia.
  - destruct (max_head <? _) eqn:Hmax; [done|]. bool_prop.
    set (b1 := if (bm_capacity b - BytesMut.len b <? 1024)%nat
               then BytesMut.reserve (2 * 1024) b else b).
    assert (BytesMut.ok b1 ∧ (BytesMut.len b1 < bm_capacity b1)%nat ∧ allocated n (bm_capacity b1))
      as (Hok1 & Hroom1 & Hal1).
    { unfold b1, BytesMut.ok in *. destruct (_ <? _)%nat eqn:Hspare; bool_prop; [|split_and!; [lia..|done]].
      pose proof (grow_room (BytesMut.len b) (bm_capacity b) (2 * 1024)) as Hg.
      cbn [bm_data bm_capacity BytesMut.reserve]. unfold BytesMut.len in *.
      cbn [bm_data BytesMut.reserve]. split_and!; [lia..|].
      apply allocated_grow; [done|]. unfold head_room in Hn. lia. }
    unfold mbind at 1, stM_bind at 1. destruct (read_local b1 s) as [r s1] eqn:Hread.
    pose proof (read_local_kept n b1 s r s1 Hok1 Hroom1 Hal1 Hread) as H.
    destruct r as [[k b2]|e| |]; try done. destruct H as [Hok2 Hal2].
    destruct (k =? 0)%nat; [done|]. by apply IH.
Qed.

Lemma read_head_kept fuel max_head n (s : S) head rest s' :
  (head_room max_head ≤ n)%nat → read_head fuel max_head s = (Ok (head, rest), s') →
  ∃ cap, allocated n cap ∧ (length head + BytesMut.len rest ≤ cap)%nat.
Proof.
  intros Hn. apply read_head_loop_kept; [|apply allocated_initial|done].
  - unfold BytesMut.ok. cbn. lia.
  - unfold head_room in Hn. lia.
Qed.

Lemma accept_made fuel nanos address l headers select (s s' : S) c request :
  accept fuel nanos address l headers select s = (Ok (Upgraded c request), s') →
  ∃ head rest s1, read_head fuel DEFAULT_MAX_HEAD s = (Ok (head, rest), s1) ∧
    c = Connection.with_buffered nanos address s' Server l rest.
Proof.
  unfold accept. unfold mbind at 1, stM_bind at 1.
  destruct (read_head _ _ s) as [[[head rest]|e| |] s1]; try done.
  destruct (parse_request head _) as [[req|req]|e| |]; try done.
  - destruct (select req) as [protocol chosen]. unfold mbind, stM_bind, st_lift, st_map_err, st_get.
    destruct (build_response _ _ _) as [response|e| |]; try done.
    destruct (stream_write_all response s1) as [[[]|e| |] s2]; try done.
    intros [= <- _ <-]. by exists head, rest, s1.
  - unfold mbind, stM_bind, st_try, st_throw.
    by destruct (stream_write_all _ s1) as [[[]|e2| |] s2].
Qed.

Lemma connect_made fuel nanos address path host protocols headers entropy l (s s' : S) c protocol :
  connect fuel nanos address path host protocols headers entropy l s = (Ok (c, protocol), s') →
  ∃ head rest s1, read_head fuel DEFAULT_MAX_HEAD s1 = (Ok (head, rest), s') ∧
    c = Connection.with_buffered nanos address s' Client l rest.
Proof.
  unfold connect, mbind, stM_bind, st_lift, st_map_err, st_get.
  destruct (new_key entropy) as [key|e| |]; try done.
  destruct (stream_write_all _ s) as [[[]|e| |] s1]; try done. cbn [map_err].
  destruct (read_head _ _ s1) as [[[head rest]|e| |] s2] eqn:Hread; try done.
  destruct (check_response head key) as [p|e| |]; try done.
  intros [= <- _ <-]. by exists head, rest, s1.
Qed.

(** ** From the first byte to the last *)

(** The ways a connection with limits [l] comes to be. *)
Inductive born (l : Limits) : Role → Connection S → Prop :=
| born_new nanos address s r : born l r (Connection.new nanos address s r l)
| born_buffered nanos address s r buffered :
    (BytesMut.len buffered ≤ head_room DEFAULT_MAX_HEAD)%nat →
    born l r (Connection.with_buffered nanos address s r l buffered)
| born_accepted fuel nanos address headers select s c request s' :
    accept fuel nanos address l headers select s = (Ok (Upgraded c request), s') → born l Server c
| born_connected fuel nanos address path host protocols headers entropy s c protocol s' :
    connect fuel nanos address path host protocols headers entropy l s = (Ok (c, protocol), s') →
    born l Client c.

Lemma born_made l r c handed :
  alloc_within (head_room DEFAULT_MAX_HEAD) handed → born l r c →
  ∃ nanos address s buffered, c = Connection.with_buffered nanos address s r l buffered ∧
    (BytesMut.len buffered ≤ handed)%nat.
Proof.
  intros [Hinit Hgrow].
  assert (∀ cap, allocated (head_room DEFAULT_MAX_HEAD) cap → (cap ≤ handed)%nat) as Hcap
    by (intros cap; by apply allocated_bounded).
  intros [nanos address s r'|nanos address s r' buffered Hlen
    |fuel nanos address headers select s c' req s' Hrun|fuel nanos address path host protocols headers entropy s c' protocol s' Hrun].
  - exists nanos, address, s, BytesMut.new. split; [done|]. cbn. lia.
  - exists nanos, address, s, buffered. split; [done|].
    pose proof (initial_room (head_room DEFAULT_MAX_HEAD)) as Hroom.
    specialize (Hinit (head_room DEFAULT_MAX_HEAD) (Nat.le_refl _)). lia.
  - apply accept_made in Hrun as (head & rest & s1 & Hread & ->).
    eapply read_head_kept in Hread as (cap & Hal & Hlen); [|done]. apply Hcap in Hal.
    exists nanos, address, s', rest. split; [done|]. lia.
  - apply connect_made in Hrun as (head & rest & s1 & Hread & ->).
    eapply read_head_kept in Hread as (cap & Hal & Hlen); [|done]. apply Hcap in Hal.
    exists nanos, address, s', rest. split; [done|]. lia.
Qed.

(** C8: what one peer can make a connection keep. Whether it was made by [new], by
    [accept] or by [connect] (or by [with_buffered], with no more than those hand over), whatever the peer has sent since the first byte of the
    handshake and whatever the caller has done since: the connection satisfies its
    invariant, and its read buffer has grown no larger than [slack] of the larger of
    two sizes: what a handshake can hand over, which is [slack] of a head at the limit
    and one more read, and a frame at the limit with its header and one more read.
    [slack n] is what the allocator makes of requests for [n] bytes. And the message in
    progress, in the assembler, holds no more than [max_message] bytes (its contents:
    what its vector has set aside beyond them is not counted). So what a peer can make a
    connection hold is bounded before it has proved anything. *)
Theorem lifetime_bounded l r c0 c (slack : nat → nat) :
  Assembler.limits_ok l → limits_fit l → 0 <= max_frame l →
  (∀ n, alloc_within n (slack n)) →
  born l r c0 → rtc use c0 c →
  let n := Nat.max (slack (head_room DEFAULT_MAX_HEAD)) (room l) in
  healthy r l n c ∧
  (BytesMut.len (read_buffer c) ≤ bm_capacity (read_buffer c) ≤ slack n)%nat ∧
  Z.of_nat (default 0%nat (length ∘ snd <$> partial (assembler c))) <= max_message l.
Proof.
  intros Hl Hfit Hpos Hslack Hborn Hlife n.
  destruct (born_made l r c0 (slack (head_room DEFAULT_MAX_HEAD)))
    as (nanos & address & s & buffered & -> & Hlen); [done..|].
  assert (healthy r l n c) as Hh.
  { eapply life_healthy; [done|done| |done|]; [|apply with_buffered_healthy; try done]; lia. }
  split; [done|]. split; [by eapply healthy_within|].
  destruct Hh as [_ [[[Hpos' _] Hwf] <- _ _] _ _ _].
  destruct (partial (assembler c)) as [[kind buf]|]; [by destruct Hwf|done].
Qed.
End Lifetime.

(** ** Example *)
Section Witnesses.
Import Sample.

(** The server of the example in [Upgrade], which then waits for the rest of a frame of
    which the first two bytes came with the request, and closes. *)
Abbreviation upgrading := (accept 400 1 2 small [] chat_select (pipe chat_pieces)).
Definition made (r : result Error (UpgradeOutcome Pipe.t)) : Connection Pipe.t :=
  match r with Ok (Upgraded c _) => c | _ => conn Server [] end.
Definition upgraded : Connection Pipe.t := made (fst upgrading).
Definition waited : Connection Pipe.t :=
  snd (Connection.close None (snd (Connection.read 10 upgraded))).

Lemma upgraded_born : born small Server upgraded.
Proof.
  assert (match fst upgrading with Ok (Upgraded _ _) => true | _ => false end = true) as Hok
    by (vm_compute; reflexivity).
  unfold upgraded. destruct upgrading as [r s'] eqn:Hrun. cbn [fst] in *.
  destruct r as [[c request| ]|e| |]; try discriminate Hok. by eapply born_accepted.
Qed.
Lemma waited_life : rtc use upgraded waited.
Proof.
  eapply rtc_l; [apply (use_read upgraded 10); apply Nat.ltb_lt; vm_compute; reflexivity|].
  apply rtc_once, use_close.
Qed.

Lemma lifetime_bounded_witness :
  unread upgraded = [x81; x85] ∧
  (bm_capacity (read_buffer waited) ≤ head_room DEFAULT_MAX_HEAD)%nat.
Proof.
  split; [vm_compute; reflexivity|].
  destruct (lifetime_bounded small Server upgraded waited (λ n, n)) as (_ & [_ Hb] & _).
  - split; [discriminate|reflexivity].
  - left. reflexivity.
  - discriminate.
  - apply exact_alloc_within.
  - apply upgraded_born.
  - apply waited_life.
  - exact Hb.
Defined.
End Witnesses.
