(* ===== verification/Refusal.v ===== *)
(** * A handshake that is refused

    [Upgrade.handshake_agrees] is about the handshake that succeeds. Here is the other
    one: what a client makes of a server that refused it, whatever the reason and
    however much of the refusal has come. *)
From Stdlib Require Import ZArith Lia Strings.Byte.
From stdpp Require Import base option list sets.
From S2P Require Import Prelude Bytes Opcode Mask Frame Utf8 Message Stream Base64 Str Handshake.
From S2P Require Import HandshakeTrip Conn Sample ConnRead ConnWrite Session Upgrade.

Section Refusal.
Context `{T : Target, U : Utf8Impl, A : Alloc, !AllocOk A, N : ErrnoType}.

(** The client's half: once its request is out, the result is that of reading a head and
    checking it. *)
Lemma connect_checks {S : Type} `{!ByteStream S, !StreamExt S, !StreamView S, !StreamExtOk S}
    fuel nanos address path host key protocols headers entropy limits (s : S) :
  @new_key Error entropy = Ok key →
  let r := fst (connect fuel nanos address path host protocols headers entropy limits s) in
  (∃ e, r = Err (Io e)) ∨
  ∃ s0, same_inbound s s0 ∧
    match fst (read_head fuel DEFAULT_MAX_HEAD s0) with
    | Ok (head, _) => ∀ e, check_response head key = Err e → r = Err (Upgrade e)
    | Err e => r = Err e
    | _ => True
    end.
Proof.
  intros Hkey r.
  assert (r = fst (connect fuel nanos address path host protocols headers entropy limits s)) as Hr
    by done. clearbody r. revert Hr. unfold connect.
  rewrite (bind_ok (st_lift (new_key entropy)) _ s key s) by (unfold st_lift; by rewrite Hkey).
  set (request := build_request _ _ _ _ _). pose proof (ext_write_all_wrote s request) as Hw.
  destruct (stream_write_all request s) as [[[]|e| |] s0] eqn:Hwr; destruct Hw as [Hsame Hw];
    try done.
  2: { rewrite (bind_err (st_map_err Io (stream_write_all request)) _ s (Io e) s0)
         by (unfold st_map_err; by rewrite Hwr). intros ->. left. by exists e. }
  rewrite (bind_ok (st_map_err Io (stream_write_all request)) _ s tt s0)
    by (unfold st_map_err; by rewrite Hwr).
  unfold mbind at 1, stM_bind at 1. intros Hr. right. exists s0. split; [done|].
  destruct (read_head fuel DEFAULT_MAX_HEAD s0) as [[[head rest]|e| |] s1]; try done.
  intros e He. revert Hr. unfold mbind, stM_bind, st_lift. by rewrite He.
Qed.

(** What reaches a client of a refusal, and what the client makes of it. *)
Lemma connect_refused {S : Type} `{!ByteStream S, !StreamExt S, !StreamView S, !StreamExtOk S}
    fuel nanos address path host protocols headers entropy limits error extra k (s : S) :
  length entropy = 16%nat → (length (inbound s) < fuel)%nat → Forall header_ok extra →
  let refusal := build_rejection error extra in
  Z.of_nat (length refusal) <= DEFAULT_MAX_HEAD →
  inbound s = take k refusal → ending s = None →
  match fst (connect fuel nanos address path host protocols headers entropy limits s) with
  | Err (Upgrade NotAnUpgrade) => inbound s = refusal
  | Err (Upgrade Malformed) => inbound s ≠ refusal
  | Err (Io _) => True
  | _ => False
  end.
Proof.
  intros Hent Hfuel Hextra refusal Hsize Hin Hend.
  destruct (@new_key_run Error entropy Hent) as (key & Hkey & _).
  destruct (rejection_trip error extra key Hextra) as [Hcheck Hends]. fold refusal in Hcheck, Hends.
  pose proof (connect_checks fuel nanos address path host key protocols headers entropy limits s Hkey)
    as [[e ->]|(s0 & [Hi He] & Hrun)]; [done|].
  rewrite <- Hi in Hfuel, Hin. rewrite <- He in Hend.
  destruct (decide (length refusal ≤ k)%nat) as [Hk|Hk].
  - rewrite take_ge in Hin by done. rewrite <- (app_nil_r refusal) in Hin.
    destruct (read_head_found fuel DEFAULT_MAX_HEAD refusal [] s0 Hfuel Hends Hin Hsize)
      as (rest & s1 & Hread & _).
    rewrite Hread in Hrun. cbn [fst] in Hrun. rewrite (Hrun _ Hcheck). by rewrite <- Hi, Hin, app_nil_r.
  - destruct (read_head_part fuel DEFAULT_MAX_HEAD refusal k s0 Hfuel Hends Hin ltac:(lia) Hsize Hend)
      as (s1 & Hread).
    rewrite Hread in Hrun. cbn [fst] in Hrun. rewrite Hrun, <- Hi, Hin.
    intros H%(f_equal length). rewrite length_take in H. lia.
Qed.

(** C24: a refusal is heard as one. If [accept] refuses what reached it, for whatever
    reason, and what it wrote reaches a client, followed by the end of the stream, then
    that client's [connect] does not give a connection: it reports [NotAnUpgrade] when
    the whole refusal came, and [Malformed] when the server could not write all of it
    or wrote none; only its own request failing to go out is another error. This for
    error headers that can stand on a line and fit in a head. *)
Theorem refusal_reported {S1 S2 : Type}
    `{!ByteStream S1, !StreamExt S1, !StreamView S1, !StreamExtOk S1}
    `{!ByteStream S2, !StreamExt S2, !StreamView S2, !StreamExtOk S2}
    path host protocols headers entropy fuel1 nanos1 address1 limits1
    fuel2 nanos2 address2 limits2 error_headers select error
    (client : S1) (server server' : S2) :
  length entropy = 16%nat → (length (inbound client) < fuel1)%nat →
  (length (inbound server) < fuel2)%nat → Forall header_ok error_headers →
  let refusal := build_rejection error error_headers in
  Z.of_nat (length refusal) <= DEFAULT_MAX_HEAD →
  accept fuel2 nanos2 address2 limits2 error_headers select server = (Err (Upgrade error), server') →
  inbound client = drop (length (outbound server)) (outbound server') → ending client = None →
  match fst (connect fuel1 nanos1 address1 path host protocols headers entropy limits1 client) with
  | Err (Upgrade NotAnUpgrade) => inbound client = refusal
  | Err (Upgrade Malformed) => inbound client ≠ refusal
  | Err (Io _) => True
  | _ => False
  end.
Proof.
  intros Hent Hf1 Hf2 Hextra refusal Hsize Hrun Hin Hend.
  pose proof (accept_stream_run fuel2 nanos2 address2 limits2 error_headers select server Hf2) as H.
  rewrite Hrun in H. fold refusal in H.
  assert (∃ k, inbound client = take k refusal) as [k Hk].
  { destruct H as [(_ & Ho & _)|(head & rest & s1 & (_ & _ & _ & Ho) & H)].
    - exists 0%nat. by rewrite Hin, Ho, drop_all.
    - destruct H as [(u & w & _ & [= <-] & _ & Hw)|(? & ? & ? & _ & _ & [=] & _)].
      apply wrote_take in Hw as [k Hw]. exists k. by rewrite Hin, Hw, Ho, drop_app_length. }
  by apply (connect_refused _ _ _ _ _ _ _ _ _ _ _ k).
Qed.
End Refusal.

(** ** Example *)
Section Witnesses.
Import Sample.

(** A request for version 8 of the protocol, and a client that hears the answer in two
    pieces. *)
Definition old_request : list byte :=
  bs "GET / HTTP/1.1" ++ CRLF ++ bs "Host: a" ++ CRLF ++ bs "Upgrade: websocket" ++ CRLF
  ++ bs "Connection: Upgrade" ++ CRLF ++ bs "Sec-WebSocket-Key: " ++ nonce_key ++ CRLF
  ++ bs "Sec-WebSocket-Version: 8" ++ CRLF ++ CRLF.
Definition no_store : list (str * str) := [(bs "Cache-Control", bs "no-store")].
Definition no_headers (r : Request) : option str * list (str * str) := (None, []).
Abbreviation refusing := (accept 400 1 2 small no_store no_headers (pipe [old_request])).
Definition refused_client : Pipe.t :=
  pipe [take 20 (outbound (snd refusing)); drop 20 (outbound (snd refusing))].

Lemma refusing_refuses : refusing = (Err (Upgrade WrongVersion), snd refusing).
Proof.
  assert (fst refusing = Err (Upgrade WrongVersion)) as H by (vm_compute; reflexivity).
  rewrite <- H. apply surjective_pairing.
Qed.

Lemma refusal_reported_witness :
  fst (connect 400 3 4 (bs "/") (bs "a") [] [] nonce small refused_client) = Err (Upgrade NotAnUpgrade) ∧
  inbound refused_client = build_rejection WrongVersion no_store.
Proof.
  assert (fst (connect 400 3 4 (bs "/") (bs "a") [] [] nonce small refused_client)
    = Err (Upgrade NotAnUpgrade)) as Hrun by (vm_compute; reflexivity).
  split; [exact Hrun|].
  pose proof (refusal_reported (bs "/") (bs "a") [] [] nonce 400 3 4 small 400 1 2 small no_store no_headers
    WrongVersion refused_client (pipe [old_request]) (snd refusing) eq_refl) as H.
  rewrite Hrun in H. apply H.
  - apply Nat.ltb_lt. vm_compute. reflexivity.
  - apply Nat.ltb_lt. vm_compute. reflexivity.
  - apply Forall_singleton. apply graphic_header; first [reflexivity|apply not_elem_bool; reflexivity].
  - vm_compute. discriminate.
  - apply refusing_refuses.
  - vm_compute. reflexivity.
  - reflexivity.
Defined.
End Witnesses.
