(* ===== verification/Client.v ===== *)
(** * Connecting by URL ([src/client.rs])

    The URL parser, and the two ways to connect. Name resolution, opening a socket
    and the TLS session are other crates' and are parameters; what the code does
    with their answers is here. *)
From Stdlib Require Import ZArith Lia Strings.Byte.
From stdpp Require Import base option list sets.
From S2P Require Import Prelude Bytes Opcode Mask Frame Utf8 Message Stream Base64 Str Handshake.
From S2P Require Import HandshakeTrip Conn Sample ConnRead ConnWrite Session Upgrade.

(** [struct Url] *)
Module Url.
Record t : Type := mk { secure : bool; host : str; port : Z; path : str }.

Definition default_port (secure : bool) : Z := if secure then 443 else 80.

Section Parse.
Context `{N : ErrnoType}.

(** The host and the port of an authority *)
Definition parse_authority (secure : bool) (authority : str) : result Error (str * Z) :=
  let bad_port := Conn.Url (bs "port is not a number") in
  match Str.strip_prefix (bs "[") authority with
  | Some rest =>
      '(host, after) ← ok_or (Str.split_once (bs "]") rest) (Conn.Url (bs "unclosed bracket in host"));
      port ← match Str.strip_prefix (bs ":") after with
             | Some port => ok_or (Str.parse_u16 port) bad_port
             | None =>
                 match after with
                 | [] => Ok (default_port secure)
                 | _ => Err (Conn.Url (bs "unexpected text after host"))
                 end
             end;
      Ok (host, port)
  | None =>
      match Str.rsplit_once x3a authority with
      | Some (host, port) =>
          port ← ok_or (Str.parse_u16 port) bad_port;
          Ok (host, port)
      | None => Ok (authority, default_port secure)
      end
  end.

(** [Url::parse] *)
Definition parse (input : str) : result Error t :=
  '(scheme, rest) ← ok_or (Str.split_once (bs "://") input) (Conn.Url (bs "missing scheme"));
  secure ← (if bool_decide (scheme = bs "ws") then Ok false
            else if bool_decide (scheme = bs "wss") then Ok true
            else Err (Conn.Url (bs "scheme is not ws or wss")));
  let '(authority, path) :=
    match Str.find (bs "/") rest with
    | Some at_ => (take at_ rest, drop at_ rest)
    | None => (rest, bs "/")
    end in
  match authority with
  | [] => Err (Conn.Url (bs "missing host"))
  | _ =>
      if Str.contains (bs "@") authority
      then Err (Conn.Url (bs "credentials are not supported")) else
      '(host, port) ← parse_authority secure authority;
      Ok (mk secure host port path)
  end.
End Parse.

(** [Url::host_header] *)
Definition host_header (u : t) : str :=
  let default := if secure u then 443 else 80 in
  if port u =? default then host u else host u ++ bs ":" ++ Str.decimal_u16 (port u).
End Url.

(** ** Connecting *)

(** nagoya's resolver error, as the code matches on it. *)
Inductive ResolveError : Type := Nul | Failed (code : Z) | Empty.

(** Name resolution and the opening of a socket to the first address that takes
    it, and the code that [libc] gives an unknown name. *)
Class Network `{ErrnoType} (S : Type) := {
  Addr : Type;
  resolve : str → Z → result ResolveError (list Addr);
  connect_any : list Addr → result Errno S;
  EAI_NONAME : Z;
}.

(** The TLS client of nago-rustls over a socket. *)
Class TlsClient `{ErrnoType} (S TS : Type) := {
  ClientConfig : Type;
  (** present when the crate is built with the bundled roots *)
  default_client_config : option ClientConfig;
  ServerName : Type;
  server_name : str → option ServerName;
  ClientSession : Type;
  client_session : ClientConfig → ServerName → option ClientSession;
  tls_client : S → ClientSession → TS;
  tls_handshake : stM TS Errno unit;
  EPROTO : Z;
}.

(** [struct ClientOptions], without and with the TLS configuration *)
Record ClientOptions : Type := mkClientOptions {
  protocols : list str;
  headers : list (str * str);
  entropy : list byte;
  options_limits : Limits;
}.
(** [impl Default for ClientOptions] *)
Definition ClientOptions_default : ClientOptions :=
  mkClientOptions [] [] (bs "nago-wss-default") Limits_default.

(** [struct Connected] *)
Record Connected (S : Type) : Type := mkConnected {
  connection : Connection S;
  protocol : option str;
}.
Arguments mkConnected {S}.
Arguments connection {S}.
Arguments protocol {S}.

Section Connect.
Context `{T : Target, U : Utf8Impl, A : Alloc, N : ErrnoType}.
Context {S : Type} `{!Network S}.

(** [resolve_host] *)
Definition resolve_host (host : str) (port : Z) : result Error (list Addr) :=
  map_err (λ error,
    match error with
    | Nul => Conn.Url (bs "host has a nul byte")
    | Failed _ | Empty => Io (errno_of EAI_NONAME)
    end) (resolve host port).

(** [connect_plain]. A socket that is not handed over in the result is dropped. *)
Definition connect_plain `{!ByteStream S, !StreamExt S} (fuel : nat) (nanos address : Z)
    (url : Url.t) (options : ClientOptions) : result Error (Connected S) :=
  addrs ← resolve_host (Url.host url) (Url.port url);
  stream ← map_err Io (connect_any addrs);
  '(connection, protocol) ← fst (connect fuel nanos address (Url.path url) (Url.host_header url)
    (protocols options) (headers options) (entropy options) (options_limits options) stream);
  Ok (mkConnected connection protocol).

Context {TS : Type} `{!TlsClient S TS} `{!ByteStream TS}.

(** [impl StreamExt for TlsSession {}] *)
#[export] Instance tls_ext : StreamExt TS := default_ext.

(** [connect_secure]; [tls] is the field of the options. *)
Definition connect_secure (fuel : nat) (nanos address : Z) (url : Url.t)
    (options : ClientOptions) (tls : option ClientConfig) : result Error (Connected TS) :=
  addrs ← resolve_host (Url.host url) (Url.port url);
  stream ← map_err Io (connect_any addrs);
  config ← ok_or (match tls with Some config => Some config | None => default_client_config end)
    (Conn.Url (bs "wss:// needs a TLS configuration: this build has no bundled roots"));
  name ← ok_or (server_name (Url.host url)) (Conn.Url (bs "host is not a valid server name"));
  session ← ok_or (client_session config name) (Io (errno_of EPROTO));
  let '(shaken, tls) := tls_handshake (tls_client stream session) in
  map_err Io shaken;;
  '(connection, protocol) ← fst (connect fuel nanos address (Url.path url) (Url.host_header url)
    (protocols options) (headers options) (entropy options) (options_limits options) tls);
  Ok (mkConnected connection protocol).
End Connect.

(** ** What connecting does *)
Section Connecting.
Context `{T : Target, U : Utf8Impl, A : Alloc, !AllocOk A, N : ErrnoType}.
Context {S : Type} `{!Network S}.

(** The resolver and the opening of a socket return. *)
Class NetworkOk := {
  resolve_returns host port : returns (resolve host port);
  connect_returns addrs : returns (connect_any addrs : result Errno S);
}.
Context `{!NetworkOk}.

(** The socket is one that resolving the URL's host, not its [Host] header, led to. *)
Definition opened (url : Url.t) (s : S) : Prop :=
  ∃ addrs, resolve (Url.host url) (Url.port url) = Ok addrs ∧ connect_any addrs = Ok s.

(** Over [s], the request for the URL was sent and its answer taken. *)
Definition upgraded {St : Type} `{!StreamView St} (url : Url.t) (options : ClientOptions)
    (s : St) (connected : Connected St) : Prop :=
  ∃ key head rest s',
    @new_key Error (entropy options) = Ok key ∧
    outbound s' = outbound s ++ build_request (Url.path url) (Url.host_header url) key
      (protocols options) (headers options) ∧
    check_response head key = Ok (protocol connected) ∧
    fresh Client (options_limits options) s' rest (connection connected) ∧
    head ++ unread (connection connected) = inbound s.

Lemma open_run url :
  match (addrs ← resolve_host (Url.host url) (Url.port url); map_err Io (connect_any addrs)) with
  | Ok s => opened url s
  | Err (Conn.Url reason) => resolve (Url.host url) (Url.port url) = Err Nul
  | Err (Io _) => True
  | _ => False
  end.
Proof.
  unfold resolve_host, opened. pose proof (resolve_returns (Url.host url) (Url.port url)) as Hr.
  destruct (resolve _ _) as [addrs|[| |]| |]; cbn [map_err mbind result_bind]; try done.
  pose proof (connect_returns addrs) as Hc.
  destruct (connect_any addrs) eqn:E; cbn [map_err]; try done. by exists addrs.
Qed.

Lemma upgrade_run {St} `{!ByteStream St, !StreamExt St, !StreamView St, !StreamExtOk St}
    fuel nanos address url options (s : St) :
  length (entropy options) = 16%nat → (length (inbound s) < fuel)%nat →
  match ('(connection, protocol) ← fst (connect fuel nanos address (Url.path url)
           (Url.host_header url) (protocols options) (headers options) (entropy options)
           (options_limits options) s); Ok (mkConnected connection protocol)) with
  | Ok connected => upgraded url options s connected
  | Err (Upgrade _) | Err (Io _) => True
  | _ => False
  end.
Proof.
  intros Hent Hfuel.
  destruct (connect_run fuel nanos address (Url.path url) (Url.host_header url) (protocols options)
    (headers options) (entropy options) (options_limits options) s Hent Hfuel)
    as (key & Hkey & _ & Hrun). cbn zeta in Hrun.
  destruct (connect _ _ _ _ _ _ _ _ _ s) as [[[c p]|e| |] s']; destruct Hrun as [_ Hans];
    [| |done..].
  2: { destruct Hans as [(io & -> & _)|(s0 & _ & _ & _ & [(_ & _ & Hno)|(head & rest & u & _ & _ & ->)])];
       [done|by destruct e|done]. }
  destruct Hans as (head & rest & s0 & _ & _ & Ho & _ & Hcheck & Hfresh & Hall). cbn.
  by exists key, head, rest, s'.
Qed.

Lemma connect_plain_run `{!ByteStream S, !StreamExt S, !StreamView S, !StreamExtOk S}
    fuel nanos address url options :
  length (entropy options) = 16%nat →
  (∀ s, opened url s → (length (inbound s) < fuel)%nat) →
  match connect_plain fuel nanos address url options with
  | Ok connected => ∃ s, opened url s ∧ upgraded url options s connected
  | Err (Conn.Url _) => resolve (Url.host url) (Url.port url) = Err Nul
  | Err (Io _) | Err (Upgrade _) => True
  | _ => False
  end.
Proof.
  intros Hent Hfuel. pose proof (open_run url) as Hopen. unfold connect_plain.
  destruct (resolve_host _ _) as [addrs|[]| |]; cbn [mbind result_bind] in *; try done.
  destruct (map_err Io (connect_any addrs)) as [s|[]| |]; cbn [mbind result_bind]; try done.
  pose proof (upgrade_run fuel nanos address url options s Hent (Hfuel s Hopen)) as Hup.
  case_match; [by exists s|by destruct e|done..].
Qed.

Context {TS : Type} `{!TlsClient S TS} `{!ByteStream TS, !StreamView TS, !ByteStreamOk TS}.

(** The session that is used: over the socket, under a configuration that is the
    caller's if it gave one, for the host of the URL, and shaken hands. *)
Definition secured (url : Url.t) (tls : option ClientConfig) (s : S) (t : TS) : Prop :=
  ∃ config name session,
    (tls = Some config ∨ tls = None ∧ default_client_config = Some config) ∧
    server_name (Url.host url) = Some name ∧ client_session config name = Some session ∧
    tls_handshake (tls_client s session) = (Ok tt, t).

(** C39: what [connect_secure] does on every branch, for sixteen bytes of entropy,
    if resolving, opening and the TLS handshake return. It returns. A connection is
    over a session for the URL's own host, on a socket that the URL's host resolved
    to, and the upgrade request is sent only once the TLS handshake is done. The
    error is of the URL kind only for a host with a nul byte, a build without
    roots and a caller without a configuration, or a host that is no server
    name. *)
Theorem connect_secure_spec fuel nanos address url options tls :
  length (entropy options) = 16%nat →
  (∀ t : TS, returns (fst (tls_handshake t))) →
  (∀ s t, opened url s → secured url tls s t → (length (inbound t) < fuel)%nat) →
  match connect_secure fuel nanos address url options tls with
  | Ok connected => ∃ s t, opened url s ∧ secured url tls s t ∧ upgraded url options t connected
  | Err (Conn.Url _) =>
      resolve (Url.host url) (Url.port url) = Err Nul ∨
      (tls = None ∧ default_client_config = None) ∨ server_name (Url.host url) = None
  | Err (Io _) | Err (Upgrade _) => True
  | _ => False
  end.
Proof.
  intros Hent Hret Hfuel. pose proof (open_run url) as Hopen. unfold connect_secure.
  destruct (resolve_host _ _) as [addrs|[]| |]; cbn [mbind result_bind] in *; try done; [|by left].
  destruct (map_err Io (connect_any addrs)) as [s|[]| |]; cbn [mbind result_bind]; try done;
    [|by left].
  destruct (match tls with Some config => Some config | None => default_client_config end)
    as [config|] eqn:Hconfig; cbn [ok_or mbind result_bind].
  2: { right. left. by destruct tls. }
  destruct (server_name (Url.host url)) as [name|] eqn:Hname; cbn [ok_or mbind result_bind];
    [|by right; right].
  destruct (client_session config name) as [session|] eqn:Hsession; cbn [ok_or mbind result_bind];
    [|done].
  pose proof (Hret (tls_client s session)) as Hshake.
  destruct (tls_handshake (tls_client s session)) as [[[]|e| |] t] eqn:Ht;
    cbn [fst map_err mbind result_bind] in *; try done.
  assert (secured url tls s t) as Hsec.
  { exists config, name, session. split_and!; try done. destruct tls; [left|right]; by simplify_eq. }
  assert (StreamExtOk TS) as Hok by apply (default_ext_laws TS).
  pose proof (upgrade_run fuel nanos address url options t Hent (Hfuel s t Hopen Hsec)) as Hup.
  case_match; [by exists s, t|by destruct e|done..].
Qed.
End Connecting.

(** ** URLs *)
Section Urls.
Context `{N : ErrnoType}.

Definition scheme_of (secure : bool) : str := if secure then bs "wss" else bs "ws".

(** A host written without brackets, and one written with them. *)
Definition name_ok (host : str) : Prop :=
  (x2f ∉ host) ∧ (x40 ∉ host) ∧ (x3a ∉ host) ∧ host ≠ [] ∧ head host ≠ Some x5b.
Definition literal_ok (host : str) : Prop :=
  (x2f ∉ host) ∧ (x40 ∉ host) ∧ (x5d ∉ host).

Lemma contains_char_false c l : c ∉ l → Str.contains [c] l = false.
Proof. intros H. unfold Str.contains. by rewrite Str.find_char_none. Qed.

(** Parsing a scheme and an authority, then a path. *)
Lemma parse_split secure authority path :
  (x2f ∉ authority) → (x40 ∉ authority) → authority ≠ [] → head path = Some x2f →
  Url.parse (scheme_of secure ++ bs "://" ++ authority ++ path)
  = ('(host, port) ← Url.parse_authority secure authority; Ok (Url.mk secure host port path)).
Proof.
  intros Hslash Hat Hne Hpath. unfold Url.parse.
  assert (Str.split_once (bs "://") (scheme_of secure ++ bs "://" ++ authority ++ path)
    = Some (scheme_of secure, authority ++ path)) as ->.
  { set (rest := authority ++ path). destruct secure; reflexivity. }
  cbn [ok_or mbind result_bind].
  assert ((if bool_decide (scheme_of secure = bs "ws") then @Ok Error bool false
    else if bool_decide (scheme_of secure = bs "wss") then Ok true
    else Err (Conn.Url (bs "scheme is not ws or wss"))) = Ok secure) as -> by by destruct secure.
  cbn [mbind result_bind]. destruct path as [|x path]; [done|]. injection Hpath as ->.
  change (bs "/") with [x2f]. rewrite Str.find_char by done.
  rewrite take_app_length, drop_app_length. change (bs "@") with [x40].
  rewrite contains_char_false by done. by destruct authority.
Qed.

(** The same without a path. *)
Lemma parse_bare secure authority :
  (x2f ∉ authority) → authority ≠ [] →
  Url.parse (scheme_of secure ++ bs "://" ++ authority)
  = Url.parse (scheme_of secure ++ bs "://" ++ authority ++ bs "/").
Proof.
  intros Hslash Hne. unfold Url.parse.
  assert (∀ rest, Str.split_once (bs "://") (scheme_of secure ++ bs "://" ++ rest)
    = Some (scheme_of secure, rest)) as Hsplit by (intros rest; destruct secure; reflexivity).
  rewrite !Hsplit. cbn [ok_or mbind result_bind].
  destruct (if bool_decide _ then _ else _); [|done..]. cbn [mbind result_bind].
  change (bs "/") with [x2f]. rewrite Str.find_char_none, Str.find_char by done.
  by rewrite take_app_length, drop_app_length.
Qed.

Definition url_ok (u : Url.t) : Prop := 0 <= Url.port u < 65536 ∧ head (Url.path u) = Some x2f.

(** C37: parsing a URL undoes writing it: a scheme, a host name without a colon,
    with the port as [host_header] writes it, so left out when it is the scheme's
    own, and a path, are read back as they were. *)
Theorem url_roundtrip u :
  url_ok u → name_ok (Url.host u) →
  Url.parse (scheme_of (Url.secure u) ++ bs "://" ++ Url.host_header u ++ Url.path u) = Ok u.
Proof.
  intros [Hport Hpath] (Hslash & Hat & Hcolon & Hne & Hbr). destruct u as [secure host port path].
  cbn [Url.secure Url.host Url.port Url.path] in *. unfold Url.host_header.
  cbn [Url.secure Url.host Url.port Url.path].
  assert (∀ l, Str.strip_prefix (bs "[") (host ++ l) = None) as Hnobr.
  { intros l. unfold Str.strip_prefix. destruct host as [|x host]; [done|]. change (bs "[") with [x5b].
    cbn [app Str.starts_with]. by rewrite (Str.beq_neq x5b x) by (intros <-; by apply Hbr). }
  destruct (port =? _) eqn:Hdef; bool_prop.
  - rewrite parse_split by done. unfold Url.parse_authority.
    rewrite <- (app_nil_r host) at 1. rewrite Hnobr, Str.rsplit_once_none by done.
    cbn. by destruct secure; subst port.
  - rewrite parse_split; try done.
    + unfold Url.parse_authority. rewrite Hnobr. change (bs ":") with [x3a]. cbn [app].
      rewrite Str.rsplit_once_char by by apply Str.decimal_digits.
      rewrite Str.parse_decimal_u16 by done. done.
    + pose proof (Str.decimal_digits x2f port eq_refl). set_solver.
    + pose proof (Str.decimal_digits x40 port eq_refl). set_solver.
    + by destruct host.
Qed.

(** An IPv6 literal is written in brackets, so that no colon of it is taken for
    the port's: with the port in decimal, or without one, the literal is read
    back without its brackets, and with the port or the scheme's own. *)
Lemma url_literal secure host port path :
  literal_ok host → head path = Some x2f → 0 <= port < 65536 →
  Url.parse (scheme_of secure ++ bs "://" ++ (bs "[" ++ host ++ bs "]:" ++ Str.decimal_u16 port) ++ path)
    = Ok (Url.mk secure host port path) ∧
  Url.parse (scheme_of secure ++ bs "://" ++ (bs "[" ++ host ++ bs "]") ++ path)
    = Ok (Url.mk secure host (Url.default_port secure) path).
Proof.
  intros (Hslash & Hat & Hbr) Hpath Hport.
  pose proof (Str.decimal_digits x2f port eq_refl) as Hd1.
  pose proof (Str.decimal_digits x40 port eq_refl) as Hd2.
  assert (∀ after, Str.strip_prefix (bs "[") (bs "[" ++ host ++ after) = Some (host ++ after)) as Hstrip.
  { done. }
  assert (∀ after, Str.split_once (bs "]") (host ++ x5d :: after) = Some (host, after)) as Hsplit.
  { intros after. change (bs "]") with [x5d]. by apply Str.split_once_char. }
  change (bs "]:") with [x5d; x3a]. change (bs "]") with [x5d].
  split; rewrite parse_split by
    first [done | change (bs "[") with [x5b]; set_solver].
  - unfold Url.parse_authority. rewrite Hstrip. cbn [app]. rewrite Hsplit. cbn [ok_or mbind result_bind].
    assert (∀ l, Str.strip_prefix (bs ":") (x3a :: l) = Some l) as -> by done.
    by rewrite Str.parse_decimal_u16.
  - unfold Url.parse_authority. rewrite Hstrip. cbn [app]. by rewrite Hsplit.
Qed.

Lemma find_slash rest :
  match Str.find (bs "/") rest with
  | Some at_ => (x2f ∉ take at_ rest) ∧ head (drop at_ rest) = Some x2f
  | None => x2f ∉ rest
  end.
Proof.
  change (bs "/") with [x2f]. destruct (Str.find [x2f] rest) as [i|] eqn:Hf.
  - apply Str.find_spec in Hf as [(a & b & -> & <-) Hmin].
    rewrite take_app_length, drop_app_length. split; [|done].
    intros Hin. apply list_elem_of_split in Hin as (l1 & l2 & ->).
    specialize (Hmin (length l1) ltac:(len_lia)).
    rewrite <- !app_assoc, drop_app_length in Hmin. cbn [app Str.starts_with] in Hmin.
    by rewrite Str.beq_refl in Hmin.
  - rewrite Str.find_none in Hf. intros Hin. apply list_elem_of_split in Hin as (l1 & l2 & ->).
    by apply (Hf l1 l2).
Qed.

Lemma parse_authority_port secure authority host port :
  Url.parse_authority secure authority = Ok (host, port) → 0 <= port < 65536.
Proof.
  assert (0 <= Url.default_port secure < 65536) as Hd by (destruct secure; cbn; lia).
  assert (∀ l n, Str.parse_u16 l = Some n → 0 <= n < 65536) as Hr by apply Str.parse_u16_range.
  unfold Url.parse_authority, ok_or, mbind, result_bind.
  repeat (case_match; simplify_eq; try done); intros [= <- <-]; eauto.
Qed.

Lemma parse_authority_errors secure authority :
  match Url.parse_authority secure authority with
  | Ok _ | Err (Conn.Url _) => True
  | _ => False
  end.
Proof.
  unfold Url.parse_authority, ok_or, mbind, result_bind.
  repeat (case_match; simplify_eq; try done).
Qed.

(** What parsing a URL may give. *)
Definition url_parsed (input : str) (r : result Error Url.t) : Prop :=
  match r with
  | Ok u =>
      0 <= Url.port u < 65536 ∧ head (Url.path u) = Some x2f ∧
      ∃ authority rest,
        input = scheme_of (Url.secure u) ++ bs "://" ++ authority ++ rest ∧
        (rest = Url.path u ∨ rest = [] ∧ Url.path u = bs "/") ∧
        (x2f ∉ authority) ∧ (x40 ∉ authority) ∧ authority ≠ [] ∧
        Url.parse_authority (Url.secure u) authority = Ok (Url.host u, Url.port u)
  | Err (Conn.Url _) => True
  | _ => False
  end.

Lemma url_parse_run input : url_parsed input (Url.parse input).
Proof.
  unfold url_parsed, Url.parse. destruct (Str.split_once (bs "://") input) as [[scheme rest]|] eqn:Hs; [|done].
  unfold Str.split_once in Hs. destruct (Str.find (bs "://") input) as [i|] eqn:Hi; [|done].
  injection Hs as Hscheme Hrest. apply Str.find_spec in Hi as [(a & b & -> & <-) _].
  rewrite take_app_length in Hscheme. rewrite <- drop_drop, drop_app_length in Hrest.
  change (b = rest) in Hrest. subst a b. cbn [ok_or mbind result_bind].
  assert (∀ (s : bool) (k : bool → result Error Url.t), scheme = scheme_of s →
    ((if bool_decide (scheme = bs "ws") then @Ok Error bool false
      else if bool_decide (scheme = bs "wss") then Ok true
      else Err (Conn.Url (bs "scheme is not ws or wss"))) ≫= k) = k s) as Hk
    by (intros s k ->; by destruct s).
  destruct (decide (scheme = bs "ws" ∨ scheme = bs "wss")) as [Hsch|Hsch].
  2: { rewrite !bool_decide_eq_false_2 by naive_solver. done. }
  assert (∃ secure, scheme = scheme_of secure) as [secure Hsec]
    by (destruct Hsch as [-> | ->]; [by exists false|by exists true]).
  rewrite (Hk secure _ Hsec). rewrite Hsec. clear Hk Hsch Hsec scheme.
  pose proof (find_slash rest) as Hfind.
  set (split := match Str.find (bs "/") rest with Some _ => _ | None => _ end).
  assert (∃ tl, rest = fst split ++ tl ∧ (tl = snd split ∨ tl = [] ∧ snd split = bs "/") ∧
    (x2f ∉ fst split) ∧ head (snd split) = Some x2f) as (tl & Hrest & Htl & Hno & Hhead).
  { unfold split. destruct (Str.find (bs "/") rest) as [i|]; cbn [fst snd].
    - exists (drop i rest). rewrite take_drop. destruct Hfind. by split_and!; [|left|..].
    - exists []. rewrite app_nil_r. by split_and!; [|right|..]. }
  clearbody split. destruct split as [authority path]. cbn [fst snd] in *.
  destruct authority as [|x authority]; [done|]. set (auth := x :: authority) in *.
  destruct (Str.contains (bs "@") auth) eqn:Hat; [done|].
  assert (x40 ∉ auth) as Hnoat.
  { intros Hin. apply list_elem_of_split in Hin as (l1 & l2 & Hl). unfold Str.contains in Hat.
    destruct (Str.find (bs "@") auth) eqn:Hf; [done|]. rewrite Str.find_none in Hf. by apply (Hf l1 l2). }
  pose proof (parse_authority_errors secure auth) as Herr.
  destruct (Url.parse_authority secure auth) as [[host port]|e| |] eqn:Hauth;
    cbn [mbind result_bind]; try done.
  cbn [Url.port Url.path Url.secure Url.host].
  split; [by eapply parse_authority_port|]. split; [done|]. exists auth, tl.
  split_and!; try done. by rewrite Hrest.
Qed.

(** C38: what a URL must be. [Url::parse] always returns; its errors are all of the
    URL kind; and what it accepts begins with [ws://] or [wss://], then has an
    authority that is not empty and holds no slash and no credentials, from which
    the host and a port of sixteen bits come, then the path, which starts with a
    slash and is [/] if it is absent. *)
Theorem url_parse_spec input : url_parsed input (Url.parse input).
Proof. apply url_parse_run. Qed.
End Urls.

(** ** From a URL to the request the server sees *)
Section Requested.
Context `{T : Target, U : Utf8Impl, A : Alloc, !AllocOk A, N : ErrnoType}.

(** The host of a URL whose request can be read back: a name of graphic characters
    that ends where a slash, a query or a fragment begins, or a colon with a port. *)
Definition hostname_ok (host : str) : Prop :=
  name_ok host ∧ forallb Str.graphic host = true ∧ (x3f ∉ host) ∧ (x23 ∉ host).

Lemma host_header_graphic u :
  forallb Str.graphic (Url.host u) = true → forallb Str.graphic (Url.host_header u) = true.
Proof.
  intros Hhost. unfold Url.host_header. destruct (_ =? _); [done|].
  rewrite !forallb_app, Hhost. cbn [andb].
  apply forallb_forall. intros b Hb.
  pose proof (Str.decimal_digit 5 (Url.port u)) as Hd. rewrite forallb_forall in Hd.
  apply Hd, andb_true_iff in Hb as [H1 H2]. bool_prop. apply andb_true_iff.
  rewrite !Z.leb_le. lia.
Qed.

(** What a URL in the clear says: a name, a port or none, a path or none. *)
Lemma plain_url_parse host port rest :
  name_ok host → (∀ p, port = Some p → 0 <= p < 65536) → (rest = [] ∨ head rest = Some x2f) →
  Url.parse (bs "ws://" ++ host ++ match port with Some p => bs ":" ++ Str.decimal_u16 p | None => [] end ++ rest)
  = Ok (Url.mk false host (default 80 port) (match rest with [] => bs "/" | _ => rest end)).
Proof.
  intros (Hslash & Hat & Hcolon & Hne & Hbr) Hport Hrest.
  set (authority := host ++ match port with Some p => bs ":" ++ Str.decimal_u16 p | None => [] end).
  assert ((x2f ∉ authority) ∧ (x40 ∉ authority) ∧ authority ≠ []) as (Hs & Ha & Hn).
  { unfold authority. split_and!; [| |by destruct host].
    - destruct port as [p|]; [|by rewrite app_nil_r]. pose proof (Str.decimal_digits x2f p eq_refl).
      change (bs ":") with [x3a]. set_solver.
    - destruct port as [p|]; [|by rewrite app_nil_r]. pose proof (Str.decimal_digits x40 p eq_refl).
      change (bs ":") with [x3a]. set_solver. }
  assert (Url.parse_authority false authority = Ok (host, default 80 port)) as Hauth.
  { unfold Url.parse_authority, authority.
    assert (∀ l, Str.strip_prefix (bs "[") (host ++ l) = None) as ->.
    { intros l. unfold Str.strip_prefix. destruct host as [|x host]; [done|]. change (bs "[") with [x5b].
      cbn [app Str.starts_with]. by rewrite (Str.beq_neq x5b x) by (intros <-; by apply Hbr). }
    destruct port as [p|]; cbn [default from_option id].
    - change (bs ":") with [x3a]. cbn [app].
      rewrite Str.rsplit_once_char by by apply Str.decimal_digits.
      by rewrite Str.parse_decimal_u16 by by apply Hport.
    - by rewrite app_nil_r, Str.rsplit_once_none. }
  change (bs "ws://") with (scheme_of false ++ bs "://"). rewrite (app_assoc host), <- app_assoc.
  fold authority. destruct Hrest as [-> |Hrest].
  - rewrite app_nil_r, parse_bare, parse_split by done. by rewrite Hauth.
  - rewrite parse_split by done. rewrite Hauth. by destruct rest.
Qed.

(** What the options of a client must be for its request to be read back. *)
Record options_ok (options : ClientOptions) : Prop := mkOptionsOk {
  op_entropy : length (entropy options) = 16%nat;
  op_protocols : Forall protocol_ok (protocols options);
  op_headers : Forall header_ok (headers options);
  op_free : Forall uninteresting (headers options);
  op_count : (6 + length (headers options) ≤ MAX_HEADERS)%nat;
}.

Lemma url_request_ok u options key :
  forallb Str.graphic (Url.host u) = true → forallb Str.graphic (Url.path u) = true →
  options_ok options → is_valid_key key = true →
  request_ok (Url.path u) (Url.host_header u) key (protocols options) (headers options).
Proof.
  intros Hhost Hpath [_ Hp Hh Hf Hc] Hkey. split; try done.
  - split_and!; [by apply Str.graphic_not_elem..|by apply graphic_utf8].
  - by apply graphic_header; [|apply not_elem_bool|apply host_header_graphic].
Qed.

Context {S : Type} `{!Network S} {network_ok : NetworkOk}.
Context `{!ByteStream S, !StreamExt S, !StreamView S, !StreamExtOk S}.

(** C36: the server is asked for what the URL says. Take a URL in the clear, written as
    [ws://], a host name of graphic characters with no slash, colon, query, fragment or
    credentials in it, a colon and a port in decimal or neither, and a path of graphic
    characters, perhaps with a query but with no fragment, that starts with a slash, or
    none. Take options with sixteen bytes of
    entropy, subprotocols that are names without commas, and extra headers that can
    stand on a line, do not name one of the handshake's own and keep the count within
    what a request may have. Then the URL parses; and if connecting to it succeeds, the
    socket is one that resolving this very host and port, or port 80, gave, and what the
    client wrote there, if it is at most 16 KiB, is to the server's parser a request to
    upgrade: for the path, or [/] if there was none, with the client's key, the
    subprotocols it offers in order, and these headers: a [Host] that is the host's
    name, followed by a colon and the port unless it is 80, the four of the handshake,
    the subprotocols if any, and the extra ones. *)
Theorem url_requested fuel nanos address host port rest options :
  hostname_ok host → (∀ p, port = Some p → 0 <= p < 65536) →
  (forallb Str.graphic rest = true ∧ (x23 ∉ rest)) → (rest = [] ∨ head rest = Some x2f) →
  options_ok options →
  let written_port := match port with Some p => bs ":" ++ Str.decimal_u16 p | None => [] end in
  let number := default 80 port in
  let path := match rest with [] => bs "/" | _ => rest end in
  let named := if number =? 80 then host else host ++ bs ":" ++ Str.decimal_u16 number in
  (∀ addrs (s : S), resolve host number = Ok addrs → connect_any addrs = Ok s →
     (length (inbound s) < fuel)%nat) →
  ∃ u, Url.parse (bs "ws://" ++ host ++ written_port ++ rest) = Ok u ∧
  ∀ connected, connect_plain fuel nanos address u options = Ok connected →
  ∃ addrs (s : S) key, resolve host number = Ok addrs ∧ connect_any addrs = Ok s ∧
    @new_key Error (entropy options) = Ok key ∧
    let written := drop (length (outbound s)) (outbound (stream (connection connected))) in
    (Z.of_nat (length written) <= DEFAULT_MAX_HEAD →
     parse_request written DEFAULT_MAX_HEAD
     = Ok (Parsed.Upgrade (Request.mk Get path key (protocols options)
         ([(bs "Host", named); (bs "Upgrade", bs "websocket"); (bs "Connection", bs "Upgrade");
           (bs "Sec-WebSocket-Key", key); (bs "Sec-WebSocket-Version", bs "13")]
          ++ match protocols options with
             | [] => []
             | _ => [(bs "Sec-WebSocket-Protocol", Str.join (bs ", ") (protocols options))]
             end ++ headers options)))).
Proof.
  intros (Hname & Hhost & _) Hport [Hrest _] Hhead Hopt written_port number path named Hfuel.
  set (u := Url.mk false host number path). exists u.
  split; [by apply plain_url_parse|]. intros connected Hrun.
  pose proof (op_entropy _ Hopt) as Hent.
  assert (∀ s, opened u s → (length (inbound s) < fuel)%nat) as Hfuel'
    by (intros s (addrs & H1 & H2); by apply (Hfuel addrs)).
  pose proof (connect_plain_run fuel nanos address u options Hent Hfuel') as Hspec. rewrite Hrun in Hspec.
  destruct Hspec as (s & (addrs & Hres & Hopen) & key & head & tl & s' & Hkey & Hout & _ & (_ & _ & Hs & _) & _).
  exists addrs, s, key. split_and!; try done. cbn zeta. rewrite Hs, Hout, drop_app_length.
  destruct (new_key_run (E := Error) (entropy options) Hent) as (key' & Hkey' & Hvalid & _).
  rewrite Hkey in Hkey'. injection Hkey' as <-. intros Hsize.
  assert (forallb Str.graphic path = true) as Hpath by by destruct rest.
  pose proof (url_request_ok u options key Hhost Hpath Hopt Hvalid) as Hok.
  exact (proj1 (request_roundtrip _ _ _ _ _ DEFAULT_MAX_HEAD Hok Hsize)).
Qed.
End Requested.

(** ** Examples *)
Section Witnesses.
Import Sample.

Definition chat_url : Url.t := Url.mk false (bs "example.com") 9001 (bs "/chat?room=1").

Lemma url_roundtrip_witness :
  Url.parse (bs "ws://example.com:9001/chat?room=1") = Ok chat_url.
Proof.
  exact (url_roundtrip chat_url ltac:(by repeat split)
    ltac:(split_and!; by first [apply not_elem_bool|done])).
Defined.

Lemma url_literal_witness :
  Url.parse (bs "wss://[::1]:9000/") = Ok (Url.mk true (bs "::1") 9000 (bs "/")).
Proof.
  exact (proj1 (url_literal true (bs "::1") 9000 (bs "/")
    ltac:(split_and!; by apply not_elem_bool) eq_refl ltac:(by split))).
Defined.

(** The brackets of a literal do not come back in the [Host] header, so what the
    header says is not the authority that was parsed. *)
Lemma host_header_literal :
  ∃ u, Url.parse (bs "ws://[::1]:9000/") = Ok u ∧ Url.host_header u = bs "::1:9000".
Proof. eexists. split; [by vm_compute|by vm_compute]. Qed.

(** An authority that is only a port is taken, with an empty host. *)
Lemma empty_host_taken :
  ∃ u, Url.parse (bs "ws://:80/") = Ok u ∧ Url.host u = [].
Proof. eexists. split; [by vm_compute|by vm_compute]. Qed.

(** One address for every name, and a server behind it that answers at once. *)
Definition answering : Pipe.t := pipe [chat_response ++ [x89; x00]].
Definition one_host : Network Pipe.t := {|
  Addr := nat;
  resolve host port := if bool_decide (x00 ∈ host) then Err Nul else Ok [0%nat];
  connect_any addrs := Ok answering;
  EAI_NONAME := 8;
|}.
#[local] Existing Instance one_host.
Lemma one_host_ok : @NetworkOk _ Pipe.t one_host.
Proof. split; [|done]. intros host port. cbn. by case_bool_decide. Qed.

(** A TLS client that lets the bytes through. *)
Definition clear_tls : TlsClient Pipe.t Pipe.t := {|
  ClientConfig := unit;
  default_client_config := Some tt;
  ServerName := str;
  server_name host := if bool_decide (host = []) then None else Some host;
  ClientSession := str;
  client_session _ name := Some name;
  tls_client s _ := s;
  tls_handshake s := (Ok tt, s);
  EPROTO := 71;
|}.
#[local] Existing Instance clear_tls.

Definition chat_options : ClientOptions := mkClientOptions chat_protocols [] nonce small.

Lemma clear_short url tls s t :
  opened url s → secured url tls s t → (length (inbound t) < 400)%nat.
Proof.
  intros (addrs & _ & Hs) (config & name & session & _ & _ & _ & Ht).
  assert (answering = s) as <-.
  { exact (f_equal (λ r, match r with Ok x => x | _ => answering end) Hs). }
  assert (answering = t) as <- by exact (f_equal snd Ht).
  apply Nat.ltb_lt. vm_compute. reflexivity.
Qed.

Lemma connect_secure_spec_witness :
  ∃ connected s t, connect_secure 400 1 2 chat_url chat_options None = Ok connected ∧
    opened chat_url s ∧ secured chat_url None s t ∧
    protocol connected = Some (bs "chat") ∧ unread (connection connected) = [x89; x00] ∧
    role (connection connected) = Client.
Proof.
  pose proof (@connect_secure_spec _ _ _ _ _ _ one_host_ok _ clear_tls _ _ _ 400 1 2 chat_url
    chat_options None eq_refl (λ t, I)) as Hspec.
  assert (match connect_secure 400 1 2 chat_url chat_options None with
    | Ok c => Some (protocol c, unread (connection c))
    | _ => None end = Some (Some (bs "chat"), [x89; x00])) as Hrun by by vm_compute.
  destruct (connect_secure 400 1 2 chat_url chat_options None) as [connected|e| |];
    [|discriminate Hrun..].
  injection Hrun as Hp Hun. destruct Hspec as (s & t & Ho & Hs & Hup).
  - exact (clear_short chat_url None).
  - destruct Hup as (key & head & rest & s' & _ & _ & _ & [Hr _] & _).
    by exists connected, s, t.
Defined.
Lemma chat_options_ok : options_ok chat_options.
Proof.
  split; cbn [entropy protocols headers chat_options].
  - reflexivity.
  - repeat (apply Forall_cons; split; [split_and!; by first [done|apply not_elem_bool]|]).
    by apply Forall_nil.
  - by apply Forall_nil.
  - by apply Forall_nil.
  - vm_compute. lia.
Qed.
Lemma answering_short s : opened chat_url s → (length (inbound s) < 400)%nat.
Proof.
  intros (addrs & _ & Hs).
  assert (answering = s) as <-.
  { exact (f_equal (λ r, match r with Ok x => x | _ => answering end) Hs). }
  apply Nat.ltb_lt. vm_compute. reflexivity.
Qed.

Lemma url_requested_witness :
  ∃ connected, connect_plain 400 1 2 chat_url chat_options = Ok connected ∧
    parse_request (outbound (stream (connection connected))) DEFAULT_MAX_HEAD
    = Ok (Parsed.Upgrade (Request.mk Get (bs "/chat?room=1") nonce_key chat_protocols
        [(bs "Host", bs "example.com:9001"); (bs "Upgrade", bs "websocket");
         (bs "Connection", bs "Upgrade"); (bs "Sec-WebSocket-Key", nonce_key);
         (bs "Sec-WebSocket-Version", bs "13");
         (bs "Sec-WebSocket-Protocol", bs "chat, superchat")])).
Proof.
  destruct (url_requested (S := Pipe.t) (network_ok := one_host_ok) 400 1 2
    (bs "example.com") (Some 9001) (bs "/chat?room=1") chat_options) as (u & Hparse & Hspec).
  - unfold hostname_ok, name_ok.
    split_and!; first [apply not_elem_bool; reflexivity|reflexivity|discriminate].
  - intros p [= <-]. lia.
  - split; [reflexivity|apply not_elem_bool; reflexivity].
  - by right.
  - apply chat_options_ok.
  - intros addrs s H1 H2. apply answering_short. by exists addrs.
  - assert (chat_url = u) as <-.
    { vm_compute in Hparse. injection Hparse as <-. reflexivity. }
    assert (match connect_plain 400 1 2 chat_url chat_options with
      | Ok c => Some (Z.of_nat (length (outbound (stream (connection c)))) <=? DEFAULT_MAX_HEAD)
      | _ => None end = Some true) as Hrun by (vm_compute; reflexivity).
    destruct (connect_plain 400 1 2 chat_url chat_options) as [connected|e| |];
      [|discriminate Hrun..].
    exists connected. split; [reflexivity|].
    destruct (Hspec connected eq_refl) as (addrs & s & key & _ & Hs & Hkey & Hreq).
    assert (answering = s) as Heq.
    { exact (f_equal (λ r, match r with Ok x => x | _ => answering end) Hs). }
    assert (outbound s = []) as Hnone by (rewrite <- Heq; reflexivity).
    rewrite Hnone in Hreq. rewrite drop_0 in Hreq.
    assert (@new_key Error nonce = Ok nonce_key) as Hkey' by (vm_compute; reflexivity).
    change (entropy chat_options) with nonce in Hkey. rewrite Hkey' in Hkey.
    injection Hkey as <-. rewrite Hreq; [reflexivity|].
    injection Hrun as Hlen. by apply Z.leb_le.
Defined.

(** The parser takes any character in a path, and the path goes into the request line as
    it is: a URL with a line break in it writes headers of its own. *)
Lemma path_injects_headers :
  ∃ u, Url.parse (bs "ws://h/ HTTP/1.1" ++ CRLF ++ bs "X: 1") = Ok u ∧
    match parse_request (build_request (Url.path u) (Url.host_header u) nonce_key [] []) DEFAULT_MAX_HEAD with
    | Ok (Parsed.Upgrade request) =>
        Request.path request = bs "/" ∧ head (Request.headers request) = Some (bs "X", bs "1 HTTP/1.1")
    | _ => False
    end.
Proof. eexists. split; [vm_compute; reflexivity|]. vm_compute. split; reflexivity. Qed.

(** A query that follows the authority without a slash is taken for a part of the host. *)
Lemma query_is_host :
  ∃ u, Url.parse (bs "ws://example.com?room=1") = Ok u ∧
    Url.host u = bs "example.com?room=1" ∧ Url.path u = bs "/".
Proof. eexists. split; [vm_compute; reflexivity|]. split; reflexivity. Qed.
End Witnesses.
