(* ===== verification/Link.v ===== *)
(** * Two endpoints and the link between them

    The whole of a session as a transition system: two connections, a client's and
    a server's, over in-memory streams; their callers, who write when they like and
    read when there is something to read; and a link that carries the bytes each
    side has written to the other, in order, in pieces of any size, at any time.
    Every interleaving of the three is a run of the system.

    The abstract system is a pair of queues of messages. The concrete one refines
    it: a write enqueues, a read dequeues, and what the link does is not seen. The
    masking, the framing, the buffers, and the way the link cuts the bytes have no
    other effect.

    A read is a step once it returns a message. Until then the caller of [read]
    is suspended and the connection is borrowed by it, so nothing can tell whether
    bytes it will need have been moved from the stream to the buffer yet. *)
From Stdlib Require Import ZArith Lia Strings.Byte.
From stdpp Require Import base option list relations.
From S2P Require Import Prelude Bytes Opcode Mask Frame Utf8 Message Stream Handshake Conn Sample.
From S2P Require Import HandshakeTrip ConnRead ConnWrite Session Truncation Upgrade.

Section Link.
Context `{T : Target, !TargetOk T, U : Utf8Impl, A : Alloc, !AllocOk A, N : ErrnoType}.

#[local] Instance pipe_ext : StreamExt Pipe.t := default_ext.
#[local] Instance pipe_ext_ok : StreamExtOk Pipe.t := default_ext_laws Pipe.t.

(** ** The system *)

(** One side: its connection, and how many of the bytes it has written the link
    has carried. [sent] and [got] record what its caller has written and read. *)
Record Side : Type := mkSide {
  endpoint : Connection Pipe.t;
  carried : nat;
  sent : list Message;
  got : list Message;
}.

Record System : Type := mkSystem { client : Side; server : Side }.

Definition side (r : Role) (s : System) : Side :=
  match r with Client => client s | Server => server s end.
Definition set_side (r : Role) (x : Side) (s : System) : System :=
  match r with Client => mkSystem x (server s) | Server => mkSystem (client s) x end.

(** A segment arrives at a stream. *)
Definition arrive (seg : list byte) (p : Pipe.t) : Pipe.t :=
  Pipe.mkPipe (Pipe.segments p ++ [seg]) (Pipe.at_end p) (Pipe.written p) (Pipe.budget p).

(** What a caller may do with a connection. *)
Inductive call : Type :=
| Write (m : Message)
| WriteAll (ms : list Message)
| Ponging (payload : list byte)
| Closing (f : option CloseFrame).

Definition perform (k : call) : stM (Connection Pipe.t) Error unit :=
  match k with
  | Write m => Connection.write m
  | WriteAll ms => Connection.write_all ms
  | Ponging payload => Connection.pong payload
  | Closing f => Connection.close f
  end.

(** The messages a call puts on the wire. *)
Definition messages_of (k : call) (c : Connection Pipe.t) : list Message :=
  match k with
  | Write m => [m]
  | WriteAll ms => ms
  | Ponging payload => [Message.Pong payload]
  | Closing f => if close_sent c then [] else [Message.Close f]
  end.

(** What is asked of the callers: nothing after a close frame, and nothing that the
    other side's limits or the framing cannot take. *)
Definition may_send (s : System) (r : Role) (ms : list Message) : Prop :=
  (ms ≠ [] → close_sent (endpoint (side r s)) = false) ∧ closes_last ms ∧
  Forall (deliverable (limits (assembler (endpoint (side (peer r) s))))) ms.

Inductive event : Type :=
| Sent (r : Role) (ms : list Message)
| Carried (r : Role) (n : nat)
| Received (r : Role) (m : Message).

Inductive system_step (s : System) : event → System → Prop :=
| step_call r k c' :
    let x := side r s in
    let ms := messages_of k (endpoint x) in
    may_send s r ms → perform k (endpoint x) = (Ok tt, c') →
    system_step s (Sent r ms) (set_side r (mkSide c' (carried x) (sent x ++ ms) (got x)) s)
| step_carry r n :
    let x := side r s in
    let y := side (peer r) s in
    (0 < n)%nat → (carried x + n ≤ length (outbound (stream (endpoint x))))%nat →
    let seg := take n (drop (carried x) (outbound (stream (endpoint x)))) in
    system_step s (Carried r n)
      (set_side (peer r)
        (mkSide (set_stream (arrive seg (stream (endpoint y))) (endpoint y)) (carried y) (sent y) (got y))
        (set_side r (mkSide (endpoint x) (carried x + n) (sent x) (got x)) s))
| step_read r fuel m c' :
    let x := side r s in
    (length (inbound (stream (endpoint x))) < fuel)%nat →
    Connection.read fuel (endpoint x) = (Ok (Some m), c') →
    system_step s (Received r m) (set_side r (mkSide c' (carried x) (sent x) (got x ++ [m])) s).

(** Two connections made on a link on which nothing was written yet. *)
Definition fresh_side (nanos address : Z) (r : Role) (l : Limits) : Side :=
  mkSide (Connection.new nanos address (Pipe.mkPipe [] None [] None) r l) 0 [] [].

Definition limits_good (l : Limits) : Prop := Assembler.limits_ok l ∧ limits_fit l.

(** Calls that succeed, one after another, and the messages they put on the wire *)
Inductive calls (c : Connection Pipe.t) : list Message → Connection Pipe.t → Prop :=
| calls_done : calls c [] c
| calls_next k c1 ms c' :
    perform k c = (Ok tt, c1) → calls c1 ms c' → calls c (messages_of k c ++ ms) c'.

(** A session starts with two connections that were just made; or it starts with the
    handshake. Then the client's request has come to the server, in any pieces;
    [accept] has taken it, and the server may have gone on to write messages; the
    response has come to the client, in any pieces, with as much of those messages
    behind it as had arrived; and [connect] has taken the response. *)
Inductive initial : System → Prop :=
| initial_system nanos1 address1 nanos2 address2 l1 l2 :
    limits_good l1 → limits_good l2 →
    initial (mkSystem (fresh_side nanos1 address1 Client l1) (fresh_side nanos2 address2 Server l2))
| initial_upgraded path host key protocols extra entropy select response error_headers
    fuel1 nanos1 address1 l1 segs1 c1 protocol p1
    fuel2 nanos2 address2 l2 segs2 c2 request p2 c2' early n :
    limits_good l1 → limits_good l2 →
    exchange path host key protocols extra entropy select response →
    let asking := build_request path host key protocols extra in
    concat segs2 = asking → (length asking < fuel2)%nat →
    accept fuel2 nanos2 address2 l2 error_headers select (Pipe.mkPipe segs2 None [] None)
      = (Ok (Upgraded c2 request), p2) →
    calls c2 early c2' → closes_last early → Forall (deliverable l1) early →
    (length response ≤ n ≤ length (outbound (stream c2')))%nat →
    concat segs1 = take n (outbound (stream c2')) → (n < fuel1)%nat →
    connect fuel1 nanos1 address1 path host protocols extra entropy l1 (Pipe.mkPipe segs1 None [] None)
      = (Ok (c1, protocol), p1) →
    initial (mkSystem (mkSide c1 (length asking) [] []) (mkSide c2' n early [])).

Inductive reachable : System → Prop :=
| reachable_initial s : initial s → reachable s
| reachable_step s e s' : reachable s → system_step s e s' → reachable s'.

(** ** The abstract system: a queue of messages each way *)
Definition Queues : Type := Role → list Message.

Inductive queue_step (q q' : Queues) : event → Prop :=
| queue_send r ms :
    q' r = q r ++ (received <$> ms) → q' (peer r) = q (peer r) → queue_step q q' (Sent r ms)
| queue_receive r m :
    q (peer r) = m :: q' (peer r) → q' r = q r → queue_step q q' (Received r m)
| queue_carry r n : (∀ r, q' r = q r) → queue_step q q' (Carried r n).

(** What is on its way: all that one side sent and the other has not read. *)
Definition queues (s : System) : Queues := λ r,
  drop (length (got (side (peer r) s))) (received <$> sent (side r s)).

(** ** Sides *)
Lemma peer_peer r : peer (peer r) = r.
Proof. by destruct r. Qed.
Lemma peer_neq r : peer r ≠ r.
Proof. by destruct r. Qed.
Lemma side_set r x s : side r (set_side r x s) = x.
Proof. by destruct r. Qed.
Lemma side_set_peer r x s : side (peer r) (set_side r x s) = side (peer r) s.
Proof. by destruct r. Qed.
Lemma side_set_peer' r x s : side r (set_side (peer r) x s) = side r s.
Proof. by destruct r. Qed.

(** ** What a call leaves behind *)
Definition sends (ms : list Message) (c c' : Connection Pipe.t) : Prop :=
  outbound (stream c') = outbound (stream c) ++ messages_bytes (role c) (mask_state c) ms ∧
  same_inbound (stream c) (stream c') ∧ same_reader c c' ∧
  mask_state c' = states_out (role c) (mask_state c) ms ∧
  close_sent c' = close_sent c || existsb is_close ms.

Lemma perform_sends k c c' : perform k c = (Ok tt, c') → sends (messages_of k c) c c'.
Proof.
  assert (∀ m c c', Connection.write m c = (Ok tt, c') → sends [m] c c') as Hwrite.
  { intros m d d' Hw. apply (write_each_wire [m] d d'). cbn [write_each].
    by rewrite (bind_ok _ _ _ _ _ Hw). }
  destruct k as [m|ms|payload|f]; cbn [perform messages_of]; intros Hp.
  - by apply Hwrite.
  - destruct (write_all_run ms c) as (r & c1 & Hrun & [[Hin Ho] _] & Hr & Hst & Hcl & _).
    rewrite Hp in Hrun. injection Hrun as Hr0 <-. by destruct r as [[]| | |].
  - by apply Hwrite.
  - unfold Connection.close in Hp. rewrite (bind_ok st_get _ c c c) in Hp by done.
    destruct (close_sent c) eqn:Hc; [|by apply Hwrite].
    injection Hp as <-. unfold sends. rewrite app_nil_r, orb_false_r. by split_and!.
Qed.

(** ** The invariant of one direction

    [read] has been read, [pend] is on its way: the bytes of [pend], and no others,
    are in the reader's buffer, in its stream, or still to be carried. *)
Record flows (r : Role) (s : System) (read pend : list Message) (st : Z) : Prop := mkFlows {
  fl_sent : sent (side r s) = read ++ pend;
  fl_got : got (side (peer r) s) = received <$> read;
  fl_bytes :
    unread (endpoint (side (peer r) s))
      ++ drop (carried (side r s)) (outbound (stream (endpoint (side r s))))
    = messages_bytes r st pend;
  fl_state : mask_state (endpoint (side r s)) = states_out r st pend;
  fl_carried : (carried (side r s) ≤ length (outbound (stream (endpoint (side r s)))))%nat;
  fl_last : closes_last (sent (side r s));
  fl_close : close_sent (endpoint (side r s)) = existsb is_close (sent (side r s));
  fl_role : role (endpoint (side r s)) = r;
  fl_partial : partial (assembler (endpoint (side (peer r) s))) = None;
  fl_closed : closed (assembler (endpoint (side (peer r) s))) = existsb is_close read;
  fl_limits : limits_good (limits (assembler (endpoint (side (peer r) s))));
  fl_fits : Forall (deliverable (limits (assembler (endpoint (side (peer r) s))))) pend;
  fl_ending : ending (stream (endpoint (side (peer r) s))) = None;
}.

Definition flowing (s : System) : Prop := ∀ r, ∃ read pend st, flows r s read pend st.

(** The invariant looks at the writing half of one side and the reading half of the
    other. *)
Lemma flows_ext r s s' read pend st :
  flows r s read pend st →
  sent (side r s') = sent (side r s) → carried (side r s') = carried (side r s) →
  got (side (peer r) s') = got (side (peer r) s) →
  let c := endpoint (side r s) in
  let c' := endpoint (side r s') in
  let d := endpoint (side (peer r) s) in
  let d' := endpoint (side (peer r) s') in
  outbound (stream c') = outbound (stream c) → mask_state c' = mask_state c →
  close_sent c' = close_sent c → role c' = role c →
  unread d' = unread d → assembler d' = assembler d → ending (stream d') = ending (stream d) →
  flows r s' read pend st.
Proof.
  intros [] Hs Hca Hg c c' d d' Ho Hm Hc Hr Hu Ha He. subst c c' d d'.
  split; rewrite ?Hs, ?Hca, ?Hg, ?Ho, ?Hm, ?Hc, ?Hr, ?Hu, ?Ha, ?He; done.
Qed.

Lemma calls_sends c ms c' : calls c ms c' → sends ms c c'.
Proof.
  induction 1 as [c|k c c1 ms c' Hk Hcalls IH].
  { unfold sends. rewrite app_nil_r, orb_false_r. by split_and!. }
  apply perform_sends in Hk as (Ho1 & [Hi1 He1] & (Hr1 & Ha1 & Hb1) & Hm1 & Hc1).
  destruct IH as (Ho & [Hi He] & (Hr & Ha & Hb) & Hm & Hc).
  unfold sends. rewrite Ho, Ho1, Hm, Hc, Hc1, Hr1, Hm1, messages_bytes_app, states_out_app, existsb_app.
  rewrite <- app_assoc, orb_assoc. unfold same_inbound, same_reader. split_and!; congruence.
Qed.

Lemma initial_flowing s : initial s → flowing s.
Proof.
  intros [n1 a1 n2 a2 l1 l2 H1 H2|path host key protocols extra entropy select response eh
    fuel1 n1 a1 l1 segs1 c1 protocol p1 fuel2 n2 a2 l2 segs2 c2 request p2 c2' early n
    H1 H2 Hex asking Hs2 Hf2 Hacc Hcalls Hlast Hfit [Hn1 Hn2] Hs1 Hf1 Hcon] r.
  { exists [], [], (mask_state (endpoint (side r (mkSystem (fresh_side n1 a1 Client l1)
      (fresh_side n2 a2 Server l2))))).
    destruct r; split; try done; apply Forall_nil; done. }
  pose proof (accept_agrees path host key protocols extra entropy select response fuel2 n2 a2 l2 eh []
    (Pipe.mkPipe segs2 None [] None) Hex) as Haccept.
  cbn [inbound Pipe.pipe_view Pipe.segments] in Haccept. fold asking in Haccept. rewrite app_nil_r, Hs2 in Haccept.
  specialize (Haccept Hf2 eq_refl). rewrite Hacc in Haccept.
  destruct Haccept as (_ & He2 & Ho2 & rest2 & (Hr2 & Ha2 & Hst2 & Hb2 & _ & Hcl2) & Hu2).
  destruct (calls_sends _ _ _ Hcalls) as (Ho & [Hi He] & (Hr & Ha & Hb) & Hm & Hc).
  rewrite Hst2, Ho2 in Ho. rewrite Hr2 in Ho.
  change (outbound (Pipe.mkPipe segs2 None [] None)) with (@nil byte) in Ho. cbn [app] in Ho.
  pose proof (connect_agrees path host key protocols extra entropy select response fuel1 n1 a1 l1
    (take (n - length response) (messages_bytes Server (mask_state c2) early))
    (Pipe.mkPipe segs1 None [] None) Hex) as Hconnect.
  cbn [inbound Pipe.pipe_view Pipe.segments] in Hconnect. rewrite Hs1, Ho, take_app_ge in Hconnect by done.
  specialize (Hconnect ltac:(len_lia) eq_refl). rewrite Hcon in Hconnect.
  destruct Hconnect as (_ & He1 & Ho1 & rest1 & (Hr1 & Ha1 & Hst1 & Hb1 & _ & Hcl1) & Hu1).
  change (outbound (Pipe.mkPipe segs1 None [] None)) with (@nil byte) in Ho1. cbn [app] in Ho1. fold asking in Ho1.
  destruct r; cbn [side peer client server].
  - exists [], [], (mask_state c1). split; cbn [side peer client server endpoint carried sent got];
      try done; rewrite ?Hst1, ?Ho1, ?Ha, ?Ha2; try done.
    + rewrite drop_all, app_nil_r. unfold unread. rewrite Hb, Hi. exact Hu2.
    + by rewrite He, Hst2.
  - exists [], early, (mask_state c2). split; cbn [side peer client server endpoint carried sent got];
      try done; rewrite ?Ha1; try done.
    + rewrite Hu1, Ho, drop_app_ge by done. apply take_drop.
    + by rewrite Hm, Hr2.
    + by rewrite Hc, Hcl2.
    + by rewrite Hr.
    + by rewrite Hst1.
Qed.

(** *** A call *)
Lemma call_flows r k s c' :
  flowing s → let x := side r s in
  let ms := messages_of k (endpoint x) in
  may_send s r ms → perform k (endpoint x) = (Ok tt, c') →
  flowing (set_side r (mkSide c' (carried x) (sent x ++ ms) (got x)) s).
Proof.
  intros Hinv x ms (Hopen & Hlast & Hfit) Hrun r2. subst x.
  destruct (perform_sends _ _ _ Hrun) as (Hout & [Hin He] & (Hrole & Has & Hbuf) & Hst & Hcl).
  fold ms in Hout, Hst, Hcl. destruct (decide (r2 = r)) as [->|Hne].
  - destruct (Hinv r) as (read & pend & st & []). exists read, (pend ++ ms), st.
    split; rewrite ?side_set, ?side_set_peer; cbn [endpoint carried sent got]; try done.
    + by rewrite fl_sent0, app_assoc.
    + rewrite Hout, drop_app_le, app_assoc, fl_bytes0, messages_bytes_app by done.
      by rewrite fl_role0, fl_state0.
    + by rewrite Hst, fl_role0, fl_state0, states_out_app.
    + rewrite Hout. len_lia.
    + apply closes_last_app. split_and!; [done..|]. rewrite <- fl_close0. intros Hc.
      destruct (decide (ms = [])) as [->|Hms]; [done|]. by rewrite Hopen in Hc.
    + by rewrite Hcl, fl_close0, existsb_app.
    + by rewrite Hrole.
    + by apply Forall_app.
  - assert (r2 = peer r) as -> by by destruct r, r2.
    destruct (Hinv (peer r)) as (read & pend & st & Hfl). exists read, pend, st.
    eapply flows_ext; [exact Hfl|..]; rewrite ?side_set_peer, ?peer_peer, ?side_set; try done.
    unfold unread. cbn [endpoint]. by rewrite Hbuf, Hin.
Qed.

(** *** The link *)
Lemma unread_arrive seg c :
  unread (set_stream (arrive seg (stream c)) c) = unread c ++ seg.
Proof. unfold unread. cbn. rewrite concat_app. cbn [concat]. by rewrite app_nil_r, app_assoc. Qed.

Lemma carry_flows r n s :
  flowing s → let x := side r s in
  let y := side (peer r) s in
  (carried x + n ≤ length (outbound (stream (endpoint x))))%nat →
  let seg := take n (drop (carried x) (outbound (stream (endpoint x)))) in
  flowing (set_side (peer r)
    (mkSide (set_stream (arrive seg (stream (endpoint y))) (endpoint y)) (carried y) (sent y) (got y))
    (set_side r (mkSide (endpoint x) (carried x + n) (sent x) (got x)) s)).
Proof.
  intros Hinv x y Hn seg r2. subst x y. destruct (decide (r2 = r)) as [->|Hne].
  - destruct (Hinv r) as (read & pend & st & []). exists read, pend, st.
    split; rewrite ?side_set, ?side_set_peer', ?side_set; cbn [endpoint carried sent got]; try done.
    rewrite unread_arrive, <- app_assoc. unfold seg.
    by rewrite <- drop_drop, take_drop.
  - assert (r2 = peer r) as -> by by destruct r, r2.
    destruct (Hinv (peer r)) as (read & pend & st & Hfl). exists read, pend, st.
    eapply flows_ext; [exact Hfl|..];
      rewrite ?peer_peer, ?side_set, ?side_set_peer', ?side_set; done.
Qed.

(** *** A read

    Each message is one frame, so the frame at the front of what has arrived is the
    next message on its way, or not all there yet. *)
Lemma flows_frame r s read pend st :
  flows r s read pend st →
  let d := endpoint (side (peer r) s) in
  let link := drop (carried (side r s)) (outbound (stream (endpoint (side r s)))) in
  frame_step (peer r) (assembler d) (unread d) = Need ∨
  ∃ m rest w, pend = m :: rest ∧
    frame_step (peer r) (assembler d) (unread d)
    = Got (Some (received m)) (after_message m (assembler d)) w ∧
    w ++ link = messages_bytes r (state_out r st) rest.
Proof.
  intros [] d link. fold d link in fl_bytes0. fold d in fl_partial0, fl_closed0, fl_fits0.
  pose proof (frame_step_app (peer r) (assembler d) (unread d) link) as Happ.
  rewrite fl_bytes0 in Happ. destruct pend as [|m rest].
  { cbn [messages_bytes] in *. apply app_nil in fl_bytes0 as [-> _]. by left. }
  apply Forall_cons in fl_fits0 as [Hm _].
  assert (closed (assembler d) = false) as Hopen.
  { rewrite fl_closed0. rewrite fl_sent0 in fl_last0.
    apply closes_last_app in fl_last0 as (_ & _ & Hlast).
    destruct (existsb is_close read); [by specialize (Hlast eq_refl)|done]. }
  pose proof (frame_step_message r st (assembler d) m
    (messages_bytes r (state_out r st) rest) Hopen fl_partial0 Hm) as Hfront.
  cbn [messages_bytes] in Happ. rewrite Hfront in Happ.
  destruct (frame_step (peer r) (assembler d) (unread d)) as [|e a w|om a w]; [by left|done|].
  injection Happ as <- <- Hw. right. by exists m, rest, w.
Qed.

(** Which of the two it is, is a matter of how many bytes have arrived. *)
Lemma flows_arrived r s read pend st :
  flows r s read pend st →
  let d := endpoint (side (peer r) s) in
  let front := frame_step (peer r) (assembler d) (unread d) in
  match pend with
  | [] => unread d = [] ∧ front = Need
  | m :: _ =>
      if decide (message_size r m ≤ length (unread d))%nat
      then front = Got (Some (received m)) (after_message m (assembler d))
                     (drop (message_size r m) (unread d))
      else front = Need
  end.
Proof.
  intros Hfl d front. pose proof (flows_frame _ _ _ _ _ Hfl) as Hfront. cbn zeta in Hfront.
  fold d in Hfront. fold front in Hfront. destruct Hfl. fold d in fl_bytes0, fl_closed0, fl_partial0, fl_fits0.
  destruct pend as [|m rest].
  { apply app_nil in fl_bytes0 as [Hun _]. by destruct Hfront as [?|(? & ? & ? & ? & _)]. }
  cbn [messages_bytes] in fl_bytes0. rewrite <- (length_message_bytes r st).
  destruct Hfront as [Hneed|(m0 & rest0 & w & [= <- <-] & Hgot & Hw)].
  - destruct (decide _) as [Hle|]; [|done]. exfalso.
    assert (∃ w, unread d = message_bytes r st m ++ w) as [w Hw].
    { exists (drop (length (message_bytes r st m)) (unread d)).
      rewrite <- (take_app_length (message_bytes r st m) (messages_bytes r (state_out r st) rest)) at 1.
      rewrite <- fl_bytes0, take_app_le by done. by rewrite take_drop. }
    unfold front in Hneed. rewrite Hw in Hneed. apply Forall_cons in fl_fits0 as [Hm _].
    rewrite frame_step_message in Hneed; try done.
    rewrite fl_closed0. rewrite fl_sent0 in fl_last0.
    apply closes_last_app in fl_last0 as (_ & _ & Hlast).
    destruct (existsb is_close read); [by specialize (Hlast eq_refl)|done].
  - rewrite <- Hw, app_assoc in fl_bytes0. apply app_inv_tail in fl_bytes0. unfold front in *.
    rewrite fl_bytes0 in Hgot |- *. rewrite drop_app_length.
    by rewrite decide_True by len_lia.
Qed.

(** What a read of one side does: the specification's read of what has arrived. *)
Lemma flows_spec r s read pend st fuel :
  flows r s read pend st →
  let d := endpoint (side (peer r) s) in
  role d = peer r → (length (inbound (stream d)) < fuel)%nat →
  ∃ res d', Connection.read fuel d = (res, d') ∧ same_writer d d' ∧
    read_spec (peer r) None (assembler d) (unread d) res (assembler d') (unread d').
Proof.
  intros Hfl d Hrole Hfuel. destruct Hfl. fold d in fl_partial0, fl_limits0, fl_ending0.
  destruct fl_limits0 as [Hok Hfits].
  assert (Assembler.wf (assembler d)) as Hwf by (split; [done|]; by rewrite fl_partial0).
  destruct (read_run fuel d Hwf Hfits Hfuel) as (res & d' & Hrun & Hspec & Hsame & _).
  exists res, d'. by rewrite Hrole, fl_ending0 in Hspec.
Qed.

(** It gives the next message, or nothing because it has not all arrived. *)
Lemma flows_read r s read pend st fuel :
  flows r s read pend st →
  let d := endpoint (side (peer r) s) in
  role d = peer r → (length (inbound (stream d)) < fuel)%nat →
  ∃ res d', Connection.read fuel d = (res, d') ∧ same_writer d d' ∧
  (res = at_end None (assembler d) ∨
   ∃ m rest, pend = m :: rest ∧ res = Ok (Some (received m)) ∧
     assembler d' = after_message m (assembler d) ∧
     unread d' ++ drop (carried (side r s)) (outbound (stream (endpoint (side r s))))
     = messages_bytes r (state_out r st) rest).
Proof.
  intros Hfl d Hrole Hfuel. pose proof (flows_frame _ _ _ _ _ Hfl) as Hfront. cbn zeta in Hfront.
  fold d in Hfront.
  destruct (flows_spec _ _ _ _ _ fuel Hfl Hrole Hfuel) as (res & d' & Hrun & Hsame & Hspec).
  fold d in Hspec. exists res, d'. split; [done|]. split; [done|].
  destruct Hfront as [Hneed|(m & rest & w & Hp & Hgot & Hw)].
  - left. eapply read_spec_deterministic; [exact Hspec|]. by apply read_end.
  - right. eapply read_spec_got in Hspec as (-> & Ha & Hu); [|exact Hgot].
    exists m, rest. by rewrite Hu.
Qed.

Lemma after_message_wf m a :
  partial (after_message m a) = partial a ∧ limits (after_message m a) = limits a ∧
  closed (after_message m a) = closed a || is_close m.
Proof. unfold after_message. destruct (is_close m); cbn; by rewrite ?orb_true_r, ?orb_false_r. Qed.

Lemma at_end_none a m : at_end (N := N) None a ≠ Ok (Some m).
Proof. unfold at_end. by destruct (closed a). Qed.

Lemma read_flows r fuel m c' s :
  flowing s → let x := side r s in
  (length (inbound (stream (endpoint x))) < fuel)%nat →
  Connection.read fuel (endpoint x) = (Ok (Some m), c') →
  flowing (set_side r (mkSide c' (carried x) (sent x) (got x ++ [m])) s) ∧
  ∃ m0, m = received m0 ∧
    drop (length (got x)) (sent (side (peer r) s)) = m0 :: drop (S (length (got x))) (sent (side (peer r) s)).
Proof.
  intros Hinv x Hfuel Hrun. subst x.
  assert (role (endpoint (side r s)) = r) as Hr by (destruct (Hinv r) as (? & ? & ? & Hfl); apply Hfl).
  destruct (Hinv (peer r)) as (read & pend & st & Hfl).
  pose proof (flows_read _ _ _ _ _ fuel Hfl) as Hread. cbn zeta in Hread.
  rewrite peer_peer in Hread. destruct (Hread Hr Hfuel) as (res & d' & Hrun' & Hsame & Hres).
  rewrite Hrun in Hrun'. injection Hrun' as <- <-.
  destruct Hres as [Hend|(m0 & rest & -> & Hm & Ha & Hbytes)]; [by apply eq_sym, at_end_none in Hend|].
  injection Hm as ->. destruct Hsame as (Hs1 & _ & _ & Hs4 & Hs5 & Hs6 & Hs7). split.
  - intros r2. destruct (decide (r2 = r)) as [->|Hne].
    + destruct (Hinv r) as (read2 & pend2 & st2 & Hfl2). exists read2, pend2, st2.
      eapply flows_ext; [exact Hfl2|..]; rewrite ?side_set, ?side_set_peer; done.
    + assert (r2 = peer r) as -> by by destruct r, r2.
      exists (read ++ [m0]), rest, (state_out (peer r) st).
      destruct (after_message_wf m0 (assembler (endpoint (side r s)))) as (Hp' & Hl' & Hc').
      destruct Hfl. rewrite peer_peer in *. apply Forall_cons in fl_fits0 as [_ Hfits].
      split; rewrite ?peer_peer, ?side_set, ?side_set_peer; cbn [endpoint carried sent got];
        rewrite ?Ha, ?Hp', ?Hl', ?Hc'; try done.
      * by rewrite fl_sent0, <- app_assoc.
      * by rewrite fl_got0, fmap_app.
      * by rewrite existsb_app, fl_closed0; cbn [existsb]; rewrite orb_false_r.
      * by rewrite Hs6.
  - exists m0. split; [done|]. destruct Hfl. rewrite peer_peer in *.
    rewrite fl_sent0, fl_got0, length_fmap, drop_app_length.
    change (S (length read)) with (1 + length read)%nat. rewrite Nat.add_comm, <- drop_drop.
    by rewrite drop_app_length.
Qed.

(** *** The invariant *)
Lemma step_flowing s e s' : flowing s → system_step s e s' → flowing s'.
Proof.
  intros Hinv [r k c' x ms Hmay Hrun|r n x y Hn Hle seg|r fuel m c' x Hfuel Hrun].
  - by apply call_flows.
  - by apply carry_flows.
  - by eapply read_flows.
Qed.

Lemma reachable_flowing s : reachable s → flowing s.
Proof. induction 1; [by apply initial_flowing|by eapply step_flowing]. Qed.

(** ** Runs *)
Inductive run : System → list event → System → Prop :=
| run_done s : run s [] s
| run_step s e s1 tr s' : system_step s e s1 → run s1 tr s' → run s (e :: tr) s'.

Inductive queue_run : Queues → list event → Queues → Prop :=
| queue_done q : queue_run q [] q
| queue_next q e q1 tr q' : queue_step q q1 e → queue_run q1 tr q' → queue_run q (e :: tr) q'.

(** What one side wrote, and what it read, in a run. *)
Definition writes (r : Role) (tr : list event) : list Message :=
  tr ≫= λ e, match e with Sent r' ms => if decide (r' = r) then ms else [] | _ => [] end.
Definition reads (r : Role) (tr : list event) : list Message :=
  tr ≫= λ e, match e with Received r' m => if decide (r' = r) then [m] else [] | _ => [] end.

Lemma run_reachable s tr s' : reachable s → run s tr s' → reachable s'.
Proof. intros Hs Hrun. induction Hrun; [done|]. apply IHHrun. by eapply reachable_step. Qed.

(** The records of the callers are what the run says. *)
Lemma step_records s e s' r :
  system_step s e s' →
  sent (side r s') = sent (side r s) ++ writes r [e] ∧
  got (side r s') = got (side r s) ++ reads r [e].
Proof.
  intros [r0 k c' x ms _ _|r0 n x y _ _ seg|r0 fuel m c' x _ _]; unfold writes, reads;
    cbn [mbind list_bind]; rewrite ?app_nil_r.
  - destruct (decide (r0 = r)) as [->|Hne]; rewrite ?side_set; cbn [sent got]; [by rewrite ?app_nil_r|].
    assert (r = peer r0) as -> by by destruct r, r0. by rewrite side_set_peer, ?app_nil_r.
  - destruct (decide (r0 = r)) as [->|Hne]; rewrite ?side_set_peer', ?side_set; [done|].
    assert (r = peer r0) as -> by by destruct r, r0. by rewrite side_set.
  - destruct (decide (r0 = r)) as [->|Hne]; rewrite ?side_set; cbn [sent got]; [by rewrite ?app_nil_r|].
    assert (r = peer r0) as -> by by destruct r, r0. by rewrite side_set_peer, ?app_nil_r.
Qed.

Lemma run_records s tr s' r :
  run s tr s' →
  sent (side r s') = sent (side r s) ++ writes r tr ∧
  got (side r s') = got (side r s) ++ reads r tr.
Proof.
  induction 1 as [s|s e s1 tr s' Hstep Hrun [IH1 IH2]]; [by rewrite !app_nil_r|].
  destruct (step_records _ _ _ r Hstep) as [H1 H2].
  rewrite IH1, IH2, H1, H2, <- !app_assoc. unfold writes, reads. cbn [mbind list_bind].
  by rewrite !app_nil_r.
Qed.

(** ** The abstract queues *)
Lemma queues_flows r s read pend st : flows r s read pend st → queues s r = received <$> pend.
Proof.
  intros []. unfold queues. rewrite fl_sent0, fl_got0, fmap_app, length_fmap.
  by rewrite <- (length_fmap received), drop_app_length.
Qed.

Lemma got_queues s r :
  flowing s → got (side (peer r) s) ++ queues s r = received <$> sent (side r s).
Proof.
  intros Hinv. destruct (Hinv r) as (read & pend & st & Hfl).
  rewrite (queues_flows _ _ _ _ _ Hfl). destruct Hfl. by rewrite fl_got0, fl_sent0, fmap_app.
Qed.

Lemma step_queues s e s' : flowing s → system_step s e s' → queue_step (queues s) (queues s') e.
Proof.
  intros Hinv Hstep. pose proof (step_flowing _ _ _ Hinv Hstep) as Hinv'.
  assert (∀ r, got (side (peer r) s) ++ reads (peer r) [e] ++ queues s' r
    = got (side (peer r) s) ++ queues s r ++ (received <$> writes r [e])) as Hq.
  { intros r. destruct (step_records _ _ _ r Hstep) as [H1 _].
    destruct (step_records _ _ _ (peer r) Hstep) as [_ H2].
    rewrite (app_assoc _ (queues s r)), (got_queues s r Hinv), <- fmap_app, <- H1.
    by rewrite <- (got_queues s' r Hinv'), H2, app_assoc. }
  assert (∀ r, reads (peer r) [e] ++ queues s' r = queues s r ++ (received <$> writes r [e])) as H
    by (intros r; eapply app_inv_head, Hq).
  unfold writes, reads in H. cbn [mbind list_bind] in H.
  destruct e as [r ms|r n|r m].
  - constructor; [specialize (H r)|specialize (H (peer r))]; cbn [app] in H.
    + by rewrite decide_True, app_nil_r in H by done.
    + by rewrite decide_False, app_nil_r in H by (intros E; by apply (peer_neq r)).
  - constructor. intros r2. specialize (H r2). cbn in H. by rewrite app_nil_r in H.
  - constructor; [specialize (H (peer r))|specialize (H r)]; cbn [fmap list_fmap] in H; rewrite app_nil_r in H.
    + by rewrite peer_peer, decide_True, app_nil_r in H by done.
    + by rewrite decide_False, app_nil_r in H by (intros E; by apply (peer_neq r)).
Qed.

Lemma run_queues s tr s' : flowing s → run s tr s' → queue_run (queues s) tr (queues s').
Proof.
  intros Hinv Hrun. induction Hrun as [|s e s1 tr s' Hstep Hrun IH]; [constructor|].
  econstructor; [by apply step_queues|]. apply IH. by eapply step_flowing.
Qed.

(** ** Progress *)
Definition quiet (e : event) : Prop := match e with Sent _ _ => False | _ => True end.

Definition backlog_of (r : Role) (s : System) : nat :=
  (length (outbound (stream (endpoint (side r s)))) - carried (side r s))
  + (length (sent (side r s)) - length (got (side (peer r) s))).
Definition backlog (s : System) : nat := backlog_of Client s + backlog_of Server s.

Definition all_read (s : System) : Prop :=
  ∀ r, got (side (peer r) s) = received <$> sent (side r s).

Lemma backlog_roles r s : backlog s = (backlog_of r s + backlog_of (peer r) s)%nat.
Proof. unfold backlog. destruct r; cbn [peer]; lia. Qed.

Lemma quiet_step_backlog s e s' :
  flowing s → system_step s e s' → quiet e → (backlog s' < backlog s)%nat.
Proof.
  intros Hinv Hstep Hq. destruct Hstep as [r k c' x ms _ _|r n x y Hn Hle seg|r fuel m c' x Hfuel Hrun].
  - done.
  - rewrite !(backlog_roles r). unfold backlog_of.
    rewrite ?peer_peer, ?side_set, ?side_set_peer', ?side_set. cbn [endpoint carried sent got stream set_stream].
    subst x y. cbn in Hle |- *. lia.
  - destruct (read_flows r fuel m c' s Hinv Hfuel Hrun) as (_ & m0 & _ & Hdrop). fold x in Hdrop.
    assert (∃ d', Connection.read fuel (endpoint x) = (Ok (Some m), d') ∧ same_writer (endpoint x) d')
      as (d' & Hrun' & Hsame).
    { destruct (Hinv (peer r)) as (read & pend & st & Hfl).
      assert (role (endpoint x) = r) as Hr by (destruct (Hinv r) as (? & ? & ? & Hf); apply Hf).
      pose proof (flows_read _ _ _ _ _ fuel Hfl) as Hread. cbn zeta in Hread.
      rewrite peer_peer in Hread. destruct (Hread Hr Hfuel) as (res & d' & Hrun' & Hsame & _).
      exists d'. fold x in Hrun'. rewrite Hrun in *. by simplify_eq. }
    rewrite Hrun in Hrun'. injection Hrun' as <-. destruct Hsame as (_ & _ & _ & _ & _ & _ & Ho).
    rewrite !(backlog_roles r). unfold backlog_of.
    rewrite ?peer_peer, ?side_set, ?side_set_peer. cbn [endpoint carried sent got]. rewrite Ho.
    pose proof (f_equal length Hdrop) as Hl. cbn [length] in Hl.
    rewrite !length_drop in Hl. rewrite length_app. cbn [length]. subst x. lia.
Qed.

(** As long as something is on its way, the link can carry or a side can read. *)
Lemma progress s : flowing s → all_read s ∨ ∃ e s', quiet e ∧ system_step s e s'.
Proof.
  intros Hinv.
  assert (∀ r, (∃ e s', quiet e ∧ system_step s e s') ∨ got (side (peer r) s) = received <$> sent (side r s))
    as H.
  { intros r. destruct (Hinv r) as (read & pend & st & Hfl).
    destruct (decide (carried (side r s) < length (outbound (stream (endpoint (side r s)))))%nat) as [Hlt|Hge].
    { left. eexists (Carried r 1), _. split; [done|]. apply step_carry; lia. }
    destruct pend as [|m rest]; [right; destruct Hfl; by rewrite fl_got0, fl_sent0, app_nil_r|]. left.
    assert (role (endpoint (side (peer r) s)) = peer r) as Hr
      by (destruct (Hinv (peer r)) as (? & ? & ? & Hf); apply Hf).
    set (fuel := S (length (inbound (stream (endpoint (side (peer r) s)))))).
    destruct (flows_read _ _ _ _ _ fuel Hfl Hr ltac:(lia)) as (res & d' & Hrun & _ & [Hend|Hgot]).
    2: { destruct Hgot as (m0 & _ & _ & -> & _). eexists (Received (peer r) _), _. split; [done|].
         eapply (step_read s (peer r) fuel); [|exact Hrun]. unfold fuel. lia. }
    exfalso. pose proof (flows_frame _ _ _ _ _ Hfl) as [Hneed|Hgot]; destruct Hfl.
    - rewrite drop_ge, app_nil_r in fl_bytes0 by lia. cbn [messages_bytes] in fl_bytes0.
      rewrite fl_bytes0 in Hneed. apply Forall_cons in fl_fits0 as [Hm _].
      rewrite frame_step_message in Hneed; try done.
      rewrite fl_closed0. rewrite fl_sent0 in fl_last0.
      apply closes_last_app in fl_last0 as (_ & _ & Hlast).
      destruct (existsb is_close read); [by specialize (Hlast eq_refl)|done].
    - destruct Hgot as (m0 & rest0 & w & _ & Hgot & _). destruct fl_limits0 as [Hok Hfits].
      assert (Assembler.wf (assembler (endpoint (side (peer r) s)))) as Hwf
        by (split; [done|]; by rewrite fl_partial0).
      destruct (read_run fuel _ Hwf Hfits ltac:(lia)) as (res' & d2 & Hrun' & Hspec & _).
      rewrite Hrun in Hrun'. injection Hrun' as <- <-. rewrite Hr in Hspec.
      eapply read_spec_got in Hspec as (Hres & _); [|exact Hgot].
      rewrite Hend in Hres. by apply at_end_none in Hres. }
  destruct (H Client) as [He|H1]; [by right|]. destruct (H Server) as [He|H2]; [by right|].
  left. by intros [].
Qed.

Lemma quiet_run_backlog s tr s' :
  flowing s → run s tr s' → Forall quiet tr →
  (length tr + backlog s' ≤ backlog s)%nat.
Proof.
  intros Hinv Hrun. induction Hrun as [|s e s1 tr s' Hstep Hrun IH]; intros Hq; [cbn; lia|].
  apply Forall_cons in Hq as [He Hq].
  pose proof (quiet_step_backlog _ _ _ Hinv Hstep He).
  specialize (IH (step_flowing _ _ _ Hinv Hstep) Hq). cbn [length]. lia.
Qed.

Lemma quiet_run_all_read s :
  flowing s → ∃ tr s', run s tr s' ∧ Forall quiet tr ∧ all_read s'.
Proof.
  remember (backlog s) as n eqn:Hn. revert s Hn.
  induction n as [n IH] using lt_wf_ind. intros s -> Hinv.
  destruct (progress s Hinv) as [Hdone|(e & s1 & He & Hstep)].
  { exists [], s. by split_and!; [constructor| |]. }
  pose proof (quiet_step_backlog _ _ _ Hinv Hstep He) as Hlt.
  destruct (IH _ Hlt s1 eq_refl (step_flowing _ _ _ Hinv Hstep)) as (tr & s' & Hrun & Hq & Hall).
  exists (e :: tr), s'. split_and!; [by econstructor|by constructor|done].
Qed.

(** ** Properties *)

(** C2: two connected endpoints refine a pair of queues of messages. A session starts
    with two new connections, or with the handshake, of which nothing is left in the
    queues but the messages that the server wrote before the client was ready. From
    then on its steps are reads that return a message, bytes being carried, and calls
    that succeed and keep to what a caller may send: messages that are deliverable
    under the other side's limits (within its frame and message limits, control
    payloads of at most 125 bytes, text and reasons UTF-8), and nothing after a close
    frame. In every interleaving of such steps, each write appends its messages to the
    queue of its direction (a close frame with its code sanitised), each read takes the
    front of the other queue, and carrying bytes, in pieces of any size, changes no
    queue; so what a side has read, followed by what is still on its way, is what the
    other side has written. *)
Theorem link_refines_queues s0 tr s :
  initial s0 → run s0 tr s →
  (∀ r, queues s0 r = received <$> sent (side r s0)) ∧ sent (side Client s0) = [] ∧
  queue_run (queues s0) tr (queues s) ∧
  ∀ r, reads (peer r) tr ++ queues s r = received <$> (sent (side r s0) ++ writes r tr).
Proof.
  intros H0 Hrun. pose proof (initial_flowing _ H0) as Hinv.
  assert (∀ r, got (side r s0) = []) as Hgot by (intros r; by destruct H0, r). split_and!.
  - intros r. pose proof (got_queues s0 r Hinv) as Hq. by rewrite Hgot in Hq.
  - by destruct H0.
  - by apply run_queues.
  - intros r. pose proof (got_queues s r) as Hq.
    destruct (run_records _ _ _ r Hrun) as [Hs _], (run_records _ _ _ (peer r) Hrun) as [_ Hg].
    rewrite Hs, Hg, Hgot in Hq. apply Hq. apply reachable_flowing.
    eapply run_reachable; [by apply reachable_initial|done].
Qed.

(** C4: between endpoints whose callers keep to their side, no read ever reports a
    violation. In a state that is reachable by calls that succeed, of messages that are
    deliverable under the other side's limits and with nothing after a close frame, and
    by bytes being carried and messages being read: take the first message that the
    other side wrote and this one has not read. If all the bytes of its frame have
    arrived, in the buffer or in the stream, a read returns it and consumes exactly
    these bytes. If there is no such message, or a part of its frame is missing, a read
    reports what the end of the bytes at hand means if it is the end of the stream, a
    clean end after a close frame and [UnexpectedEof] before, and neither the bytes nor
    the message in progress are touched; and with no message to come, there are no bytes
    left over. No read touches the write side. *)
Theorem no_false_alarm s r fuel :
  reachable s → let c := endpoint (side r s) in
  (length (inbound (stream c)) < fuel)%nat →
  let due := drop (length (got (side r s))) (sent (side (peer r) s)) in
  let ended := if closed (assembler c) then Ok None else Err UnexpectedEof in
  ∃ res c', Connection.read fuel c = (res, c') ∧ same_writer c c' ∧
    match due with
    | m :: _ =>
        let size := message_size (peer r) m in
        if decide (size ≤ length (unread c))%nat
        then res = Ok (Some (received m)) ∧ assembler c' = after_message m (assembler c) ∧
             unread c' = drop size (unread c)
        else res = ended ∧ assembler c' = assembler c ∧ unread c' = unread c
    | [] => unread c = [] ∧ res = ended ∧ assembler c' = assembler c ∧ unread c' = []
    end.
Proof.
  intros Hreach c Hfuel due ended. pose proof (reachable_flowing _ Hreach) as Hinv.
  destruct (Hinv (peer r)) as (read & pend & st & Hfl).
  assert (role c = r) as Hr by (destruct (Hinv r) as (? & ? & ? & Hf); apply Hf).
  pose proof (flows_arrived _ _ _ _ _ Hfl) as Harr.
  pose proof (flows_spec _ _ _ _ _ fuel Hfl) as Hread. cbn zeta in Hread, Harr.
  rewrite peer_peer in *. destruct (Hread Hr Hfuel) as (res & d' & Hrun & Hsame & Hspec).
  fold c in Harr, Hspec.
  assert (due = pend) as ->.
  { unfold due. destruct Hfl. rewrite peer_peer in *.
    by rewrite fl_sent0, fl_got0, length_fmap, drop_app_length. }
  assert (frame_step r (assembler c) (unread c) = Need →
    res = ended ∧ assembler d' = assembler c ∧ unread d' = unread c) as Hend.
  { intros Hneed.
    exact (read_spec_deterministic _ _ _ _ _ _ _ _ _ _ Hspec (read_end _ _ _ _ Hneed)). }
  exists res, d'. split; [done|]. split; [done|]. destruct pend as [|m rest].
  - destruct Harr as [Hun Hneed]. destruct (Hend Hneed) as (? & ? & ?). by rewrite <- Hun.
  - cbn zeta. destruct (decide _) as [Hle|Hgt]; [|by apply Hend].
    by eapply read_spec_got in Hspec.
Qed.

(** C5: everything that was written is read, if the link carries on and the readers
    read on. From any reachable state: the link and the readers alone take at most
    [backlog] steps, however they are scheduled; they are stuck only when each side
    has read all that the other has written; and they can get there. *)
Theorem everything_is_read s :
  reachable s →
  (∀ tr s', run s tr s' → Forall quiet tr → (length tr ≤ backlog s)%nat) ∧
  (∀ tr s', run s tr s' → Forall quiet tr →
     (∀ e s2, quiet e → ¬ system_step s' e s2) → all_read s') ∧
  ∃ tr s', run s tr s' ∧ Forall quiet tr ∧ all_read s'.
Proof.
  intros Hreach. pose proof (reachable_flowing _ Hreach) as Hinv. split_and!.
  - intros tr s' Hrun Hq. pose proof (quiet_run_backlog _ _ _ Hinv Hrun Hq). lia.
  - intros tr s' Hrun Hq Hstuck.
    destruct (progress s') as [Hdone|(e & s2 & He & Hstep)]; [|done|by apply Hstuck in Hstep].
    apply reachable_flowing. by eapply run_reachable.
  - by apply quiet_run_all_read.
Qed.
(** C6: a session ends in order. This from any state reachable by calls that succeed,
    of messages that are deliverable under the other side's limits and with nothing
    after a close frame, by bytes being carried and messages being read. Once the link
    has carried all that one side wrote, and that side hangs up, the reads of the other
    return every message that is still on its way, and from then on a clean end if the
    side that hung up sent a close frame, and [UnexpectedEof] if it did not: a peer that
    goes away without closing is never taken for one that closed. *)
Theorem orderly_end s r fuel extra :
  reachable s → let c := endpoint (side r s) in
  let from := side (peer r) s in
  carried from = length (outbound (stream (endpoint from))) →
  (length (inbound (stream c)) < fuel)%nat →
  fst (session fuel (length (queues s (peer r)) + extra) c)
  = ((λ m, Ok (Some m)) <$> queues s (peer r))
    ++ replicate extra (if existsb is_close (sent from) then Ok None else Err UnexpectedEof).
Proof.
  intros Hreach c from Hall Hfuel. pose proof (reachable_flowing _ Hreach) as Hinv.
  destruct (Hinv (peer r)) as (read & pend & st & Hfl).
  assert (role c = r) as Hr by (destruct (Hinv r) as (? & ? & ? & Hf); apply Hf).
  rewrite (queues_flows _ _ _ _ _ Hfl), length_fmap. destruct Hfl. fold from in fl_sent0, fl_bytes0, fl_last0.
  rewrite peer_peer in *. fold c in fl_bytes0, fl_partial0, fl_closed0, fl_limits0, fl_fits0, fl_ending0.
  rewrite Hall, drop_all, app_nil_r in fl_bytes0. rewrite fl_sent0 in fl_last0 |- *.
  apply closes_last_app in fl_last0 as (_ & Hlast & Hclosed). rewrite existsb_app.
  destruct fl_limits0 as [Hok Hfits].
  assert (ready fuel c) as Hready.
  { split_and!; [|done|done]. split; [done|]. by rewrite fl_partial0. }
  rewrite <- fl_closed0 in Hclosed |- *. destruct (closed (assembler c)) eqn:Hc.
  - rewrite (Hclosed eq_refl) in *. cbn [messages_bytes length fmap list_fmap app] in *.
    pose proof (session_at_end fuel extra c Hready) as H. rewrite fl_bytes0 in H.
    specialize (H eq_refl). cbn [Nat.add]. destruct (session fuel extra c) as [results c'].
    destruct H as [-> _]. unfold at_end. by rewrite fl_ending0, Hc.
  - pose proof (session_part fuel (peer r) st pend (length (messages_bytes (peer r) st pend)) extra c
      Hready) as H. cbn zeta in H.
    rewrite Hr, peer_peer, firstn_all, whole_all, firstn_all in H by done.
    specialize (H eq_refl fl_bytes0 Hc fl_partial0 fl_fits0 Hlast).
    destruct (session fuel _ c) as [results c']. cbn [fst]. rewrite H, fl_ending0.
    by rewrite <- list_fmap_compose.
Qed.
End Link.

(** ** Examples *)
Section Witnesses.
Import Sample.

(** A client that says hello, a link that breaks the frame up, and a server that
    reads it. *)
Definition start : System :=
  mkSystem (fresh_side 1700000000 0x7ffc0010 Client small) (fresh_side 1700000001 0x7ffc0020 Server small).
Definition hello : Message := Message.Text (bs "hello").

Definition said_hello : System :=
  let x := client start in
  set_side Client (mkSide (snd (Connection.write hello (endpoint x))) 0 [hello] []) start.
Definition carry (r : Role) (n : nat) (s : System) : System :=
  let x := side r s in
  let y := side (peer r) s in
  let seg := take n (drop (carried x) (outbound (stream (endpoint x)))) in
  set_side (peer r)
    (mkSide (set_stream (arrive seg (stream (endpoint y))) (endpoint y)) (carried y) (sent y) (got y))
    (set_side r (mkSide (endpoint x) (carried x + n) (sent x) (got x)) s).
Definition arrived : System := carry Client 8 (carry Client 3 said_hello).
Definition heard : System :=
  let x := server arrived in
  set_side Server (mkSide (snd (Connection.read 20 (endpoint x))) 0 [] [hello]) arrived.

Definition hello_run : list event :=
  [Sent Client [hello]; Carried Client 3; Carried Client 8; Received Server hello].

Lemma small_good : limits_good small.
Proof. split; [split; by vm_compute|by left]. Qed.

Lemma start_initial : initial start.
Proof. apply initial_system; apply small_good. Qed.

Lemma hello_step : system_step start (Sent Client [hello]) said_hello.
Proof.
  apply (step_call start Client (Write hello)).
  - split; [done|]. split; [by split|]. apply Forall_singleton. by vm_compute.
  - apply pair_eq. by vm_compute.
Qed.
Lemma carry_step n s :
  (0 <? n)%nat && (carried (client s) + n <=? length (outbound (stream (endpoint (client s)))))%nat = true →
  system_step s (Carried Client n) (carry Client n s).
Proof. intros [H1 H2]%andb_true_iff. bool_prop. by apply step_carry. Qed.
Lemma heard_step : system_step arrived (Received Server hello) heard.
Proof.
  apply (step_read arrived Server 20 hello).
  - apply Nat.ltb_lt. by vm_compute.
  - apply pair_eq. by vm_compute.
Qed.
Lemma hello_runs : run start hello_run heard.
Proof.
  eapply run_step; [apply hello_step|]. eapply run_step; [apply carry_step; by vm_compute|].
  eapply run_step; [apply carry_step; by vm_compute|]. eapply run_step; [apply heard_step|constructor].
Qed.

Lemma link_refines_queues_witness :
  queue_run (queues start) hello_run (queues heard) ∧
  reads Server hello_run = [hello] ∧ queues heard Client = [].
Proof.
  destruct (link_refines_queues start hello_run heard start_initial hello_runs) as (_ & _ & Hrun & Hall).
  split; [exact Hrun|]. split; [reflexivity|]. specialize (Hall Client).
  by apply (app_inv_head [hello]) in Hall.
Defined.

Lemma arrived_reachable : reachable arrived.
Proof.
  eapply (run_reachable start [Sent Client [hello]; Carried Client 3; Carried Client 8]);
    [by apply reachable_initial, start_initial|].
  eapply run_step; [apply hello_step|]. eapply run_step; [apply carry_step; by vm_compute|].
  eapply run_step; [apply carry_step; by vm_compute|]. constructor.
Qed.

Lemma no_false_alarm_witness :
  ∃ c', Connection.read 20 (endpoint (server arrived)) = (Ok (Some hello), c').
Proof.
  destruct (no_false_alarm arrived Server 20 arrived_reachable ltac:(apply Nat.ltb_lt; by vm_compute))
    as (res & c' & Hrun & _ & H).
  exists c'. refine (eq_trans Hrun _).
  assert ((message_size Client hello <=? length (unread (endpoint (side Server arrived))))%nat = true) as Hle
    by (vm_compute; reflexivity).
  apply Nat.leb_le in Hle.
  assert (drop (length (got (side Server arrived))) (sent (side (peer Server) arrived)) = [hello]) as Hdue
    by (vm_compute; reflexivity).
  rewrite Hdue in H. cbn iota zeta in H.
  rewrite decide_True in H by exact Hle. by destruct H as (-> & _).
Defined.

Lemma everything_is_read_witness :
  (∃ tr s', run arrived tr s' ∧ Forall quiet tr ∧ all_read s') ∧ backlog arrived = 1%nat.
Proof.
  split; [exact (proj2 (proj2 (everything_is_read arrived arrived_reachable)))|by vm_compute].
Defined.
(** The client has not closed. *)
Lemma orderly_end_witness :
  fst (session 20 3 (endpoint (server arrived))) = [Ok (Some hello); Err UnexpectedEof; Err UnexpectedEof].
Proof.
  assert (queues arrived Client = [hello]) as Hq by (vm_compute; reflexivity).
  pose proof (orderly_end arrived Server 20 2 arrived_reachable) as H. cbn zeta in H.
  change (peer Server) with Client in H. rewrite Hq in H.
  apply H; [vm_compute; reflexivity|apply Nat.ltb_lt; vm_compute; reflexivity].
Defined.

(** A session from its handshake: the server greets the client at once, and three
    bytes of the greeting come with the response. *)
Definition greeter : Connection Pipe.t :=
  match fst (accept 400 1 2 small [] chat_select (pipe [chat_request])) with
  | Ok (Upgraded c _) => c
  | _ => conn Server []
  end.
Definition greeted : Connection Pipe.t := snd (Connection.write hello greeter).
Definition arriving : nat := length chat_response + 3.
Definition newcomer : Connection Pipe.t :=
  match fst (connect 400 3 4 (bs "/chat") (bs "server.example.com") chat_protocols chat_extra nonce small
    (pipe [take arriving (outbound (stream greeted))])) with
  | Ok (c, _) => c
  | _ => conn Client []
  end.

Lemma hello_deliverable : Forall (deliverable small) [hello].
Proof. apply Forall_singleton. by vm_compute. Qed.
Lemma hello_closes : closes_last [hello].
Proof. by split. Qed.

Lemma from_the_handshake :
  initial (mkSystem (mkSide newcomer (length chat_request) [] []) (mkSide greeted arriving [hello] [])).
Proof.
  assert (∃ request p, accept 400 1 2 small [] chat_select (pipe [chat_request])
    = (Ok (Upgraded greeter request), p)) as (request & p2 & Hacc) by (vm_compute; by eexists _, _).
  assert (∃ protocol p, connect 400 3 4 (bs "/chat") (bs "server.example.com") chat_protocols chat_extra
    nonce small (pipe [take arriving (outbound (stream greeted))]) = (Ok (newcomer, protocol), p))
    as (protocol & p1 & Hcon) by (vm_compute; by eexists _, _).
  eapply (initial_upgraded (bs "/chat") (bs "server.example.com") nonce_key chat_protocols chat_extra nonce
    chat_select chat_response [] 400 3 4 small [_] newcomer protocol p1 400 1 2 small [chat_request]
    greeter request p2 greeted [hello] arriving small_good small_good chat_exchange).
  - apply app_nil_r.
  - apply Nat.ltb_lt. vm_compute. reflexivity.
  - exact Hacc.
  - apply (calls_next greeter (Write hello) greeted []); [|apply calls_done].
    unfold greeted. cbn [perform]. apply (pair_eq (Connection.write hello greeter) (Ok tt)).
    vm_compute. reflexivity.
  - exact hello_closes.
  - exact hello_deliverable.
  - split; apply Nat.leb_le; vm_compute; reflexivity.
  - apply app_nil_r.
  - apply Nat.ltb_lt. vm_compute. reflexivity.
  - exact Hcon.
Qed.
End Witnesses.
