(* ===== verification/Echo.v ===== *)
(** * The echo server ([examples/autobahn_server.rs])

    The server that the conformance suite drives: it accepts, then echoes until the
    peer closes or breaks the protocol. It uses a connection the way a caller is
    meant to, so what it does on the wire is the contract of the whole crate seen
    from outside. The listening loop and the printing around it are left out. *)
From Stdlib Require Import ZArith Lia Strings.Byte.
From stdpp Require Import base option list sets.
From S2P Require Import Prelude Bytes Opcode Mask Frame Utf8 Message Stream Handshake Conn Sample.
From S2P Require Import ConnRead ConnWrite Session Upgrade.

Section Echo.
Context `{T : Target, U : Utf8Impl, A : Alloc, N : ErrnoType}.
Context {S : Type} `{!ByteStream S, !StreamExt S}.
Abbreviation M := (stM (Connection S) Error).

(** The limits of [serve] *)
Definition serve_limits : Limits := mkLimits (32 * 1024 * 1024) (32 * 1024 * 1024).

(** The loop of [serve]: [turns] bounds its turns and [fuel] each read. *)
Fixpoint serve_loop (fuel turns : nat) : M unit :=
  match turns with
  | O => st_lift OutOfFuel
  | Datatypes.S turns =>
      read ← st_try (Connection.read fuel);
      match read with
      | Ok (Some message) =>
          match message with
          | Message.Text _ | Message.Binary _ => Connection.write message;; serve_loop fuel turns
          | Message.Ping payload => Connection.pong payload;; serve_loop fuel turns
          | Message.Pong _ => serve_loop fuel turns
          | Message.Close frame => Connection.close frame;; mret tt
          end
      | Ok None => mret tt
      | Err error =>
          match error_close_code error with
          | Some code =>
              ignored ← st_try (F := Error) (Connection.close (Some (mkCloseFrame code [])));
              st_throw error
          | None => st_throw error
          end
      | Panic => st_lift Panic
      | OutOfFuel => st_lift OutOfFuel
      end
  end.

(** [serve]: the result, and the stream as it was left. *)
Definition serve (fuel turns : nat) (nanos address : Z) (s : S) : result Error unit * S :=
  match accept fuel nanos address serve_limits [] (λ _, (None, [])) s with
  | (Ok (Upgraded conn _), _) =>
      let '(r, conn) := serve_loop fuel turns conn in (r, stream conn)
  | (Ok (Plain _ _ _), s) => (Ok tt, s)
  | (Err e, s) => (Err e, s)
  | (Panic, s) => (Panic, s)
  | (OutOfFuel, s) => (OutOfFuel, s)
  end.

(** The task of one connection in [main]: the line it leaves on standard error. *)
Definition task (fuel turns : nat) (nanos address : Z) (errno_fmt : Errno → str) (s : S) : option str :=
  match fst (serve fuel turns nanos address s) with
  | Err error => Some (bs "connection ended: " ++ error_fmt errno_fmt error)
  | _ => None
  end.

(** The loop of [main] over what [accept] has returned so far: an error is passed over,
    and every socket gets a task of its own, with a clock and a stack address of its
    own. *)
Fixpoint accept_loop (fuel turns : nat) (errno_fmt : Errno → str)
    (accepted : list (result Errno S * Z * Z)) : list (option str) :=
  match accepted with
  | [] => []
  | (Ok s, nanos, address) :: accepted =>
      task fuel turns nanos address errno_fmt s :: accept_loop fuel turns errno_fmt accepted
  | _ :: accepted => accept_loop fuel turns errno_fmt accepted
  end.
End Echo.

Section Echoes.
Context `{T : Target, !TargetOk T, U : Utf8Impl, A : Alloc, N : ErrnoType}.
Context {S : Type} `{!ByteStream S, !StreamExt S, !StreamView S, !StreamExtOk S}.
Implicit Types c : Connection S.

(** The answer to a message. *)
Definition reply (m : Message) : list byte :=
  match m with
  | Message.Text _ | Message.Binary _ => message_bytes Server 0 m
  | Message.Ping payload => message_bytes Server 0 (Message.Pong payload)
  | Message.Pong _ => []
  | Message.Close _ => message_bytes Server 0 (received m)
  end.

Lemma server_bytes st m : message_bytes Server st m = message_bytes Server 0 m.
Proof. done. Qed.

(** A successful read takes at least a frame's two bytes. *)
Lemma read_spec_consumes r ending a w res a' w' :
  read_spec r ending a w res a' w' →
  (length w' ≤ length w)%nat ∧ (∀ m, res = Ok (Some m) → (length w' < length w)%nat).
Proof.
  induction 1 as [a w H|a w e a' w' H|a w m a' w' H|a w a1 w1 res a' w' H Hd [IH1 IH2]].
  - split; [done|]. intros m. unfold at_end. repeat case_match; congruence.
  - split; [|done]. revert H. unfold frame_step.
    repeat (case_match; try done); intros [= <- <- <-]; rewrite ?length_drop; lia.
  - apply frame_step_shrinks in H. split; [lia|]. intros; lia.
  - apply frame_step_shrinks in H. split; [lia|]. intros m ->. specialize (IH2 m eq_refl). lia.
Qed.

(** What one side of the reads leaves for the next. *)
Lemma try_read fuel c :
  ready fuel c →
  ∃ res c', st_try (F := Error) (Connection.read fuel) c = (Ok res, c') ∧ returns res ∧
    reads_to c res c' ∧ ready fuel c'.
Proof.
  intros Hready. destruct (ready_step fuel c Hready) as (res & c' & Hrun & Hto & Hready').
  pose proof Hready as (Hwf & _ & _). destruct Hto as (Hspec & Hrest).
  destruct (read_spec_wf _ _ _ _ _ _ _ Hwf Hspec) as (Hret & _).
  exists res, c'. split; [|done]. unfold st_try. rewrite Hrun. by destruct res.
Qed.

(** What the methods of a server that the loop calls do to the connection. *)
Definition served (data : list byte) c (p : result Error unit * Connection S) : Prop :=
  ∃ r c', p = (r, c') ∧ same_reader c c' ∧ same_inbound (stream c) (stream c') ∧
    match r with
    | Ok _ => outbound (stream c') = outbound (stream c) ++ data
    | Err (Io _) => ∃ k, outbound (stream c') = outbound (stream c) ++ take k data
    | _ => False
    end.

Lemma wrote_served data c r c' :
  wrote data (stream c) (r, stream c') → same_reader c c' → served data c (map_err Io r, c').
Proof.
  intros [Hi Hw] Hs. exists (map_err Io r), c'. split_and!; try done. by destruct r as [[]| | |].
Qed.

Lemma write_served m c :
  role c = Server → served (message_bytes Server 0 m) c (Connection.write m c).
Proof.
  intros Hr. destruct (write_run m c) as (r & c' & -> & Hw & Hs & _). rewrite Hr in Hw.
  by apply wrote_served.
Qed.

Lemma pong_served payload c :
  role c = Server → served (message_bytes Server 0 (Message.Pong payload)) c (Connection.pong payload c).
Proof.
  intros Hr. destruct (write_frame_sent Pong true payload c) as (r & s & sc & Hp & Hw%handed_wrote).
  unfold Connection.pong. rewrite Hp. rewrite Hr in Hw. by apply wrote_served.
Qed.

Lemma close_served f c :
  role c = Server → close_sent c = false →
  served (message_bytes Server 0 (Message.Close f)) c (Connection.close f c).
Proof.
  intros Hr Hc. unfold Connection.close. rewrite (bind_ok st_get _ c c c) by done.
  rewrite Hc. by apply write_served.
Qed.

Lemma write_open m c : is_close m = false → close_sent (snd (Connection.write m c)) = close_sent c.
Proof.
  intros Hm. destruct (write_run m c) as (r & c' & -> & _ & _ & _ & _ & Hc).
  by rewrite Hm, orb_false_r in Hc.
Qed.
Lemma pong_open payload c : close_sent (snd (Connection.pong payload c)) = close_sent c.
Proof.
  unfold Connection.pong. by destruct (write_frame_sent Pong true payload c) as (r & s & sc & -> & _).
Qed.

Lemma served_ready fuel data c r c' :
  served data c (r, c') → ready fuel c → ready fuel c' ∧ unread c' = unread c ∧ role c' = role c ∧
    assembler c' = assembler c.
Proof.
  intros (r1 & c1 & [= <- <-] & (Hr & Ha & Hb) & [Hi _] & _) (Hwf & Hl & Hf).
  unfold ready, unread. rewrite Ha, Hb, Hi. by split_and!.
Qed.

(** What the client sent, as the server's reads return it. *)
Definition before_close (m : Message) : Prop := is_close m = false.

(** What the server is waiting for. *)
Record serving (fuel : nat) (st : Z) (ms : list Message) (more : list byte) c : Prop := mkServing {
  sv_ready : ready fuel c;
  sv_role : role c = Server;
  sv_unread : unread c = messages_bytes Client st ms ++ more;
  sv_open : closed (assembler c) = false;
  sv_partial : partial (assembler c) = None;
  sv_close : close_sent c = false;
  sv_messages : Forall (deliverable (limits (assembler c))) ms;
}.

Lemma serving_read fuel st m ms more c :
  serving fuel st (m :: ms) more c →
  ∃ c', st_try (F := Error) (Connection.read fuel) c = (Ok (Ok (Some (received m))), c') ∧
    outbound (stream c') = outbound (stream c) ∧
    ready fuel c' ∧ role c' = Server ∧ close_sent c' = false ∧
    unread c' = messages_bytes Client (state_out Client st) ms ++ more ∧
    assembler c' = after_message m (assembler c).
Proof.
  intros [Hready Hrole Hun Hopen Hpart Hclose Hms].
  destruct (try_read fuel c Hready) as (res & c' & Hrun & _ & (Hspec & Hsame & _) & Hready').
  apply Forall_cons in Hms as [Hm Hms]. rewrite Hrole, Hun in Hspec.
  cbn [messages_bytes] in Hspec. rewrite <- app_assoc in Hspec.
  eapply read_spec_got in Hspec as (Hres & Ha & Hw);
    [|by apply (frame_step_message Client st (assembler c) m)].
  rewrite Hres in Hrun.
  destruct Hsame as (Hr & _ & _ & _ & Hc & _ & Ho). exists c'. split; [exact Hrun|]. split_and!; try done; congruence.
Qed.

(** The turn of a message that is answered and does not end the loop. *)
Lemma serve_answer fuel turns st m ms more c c1 (act : stM (Connection S) Error unit) :
  serve_loop fuel (Datatypes.S turns) c = (act;; serve_loop fuel turns) c1 →
  served (reply m) c1 (act c1) → close_sent (snd (act c1)) = false →
  ready fuel c1 → role c1 = Server → unread c1 = messages_bytes Client st ms ++ more →
  closed (assembler c1) = false → partial (assembler c1) = None →
  Forall (deliverable (limits (assembler c1))) ms →
  (∃ c2, act c1 = (Ok tt, c2) ∧ serving fuel st ms more c2 ∧
     outbound (stream c2) = outbound (stream c1) ++ reply m ∧
     serve_loop fuel (Datatypes.S turns) c = serve_loop fuel turns c2) ∨
  (∃ e c2 k, serve_loop fuel (Datatypes.S turns) c = (Err (Io e), c2) ∧
     outbound (stream c2) = outbound (stream c1) ++ take k (reply m)).
Proof.
  intros Hstep Hserved Hclose Hready Hrole Hun Hopen Hpart Hms. rewrite Hstep.
  pose proof Hserved as (r & c2 & Hact & _ & _ & Ho). rewrite Hact in Hserved, Hclose.
  destruct (served_ready fuel _ _ _ _ Hserved Hready) as (Hready2 & Hun2 & Hrole2 & Ha2).
  cbn [snd] in Hclose. destruct r as [[]|e| |]; try done.
  - left. exists c2. split; [exact Hact|]. split; [split; congruence|]. split; [exact Ho|].
    by rewrite (bind_ok _ _ _ _ _ Hact).
  - right. destruct e; try done. destruct Ho as [k Ho]. exists e, c2, k.
    split; [|exact Ho]. by rewrite (bind_err _ _ _ _ _ Hact).
Qed.

Definition answer (m : Message) : stM (Connection S) Error unit :=
  match m with
  | Message.Text _ | Message.Binary _ => Connection.write m
  | Message.Ping payload => Connection.pong payload
  | Message.Pong _ => mret tt
  | Message.Close frame => Connection.close frame
  end.

Lemma answer_served m c :
  is_close m = false → role c = Server → close_sent c = false →
  served (reply m) c (answer m c) ∧ close_sent (snd (answer m c)) = false.
Proof.
  intros Hm Hr Hc. destruct m as [p|p|p|p|f]; cbn [answer reply]; try done.
  - split; [by apply write_served|by rewrite write_open].
  - split; [by apply write_served|by rewrite write_open].
  - split; [by apply pong_served|by rewrite pong_open].
  - split; [|done]. exists (Ok tt), c. by rewrite app_nil_r.
Qed.

Lemma serve_step fuel turns m c c1 :
  st_try (F := Error) (Connection.read fuel) c = (Ok (Ok (Some m)), c1) → is_close m = false →
  serve_loop fuel (Datatypes.S turns) c = (answer m;; serve_loop fuel turns) c1.
Proof.
  intros Hrun Hm. cbn [serve_loop]. rewrite (bind_ok _ _ _ _ _ Hrun). by destruct m.
Qed.

Lemma echo_run fuel turns st body f more c :
  serving fuel st (body ++ [Message.Close f]) more c → Forall before_close body →
  (length body < turns)%nat →
  let replies := concat (reply <$> body ++ [Message.Close f]) in
  ∃ r c', serve_loop fuel turns c = (r, c') ∧
    match r with
    | Ok _ => outbound (stream c') = outbound (stream c) ++ replies
    | Err (Io _) => ∃ k, outbound (stream c') = outbound (stream c) ++ take k replies
    | _ => False
    end.
Proof.
  revert turns st c. induction body as [|m body IH]; intros turns st c Hs Hbody Hturns;
    (destruct turns as [|turns]; [lia|]); cbn zeta.
  - destruct (serving_read _ _ _ _ _ _ Hs) as (c1 & Hrun & Ho & Hready & Hrole & Hclose & _).
    assert (∃ f', received (Message.Close f) = Message.Close f') as [f' Hf] by (destruct f; by eexists).
    cbn [serve_loop]. rewrite (bind_ok _ _ _ _ _ Hrun), Hf.
    destruct (close_served f' c1 Hrole Hclose) as (r & c2 & Hact & _ & _ & Hout).
    assert (concat (reply <$> [] ++ [Message.Close f]) = message_bytes Server 0 (Message.Close f')) as ->
      by (cbn [app fmap list_fmap concat reply]; by rewrite Hf, app_nil_r).
    destruct r as [[]|e| |]; try done.
    + rewrite (bind_ok _ _ _ _ _ Hact). exists (Ok tt), c2. split; [done|]. by rewrite Hout, Ho.
    + rewrite (bind_err _ _ _ _ _ Hact). exists (Err e), c2. split; [done|]. by rewrite <- Ho.
  - apply Forall_cons in Hbody as [Hm Hbody]. cbn [length app] in *.
    destruct (serving_read _ _ _ _ _ _ Hs) as (c1 & Hrun & Ho & Hready & Hrole & Hclose & Hun & Ha).
    destruct Hs as [_ _ _ Hopen Hpart _ [_ Hms]%Forall_cons].
    assert (received m = m) as Hrec by by destruct m.
    unfold after_message in Ha. rewrite Hm in Ha. rewrite Hrec in Hrun.
    destruct (answer_served m c1 Hm Hrole Hclose) as [Hserved Hopen1].
    pose proof (serve_step fuel turns m c c1 Hrun Hm) as Hstep.
    destruct (serve_answer fuel turns (state_out Client st) m (body ++ [Message.Close f]) more c c1
      (answer m) Hstep Hserved Hopen1 Hready Hrole Hun) as [(c2 & _ & Hs2 & Ho2 & ->)|(e & c2 & k & -> & Ho2)];
      [by rewrite Ha..| |].
    + destruct (IH turns _ c2 Hs2 Hbody) as (r & c' & -> & H); [lia|].
      exists r, c'. split; [done|]. rewrite fmap_cons. cbn [concat]. rewrite app_assoc, <- Ho, <- Ho2.
      destruct r as [?|e| |]; try done. destruct e; try done. destruct H as [k H].
      exists (length (reply m) + k)%nat. by rewrite H, take_app_add, app_assoc, Ho2, Ho.
    + exists (Err (Io e)), c2. split; [done|]. exists (Nat.min k (length (reply m))).
      rewrite fmap_cons. cbn [concat]. rewrite take_app_le by lia.
      by rewrite Ho2, Ho, <- take_take, firstn_all.
Qed.

(** C20: the echo server echoes. Take a server connection on which nothing was closed
    and no message is begun, whose peer, a client, has sent or is still to send text,
    binary, ping and pong messages and then a close frame, in any pieces; all of them
    deliverable under the connection's limits: within its frame and message limits,
    pings, pongs and close frames of at most 125 bytes, text and reasons in UTF-8,
    close codes that may be sent. Given enough turns, the server answers each text and
    binary message with itself, each ping with a pong of its payload, no pong, and the
    close frame with a close frame of the same code and reason, in this order and with
    nothing else, and stops. Only a failing stream keeps it from it, and then what was
    written is a prefix of that. *)
Theorem serve_echoes fuel turns st body f more c :
  serving fuel st (body ++ [Message.Close f]) more c → Forall before_close body →
  (length body < turns)%nat →
  let replies := concat (reply <$> body ++ [Message.Close f]) in
  ∃ r c', serve_loop fuel turns c = (r, c') ∧
    match r with
    | Ok _ => outbound (stream c') = outbound (stream c) ++ replies
    | Err (Io _) => ∃ k, outbound (stream c') = outbound (stream c) ++ take k replies
    | _ => False
    end.
Proof. apply echo_run. Qed.

(** C29: the echo server says why. When a read on a connection that sent no close frame
    fails with an error that the RFC gives a close code, the server gives the stream,
    in one write, a close frame with that code, which is one that may be sent, and an
    empty reason; all of it goes out unless the stream fails, and whether or not it
    does, the server gives up with the error of the read. After any other error it
    does nothing more to the connection. *)
Theorem serve_reports fuel turns e c c1 :
  ready fuel c → role c = Server → close_sent c = false →
  Connection.read fuel c = (Err e, c1) →
  let '(r, c') := serve_loop fuel (Datatypes.S turns) c in
  r = Err e ∧ outbound (stream c1) = outbound (stream c) ∧
  match error_close_code e with
  | Some code => CloseCode.is_sendable code = true ∧ close_sent c' = true ∧
      let frame := message_bytes Server 0 (Message.Close (Some (mkCloseFrame code []))) in
      ∃ w, handed frame (stream c1) (w, stream c') ∧ wrote frame (stream c1) (w, stream c')
  | None => c' = c1
  end.
Proof.
  intros Hready Hrole Hclose Hrun.
  destruct (ready_step fuel c Hready) as (res & c1' & Hrun' & (_ & Hsame & _) & _).
  rewrite Hrun in Hrun'. injection Hrun' as <- <-.
  destruct Hsame as (Hr & _ & _ & _ & Hc & _ & Ho).
  assert (st_try (F := Error) (Connection.read fuel) c = (Ok (Err e), c1)) as Htry
    by (unfold st_try; by rewrite Hrun).
  cbn [serve_loop]. rewrite (bind_ok _ _ _ _ _ Htry).
  destruct (error_close_code e) as [code|] eqn:Hcode; [|done].
  assert (CloseCode.is_sendable code = true) as Hsend
    by (by destruct e as [|[]|[]| | | |]; simplify_eq/=).
  set (frame := mkCloseFrame code []). unfold Connection.close.
  unfold mbind at 1, stM_bind at 1, st_try.
  rewrite (bind_ok st_get _ c1 c1 c1) by done. rewrite Hc, Hclose.
  destruct (write_handed (Message.Close (Some frame)) c1) as (r & c2 & -> & Hh & Hcl).
  cbn [is_close] in Hcl. rewrite orb_true_r in Hcl. rewrite Hr, Hrole in Hh.
  pose proof (handed_wrote _ _ _ Hh) as Hw.
  destruct r as [[]|io| |]; try (by destruct Hw); cbn [map_err];
    (split_and!; try done); by eexists.
Qed.

Lemma answer_keeps m c :
  returns (fst (answer m c)) ∧ same_reader c (snd (answer m c)) ∧
  same_inbound (stream c) (stream (snd (answer m c))).
Proof.
  assert (∀ m, returns (fst (Connection.write m c)) ∧ same_reader c (snd (Connection.write m c)) ∧
    same_inbound (stream c) (stream (snd (Connection.write m c)))) as Hwrite.
  { intros m'. destruct (write_run m' c) as (r & c' & -> & [Hi Hw] & Hs & _).
    split_and!; try done. by destruct r. }
  destruct m as [p|p|p|p|f]; cbn [answer]; [apply Hwrite..| |done|].
  - unfold Connection.pong.
    destruct (write_frame_sent Pong true p c) as (r & s & sc & -> & [Hi Hw]%handed_wrote).
    split_and!; try done. by destruct r.
  - unfold Connection.close. rewrite (bind_ok st_get _ c c c) by done.
    destruct (close_sent c); [done|apply Hwrite].
Qed.

(** C30: serving a connection ends. A server that is given one turn for each byte the
    peer still has, and one more, returns, with or without an error: it neither
    panics nor goes round without end, whatever the peer sends. *)
Theorem serve_terminates fuel turns c :
  ready fuel c → (length (unread c) < turns)%nat → returns (fst (serve_loop fuel turns c)).
Proof.
  revert c. induction turns as [|turns IH]; intros c Hready Hturns; [lia|].
  destruct (try_read fuel c Hready) as (res & c1 & Hrun & Hret & (Hspec & _ & _) & Hready1).
  pose proof (read_spec_consumes _ _ _ _ _ _ _ Hspec) as [_ Hless].
  destruct res as [[m|]|e| |]; try done.
  - specialize (Hless m eq_refl).
    destruct (answer_keeps m c1) as (Hans & (Hr & Ha & Hb) & [Hi He]).
    destruct (answer m c1) as [r c2] eqn:Hact. cbn [fst snd] in *.
    assert (ready fuel c2) as Hready2.
    { destruct Hready1 as (Hwf & Hl & Hf). unfold ready. rewrite Ha, Hi. by split_and!. }
    assert (unread c2 = unread c1) as Hun by (unfold unread; by rewrite Hb, Hi).
    specialize (IH c2 Hready2 ltac:(rewrite Hun; lia)).
    destruct (is_close m) eqn:Hm.
    + destruct m as [p|p|p|p|f]; try done. cbn [serve_loop].
      rewrite (bind_ok _ _ _ _ _ Hrun). cbn [answer] in Hact. unfold mbind, stM_bind.
      rewrite Hact. by destruct r.
    + rewrite (serve_step fuel turns m c c1 Hrun Hm). unfold mbind, stM_bind. rewrite Hact.
      by destruct r.
  - cbn [serve_loop]. by rewrite (bind_ok _ _ _ _ _ Hrun).
  - cbn [serve_loop]. rewrite (bind_ok _ _ _ _ _ Hrun).
    destruct (error_close_code e) as [code|]; [|done].
    destruct (answer_keeps (Message.Close (Some (mkCloseFrame code []))) c1) as (Hans & _ & _).
    cbn [answer] in Hans. unfold mbind, stM_bind, st_try.
    by destruct (Connection.close _ c1) as [[?|?| |] c2].
Qed.
End Echoes.

(** ** Examples *)
Section Witnesses.
Import Sample.

Definition said : list Message := [Message.Text (bs "hi"); Message.Ping (bs "?")].

(** A server connection whose peer, a client that starts from the state 7, says
    [said] and closes, one byte at a time. *)
Definition visited : Connection Pipe.t :=
  conn Server ((λ b, [b]) <$> messages_bytes Client 7 (said ++ [Message.Close None])).

Lemma visited_serving : serving 60 7 (said ++ [Message.Close None]) [] visited.
Proof.
  split.
  - by apply conn_ready.
  - reflexivity.
  - by vm_compute.
  - reflexivity.
  - reflexivity.
  - reflexivity.
  - change (limits (assembler visited)) with small.
    repeat (apply Forall_cons; split); [by vm_compute..|by apply Forall_nil].
Qed.

Lemma serve_echoes_witness :
  ∃ r c', serve_loop 60 3 visited = (r, c') ∧
    match r with
    | Ok _ => outbound (stream c')
        = [] ++ [x81; x02] ++ bs "hi" ++ [x8a; x01] ++ bs "?" ++ [x88; x00]
    | Err (Io _) => True
    | _ => False
    end.
Proof.
  destruct (serve_echoes 60 3 7 said None [] visited visited_serving) as (r & c' & Hrun & H);
    [by repeat constructor|by apply Nat.ltb_lt|].
  exists r, c'. split; [exact Hrun|]. destruct r as [?|e| |]; [exact H| |exact H..].
  destruct e; [exact I|exact H..].
Defined.

Lemma serve_reports_witness :
  let c := conn Server [[x81; x02]; bs "hi"] in
  fst (serve_loop 10 2 c) = Err MaskingViolation ∧
  outbound (stream (snd (serve_loop 10 2 c)))
    = message_bytes Server 0 (Message.Close (Some (mkCloseFrame CloseCode.PROTOCOL []))).
Proof.
  cbn zeta. set (c := conn _ _).
  pose proof (serve_reports 10 1 MaskingViolation c (snd (Connection.read 10 c))
    ltac:(by apply conn_ready) eq_refl eq_refl ltac:(by vm_compute)) as H.
  split; [|by vm_compute]. destruct (serve_loop 10 2 c) as [r c']. exact (proj1 H).
Defined.

Lemma serve_terminates_witness :
  returns (fst (serve_loop 12 12 (conn Server [masked_hello]))).
Proof.
  apply serve_terminates; [by apply conn_ready|by apply Nat.ltb_lt].
Defined.
End Witnesses.
