(* ===== verification/EchoTrip.v ===== *)
(** * A client and the echo server, from end to end

    The whole of the crate in one conversation: a client connects, is upgraded, sends
    messages of every kind and a close frame; the server of [examples/autobahn_server.rs]
    reads and answers them; and the client reads what comes back. The only thing said of
    the bytes between the two is that what one side writes is what reaches the other,
    in whatever pieces. *)
From Stdlib Require Import ZArith Lia Strings.Byte.
From stdpp Require Import base option list.
From S2P Require Import Prelude Bytes Opcode Mask Frame Utf8 Message Stream Handshake Conn Sample.
From S2P Require Import HandshakeTrip ConnRead ConnWrite Session Truncation Upgrade Echo.

Section Echoed.
Context `{T : Target, U : Utf8Impl, A : Alloc, N : ErrnoType}.

(** What a client hears back for a message. *)
Definition echo (m : Message) : list Message :=
  match m with
  | Message.Text _ | Message.Binary _ => [m]
  | Message.Ping payload => [Message.Pong payload]
  | Message.Pong _ => []
  | Message.Close _ => [received m]
  end.
Definition echoes (ms : list Message) : list Message := concat (echo <$> ms).

Lemma reply_echo m : reply m = messages_bytes Server 0 (echo m).
Proof. by destruct m; cbn [reply echo messages_bytes]; rewrite ?app_nil_r. Qed.

Lemma replies_echoes ms : concat (reply <$> ms) = messages_bytes Server 0 (echoes ms).
Proof.
  unfold echoes. induction ms as [|m ms IH]; [done|]. rewrite !fmap_cons. cbn [concat].
  rewrite messages_bytes_app, reply_echo, IH. f_equal. by destruct m.
Qed.

(** The echoes are messages that the client can read. *)
Lemma received_received m : received (received m) = received m.
Proof.
  destruct m as [| | | |[[code why]|]]; try done. cbn [received]. unfold sanitised.
  cbn [close_code reason]. by destruct (CloseCode.is_sendable code) eqn:Hc; rewrite ?Hc.
Qed.
Lemma received_echoes ms : received <$> echoes ms = echoes ms.
Proof.
  unfold echoes. induction ms as [|m ms IH]; [done|]. rewrite fmap_cons. cbn [concat].
  rewrite fmap_app, IH. f_equal. destruct m as [| | | |f]; try done. cbn [echo].
  by rewrite list_fmap_singleton, received_received.
Qed.

Lemma deliverable_received l m : deliverable l m → deliverable l (received m).
Proof. by destruct m as [| | | |[[code why]|]]. Qed.
Lemma deliverable_echoes l ms : Forall (deliverable l) ms → Forall (deliverable l) (echoes ms).
Proof.
  unfold echoes. induction 1 as [|m ms Hm _ IH]; [by apply Forall_nil|]. rewrite fmap_cons.
  cbn [concat]. apply Forall_app. split; [|done].
  destruct m as [p|p|p|p|f]; cbn [echo]; rewrite ?Forall_singleton; try done.
  by apply deliverable_received.
Qed.

Lemma echoes_open ms : Forall before_close ms → existsb is_close (echoes ms) = false.
Proof.
  unfold echoes. induction 1 as [|m ms Hm _ IH]; [done|]. rewrite fmap_cons. cbn [concat].
  rewrite existsb_app, IH. by destruct m.
Qed.
Lemma open_closes_last ms : existsb is_close ms = false → closes_last ms.
Proof.
  induction ms as [|m ms IH]; [done|]. cbn. intros [Hm Hms]%orb_false_iff.
  split; [by rewrite Hm|by apply IH].
Qed.

Lemma echoes_closed body f :
  Forall before_close body →
  closes_last (echoes (body ++ [Message.Close f])) ∧
  existsb is_close (echoes (body ++ [Message.Close f])) = true.
Proof.
  intros Hbody%echoes_open. unfold echoes in *. rewrite fmap_app, concat_app.
  rewrite existsb_app, closes_last_app, Hbody.
  split; [|by destruct f]. split_and!; [by apply open_closes_last|by destruct f|done].
Qed.
End Echoed.

(** ** The server's half *)
Section Server.
Context `{T : Target, !TargetOk T, U : Utf8Impl, A : Alloc, !AllocOk A, N : ErrnoType}.
Context {S : Type} `{!ByteStream S, !StreamExt S, !StreamView S, !StreamExtOk S}.

Lemma serve_limits_good : Assembler.limits_ok serve_limits ∧ limits_fit serve_limits.
Proof.
  unfold Assembler.limits_ok, limits_fit, usize_max. cbn [max_message max_frame serve_limits].
  destruct usize_bits_ok as [-> | ->]; cbn; lia.
Qed.

(** A connection as the handshake hands it over can be read from. *)
Lemma fresh_ready fuel r l (s : S) rest c :
  Assembler.limits_ok l → limits_fit l → fresh r l s rest c →
  (length (inbound s) < fuel)%nat → ready fuel c.
Proof.
  intros Hl Hfit (_ & Ha & Hs & _) Hfuel. unfold ready. rewrite Ha, Hs. by split_and!.
Qed.
Lemma unread_length (c : Connection S) : (length (inbound (stream c)) ≤ length (unread c))%nat.
Proof. unfold unread. len_lia. Qed.

(** [serve] of a client that asks for an upgrade, sends messages, and closes. *)
Lemma serve_exchange path host key protocols extra entropy response fuel turns nanos address
    st body f more (s : S) :
  exchange path host key protocols extra entropy (λ _, (None, [])) response →
  (length (inbound s) < fuel)%nat → (length body < turns)%nat →
  inbound s = build_request path host key protocols extra
    ++ messages_bytes Client st (body ++ [Message.Close f]) ++ more →
  Forall before_close body → Forall (deliverable serve_limits) (body ++ [Message.Close f]) →
  let '(r, s') := serve fuel turns nanos address s in
  match r with
  | Ok _ => outbound s' = outbound s ++ response
      ++ messages_bytes Server 0 (echoes (body ++ [Message.Close f]))
  | Err (Io _) => True
  | _ => False
  end.
Proof.
  intros Hex Hfuel Hturns Hin Hbody Hms. unfold serve.
  pose proof (accept_agrees _ _ _ _ _ _ _ _ fuel nanos address serve_limits [] _ s Hex Hfuel Hin) as H.
  destruct (accept _ _ _ _ _ _ s) as [[[c req| ]|e| |] s1]; try done.
  destruct H as (_ & _ & Ho & rest & Hfresh & Hun). destruct serve_limits_good as [Hl Hfit].
  assert (serving fuel st (body ++ [Message.Close f]) more c) as Hs.
  { pose proof (unread_length c) as Hlen. rewrite Hun in Hlen. rewrite Hin in Hfuel.
    pose proof Hfresh as (Hr & Ha & Hst & _ & _ & Hcl).
    split; rewrite ?Ha; try done. eapply (fresh_ready fuel Server serve_limits s1); try done.
    rewrite <- Hst. rewrite length_app in Hfuel. lia. }
  destruct (echo_run fuel turns st body f more c Hs Hbody Hturns) as (r & c' & -> & H).
  destruct Hfresh as (_ & _ & Hst & _).
  destruct r as [[]|e| |]; try done; [|by destruct e].
  by rewrite H, Hst, Ho, replies_echoes, <- app_assoc.
Qed.
End Server.

(** ** The client's half *)
Section Client.
Context `{T : Target, !TargetOk T, U : Utf8Impl, A : Alloc, !AllocOk A, N : ErrnoType}.
Context {S : Type} `{!ByteStream S, !StreamExt S, !StreamView S, !StreamExtOk S}.

(** What a client has written that connected and then sent some messages. *)
Lemma connect_writes fuel nanos address path host key protocols extra entropy l ms
    (s s1 : S) c protocol c1 :
  @new_key Error entropy = Ok key → length entropy = 16%nat →
  (length (inbound s) < fuel)%nat →
  connect fuel nanos address path host protocols extra entropy l s = (Ok (c, protocol), s1) →
  Connection.write_all ms c = (Ok tt, c1) →
  outbound (stream c1) = outbound s ++ build_request path host key protocols extra
    ++ messages_bytes Client (mask_state c) ms.
Proof.
  intros Hkey Hent Hfuel Hconn Hwrite.
  destruct (connect_run fuel nanos address path host protocols extra entropy l s Hent Hfuel)
    as (key' & Hkey' & _ & H). rewrite Hkey in Hkey'. injection Hkey' as <-.
  rewrite Hconn in H. destruct H as (_ & head & rest & s0 & _ & _ & Ho & _ & _ & (Hr & _ & Hs & _) & _).
  destruct (write_all_run ms c) as (r & c' & Hrun & [[_ Hw] _] & _).
  rewrite Hwrite in Hrun. injection Hrun as Hok <-. destruct r as [[]| | |]; try done.
  by rewrite Hw, Hs, Ho, Hr, app_assoc.
Qed.

(** What it reads of a server that answered the handshake and then sent messages of its
    own. *)
Lemma connect_reads fuel nanos address path host key protocols extra entropy select response l
    ms replies extra_reads (s s1 : S) c protocol c1 :
  exchange path host key protocols extra entropy select response →
  Assembler.limits_ok l → limits_fit l → (length (inbound s) < fuel)%nat →
  connect fuel nanos address path host protocols extra entropy l s = (Ok (c, protocol), s1) →
  Connection.write_all ms c = (Ok tt, c1) →
  inbound s = response ++ messages_bytes Server 0 replies →
  Forall (deliverable l) replies → closes_last replies → existsb is_close replies = true →
  fst (session fuel (length replies + extra_reads) c1)
  = ((λ m, Ok (Some (received m))) <$> replies)
    ++ replicate extra_reads
         match ending s with Some e => Err (Io e) | None => Ok None end.
Proof.
  intros Hex Hl Hfit Hfuel Hconn Hwrite Hin Hms Hlast Hclose.
  pose proof (connect_agrees _ _ _ _ _ _ _ _ fuel nanos address l _ s Hex Hfuel Hin) as H.
  cbn zeta in H. rewrite Hconn in H. destruct H as (_ & He & _ & rest & Hfresh & Hun).
  destruct (write_all_run ms c) as (r & c' & Hrun & [[[Hi1 He1] _] _] & (Hr & Ha & Hb) & _).
  rewrite Hwrite in Hrun. injection Hrun as _ <-.
  assert (unread c1 = messages_bytes Server 0 replies) as Hun1
    by (unfold unread in *; by rewrite Hb, Hi1).
  pose proof (unread_length c1) as Hlen. rewrite Hun1 in Hlen.
  rewrite Hin, length_app in Hfuel. pose proof Hfresh as (Hrole & Hasm & Hst & _).
  assert (ready fuel c1) as Hready by (unfold ready; rewrite Ha, Hasm; split_and!; [done..|lia]).
  pose proof (session_part fuel Server 0 replies (length (messages_bytes Server 0 replies))
    extra_reads c1 Hready ltac:(by rewrite Hr) ltac:(by rewrite firstn_all)
    ltac:(by rewrite Ha, Hasm) ltac:(by rewrite Ha, Hasm) ltac:(by rewrite Ha, Hasm) Hlast) as H.
  cbn zeta in H. rewrite whole_all, firstn_all, Hclose in H by done.
  rewrite He1, Hst, He in H. by destruct (session _ _ c1).
Qed.
End Client.

(** ** Both *)
Section Trip.
Context `{T : Target, !TargetOk T, U : Utf8Impl, A : Alloc, !AllocOk A, N : ErrnoType}.
Context {S1 S2 : Type}.
Context `{!ByteStream S1, !StreamExt S1, !StreamView S1, !StreamExtOk S1}.
Context `{!ByteStream S2, !StreamExt S2, !StreamView S2, !StreamExtOk S2}.

(** C3: the echo, from end to end. A client connects to the echo server, writes text,
    binary, ping and pong messages in one batch and a close frame at the end, all of
    them within the limits of both; what it wrote reaches the server, followed by
    anything. Then serving it comes to an end, with nothing but a failing stream to
    keep the server from answering everything; and once what the server wrote has
    reached the client, the client's reads return each text and binary message as it
    was sent and for each ping a pong of its payload, in this order, then the close
    frame (its code sanitised), and after it nothing but the end of the stream. The
    handshake, the masking, the framing and the pieces the bytes came in leave no
    trace. *)
Theorem echo_round_trip path host key protocols extra entropy response limits1
    fuel1 nanos1 address1 fuel2 turns nanos2 address2 body f more extra_reads
    (client client1 : S1) c protocol c1 (server : S2) :
  exchange path host key protocols extra entropy (λ _, (None, [])) response →
  length entropy = 16%nat → Assembler.limits_ok limits1 → limits_fit limits1 →
  (length (inbound client) < fuel1)%nat → (length (inbound server) < fuel2)%nat →
  (length body < turns)%nat → Forall before_close body →
  let messages := body ++ [Message.Close f] in
  Forall (deliverable limits1) messages → Forall (deliverable serve_limits) messages →
  connect fuel1 nanos1 address1 path host protocols extra entropy limits1 client
    = (Ok (c, protocol), client1) →
  Connection.write_all messages c = (Ok tt, c1) →
  inbound server = drop (length (outbound client)) (outbound (stream c1)) ++ more →
  let '(r, server1) := serve fuel2 turns nanos2 address2 server in
  match r with
  | Ok _ =>
      inbound client = drop (length (outbound server)) (outbound server1) →
      fst (session fuel1 (length (echoes messages) + extra_reads) c1)
      = ((λ m, Ok (Some m)) <$> echoes messages)
        ++ replicate extra_reads
             match ending client with Some e => Err (Io e) | None => Ok None end
  | Err (Io _) => True
  | _ => False
  end.
Proof.
  intros Hex Hent Hl Hfit Hf1 Hf2 Hturns Hbody messages Hms1 Hms2 Hconn Hwrite Hin.
  pose proof (connect_writes _ _ _ _ _ _ _ _ _ _ _ _ _ _ _ _ (ex_key _ _ _ _ _ _ _ _ Hex)
    Hent Hf1 Hconn Hwrite) as Hout.
  rewrite Hout, drop_app_length, <- app_assoc in Hin.
  pose proof (serve_exchange _ _ _ _ _ _ _ fuel2 turns nanos2 address2 _ body f more server
    Hex Hf2 Hturns Hin Hbody Hms2) as Hserve.
  destruct (serve _ _ _ _ server) as [[[]|e| |] server1]; try done.
  rewrite Hserve, drop_app_length. intros Hback.
  destruct (echoes_closed body f Hbody) as [Hlast Hclose].
  fold messages in Hback, Hlast, Hclose.
  rewrite (connect_reads _ _ _ _ _ _ _ _ _ _ _ _ _ _ extra_reads _ _ _ _ _ Hex Hl Hfit Hf1
    Hconn Hwrite Hback (deliverable_echoes _ _ Hms1) Hlast Hclose).
  f_equal. rewrite <- (received_echoes messages) at 2. by rewrite <- list_fmap_compose.
Qed.
End Trip.

(** ** Example *)
Section Witnesses.
Import Sample.

(** A client without subprotocols; the other side of its stream is what an echo server
    is going to say, in pieces of sizes of their own. *)
Definition hello_body : list Message :=
  [Message.Text (bs "hi"); Message.Ping (bs "?"); Message.Pong (bs "."); Message.Binary [x00; xff]].
Definition hello_messages : list Message :=
  hello_body ++ [Message.Close (Some (mkCloseFrame (mkCloseCode 1005) (bs "bye")))].
Definition plain_response : list byte :=
  given [] (@build_response target Empty_set nonce_key None []).
Definition hello_answer : list byte := plain_response
  ++ [x81; x02] ++ bs "hi" ++ [x8a; x01] ++ bs "?" ++ [x82; x02; x00; xff]
  ++ [x88; x05; x03; xf3] ++ bs "bye".

Definition caller : Pipe.t := pipe [take 100 hello_answer; drop 100 hello_answer].
Abbreviation called := (connect 400 1 2 (bs "/") (bs "localhost:9001") [] [] nonce small caller).
Definition connected : Connection Pipe.t :=
  fst (given (conn Client [], None) (fst called)).
Definition written : Connection Pipe.t := snd (Connection.write_all hello_messages connected).
Definition callee : Pipe.t := pipe ((λ b, [b]) <$> outbound (stream written)).

Lemma plain_request_ok : request_ok (bs "/") (bs "localhost:9001") nonce_key [] [].
Proof.
  split.
  - split_and!; by first [apply not_elem_bool|done].
  - by apply graphic_header; first [done|apply not_elem_bool].
  - vm_compute. reflexivity.
  - by apply Forall_nil.
  - by apply Forall_nil.
  - by apply Forall_nil.
  - vm_compute. lia.
Qed.
Lemma plain_exchange :
  exchange (bs "/") (bs "localhost:9001") nonce_key [] [] nonce (λ _, (None, [])) plain_response.
Proof.
  split.
  - apply plain_request_ok.
  - by vm_compute.
  - by vm_compute.
  - intros p. cbn [fst]. discriminate.
  - by split; apply Forall_nil.
  - by vm_compute.
  - by vm_compute.
Qed.

Lemma hello_ok l : 1000 <= max_frame l → 1000 <= max_message l → Forall (deliverable l) hello_messages.
Proof.
  intros Hf Hm. unfold hello_messages, hello_body, deliverable.
  repeat (apply Forall_cons; split); [..|by apply Forall_nil];
    cbn; repeat (split || lia || reflexivity).
Qed.

Lemma called_connected : called = (Ok (connected, None), snd called).
Proof.
  assert (fst called = Ok (connected, None)) as H by (vm_compute; reflexivity).
  rewrite <- H. apply surjective_pairing.
Qed.
Lemma connected_written : Connection.write_all hello_messages connected = (Ok tt, written).
Proof.
  assert (fst (Connection.write_all hello_messages connected) = Ok tt) as H by (vm_compute; reflexivity).
  rewrite <- H. apply surjective_pairing.
Qed.

Lemma echo_round_trip_witness :
  fst (serve 600 10 3 4 callee) = Ok tt ∧
  fst (session 400 5 written)
  = [Ok (Some (Message.Text (bs "hi"))); Ok (Some (Message.Pong (bs "?")));
     Ok (Some (Message.Binary [x00; xff]));
     Ok (Some (Message.Close (Some (mkCloseFrame CloseCode.INTERNAL_ERROR (bs "bye")))));
     Ok None].
Proof.
  assert (fst (serve 600 10 3 4 callee) = Ok tt) as Hserved by (vm_compute; reflexivity).
  split; [exact Hserved|].
  pose proof (echo_round_trip (bs "/") (bs "localhost:9001") nonce_key [] [] nonce plain_response small
    400 1 2 600 10 3 4 hello_body (Some (mkCloseFrame (mkCloseCode 1005) (bs "bye"))) [] 1
    caller (snd called) connected None written callee plain_exchange eq_refl) as H.
  destruct (serve 600 10 3 4 callee) as [r server1] eqn:Hserve. cbn [fst] in Hserved. rewrite Hserved in H.
  assert (outbound (snd (serve 600 10 3 4 callee)) = hello_answer) as Hout by (vm_compute; reflexivity).
  rewrite Hserve in Hout. cbn [snd] in Hout. rewrite Hout in H. apply H.
  - split; [discriminate|reflexivity].
  - left. reflexivity.
  - apply Nat.ltb_lt. vm_compute. reflexivity.
  - apply Nat.ltb_lt. vm_compute. reflexivity.
  - apply Nat.ltb_lt. reflexivity.
  - repeat (apply Forall_cons; split; [reflexivity|]). apply Forall_nil. exact I.
  - apply hello_ok; discriminate.
  - apply hello_ok; discriminate.
  - apply called_connected.
  - apply connected_written.
  - vm_compute. reflexivity.
  - vm_compute. reflexivity.
Defined.
End Witnesses.
