(* ===== verification/Bench.v ===== *)
(** * The benchmarks' own routines ([benches/micro.rs], [benches/echo.rs])

    The benchmarks time this crate against others. What they compute themselves is
    here: the masking of the tungstenite crate, which they carry a copy of and time
    as doing the same job as [mask::apply], the choice of validator, the statistics
    over the samples, and the printing of a rate. Timing, printing and the drivers of
    the other crates are not modelled. *)
From Stdlib Require Import ZArith Lia Strings.Byte Sorting.Sorted.
From stdpp Require Import base option list sorting.
From S2P Require Import Prelude Bytes Mask Utf8.

(** ** Masking by 32-bit words *)
Section Masking.
Context {T : Target}.

(** [fallback] *)
Definition fallback (buf mask : list byte) : list byte :=
  imap (λ index b, bxor b (nth (Z.to_nat (Z.land (Z.of_nat index) 3)) mask x00)) buf.

(** [for word in words.iter_mut() { *word ^= mask_u32 }], the words being the
    native-endian integers in the memory of the buffer. *)
Fixpoint xor_words (mask_u32 : Z) (words : list byte) : list byte :=
  match words with
  | b0 :: b1 :: b2 :: b3 :: rest =>
      to_ne_bytes 4 (Z.lxor (from_ne_bytes [b0; b1; b2; b3]) mask_u32) ++ xor_words mask_u32 rest
  | rest => rest
  end.

(** [buf.align_to_mut::<u32>()] of a buffer at [address]: the lengths in bytes of
    the prefix and of the words. *)
Definition align_to_u32 (address : Z) (buf : list byte) : nat * nat :=
  let prefix := Nat.min (Z.to_nat ((- address) mod 4)) (length buf) in
  (prefix, 4 * ((length buf - prefix) / 4))%nat.

(** [tungstenite_mask] *)
Definition tungstenite_mask (address : Z) (buf : list byte) (mask : Mask) : list byte :=
  let mask_u32 := from_ne_bytes (mask_bytes mask) in
  let '(p, w) := align_to_u32 address buf in
  let '(prefix, words, suffix) := (take p buf, take w (drop p buf), drop w (drop p buf)) in
  let head := Z.land (Z.of_nat (length prefix)) 3 in
  let mask_u32 :=
    if 0 <? head then
      if negb little_endian then rotate_left32 mask_u32 (8 * head)
      else rotate_right32 mask_u32 (8 * head)
    else mask_u32 in
  fallback prefix (mask_bytes mask) ++ xor_words mask_u32 words
  ++ fallback suffix (to_ne_bytes 4 mask_u32).

Lemma fallback_reference key off buf :
  fallback buf (Mask.keystream key off <$> [0; 1; 2; 3]%nat) = Mask.reference buf key off.
Proof.
  unfold fallback. rewrite Mask.reference_keystream. apply imap_ext. intros i x _. f_equal.
  rewrite Mask.land_3. change 4 with (Z.of_nat 4). rewrite <- Nat2Z.inj_mod, Nat2Z.id.
  apply Mask.nth_keystream.
Qed.

Lemma mask_keystream key : mask_bytes key = Mask.keystream key 0 <$> [0; 1; 2; 3]%nat.
Proof. by destruct key as [[[??]?]?]. Qed.

Lemma xor_words_reference key off n words :
  length words = (4 * n)%nat →
  xor_words (Mask.rotated_word key off) words = Mask.reference words key off.
Proof.
  revert words. induction n as [|n IH]; intros words Hl.
  { destruct words; [done|cbn in Hl; lia]. }
  do 4 (destruct words as [|? words]; [cbn in Hl; lia|]). cbn [xor_words].
  rewrite IH by (cbn in Hl; lia).
  rewrite Mask.rotated_word_keystream, <- Mask.from_ne_bytes_xor by done.
  set (pad := Mask.xor_bytes _ _). rewrite (to_from_ne_bytes pad). unfold pad.
  change (?a :: ?b :: ?c :: ?d :: words) with ([a; b; c; d] ++ words).
  rewrite Mask.reference_app. rewrite (Mask.reference_shift words key (off + _) off).
  - done.
  - cbn [length]. by rewrite <- Zplus_mod_idemp_r, Z.add_0_r.
Qed.

(** The rotation of the code, which leaves the word alone for no bytes. *)
Lemma head_word key n :
  (let mask_u32 := from_ne_bytes (mask_bytes key) in
   let head := Z.land (Z.of_nat n) 3 in
   if 0 <? head then
     if negb little_endian then rotate_left32 mask_u32 (8 * head)
     else rotate_right32 mask_u32 (8 * head)
   else mask_u32) = Mask.rotated_word key (Z.of_nat n).
Proof.
  cbn zeta. unfold Mask.rotated_word. rewrite !Mask.land_3.
  pose proof (Z.mod_pos_bound (Z.of_nat n) 4 ltac:(lia)).
  assert (wrap_to 32 (Z.of_nat n mod 4) = Z.of_nat n mod 4) as ->
    by (apply Z.mod_small; lia).
  destruct (0 <? Z.of_nat n mod 4) eqn:Hpos.
  - rewrite Z.mul_comm. by destruct little_endian.
  - apply Z.ltb_ge in Hpos. replace (Z.of_nat n mod 4) with 0 by lia. rewrite Z.mul_0_l.
    pose proof (from_ne_bytes_range (mask_bytes key)) as Hr. rewrite length_mask_bytes in Hr.
    destruct (Mask.rotate_0 _ Hr) as [-> ->]. by destruct little_endian.
Qed.

Lemma align_lengths address buf :
  let '(p, w) := align_to_u32 address buf in
  (p ≤ length buf)%nat ∧ ∃ n, w = (4 * n)%nat ∧ length (take w (drop p buf)) = w.
Proof.
  unfold align_to_u32. set (p := Nat.min _ _). split; [lia|].
  exists ((length buf - p) / 4)%nat. split; [done|].
  pose proof (Nat.Div0.mul_div_le (length buf - p) 4). len_lia.
Qed.

(** The two maskings that are timed against each other do the same job:
    wherever the buffer lies in memory, and on either byte order, the copy of
    tungstenite's masking leaves the bytes that [mask::apply] leaves. *)
Lemma tungstenite_agrees address buf mask :
  tungstenite_mask address buf mask = fst (Mask.apply buf mask 0).
Proof.
  rewrite Mask.apply_fst. unfold tungstenite_mask. pose proof (align_lengths address buf) as H.
  destruct (align_to_u32 address buf) as [p w]. destruct H as (Hp & n & Hw & Hlen).
  rewrite head_word, (xor_words_reference _ _ n) by congruence.
  rewrite mask_keystream, fallback_reference, Mask.rotated_word_keystream.
  set (ks := Mask.keystream mask _ <$> _). rewrite (to_from_ne_bytes ks). unfold ks.
  rewrite fallback_reference.
  pose proof (Mask.reference_app (take p buf) (drop p buf) mask 0) as E.
  rewrite take_drop, Z.add_0_l in E. rewrite E. f_equal.
  pose proof (Mask.reference_app (take w (drop p buf)) (drop w (drop p buf)) mask
    (Z.of_nat (length (take p buf)))) as E'.
  rewrite take_drop, Hlen in E'. rewrite E'. f_equal. apply Mask.reference_shift. subst w.
  by rewrite Nat2Z.inj_mul, Z.mul_comm, Z_mod_plus_full.
Qed.
End Masking.

(** [validate], which the benchmark takes to be what the crate uses. *)
Definition validate `{U : Utf8Impl} (payload : list byte) : bool :=
  if simd_utf8 then simdutf8_basic_from_utf8 payload else from_utf8 payload.

(** ** Samples *)

(** [struct Stats], over durations in nanoseconds *)
Record Stats : Type := mkStats { best : Z; median : Z; worst : Z }.

(** [stats]: the sort is the standard library's. *)
Definition stats (values : list Z) : result Empty_set Stats :=
  let values := merge_sort Z.le values in
  best ← index values 0;
  median ← index values (length values / 2);
  worst ← index values (length values - 1);
  mret (mkStats best median worst).

(** [overlaps] *)
Definition overlaps (a b : Stats) : bool := (best a <=? worst b) && (best b <=? worst a).

Lemma sorted_lookup (l : list Z) i j x y :
  StronglySorted Z.le l → (i ≤ j)%nat → l !! i = Some x → l !! j = Some y → x <= y.
Proof.
  intros Hs. revert i j. induction Hs as [|a l Hs IH Ha]; intros i j Hij Hx Hy; [done|].
  destruct i as [|i]; cbn in Hx.
  - injection Hx as ->. destruct j as [|j]; cbn in Hy; [injection Hy; lia|].
    rewrite Forall_forall in Ha. apply Ha. by eapply list_elem_of_lookup_2.
  - destruct j as [|j]; [lia|]. eapply IH; [|done..]. lia.
Qed.

(** With at least one sample there are statistics; they are samples, the best is
    the least of them and the worst the greatest. *)
Lemma stats_spec values :
  values ≠ [] → ∃ s, stats values = Ok s ∧
    best s ∈ values ∧ median s ∈ values ∧ worst s ∈ values ∧ best s <= median s <= worst s ∧
    ∀ v, v ∈ values → best s <= v <= worst s.
Proof.
  intros Hne. unfold stats. set (l := merge_sort Z.le values).
  assert (l ≡ₚ values) as Hperm by apply merge_sort_Permutation.
  assert (StronglySorted Z.le l) as Hs by (apply StronglySorted_merge_sort; apply _).
  assert (0 < length l)%nat as Hl.
  { rewrite Hperm. destruct values; [done|cbn; lia]. }
  pose proof (Nat.Div0.div_le_upper_bound (length l) 2 (length l) ltac:(lia)).
  pose proof (Nat.div_lt (length l) 2 Hl ltac:(lia)).
  destruct (lookup_lt_is_Some_2 l 0) as [b Hb]; [lia|].
  destruct (lookup_lt_is_Some_2 l (length l / 2)) as [m Hm]; [lia|].
  destruct (lookup_lt_is_Some_2 l (length l - 1)) as [w Hw]; [lia|].
  exists (mkStats b m w). unfold index, expect. rewrite Hb, Hm, Hw. cbn [best median worst].
  rewrite <- !Hperm. split; [done|].
  pose proof (λ i j, sorted_lookup l i j) as Hle.
  split_and!; try (by eapply list_elem_of_lookup_2).
  - apply (Hle 0%nat (length l / 2)%nat); (done || lia).
  - apply (Hle (length l / 2)%nat (length l - 1)%nat); (done || lia).
  - intros v Hv. rewrite <- Hperm in Hv. apply list_elem_of_lookup in Hv as [i Hi].
    pose proof (lookup_lt_Some _ _ _ Hi). split.
    + apply (Hle 0%nat i); (done || lia).
    + apply (Hle i (length l - 1)%nat); (done || lia).
Qed.

Lemma stats_witness :
  [3; 1; 2] ≠ [] ∧ stats [3; 1; 2] = Ok (mkStats 1 2 3) ∧
  overlaps (mkStats 1 2 3) (mkStats 3 4 5) = true.
Proof. split; [done|]. by vm_compute. Defined.

(** ** Printing a rate *)

(** [thousands], of a value already printed with no decimals *)
Definition thousands (whole : list byte) : list byte :=
  concat (imap (λ index digit,
    (if (0 <? index)%nat && ((length whole - index) mod 3 =? 0)%nat then [x2c] else [])
    ++ [digit]) whole).

Lemma filter_separators (sep : nat → bool) l :
  (x2c ∉ l) →
  List.filter (λ b, negb (Byte.eqb b x2c))
    (concat (imap (λ i d, (if sep i then [x2c] else []) ++ [d]) l)) = l.
Proof.
  revert sep. induction l as [|d l IH]; intros sep H; [done|].
  apply not_elem_of_cons in H as [Hd Hl]. cbn [imap concat]. rewrite List.filter_app.
  change (concat (imap _ l)) with (concat (imap (λ i d, (if (sep ∘ S) i then [x2c] else []) ++ [d]) l)).
  rewrite IH by done.
  destruct (Byte.eqb d x2c) eqn:E; [by apply byte_eqb_eq in E|].
  by destruct (sep 0%nat); cbn [app List.filter]; rewrite ?E.
Qed.

(** Separators are all it adds. *)
Lemma thousands_digits whole :
  (x2c ∉ whole) → List.filter (λ b, negb (Byte.eqb b x2c)) (thousands whole) = whole.
Proof. apply filter_separators. Qed.

Example thousands_example : thousands (bs "1234567") = bs "1,234,567".
Proof. reflexivity. Qed.
