(* ===== verification/TestsCodec.v ===== *)
(** * The source's unit tests, of the frames and messages

    The tests that [src/proto/frame.rs], [src/proto/mask.rs] and
    [src/proto/message.rs] carry, transcribed as boolean functions and evaluated on
    the model: the model gives what the authors of the code say the code gives. An
    [assert_eq!] is [≟], a test is all of its assertions, and an [unwrap] is a
    [match] of which the other branches are [false]. That no payload is copied is
    not an observation the model can make, and is left out. *)
From Stdlib Require Import ZArith Strings.Byte.
From stdpp Require Import base option list.
From S2P Require Import Prelude Bytes Opcode Mask Frame Utf8 Message Sample.
Import Sample.

Notation "x ≟ y" := (bool_decide (x = y)) (at level 70, no associativity) : wss_scope.

Definition checks (assertions : list bool) : bool := forallb id assertions.

#[export] Instance Incomplete_eq_dec : EqDecision Incomplete.
Proof. solve_decision. Defined.

Module FrameTests.
Definition NO_LIMIT : Z := 2 ^ 64 - 1.
Definition decode (input : list byte) : result FrameError (Incomplete + Header * nat) :=
  Header.decode input NO_LIMIT.
Definition need_more : result FrameError (Incomplete + Header * nat) := Ok (inl incomplete).

Definition decodes_a_short_unmasked_text_frame : bool :=
  match decode [x81; x05] with
  | Ok (inr (header, used)) =>
      checks [fin header; opcode header ≟ Text; payload_len header ≟ 5; mask header ≟ None; used ≟ 2%nat]
  | _ => false
  end.

Definition decodes_a_masked_frame_and_reports_the_key : bool :=
  let key := (x37, xfa, x21, x3d) in
  match decode ([x81; x85] ++ mask_bytes key) with
  | Ok (inr (header, used)) => checks [mask header ≟ Some key; used ≟ 6%nat]
  | _ => false
  end.

Definition reports_incomplete_without_consuming : bool :=
  checks [
    decode [] ≟ need_more; decode [x81] ≟ need_more; decode [x81; x7e] ≟ need_more;
    decode [x81; x85; x00; x00] ≟ need_more].

Definition rejects_reserved_bits_and_opcodes : bool :=
  checks [
    decode [xc1; x00] ≟ Err ReservedBitSet; decode [x83; x00] ≟ Err (ReservedOpCode 3);
    decode [x8b; x00] ≟ Err (ReservedOpCode 0xB)].

Definition rejects_oversized_and_fragmented_control_frames : bool :=
  checks [decode [x89; x7e] ≟ Err InvalidControlFrame; decode [x09; x00] ≟ Err InvalidControlFrame].

Definition rejects_non_minimal_lengths : bool :=
  checks [
    decode [x81; x7e; x00; x05] ≟ Err InvalidLength;
    decode [x81; x7f; x00; x00; x00; x00; x00; x00; x01; x00] ≟ Err InvalidLength;
    decode [x81; x7f; x80; x00; x00; x00; x00; x00; x00; x00] ≟ Err InvalidLength].

Definition enforces_the_payload_limit_from_the_header_alone : bool :=
  Header.decode [x82; x7e; x03; xe8] 100 ≟ Err TooLarge.

(** Encode into a fresh array, and decode what was written. *)
Definition back_from_the_wire (header : Header)
  : option (nat * result FrameError (Incomplete + Header * nat)) :=
  match Header.encode (E := Empty_set) header (replicate Header.MAX_ENCODED_LEN x00) with
  | (Ok (Some written), buffer) => Some (written, decode (take written buffer))
  | _ => None
  end.

Definition round_trips_every_length_class : bool :=
  forallb (λ '(len, expected),
    let header := mkHeader true Binary None len in
    match back_from_the_wire header with
    | Some (written, Ok (inr (back, used))) =>
        checks [written ≟ expected; written ≟ Header.encoded_len header; back ≟ header; used ≟ written]
    | _ => false
    end) [(5, 2%nat); (200, 4%nat); (70000, 10%nat)].

Definition round_trips_a_masked_header : bool :=
  let header := mkHeader false Continuation (Some (x01, x02, x03, x04)) 300 in
  match back_from_the_wire header with
  | Some (written, Ok (inr (back, used))) => checks [back ≟ header; used ≟ written]
  | _ => false
  end.

Definition encode_refuses_a_short_buffer : bool :=
  let header := mkHeader true Text None 70000 in
  fst (Header.encode (E := Empty_set) header (replicate 4 x00)) ≟ Ok None.

Example frame_tests_pass :
  checks [
    decodes_a_short_unmasked_text_frame; decodes_a_masked_frame_and_reports_the_key;
    reports_incomplete_without_consuming; rejects_reserved_bits_and_opcodes;
    rejects_oversized_and_fragmented_control_frames; rejects_non_minimal_lengths;
    enforces_the_payload_limit_from_the_header_alone; round_trips_every_length_class;
    round_trips_a_masked_header; encode_refuses_a_short_buffer] = true.
Proof. vm_compute. reflexivity. Qed.
End FrameTests.

Module MaskTests.
(** [(i as u8).wrapping_mul(31)] *)
Definition original (len : nat) : list byte := (λ i, z2b (Z.of_nat i * 31)) <$> seq 0 len.
Definition counting (len : nat) : list byte := (λ i, z2b (Z.of_nat i)) <$> seq 0 len.

Definition matches_the_reference_at_every_length_and_offset : bool :=
  let key := (x37, xfa, x21, x3d) in
  forallb (λ len, forallb (λ offset,
    let '(fast, returned) := Mask.apply (original len) key (Z.of_nat offset) in
    let slow := Mask.reference (original len) key (Z.of_nat offset) in
    (fast ≟ slow) && ((len =? 0)%nat || (returned ≟ Z.of_nat (offset + len))))
    (seq 0 8)) (seq 0 40).

Definition split_application_equals_one_pass : bool :=
  let key := (x01, x02, x03, x04) in
  let whole := fst (Mask.apply (counting 37) key 0) in
  let '(head, next) := Mask.apply (take 5 (counting 37)) key 0 in
  let rest := fst (Mask.apply (drop 5 (counting 37)) key next) in
  whole ≟ head ++ rest.

Definition masking_is_its_own_inverse : bool :=
  let key := (xde, xad, xbe, xef) in
  let buffer := fst (Mask.apply (counting 64) key 0) in
  negb (buffer ≟ counting 64) && (fst (Mask.apply buffer key 0) ≟ counting 64).

Example mask_tests_pass :
  checks [
    matches_the_reference_at_every_length_and_offset; split_application_equals_one_pass;
    masking_is_its_own_inverse] = true.
Proof. vm_compute. reflexivity. Qed.
End MaskTests.

Module MessageTests.
Definition assembler : Assembler := Assembler.new Limits_default.

(** The results of the calls of [accept], one frame after another, and the assembler
    they leave. *)
Fixpoint feed (a : Assembler) (frames : list (OpCode * bool * list byte))
  : list (result ProtocolError (option Message)) * Assembler :=
  match frames with
  | [] => ([], a)
  | (opcode, fin, payload) :: frames =>
      let '(r, a) := Assembler.accept opcode fin payload a in
      let '(rs, a) := feed a frames in
      (r :: rs, a)
  end.
Definition results (a : Assembler) (frames : list (OpCode * bool * list byte))
  : list (result ProtocolError (option Message)) := fst (feed a frames).

(** "\u{20ac}", the euro sign *)
Definition euro : list byte := [xe2; x82; xac].

Definition passes_an_unfragmented_text_message_through : bool :=
  results assembler [(Text, true, bs "hello")] ≟ [Ok (Some (Message.Text (bs "hello")))].

Definition reassembles_a_fragmented_message : bool :=
  results assembler
    [(Text, false, bs "he"); (Continuation, false, bs "ll"); (Continuation, true, bs "o")]
  ≟ [Ok None; Ok None; Ok (Some (Message.Text (bs "hello")))].

Definition accepts_utf8_split_across_a_fragment_boundary : bool :=
  results assembler [(Text, false, take 1 euro); (Continuation, true, drop 1 euro)]
  ≟ [Ok None; Ok (Some (Message.Text euro))].

Definition rejects_invalid_utf8_in_text : bool :=
  results assembler [(Text, true, [xff; xfe])] ≟ [Err InvalidUtf8].

Definition allows_arbitrary_bytes_in_binary : bool :=
  results assembler [(Binary, true, [xff; xfe])] ≟ [Ok (Some (Message.Binary [xff; xfe]))].

Definition control_frames_may_interleave_with_fragments : bool :=
  results assembler
    [(Text, false, bs "he"); (Ping, true, bs "x"); (Continuation, true, bs "llo")]
  ≟ [Ok None; Ok (Some (Message.Ping (bs "x"))); Ok (Some (Message.Text (bs "hello")))].

Definition rejects_a_continuation_with_nothing_in_progress : bool :=
  results assembler [(Continuation, true, bs "x")] ≟ [Err UnexpectedContinuation].

Definition rejects_a_data_frame_interleaved_into_a_fragmented_message : bool :=
  results assembler [(Text, false, bs "he"); (Text, true, bs "other")]
  ≟ [Ok None; Err InterleavedDataFrame].

Definition caps_a_message_reassembled_from_many_legal_frames : bool :=
  results (Assembler.new (mkLimits 1024 8))
    [(Binary, false, bs "12345"); (Continuation, true, bs "6789")]
  ≟ [Ok None; Err MessageTooLarge].

Definition parses_close_bodies : bool :=
  let '(messages, a) := feed assembler [(Close, true, [x03; xe8] ++ bs "bye")] in
  checks [
    results assembler [(Close, true, [])] ≟ [Ok (Some (Message.Close None))];
    messages ≟ [Ok (Some (Message.Close (Some (mkCloseFrame CloseCode.NORMAL (bs "bye")))))];
    Assembler.is_closed a].

Definition rejects_malformed_and_illegal_close_bodies : bool :=
  checks [
    results assembler [(Close, true, [x03])] ≟ [Err MalformedCloseFrame];
    results assembler [(Close, true, [x03; xed])] ≟ [Err InvalidCloseCode];
    results assembler [(Close, true, [x03; xe8; xff])] ≟ [Err InvalidUtf8]].

Definition accepts_application_close_codes : bool :=
  results assembler [(Close, true, [x0f; xa0])]
  ≟ [Ok (Some (Message.Close (Some (mkCloseFrame (mkCloseCode 4000) []))))].

Example message_tests_pass :
  checks [
    passes_an_unfragmented_text_message_through; reassembles_a_fragmented_message;
    accepts_utf8_split_across_a_fragment_boundary; rejects_invalid_utf8_in_text;
    allows_arbitrary_bytes_in_binary; control_frames_may_interleave_with_fragments;
    rejects_a_continuation_with_nothing_in_progress;
    rejects_a_data_frame_interleaved_into_a_fragmented_message;
    caps_a_message_reassembled_from_many_legal_frames; parses_close_bodies;
    rejects_malformed_and_illegal_close_bodies; accepts_application_close_codes] = true.
Proof. vm_compute. reflexivity. Qed.
End MessageTests.
