(* ===== verification/TestsHandshake.v ===== *)
(** * The source's unit tests, of the opening handshake and of URLs

    The tests of [src/proto/handshake.rs] and those of [src/client.rs] that need no
    network, as boolean functions evaluated on the model. [String]s are their bytes,
    and "\r\n" is [CRLF]. The second SHA-1 test, which hashes a million bytes twice,
    takes the kernel too long and is left out; the sizes its comment is about, pieces
    that are no multiple of a block, are covered by [Sha1.digest_is_sha1]. *)
From Stdlib Require Import ZArith Strings.Byte.
From stdpp Require Import base option list.
From S2P Require Import Prelude Bytes Opcode Mask Frame Utf8 Message Stream Sha1 Base64 Str Handshake.
From S2P Require Import HandshakeTrip Conn Sample ConnRead ConnWrite Session Upgrade Client TestsCodec.
Import Sample.

#[export] Instance Request_eq_dec : EqDecision Request.t.
Proof. solve_decision. Defined.
#[export] Instance Parsed_eq_dec : EqDecision Parsed.t.
Proof. solve_decision. Defined.

Module HandshakeTests.
(** An expression of the source that cannot fail, where the model has a [result]. *)
Abbreviation total r := (r : result Empty_set _).

(** [str::replace], as the tests use it *)
Fixpoint replace_fuel (fuel : nat) (from to s : str) : str :=
  match fuel with
  | O => s
  | S fuel =>
      match Str.find from s with
      | Some at_ => take at_ s ++ to ++ replace_fuel fuel from to (drop (at_ + length from) s)
      | None => s
      end
  end.
Definition replace (from to s : str) : str := replace_fuel (length s) from to s.

(** [{byte:02x}] *)
Definition hex_digit (n : Z) : byte := nth (Z.to_nat n) (bs "0123456789abcdef") x00.
Definition hex (digest : list byte) : str :=
  concat ((λ b, [hex_digit (b2z b / 16); hex_digit (b2z b mod 16)]) <$> digest).

(** Hash the pieces one after another. *)
Definition hashes_to (pieces : list (list byte)) (expected : str) : bool :=
  (hex <$> total (Sha1.digest pieces)) ≟ Ok expected.

Definition sha1_matches_the_published_vectors : bool :=
  checks [
    hashes_to [[]] (bs "da39a3ee5e6b4b0d3255bfef95601890afd80709");
    hashes_to [bs "abc"] (bs "a9993e364706816aba3e25717850c26c9cd0d89d");
    hashes_to [bs "abcdbcdecdefdefgefghfghighijhijkijkljklmklmnlmnomnopnopq"]
      (bs "84983e441c3bd26ebaae4aa1f95129e5e54670f1")].

Definition base64_matches_known_values : bool :=
  forallb (λ '(input, expected), total (Base64.base64_encode input) ≟ Ok expected)
    [(bs "", bs ""); (bs "f", bs "Zg=="); (bs "fo", bs "Zm8="); (bs "foo", bs "Zm9v");
     (bs "foob", bs "Zm9vYg=="); (bs "fooba", bs "Zm9vYmE="); (bs "foobar", bs "Zm9vYmFy")].

Definition computes_the_accept_value_from_the_rfc : bool :=
  total (accept_for (bs "dGhlIHNhbXBsZSBub25jZQ==")) ≟ Ok (bs "s3pPLMBiTxaQ9kYGzzhZRbK+xOo=").

Definition lines (ls : list str) : str := concat ((λ l, l ++ CRLF) <$> ls).

Definition good_request : str :=
  lines [bs "GET /chat HTTP/1.1"; bs "Host: example.com"; bs "Upgrade: websocket";
    bs "Connection: Upgrade"; bs "Sec-WebSocket-Key: dGhlIHNhbXBsZSBub25jZQ==";
    bs "Sec-WebSocket-Version: 13"; bs ""].

Definition parse (input : str) : result UpgradeError Parsed := parse_request input DEFAULT_MAX_HEAD.
Definition upgrade_of (input : str) : option Request :=
  match parse input with Ok (Parsed.Upgrade request) => Some request | _ => None end.

Definition parses_a_well_formed_upgrade : bool :=
  match upgrade_of good_request with
  | Some request =>
      checks [Request.method request ≟ Get; Request.path request ≟ bs "/chat";
        Request.key request ≟ bs "dGhlIHNhbXBsZSBub25jZQ=="; Request.protocols request ≟ []]
  | None => false
  end.

Definition finds_the_end_of_a_head_and_waits_for_the_rest : bool :=
  checks [
    head_end good_request ≟ Some (length good_request);
    head_end (take 40 good_request) ≟ None;
    head_end (bs "GET / HTTP/1.1" ++ [Str.LF; Str.LF]) ≟ Some 16%nat].

Definition header_names_are_case_insensitive : bool :=
  (Request.path <$> upgrade_of (lines
    [bs "GET / HTTP/1.1"; bs "HOST: example.com"; bs "upgrade: WebSocket"; bs "CoNnEcTiOn: Upgrade";
     bs "sec-websocket-key: dGhlIHNhbXBsZSBub25jZQ=="; bs "SEC-WEBSOCKET-VERSION: 13"; bs ""]))
  ≟ Some (bs "/").

Definition accepts_connection_with_other_tokens_alongside_upgrade : bool :=
  (Request.path <$> upgrade_of
    (replace (bs "Connection: Upgrade") (bs "Connection: keep-alive, Upgrade") good_request))
  ≟ Some (bs "/chat").

Definition collects_offered_subprotocols_in_order : bool :=
  (Request.protocols <$> upgrade_of
    (replace (bs "Sec-WebSocket-Version: 13")
      (bs "Sec-WebSocket-Protocol: mcp, chat" ++ CRLF ++ bs "Sec-WebSocket-Version: 13") good_request))
  ≟ Some [bs "mcp"; bs "chat"].

Definition a_request_that_is_not_an_upgrade_comes_back_whole : bool :=
  forallb (λ '(request, method),
    match parse request with
    | Ok (Parsed.Plain plain) =>
        checks [Request.method plain ≟ method; Request.path plain ≟ bs "/chat"; Request.key plain ≟ []]
    | _ => false
    end)
    [(replace (bs "GET") (bs "POST") good_request, Other (bs "POST"));
     (replace (bs "GET") (bs "OPTIONS") good_request, Options);
     (replace (bs "GET") (bs "HEAD") good_request, Head);
     (replace (bs "Upgrade: websocket" ++ CRLF) [] good_request, Get);
     (replace (bs "Connection: Upgrade" ++ CRLF) [] good_request, Get)].

(** The first header of a name *)
Definition header (request : Request) (name : str) : option str :=
  snd <$> List.find (λ had, Str.eq_ignore_ascii_case (fst had) name) (Request.headers request).

Definition a_preflight_is_distinguishable_from_a_plain_get : bool :=
  match parse (lines
    [bs "OPTIONS /chat HTTP/1.1"; bs "Host: example.com"; bs "Origin: https://app.example.com";
     bs "Access-Control-Request-Method: GET"; bs "Access-Control-Request-Headers: authorization";
     bs ""]) with
  | Ok (Parsed.Plain request) =>
      checks [Request.method request ≟ Options;
        header request (bs "access-control-request-method") ≟ Some (bs "GET");
        header request (bs "access-control-request-headers") ≟ Some (bs "authorization")]
  | _ => false
  end &&
  match parse (lines [bs "GET / HTTP/1.1"; bs "Host: example.com"; bs ""]) with
  | Ok plain =>
      checks [Request.method (Parsed.request plain) ≟ Get; if plain is Parsed.Plain _ then true else false]
  | _ => false
  end.

Definition the_origin_survives_a_parse : bool :=
  match upgrade_of (replace (bs "Host: example.com")
    (bs "Host: example.com" ++ CRLF ++ bs "Origin: https://app.example.com" ++ CRLF
      ++ bs "Cookie: session=abc") good_request) with
  | Some parsed =>
      checks [header parsed (bs "origin") ≟ Some (bs "https://app.example.com");
        header parsed (bs "ORIGIN") ≟ Some (bs "https://app.example.com");
        header parsed (bs "cookie") ≟ Some (bs "session=abc");
        header parsed (bs "sec-websocket-version") ≟ Some (bs "13");
        header parsed (bs "x-absent") ≟ None]
  | None => false
  end.

(** [repeat], and the request without its blank line, [pop]ped twice *)
Definition repeated (n : nat) (s : str) : str := concat (replicate n s).

Definition refuses_a_head_with_too_many_headers : bool :=
  let request := take (length good_request - 2) good_request
    ++ repeated MAX_HEADERS (bs "a: b" ++ CRLF) ++ CRLF in
  checks [Z.of_nat (length request) <? DEFAULT_MAX_HEAD; parse request ≟ Err HeadTooLarge].

Definition rejects_upgrades_that_got_the_handshake_wrong : bool :=
  forallb (λ '(request, expected), parse request ≟ Err expected)
    [(replace (bs "Version: 13") (bs "Version: 8") good_request, WrongVersion);
     (replace (bs "Sec-WebSocket-Key: dGhlIHNhbXBsZSBub25jZQ==" ++ CRLF) [] good_request, BadKey);
     (replace (bs "dGhlIHNhbXBsZSBub25jZQ==") (bs "c2hvcnQ=") good_request, BadKey)].

Definition refuses_an_oversized_head : bool :=
  parse (good_request ++ repeated 4096 (bs "X-Padding: x" ++ CRLF)) ≟ Err HeadTooLarge.

Example parse_tests_pass :
  checks [
    sha1_matches_the_published_vectors; base64_matches_known_values;
    computes_the_accept_value_from_the_rfc; parses_a_well_formed_upgrade;
    finds_the_end_of_a_head_and_waits_for_the_rest; header_names_are_case_insensitive;
    accepts_connection_with_other_tokens_alongside_upgrade; collects_offered_subprotocols_in_order;
    a_request_that_is_not_an_upgrade_comes_back_whole;
    a_preflight_is_distinguishable_from_a_plain_get; the_origin_survives_a_parse;
    refuses_a_head_with_too_many_headers; rejects_upgrades_that_got_the_handshake_wrong;
    refuses_an_oversized_head] = true.
Proof. vm_compute. reflexivity. Qed.
(** [new_key([n; 16])] *)
Definition key_of (b : byte) : str :=
  match total (new_key (replicate 16 b)) with Ok key => key | _ => [] end.

Definition a_response_completes_the_handshake_the_client_started : bool :=
  let key := key_of x07 in
  let request := build_request (bs "/chat") (bs "example.com") key [bs "mcp"] [] in
  match upgrade_of request with
  | Some parsed =>
      checks [Request.path parsed ≟ bs "/chat"; Request.protocols parsed ≟ [bs "mcp"];
        match total (build_response (Request.key parsed) (Some (bs "mcp")) []) with
        | Ok response => check_response response key ≟ Ok (Some (bs "mcp"))
        | _ => false
        end]
  | None => false
  end.

Definition an_empty_extra_slice_changes_nothing : bool :=
  let key := key_of x05 in
  match total (accept_for key) with
  | Ok accept =>
      checks [
        total (build_response key (Some (bs "mcp")) []) ≟ Ok (lines
          [bs "HTTP/1.1 101 Switching Protocols"; bs "Upgrade: websocket"; bs "Connection: Upgrade";
           bs "Sec-WebSocket-Accept: " ++ accept; bs "Sec-WebSocket-Protocol: mcp"; bs ""]);
        build_rejection Malformed [] ≟ lines
          [bs "HTTP/1.1 400 Bad Request"; bs "Connection: close"; bs "Content-Length: 0"; bs ""]]
  | _ => false
  end.

Definition extra_headers_reach_a_101 : bool :=
  let key := key_of x06 in
  match total (build_response key None
    [(bs "Server", bs "endpoint-libs");
     (bs "Access-Control-Allow-Origin", bs "https://app.example.com")]) with
  | Ok response =>
      checks [from_utf8 response;
        Str.contains (CRLF ++ bs "Server: endpoint-libs" ++ CRLF) response;
        Str.contains (CRLF ++ bs "Access-Control-Allow-Origin: https://app.example.com" ++ CRLF) response;
        Str.ends_with (bs "https://app.example.com" ++ CRLF ++ CRLF) response;
        check_response response key ≟ Ok None]
  | _ => false
  end.

Definition extra_headers_reach_a_rejection : bool :=
  let refusal := build_rejection WrongVersion
    [(bs "Cache-Control", bs "no-store"); (bs "Server", bs "endpoint-libs")] in
  checks [from_utf8 refusal;
    Str.starts_with (bs "HTTP/1.1 426") refusal;
    Str.contains (bs "Sec-WebSocket-Version: 13" ++ CRLF) refusal;
    Str.contains (bs "Content-Length: 0" ++ CRLF) refusal;
    Str.contains (CRLF ++ bs "Cache-Control: no-store" ++ CRLF) refusal;
    Str.ends_with (bs "Server: endpoint-libs" ++ CRLF ++ CRLF) refusal].

Definition a_client_rejects_a_response_with_the_wrong_accept : bool :=
  match total (build_response (key_of x02) None []) with
  | Ok response => check_response response (key_of x01) ≟ Err BadKey
  | _ => false
  end.

Definition a_client_rejects_a_non_101_response : bool :=
  check_response (lines [bs "HTTP/1.1 200 OK"; bs "Content-Length: 0"; bs ""]) (key_of x03)
  ≟ Err NotAnUpgrade.

Definition rejections_name_a_status_a_client_can_act_on : bool :=
  checks [
    Str.starts_with (bs "HTTP/1.1 426") (build_rejection WrongVersion []);
    Str.contains (bs "Sec-WebSocket-Version: 13") (build_rejection WrongVersion []);
    Str.starts_with (bs "HTTP/1.1 400") (build_rejection NotGet [])].

Definition validates_key_shape : bool :=
  checks [
    is_valid_key (bs "dGhlIHNhbXBsZSBub25jZQ==");
    negb (is_valid_key (bs "tooshort=="));
    negb (is_valid_key (bs "dGhlIHNhbXBsZSBub25jZQ="));
    negb (is_valid_key (bs "!!!!!!!!!!!!!!!!!!!!!!=="))].

Example response_tests_pass :
  checks [
    a_response_completes_the_handshake_the_client_started; an_empty_extra_slice_changes_nothing;
    extra_headers_reach_a_101; extra_headers_reach_a_rejection;
    a_client_rejects_a_response_with_the_wrong_accept; a_client_rejects_a_non_101_response;
    rejections_name_a_status_a_client_can_act_on; validates_key_shape] = true.
Proof. vm_compute. reflexivity. Qed.
End HandshakeTests.

Module UrlTests.
(** A property of [Url::parse(input).unwrap()] *)
Definition parsed (input : str) (test : Url.t → bool) : bool :=
  match Url.parse input with Ok url => test url | _ => false end.
Definition is_err (input : str) : bool := match Url.parse input with Err _ => true | _ => false end.

Definition parses_the_shapes_a_caller_actually_writes : bool :=
  checks [
    parsed (bs "ws://example.com/chat") (λ plain,
      checks [negb (Url.secure plain); Url.host plain ≟ bs "example.com"; Url.port plain ≟ 80;
        Url.path plain ≟ bs "/chat"]);
    parsed (bs "wss://example.com/chat") (λ secure,
      Url.secure secure && (Url.port secure ≟ 443));
    parsed (bs "ws://example.com") (λ url, Url.path url ≟ bs "/");
    parsed (bs "ws://example.com:8080/") (λ url, Url.port url ≟ 8080);
    parsed (bs "ws://example.com/chat?room=1") (λ url, Url.path url ≟ bs "/chat?room=1")].

Definition an_ipv6_literal_is_not_mistaken_for_a_port : bool :=
  checks [
    parsed (bs "ws://[::1]:9000/chat") (λ url, (Url.host url ≟ bs "::1") && (Url.port url ≟ 9000));
    parsed (bs "ws://[::1]/chat") (λ bare, (Url.host bare ≟ bs "::1") && (Url.port bare ≟ 80))].

Definition refuses_urls_it_would_have_to_guess_at : bool :=
  forallb is_err
    [bs "example.com/chat"; bs "http://example.com/chat"; bs "ws:///chat";
     bs "ws://example.com:noport/"; bs "ws://user:pass@example.com/"].

Definition the_host_header_omits_a_default_port : bool :=
  checks [
    parsed (bs "ws://example.com/") (λ url, Url.host_header url ≟ bs "example.com");
    parsed (bs "wss://example.com/") (λ url, Url.host_header url ≟ bs "example.com");
    parsed (bs "ws://example.com:8080/") (λ url, Url.host_header url ≟ bs "example.com:8080")].

Example url_tests_pass :
  checks [
    parses_the_shapes_a_caller_actually_writes; an_ipv6_literal_is_not_mistaken_for_a_port;
    refuses_urls_it_would_have_to_guess_at; the_host_header_omits_a_default_port] = true.
Proof. vm_compute. reflexivity. Qed.
End UrlTests.
