(* ===== verification/TestsWire.v ===== *)
(** * The source's unit tests, of whole connections

    The tests of [src/conn.rs] and [src/upgrade.rs], which run a server and a client
    over TCP, with a pair of in-memory streams for the sockets: what one side has
    written when one of its calls returns arrives at the other side as one segment.
    The tests themselves are transcribed as programs in a monad over the two
    connections; threads that wait for each other become the order of the calls. The test of a
    message of 300 KiB is not evaluated but proved, with any size for its own. *)
From Stdlib Require Import ZArith Strings.Byte.
From stdpp Require Import base option list.
From S2P Require Import Prelude Bytes Opcode Mask Frame Utf8 Message Stream Sha1 Base64 Str Handshake.
From S2P Require Import HandshakeTrip Conn Sample ConnRead ConnWrite Session Upgrade Client TestsCodec.
From S2P Require Import TestsHandshake.
Import Sample.

Module WireTests.
Abbreviation Conn := (Connection Pipe.t).

(** ** Two endpoints *)
Record Peers : Type := mkPeers { server : Conn; client : Conn }.

Definition fresh (r : Role) : Conn := Connection.new 1700000000 0x7ffc0010 (pipe []) r Limits_default.
Definition connected : Peers := mkPeers (fresh Server) (fresh Client).

Definition arriving (seg : list byte) (c : Conn) : Conn :=
  let p := stream c in
  set_stream (Pipe.mkPipe (Pipe.segments p ++ [seg]) (Pipe.at_end p) (Pipe.written p) (Pipe.budget p)) c.
Definition flushed (c : Conn) : Conn :=
  let p := stream c in
  set_stream (Pipe.mkPipe (Pipe.segments p) (Pipe.at_end p) [] (Pipe.budget p)) c.

(** A call of one side, and the delivery of what it wrote *)
Definition on {X} (r : Role) (call : stM Conn Error X) : stM Peers Error X := λ ps,
  match r with
  | Server =>
      let '(x, c) := call (server ps) in
      (x, mkPeers (flushed c) (arriving (Pipe.written (stream c)) (client ps)))
  | Client =>
      let '(x, c) := call (client ps) in
      (x, mkPeers (arriving (Pipe.written (stream c)) (server ps)) (flushed c))
  end.

(** A [read] that has to give what is expected *)
Definition reads_ok (r : Role) (expected : option Message) : stM Peers Error bool :=
  message ← on r (Connection.read 100); mret (message ≟ expected).

Definition passes (ps : Peers) (test : stM Peers Error bool) : bool :=
  match fst (test ps) with Ok b => b | _ => false end.

(** ** [src/conn.rs] *)
Definition batch : list Message :=
  [Message.Text (bs "one"); Message.Binary [xff; x00]; Message.Text (bs "three"); Message.Ping (bs "p")].

Fixpoint all_read (r : Role) (expected : list Message) : stM Peers Error bool :=
  match expected with
  | [] => mret true
  | message :: expected =>
      this ← reads_ok r (Some message);
      others ← all_read r expected;
      mret (this && others)
  end.

Definition write_all_delivers_everything_and_keeps_nothing : bool :=
  passes connected (
    on Client (Connection.write_all batch);;
    ps ← st_get;
    seen ← all_read Server batch;
    mret (checks [vec_data (outgoing (client ps)) ≟ []; seen])).

Definition coalesced_frames_are_masked_per_frame : bool :=
  let sent := (λ i, Message.Binary (replicate (40 + i) (z2b (Z.of_nat i)))) <$> seq 0 8 in
  passes connected (on Client (Connection.write_all sent);; all_read Server sent).

Definition every_failure_reports_the_code_the_rfc_gives_it : bool :=
  forallb (λ '(error, expected), error_close_code error ≟ expected)
    [(Frame ReservedBitSet, Some CloseCode.PROTOCOL);
     (Frame (ReservedOpCode 0x3), Some CloseCode.PROTOCOL);
     (Frame InvalidControlFrame, Some CloseCode.PROTOCOL);
     (Frame InvalidLength, Some CloseCode.PROTOCOL);
     (Frame TooLarge, Some CloseCode.TOO_LARGE);
     (MaskingViolation, Some CloseCode.PROTOCOL);
     (Protocol UnexpectedContinuation, Some CloseCode.PROTOCOL);
     (Protocol InterleavedDataFrame, Some CloseCode.PROTOCOL);
     (Protocol MalformedCloseFrame, Some CloseCode.PROTOCOL);
     (Protocol InvalidCloseCode, Some CloseCode.PROTOCOL);
     (Protocol InvalidUtf8, Some CloseCode.INVALID_PAYLOAD);
     (Protocol MessageTooLarge, Some CloseCode.TOO_LARGE);
     (UnexpectedEof, None);
     (Conn.Url (bs "bad scheme"), None)].

Definition a_reported_close_code_may_actually_be_sent : bool :=
  forallb CloseCode.is_sendable [CloseCode.PROTOCOL; CloseCode.INVALID_PAYLOAD; CloseCode.TOO_LARGE].

Definition a_text_message_survives_the_round_trip : bool :=
  let hello := Message.Text (bs "hello") in
  passes connected (
    on Client (Connection.write hello);;
    there ← reads_ok Server (Some hello);
    on Server (Connection.write hello);;
    back ← reads_ok Client (Some hello);
    mret (there && back)).

Definition several_messages_pipelined_into_one_read_all_arrive : bool :=
  let texts := Message.Text <$> [bs "one"; bs "two"; bs "three"] in
  passes connected (
    on Client (write_each texts);;
    all_read Server texts).

Definition a_ping_is_answered_with_the_same_payload : bool :=
  passes connected (
    on Client (Connection.write (Message.Ping (bs "probe")));;
    message ← on Server (Connection.read 100);
    match message with
    | Some (Message.Ping payload) =>
        on Server (Connection.pong payload);;
        reads_ok Client (Some (Message.Pong (bs "probe")))
    | _ => mret false
    end).

Definition a_close_handshake_ends_the_stream_cleanly : bool :=
  let done := Some (mkCloseFrame CloseCode.NORMAL (bs "done")) in
  passes connected (
    on Client (Connection.close done);;
    closing ← reads_ok Server (Some (Message.Close done));
    on Server (Connection.close None);;
    ended ← reads_ok Server None;
    mret (closing && ended)).

Definition a_server_rejects_an_unmasked_client_frame : bool :=
  match fst (Connection.read 100 (arriving [x81; x02; x68; x69] (fresh Server))) with
  | Err MaskingViolation => true
  | _ => false
  end.

(** The bytes a client puts on the wire *)
Definition wire_of (messages : list Message) : list byte :=
  outbound (stream (snd (write_each messages (fresh Client)))).

Definition a_client_masks_every_frame_it_sends : bool :=
  match wire_of [Message.Text (bs "secret")] with
  | b0 :: b1 :: frame =>
      checks [b0 ≟ x81; Z.land (b2z b1) 0x80 =? 0x80; Z.land (b2z b1) 0x7F =? 6;
        negb (Str.contains (bs "secret") (drop 4 frame))]
  | _ => false
  end.

(** Four frames of two bytes of header, four of key and one of payload *)
Definition successive_frames_use_different_masking_keys : bool :=
  let buffer := wire_of (replicate 4 (Message.Text (bs "x"))) in
  let keys := (λ i, take 4 (drop (i * 7 + 2) buffer)) <$> seq 0 4 in
  existsb (λ pair, negb (fst pair ≟ snd pair)) (zip keys (drop 1 keys)).

Example conn_tests_pass :
  checks [
    write_all_delivers_everything_and_keeps_nothing; coalesced_frames_are_masked_per_frame;
    every_failure_reports_the_code_the_rfc_gives_it; a_reported_close_code_may_actually_be_sent;
    a_text_message_survives_the_round_trip; several_messages_pipelined_into_one_read_all_arrive;
    a_ping_is_answered_with_the_same_payload; a_close_handshake_ends_the_stream_cleanly;
    a_server_rejects_an_unmasked_client_frame; a_client_masks_every_frame_it_sends;
    successive_frames_use_different_masking_keys] = true.
Proof. vm_compute. reflexivity. Qed.

(** ** [src/upgrade.rs] *)

(** [accept] on a stream on which the client has sent [sent], with no extra headers on
    a refusal but these *)
Definition accepted (error_headers : list (str * str)) (select : Request → option str * list (str * str))
    (sent : list byte) : result Error (UpgradeOutcome Pipe.t) * Pipe.t :=
  accept 100 1700000000 0x7ffc0010 Limits_default error_headers select (pipe [sent]).
(** [|_| (None, Vec::new())] *)
Definition no_choice (request : Request) : option str * list (str * str) := (None, []).

(** Both handshakes, each on what the other side wrote, and the two connections *)
Definition upgraded_peers (path host : str) (protocols : list str) (entropy : list byte)
  : option (Peers * option str * Request) :=
  let request :=
    outbound (snd (connect 100 0 0 path host protocols [] entropy Limits_default (pipe []))) in
  match accepted [] (λ request, (head (Request.protocols request), [])) request with
  | (Ok (Upgraded server parsed), _) =>
      match connect 100 1700000001 0x7ffc0020 path host protocols [] entropy Limits_default
              (pipe [outbound (stream server)]) with
      | (Ok (client, protocol), _) => Some (mkPeers (flushed server) (flushed client), protocol, parsed)
      | _ => None
      end
  | _ => None
  end.

Definition a_full_handshake_then_messages : bool :=
  let hello := Message.Text (bs "hello") in
  match upgraded_peers (bs "/chat") (bs "localhost") [bs "mcp"] (replicate 16 x09) with
  | Some (ps, protocol, request) =>
      checks [protocol ≟ Some (bs "mcp"); Request.path request ≟ bs "/chat";
        passes ps (
          on Client (Connection.write hello);;
          there ← reads_ok Server (Some hello);
          on Server (Connection.write hello);;
          back ← reads_ok Client (Some hello);
          mret (there && back))]
  | None => false
  end.

(** What the peer of a plain request gets when the caller answers it itself *)
Definition answered_with (answer : list byte) (s : Pipe.t) : list byte :=
  outbound (snd (stream_write_all answer s)).

Definition a_non_upgrade_request_is_handed_back_for_the_caller_to_answer : bool :=
  match fst (accepted [] no_choice (HandshakeTests.lines
    [bs "GET /health HTTP/1.1"; bs "Host: localhost"; bs "Origin: https://app.example.com"; bs ""])) with
  | Ok (Plain s request _) =>
      match HandshakeTests.header request (bs "origin") with
      | Some origin =>
          let response := answered_with (HandshakeTests.lines
            [bs "HTTP/1.1 200 OK"; bs "Access-Control-Allow-Origin: " ++ origin;
             bs "Cache-Control: no-store"; bs "Content-Length: 0"; bs "Connection: close"; bs ""]) s in
          checks [Request.method request ≟ Get; Request.path request ≟ bs "/health";
            origin ≟ bs "https://app.example.com";
            Str.starts_with (bs "HTTP/1.1 200") response;
            Str.contains (bs "Access-Control-Allow-Origin: https://app.example.com") response]
      | None => false
      end
  | _ => false
  end.

Definition a_preflight_is_handed_back_with_its_cors_headers : bool :=
  match fst (accepted [] no_choice (HandshakeTests.lines
    [bs "OPTIONS /chat HTTP/1.1"; bs "Host: localhost"; bs "Origin: https://app.example.com";
     bs "Access-Control-Request-Method: GET"; bs ""])) with
  | Ok (Plain s request _) =>
      let response := answered_with (HandshakeTests.lines
        [bs "HTTP/1.1 204 No Content"; bs "Access-Control-Allow-Origin: https://app.example.com";
         bs "Access-Control-Allow-Methods: GET, OPTIONS"; bs "Content-Length: 0";
         bs "Connection: close"; bs ""]) s in
      checks [Request.method request ≟ Options;
        existsb (λ '(name, value),
          Str.eq_ignore_ascii_case name (bs "access-control-request-method") && (value ≟ bs "GET"))
          (Request.headers request);
        Str.starts_with (bs "HTTP/1.1 204") response]
  | _ => false
  end.

Definition a_malformed_head_still_gets_the_refusal_with_the_caller_s_headers : bool :=
  match accepted [(bs "Cache-Control", bs "no-store"); (bs "Server", bs "nago-wss")] no_choice
    (HandshakeTests.lines
      [bs "GET /chat HTTP/1.1"; bs "Host: localhost"; bs "Upgrade: websocket"; bs "Connection: Upgrade";
       bs "Sec-WebSocket-Key: dGhlIHNhbXBsZSBub25jZQ=="; bs "Sec-WebSocket-Version: 8"; bs ""]) with
  | (Err (Conn.Upgrade WrongVersion), s) =>
      checks [Str.starts_with (bs "HTTP/1.1 426") (outbound s);
        Str.contains (bs "Cache-Control: no-store") (outbound s);
        Str.contains (bs "Server: nago-wss") (outbound s)]
  | _ => false
  end.

Definition frames_arriving_with_the_handshake_are_not_lost : bool :=
  let request := build_request (bs "/") (bs "localhost") (HandshakeTests.key_of x04) [] [] in
  match fst (accepted [] no_choice (request ++ [x81; x82; x00; x00; x00; x00; x68; x69])) with
  | Ok (Upgraded conn _) =>
      match fst (Connection.read 100 conn) with
      | Ok message => message ≟ Some (Message.Text (bs "hi"))
      | _ => false
      end
  | _ => false
  end.

Example upgrade_tests_pass :
  checks [
    a_full_handshake_then_messages;
    a_non_upgrade_request_is_handed_back_for_the_caller_to_answer;
    a_preflight_is_handed_back_with_its_cors_headers;
    a_malformed_head_still_gets_the_refusal_with_the_caller_s_headers;
    frames_arriving_with_the_handshake_are_not_lost] = true.
Proof. vm_compute. reflexivity. Qed.

(** ** [src/client.rs] *)

(** A network on which every name leads to this socket *)
Definition only_host (socket : Pipe.t) : Network Pipe.t := {|
  Addr := unit;
  resolve host port := Ok [tt];
  connect_any addrs := Ok socket;
  EAI_NONAME := 8;
|}.

(** The TLS session is a parameter, here one that lets the bytes through; the port is
    the one the test would be given. *)
Definition a_wss_url_reaches_a_tls_websocket_server : bool :=
  let over_tls := Message.Text (bs "over tls") in
  match Url.parse (bs "wss://localhost:9001/chat") with
  | Ok url =>
      let options := mkClientOptions [bs "mcp"] [] (replicate 16 x0b) Limits_default in
      let request := build_request (Url.path url) (Url.host_header url) (HandshakeTests.key_of x0b)
        (protocols options) (headers options) in
      match accepted [] (λ request, (head (Request.protocols request), [])) request with
      | (Ok (Upgraded server parsed), _) =>
          match connect_secure (Network0 := only_host (pipe [outbound (stream server)]))
                  (TlsClient0 := clear_tls) 100 1700000001 0x7ffc0020 url options (Some tt) with
          | Ok reached =>
              let client := connection reached in
              checks [Request.path parsed ≟ bs "/chat"; protocol reached ≟ Some (bs "mcp");
                outbound (stream client) ≟ request;
                passes (mkPeers (flushed server) (flushed client)) (
                  on Client (Connection.write over_tls);;
                  there ← reads_ok Server (Some over_tls);
                  on Server (Connection.write over_tls);;
                  back ← reads_ok Client (Some over_tls);
                  mret (there && back))]
          | _ => false
          end
      | _ => false
      end
  | _ => false
  end.

Example tls_test_passes : a_wss_url_reaches_a_tls_websocket_server = true.
Proof. vm_compute. reflexivity. Qed.
(** ** A message of 300 KiB

    This one is not evaluated, but proved, for a message of any size within the limits. *)
Definition a_large_binary_message_survives_the_round_trip (size fuel : nat) : bool :=
  passes connected (
    on Client (Connection.write (Message.Binary (replicate size x5a)));;
    message ← on Server (Connection.read fuel);
    mret match message with
         | Some (Message.Binary payload) =>
             (length payload =? size)%nat && forallb (λ byte, bool_decide (byte = x5a)) payload
         | _ => false
         end).

Lemma large_message_survives size fuel :
  Z.of_nat size <= max_frame Limits_default → Z.of_nat size <= max_message Limits_default →
  (size + 14 < fuel)%nat →
  a_large_binary_message_survives_the_round_trip size fuel = true.
Proof.
  intros Hframe Hmessage Hfuel. set (m := Message.Binary (replicate size x5a)).
  assert (∀ st, length (message_bytes Client st m) ≤ size + 14)%nat as Hlen.
  { intros st. unfold message_bytes, m, frame_bytes. cbn [message_frame].
    rewrite length_app, Header.length_wire, length_unmask, length_replicate.
    set (h := mkHeader _ _ _ _). pose proof (Header.encoded_len_bounds h) as Hb.
    unfold Header.MAX_ENCODED_LEN in Hb. lia. }
  unfold a_large_binary_message_survives_the_round_trip, passes. fold m.
  unfold mbind, stM_bind, on at 1.
  pose proof (write_succeeds m (client connected) (λ _ _, eq_refl)) as Hok.
  destruct (write_run m (client connected)) as (r & c1 & Hrun & [_ Hout] & _).
  rewrite Hrun in *. destruct r as [[]| | |]; try discriminate Hok. cbn [map_err] in *.
  unfold on. cbn [server client connected].
  set (st := mask_state (client connected)) in *.
  change (outbound (stream c1) = message_bytes Client st m) in Hout.
  set (s1 := arriving (Pipe.written (stream c1)) (fresh Server)).
  assert (unread s1 = message_bytes Client st m) as Hun.
  { rewrite <- Hout. unfold unread, s1. cbn. by rewrite app_nil_r. }
  assert (ready fuel s1) as Hready.
  { split_and!; [by split|by left|]. change (inbound (stream s1)) with (unread s1). rewrite Hun.
    specialize (Hlen st). lia. }
  pose proof (session_reads fuel Client st [m] [] s1 Hready eq_refl) as H.
  cbn [messages_bytes] in H. rewrite !app_nil_r in H. specialize (H Hun eq_refl eq_refl).
  cbn [length session] in H. destruct (Connection.read fuel s1) as [res s2].
  destruct H as [[= ->] _]; [|done|].
  - apply Forall_singleton. unfold deliverable, m. cbn [message_frame]. rewrite length_replicate.
    change (limits (assembler s1)) with Limits_default. split_and!; [|done|done].
    cbn [max_frame Limits_default] in Hframe. lia.
  - cbn. rewrite length_replicate, Nat.eqb_refl. apply forallb_forall.
    intros b Hb%list_elem_of_In%elem_of_replicate_inv. by rewrite bool_decide_true.
Qed.

Example large_message_test_passes :
  a_large_binary_message_survives_the_round_trip (300 * 1024) (301 * 1024) = true.
Proof. apply large_message_survives; cbn [max_frame max_message Limits_default]; lia. Qed.
End WireTests.
